(** * Memory-hierarchy synthesis of the CUDA backend (cuda.c)

    A shallow embedding of the tiling primitives, the bound solver, the
    reference-group builder and the private-memory promotion pass of
    [cuda.c], together with the properties the specification states
    about them.

    The integer-relation library (isl) is external to the repository.
    Constraints and basic maps that [cuda.c] builds coefficient by
    coefficient are modelled concretely (module [Isl]); the set-algebraic
    queries it only calls (hulls, emptiness, injectivity, LP, ...) are
    parameters of the functions that call them. *)

From stdpp Require Import base option list strings pretty.
From Stdlib Require Import ZArith Lia Bool.

Open Scope Z_scope.

(** ** Constraints and basic maps, as built through the isl C interface *)
Module Isl.

Inductive isl_dim_type := isl_dim_param | isl_dim_in | isl_dim_out | isl_dim_div.

(** For a set, isl names the one tuple [isl_dim_set]; it is the same
    value of the enumeration as [isl_dim_out]. *)
Abbreviation isl_dim_set := isl_dim_out (only parsing).

(** [isl_dim]: the number of parameters, input and output dimensions. *)
Record isl_dim := mk_dim { n_param : nat; n_in : nat; n_out : nat }.

Definition isl_dim_add (d : isl_dim) (t : isl_dim_type) (n : nat) : isl_dim :=
  match t with
  | isl_dim_param => mk_dim (n_param d + n) (n_in d) (n_out d)
  | isl_dim_in => mk_dim (n_param d) (n_in d + n) (n_out d)
  | isl_dim_out => mk_dim (n_param d) (n_in d) (n_out d + n)
  | isl_dim_div => d
  end.

(** An affine constraint [const + param.p + in.x + out.y + div.e (= | >=) 0]. *)
Record isl_constraint := mk_constraint {
  c_eq : bool;
  c_const : Z;
  c_param : list Z;
  c_in : list Z;
  c_out : list Z;
  c_div : list Z }.

Definition zeros (n : nat) : list Z := replicate n 0.

Definition isl_equality_alloc (d : isl_dim) : isl_constraint :=
  mk_constraint true 0 (zeros (n_param d)) (zeros (n_in d)) (zeros (n_out d)) [].

Definition isl_inequality_alloc (d : isl_dim) : isl_constraint :=
  mk_constraint false 0 (zeros (n_param d)) (zeros (n_in d)) (zeros (n_out d)) [].

(** Writing a coefficient at a position the constraint does not have is an
    isl error: the constraint is lost ([None]). *)
Definition set_at (l : list Z) (pos : nat) (v : Z) : option (list Z) :=
  if decide (pos < length l)%nat then Some (<[pos := v]> l) else None.

Definition isl_constraint_set_coefficient (c : isl_constraint)
    (t : isl_dim_type) (pos : nat) (v : Z) : option isl_constraint :=
  match t with
  | isl_dim_param => l ← set_at (c_param c) pos v;
      Some (mk_constraint (c_eq c) (c_const c) l (c_in c) (c_out c) (c_div c))
  | isl_dim_in => l ← set_at (c_in c) pos v;
      Some (mk_constraint (c_eq c) (c_const c) (c_param c) l (c_out c) (c_div c))
  | isl_dim_out => l ← set_at (c_out c) pos v;
      Some (mk_constraint (c_eq c) (c_const c) (c_param c) (c_in c) l (c_div c))
  | isl_dim_div => l ← set_at (c_div c) pos v;
      Some (mk_constraint (c_eq c) (c_const c) (c_param c) (c_in c) (c_out c) l)
  end.

Definition isl_constraint_set_constant (c : isl_constraint) (v : Z) : isl_constraint :=
  mk_constraint (c_eq c) v (c_param c) (c_in c) (c_out c) (c_div c).

Definition isl_constraint_get_coefficient (c : isl_constraint)
    (t : isl_dim_type) (pos : nat) : Z :=
  default 0 (match t with
             | isl_dim_param => c_param c !! pos
             | isl_dim_in => c_in c !! pos
             | isl_dim_out => c_out c !! pos
             | isl_dim_div => c_div c !! pos
             end).

(** A basic map: a conjunction of constraints over parameters, input and
    output dimensions and [bm_n_div] existentially quantified integers. *)
Record isl_basic_map := mk_bmap {
  bm_dim : isl_dim;
  bm_n_div : nat;
  bm_cons : list isl_constraint }.

Definition isl_basic_map_universe (d : isl_dim) : isl_basic_map := mk_bmap d 0%nat [].

Definition isl_basic_map_add_constraint (b : isl_basic_map) (c : isl_constraint)
    : isl_basic_map :=
  mk_bmap (bm_dim b) (bm_n_div b) (bm_cons b ++ [c]).

(** [isl_basic_map_project_out (.., isl_dim_out, first, n)]: the [n] output
    dimensions from [first] become existentially quantified.  isl may go on
    to eliminate them; the relation is the same. *)
Definition project_out_constraint (first n : nat) (c : isl_constraint) : isl_constraint :=
  mk_constraint (c_eq c) (c_const c) (c_param c) (c_in c)
    (take first (c_out c) ++ drop (first + n) (c_out c))
    (c_div c ++ take n (drop first (c_out c))).

Definition isl_basic_map_project_out (b : isl_basic_map) (first n : nat) : isl_basic_map :=
  mk_bmap (mk_dim (n_param (bm_dim b)) (n_in (bm_dim b)) (n_out (bm_dim b) - n))
          (bm_n_div b + n)
          (map (project_out_constraint first n) (bm_cons b)).

(** *** Meaning of constraints *)

Fixpoint dot (c x : list Z) : Z :=
  match c, x with
  | a :: c', b :: x' => a * b + dot c' x'
  | _, _ => 0
  end.

Definition eval (c : isl_constraint) (p x y e : list Z) : Z :=
  c_const c + dot (c_param c) p + dot (c_in c) x + dot (c_out c) y + dot (c_div c) e.

Definition sat (p x y e : list Z) (c : isl_constraint) : Prop :=
  if c_eq c then eval c p x y e = 0 else 0 <= eval c p x y e.

Definition sat_b (p x y e : list Z) (c : isl_constraint) : bool :=
  if c_eq c then eval c p x y e =? 0 else 0 <=? eval c p x y e.

(** The pairs [(x, y)] the basic map relates, at parameter values [p]. *)
Definition rel (b : isl_basic_map) (p x y : list Z) : Prop :=
  length x = n_in (bm_dim b) /\ length y = n_out (bm_dim b) /\
  exists e, length e = bm_n_div b /\ Forall (sat p x y e) (bm_cons b).

(** Coordinate [i] of a tuple. *)
Definition coord (x : list Z) (i : nat) : Z := default 0 (x !! i).

End Isl.

Import Isl.

(** ** Tiling primitives *)

(** [for (i = 0; i < n; ++i) body], threading a state that may be lost to
    an isl error. *)
Definition for_range {S : Type} (n : nat) (body : nat -> S -> option S)
    (init : option S) : option S :=
  fold_left (fun s i => s ≫= body i) (seq 0 n) init.

(** [tile]: a map from a domain of dimensionality [len] to one of
    dimensionality [len + tile_len] that tiles the [tile_len] coordinates
    starting at [first]. *)
Definition tile (dim : isl_dim) (len first tile_len : nat) (tile_size : list Z)
    : option isl_basic_map :=
  let dim := isl_dim_add dim isl_dim_in len in
  let dim := isl_dim_add dim isl_dim_out (len + tile_len) in
  let bmap := Some (isl_basic_map_universe dim) in
  let bmap := for_range (len - tile_len) (fun i bmap =>
      let j := if decide (i < first)%nat then i else (i + tile_len)%nat in
      let k := if decide (i < first)%nat then i else (i + 2 * tile_len)%nat in
      c ← isl_constraint_set_coefficient (isl_equality_alloc dim) isl_dim_in j (-1);
      c ← isl_constraint_set_coefficient c isl_dim_out k 1;
      Some (isl_basic_map_add_constraint bmap c)) bmap in
  for_range tile_len (fun i bmap =>
      sz ← tile_size !! i;
      c ← isl_constraint_set_coefficient (isl_equality_alloc dim) isl_dim_in (first + i) (-1);
      c ← isl_constraint_set_coefficient c isl_dim_out (first + i) sz;
      c ← isl_constraint_set_coefficient c isl_dim_out (first + i + tile_len) 1;
      let bmap := isl_basic_map_add_constraint bmap c in
      c ← isl_constraint_set_coefficient (isl_inequality_alloc dim) isl_dim_out
             (first + i + tile_len) 1;
      let bmap := isl_basic_map_add_constraint bmap c in
      c ← isl_constraint_set_coefficient (isl_inequality_alloc dim) isl_dim_out
             (first + i + tile_len) (-1);
      let c := isl_constraint_set_constant c (sz - 1) in
      Some (isl_basic_map_add_constraint bmap c)) bmap.

(** [wrap]: a map from a domain of dimensionality [len] to one of
    dimensionality [len + wrap_len] that wraps the [wrap_len] coordinates
    starting at [first]; the quotients are extra output dimensions that are
    projected out at the end. *)
Definition wrap (dim : isl_dim) (len first wrap_len : nat) (wrap_size : list Z)
    : option isl_basic_map :=
  let dim := isl_dim_add dim isl_dim_in len in
  let dim := isl_dim_add dim isl_dim_out (len + 2 * wrap_len) in
  let bmap := Some (isl_basic_map_universe dim) in
  let bmap := for_range len (fun i bmap =>
      let k := if decide (i < first + wrap_len)%nat then i else (i + 2 * wrap_len)%nat in
      c ← isl_constraint_set_coefficient (isl_equality_alloc dim) isl_dim_in i (-1);
      c ← isl_constraint_set_coefficient c isl_dim_out k 1;
      Some (isl_basic_map_add_constraint bmap c)) bmap in
  let bmap := for_range wrap_len (fun i bmap =>
      sz ← wrap_size !! i;
      c ← isl_constraint_set_coefficient (isl_equality_alloc dim) isl_dim_out (first + i) (-1);
      c ← isl_constraint_set_coefficient c isl_dim_out (first + wrap_len + i) 1;
      c ← isl_constraint_set_coefficient c isl_dim_out (first + 2 * wrap_len + i) sz;
      let bmap := isl_basic_map_add_constraint bmap c in
      c ← isl_constraint_set_coefficient (isl_inequality_alloc dim) isl_dim_out
             (first + wrap_len + i) 1;
      let bmap := isl_basic_map_add_constraint bmap c in
      c ← isl_constraint_set_coefficient (isl_inequality_alloc dim) isl_dim_out
             (first + wrap_len + i) (-1);
      let c := isl_constraint_set_constant c (sz - 1) in
      Some (isl_basic_map_add_constraint bmap c)) bmap in
  (fun b => isl_basic_map_project_out b (first + 2 * wrap_len) wrap_len) <$> bmap.

(** [next]: the map that increments the dimension at position [pos] and
    leaves all other dimensions constant. *)
Definition next (len : nat) (n_par : nat) (pos : Z) : option isl_basic_map :=
  let dim := mk_dim n_par len len in
  for_range len (fun i next =>
      c ← isl_constraint_set_coefficient (isl_equality_alloc dim) isl_dim_in i 1;
      c ← isl_constraint_set_coefficient c isl_dim_out i (-1);
      let c := if decide (Z.of_nat i = pos) then isl_constraint_set_constant c 1 else c in
      Some (isl_basic_map_add_constraint next c)) (Some (isl_basic_map_universe dim)).

(** ** The relation library, as far as [cuda.c] only calls it

    [M] is the type of [isl_map] / [isl_union_map] values.  A failed call
    (isl returning NULL) is [None]. *)

(** Quasi-affine expressions over a basic set, built by the calls of
    [compute_size_in_direction]. *)
Inductive isl_aff :=
| isl_constraint_get_bound (c : isl_constraint) (pos : nat)
| isl_aff_ceil (a : isl_aff)
| isl_aff_neg (a : isl_aff)
| isl_aff_add_coefficient_si (a : isl_aff) (pos : nat) (v : Z).

(** Polynomials: the shift of [extract_stride] is affine in the parameters,
    the lower bound of [compute_size_in_direction] comes from an [isl_aff]. *)
Inductive isl_qpolynomial :=
| qp_affine (cst : Z) (par : list Z)
| isl_qpolynomial_from_aff (a : isl_aff).

Inductive isl_lp_result :=
| isl_lp_ok (v : Z) | isl_lp_unbounded | isl_lp_empty | isl_lp_error.

Class IslOps (M : Type) := {
  isl_union_map_empty : M;
  isl_map_intersect : M -> M -> M;
  isl_map_union : M -> M -> M;
  isl_map_is_empty : M -> bool;
  isl_map_dim_out : M -> nat;
  isl_map_project_out : M -> nat -> nat -> option M;
  isl_map_compute_divs : M -> M;
  isl_map_simple_hull : M -> isl_basic_map;
  isl_map_is_injective : M -> bool;
  isl_map_is_bijective : M -> bool;
  isl_map_is_subset : M -> M -> bool;
  isl_map_apply_domain : M -> M -> M;
  isl_map_apply_range : M -> M -> M;
  isl_map_from_basic_map : isl_basic_map -> M;
  isl_map_dim_in : M -> nat;
  isl_map_n_param : M -> nat;
  isl_basic_map_affine_hull : isl_basic_map -> isl_basic_map;
  isl_basic_map_apply_range : isl_basic_map -> isl_basic_map -> isl_basic_map;
  isl_basic_set_max : isl_basic_map -> isl_aff -> isl_lp_result }.

(** Value of a quasi-affine expression at parameters [p] and set point [x],
    as a fraction [(numerator, denominator)] with a positive denominator. *)
Definition ceil_div (n d : Z) : Z := - ((- n) / d).

Fixpoint aff_val (a : isl_aff) (p x : list Z) : Z * Z :=
  match a with
  | isl_constraint_get_bound c pos =>
      (- (c_const c + dot (c_param c) p + dot (<[pos := 0]> (c_out c)) x),
       coord (c_out c) pos)
  | isl_aff_ceil a => let '(n, d) := aff_val a p x in (ceil_div n d, 1)
  | isl_aff_neg a => let '(n, d) := aff_val a p x in (- n, d)
  | isl_aff_add_coefficient_si a pos v =>
      let '(n, d) := aff_val a p x in (n + v * coord x pos * d, d)
  end.

Definition qp_val (q : isl_qpolynomial) (p x : list Z) : Z :=
  match q with
  | qp_affine cst par => cst + dot par p
  | isl_qpolynomial_from_aff a => let '(n, d) := aff_val a p x in n / d
  end.

(** ** Array bounds and the bound solver *)

(** The fields [stride], [shift] and [shift_map] only contain valid
    information if [shift] is not NULL. *)
Record cuda_array_bound := mk_bound {
  size : Z;
  lb : option isl_qpolynomial;
  stride : Z;
  shift : option isl_qpolynomial;
  shift_map : option isl_basic_map }.

Definition create_bound_list (n_index : nat) : list cuda_array_bound :=
  replicate n_index (mk_bound 0 None 0 None None).

Definition set_size (b : cuda_array_bound) (v : Z) : cuda_array_bound :=
  mk_bound v (lb b) (stride b) (shift b) (shift_map b).
Definition set_lb (b : cuda_array_bound) (q : option isl_qpolynomial) : cuda_array_bound :=
  mk_bound (size b) q (stride b) (shift b) (shift_map b).
Definition set_stride (b : cuda_array_bound) (v : Z) : cuda_array_bound :=
  mk_bound (size b) (lb b) v (shift b) (shift_map b).
Definition set_shift (b : cuda_array_bound) (q : option isl_qpolynomial) : cuda_array_bound :=
  mk_bound (size b) (lb b) (stride b) q (shift_map b).
Definition set_shift_map (b : cuda_array_bound) (m : option isl_basic_map) : cuda_array_bound :=
  mk_bound (size b) (lb b) (stride b) (shift b) m.

(** [extract_stride]: given [a(p) + j = g f(e)] (or [-a(p) - j = g f(e)] if
    [sign < 0]) store [a(p)] in [shift] and [g] in [stride]. *)
Definition extract_stride (c : isl_constraint) (bound : cuda_array_bound)
    (stride : Z) (sign : Z) : cuda_array_bound :=
  let bound := set_stride bound stride in
  let nparam := length (c_param c) in
  let v := c_const c in
  let v := if decide (sign < 0) then - v else v in
  let qp := fold_left (fun qp i =>
      let v := isl_constraint_get_coefficient c isl_dim_param i in
      if decide (v = 0) then qp
      else let v := if decide (sign < 0) then - v else v in <[i := v]> qp)
    (seq 0 nparam) (zeros nparam) in
  set_shift bound (Some (qp_affine v qp)).

(** [check_stride_constraint]: if the equality has the form
    [a(p,i) + j = g f(e)] and [g] is larger than any [g] found before,
    record the stride. *)
Definition check_stride_constraint (c : isl_constraint) (bound : cuda_array_bound)
    : cuda_array_bound :=
  let n_div := length (c_div c) in
  let v := isl_constraint_get_coefficient c isl_dim_out 0 in
  let bound_stride := stride bound in
  if decide (n_div <> 0%nat /\ (v = 1 \/ v = -1)) then
    let s := Z.sgn v in
    let stride := fold_left (fun stride i =>
        Z.gcd stride (isl_constraint_get_coefficient c isl_dim_div i)) (seq 0 n_div) 0 in
    if decide (stride <> 0 /\ stride > bound_stride)
    then extract_stride c bound stride s else bound
  else bound.

(** [isl_basic_map_from_qpolynomial] of [(shift + i) / stride]: the map
    [i -> (i + shift)/stride], that is [stride * i' = i + shift(p)]. *)
Definition shift_basic_map (shift : isl_qpolynomial) (stride : Z) : isl_basic_map :=
  match shift with
  | qp_affine cst par =>
      mk_bmap (mk_dim (length par) 1 1) 0
        [mk_constraint true (- cst) (map Z.opp par) [-1] [stride] []]
  | isl_qpolynomial_from_aff _ => mk_bmap (mk_dim 0 1 1) 0 []
  end.

(** [check_stride]: look for a shift [a(p)] and a stride [g] such that
    [a(p) + i = 0 mod g]; if found, record them and apply
    [i -> (i + a(p))/g] to the array index. *)
Definition check_stride `{IslOps M} (bound : cuda_array_bound)
    (bounds : isl_basic_map) : cuda_array_bound * isl_basic_map :=
  let bound := set_stride bound (-1) in
  let aff := isl_basic_map_affine_hull bounds in
  let bound := fold_left (fun b c => check_stride_constraint c b) (bm_cons aff) bound in
  if decide (stride bound < 0) then (bound, bounds)
  else match shift bound with
       | None => (bound, bounds)
       | Some qp =>
           let shift := shift_basic_map qp (stride bound) in
           let bound := set_shift_map bound (Some shift) in
           (bound, isl_basic_map_apply_range bounds shift)
       end.

(** [isl_basic_set_flatten (isl_basic_map_wrap bounds)]: the input and
    output dimensions become the dimensions of one set. *)
Definition wrap_flatten (b : isl_basic_map) : isl_basic_map :=
  mk_bmap (mk_dim (n_param (bm_dim b)) 0 (n_in (bm_dim b) + n_out (bm_dim b)))
    (bm_n_div b)
    (map (fun c => mk_constraint (c_eq c) (c_const c) (c_param c) []
                     (c_in c ++ c_out c) (c_div c)) (bm_cons b)).

Definition isl_constraint_involves_divs (c : isl_constraint) : bool :=
  bool_decide (Exists (fun v => v <> 0) (c_div c)).

Record cuda_size_info := mk_size_info {
  bset : isl_basic_map;
  bound : cuda_array_bound;
  pos : nat }.

(** [compute_size_in_direction]: if the constraint is a lower bound
    [m i >= b(x)] and [i - ceil(b(x)/m) + 1] has a constant upper bound
    smaller than any found before, set the size to it and the lower bound
    to [ceil(b(x)/m)]. *)
Definition compute_size_in_direction `{IslOps M} (c : isl_constraint)
    (info : cuda_size_info) : cuda_size_info :=
  if isl_constraint_involves_divs c then info
  else
    let v := isl_constraint_get_coefficient c isl_dim_set (pos info) in
    if decide (0 < v) then
      let aff := isl_constraint_get_bound c (pos info) in
      let aff := isl_aff_ceil aff in
      let lb := isl_qpolynomial_from_aff aff in
      let aff := isl_aff_neg aff in
      let aff := isl_aff_add_coefficient_si aff (pos info) 1 in
      match isl_basic_set_max (bset info) aff with
      | isl_lp_ok v =>
          let v := v + 1 in
          if decide (size (bound info) < 0 \/ v < size (bound info))
          then mk_size_info (bset info)
                 (set_lb (set_size (bound info) v) (Some lb)) (pos info)
          else info
      | _ => info
      end
    else info.

(** [compute_array_dim_size]: look for a lower bound on the single output
    dimension of [bounds] such that the range shifted by it is a constant.
    [None] is the C return value [-1]; the bound is returned in either case,
    as the C function leaves it in the caller's array. *)
Definition compute_array_dim_size `{IslOps M} (bnd : cuda_array_bound)
    (bounds : isl_basic_map) : cuda_array_bound * bool :=
  let '(bnd, bounds) := check_stride bnd bounds in
  let bnd := set_lb (set_size bnd (-1)) None in
  let info := mk_size_info (wrap_flatten bounds) bnd (n_in (bm_dim bounds)) in
  let info := fold_left (fun s c => compute_size_in_direction c s)
                (bm_cons (bset info)) info in
  (bound info, bool_decide (0 <= size (bound info))).

(** [can_tile_for_shared_memory]: project the accesses on each index in
    turn and look for a parametric offset such that the size is constant.
    The projection of index [i] is [None] when one of the two
    [isl_map_project_out] calls fails; the second call is made at position
    [i + 1] of the map that the first call has left, as in the source. *)
Definition access_hull `{IslOps M} (n_index i : nat) (access : M)
    : option isl_basic_map :=
  access_i ← isl_map_project_out access 0 i;
  access_i ← isl_map_project_out access_i (i + 1) (n_index - (i + 1));
  Some (isl_map_simple_hull (isl_map_compute_divs access_i)).

Definition dummy_bound : cuda_array_bound := mk_bound 0 None 0 None None.

Definition bound_at (bounds : list cuda_array_bound) (i : nat) : cuda_array_bound :=
  default dummy_bound (bounds !! i).

Definition compute_array_dim_size_opt `{IslOps M} (bnd : cuda_array_bound)
    (bounds : option isl_basic_map) : cuda_array_bound * bool :=
  match bounds with
  | Some bounds => compute_array_dim_size bnd bounds
  | None => (set_lb (set_size (set_stride bnd (-1)) (-1)) None, false)
  end.

Fixpoint can_tile_loop `{IslOps M} (n_index : nat) (access : M)
    (indices : list nat) (bounds : list cuda_array_bound)
    : list cuda_array_bound * bool :=
  match indices with
  | [] => (bounds, true)
  | i :: rest =>
      let hull := access_hull n_index i access in
      let '(b, ok) := compute_array_dim_size_opt (bound_at bounds i) hull in
      let bounds := <[i := b]> bounds in
      if ok then can_tile_loop n_index access rest bounds else (bounds, false)
  end.

Definition can_tile_for_shared_memory `{IslOps M} (n_index : nat) (access : M)
    (bounds : list cuda_array_bound) : list cuda_array_bound * bool :=
  can_tile_loop n_index access (seq 0 n_index) bounds.

(** ** References and reference groups *)

(** One array reference of a statement ([struct cuda_stmt_access]). *)
Record cuda_stmt_access (M : Type) := mk_access {
  ref_read : bool;
  ref_write : bool;
  ref_access : M;
  ref_group : Z }.
Arguments mk_access {M}.
Arguments ref_read {M}.
Arguments ref_write {M}.
Arguments ref_access {M}.
Arguments ref_group {M}.

(** A group of array references that is handled together.  If
    [private_bound] is not NULL it is mapped to registers; otherwise, if
    [shared_bound] is not NULL, to shared memory; otherwise it is accessed
    from global memory.  [refs] holds positions in the array's reference
    list. *)
Record cuda_array_ref_group (M : Type) := mk_group {
  nr : Z;
  access : option M;
  write : bool;
  shared_bound : option (list cuda_array_bound);
  private_bound : option (list cuda_array_bound);
  n_ref : Z;
  refs : list nat }.
Arguments mk_group {M}.
Arguments nr {M}.
Arguments access {M}.
Arguments write {M}.
Arguments shared_bound {M}.
Arguments private_bound {M}.
Arguments n_ref {M}.
Arguments refs {M}.

Inductive memory_tier := tier_private | tier_shared | tier_global.

(** The tier a group is printed with ([print_array_name]). *)
Definition group_tier {M} (g : cuda_array_ref_group M) : memory_tier :=
  match private_bound g, shared_bound g with
  | Some _, _ => tier_private
  | None, Some _ => tier_shared
  | None, None => tier_global
  end.

Definition dummy_group {M} : cuda_array_ref_group M :=
  mk_group 0 None false None None 0 [].

Definition group_at {M} (groups : list (cuda_array_ref_group M)) (i : nat) :=
  default dummy_group (groups !! i).

Definition leader_at (leader : list nat) (i : nat) : nat := default 0%nat (leader !! i).

(** [populate_array_references]: one singleton group per reference that is
    active in the kernel; [access] is the scheduled access relation. *)
Definition populate_array_references `{IslOps M} (array_refs : list (cuda_stmt_access M))
    (sched : M) : list (cuda_array_ref_group M) :=
  fold_left (fun groups i =>
      match array_refs !! i with
      | None => groups
      | Some acc =>
          let map := isl_map_apply_domain (ref_access acc) sched in
          if isl_map_is_empty map then groups
          else groups ++ [mk_group 0 (Some map) (ref_write acc) None None 0 [i]]
      end) (seq 0 (length array_refs)) [].

(** [isl_map_is_empty (isl_map_intersect a b)] as the C conditions read it:
    a NULL operand gives the error value [-1], which is not zero. *)
Definition overlap_is_empty `{IslOps M} (a b : option M) : bool :=
  match a, b with
  | Some a, Some b => isl_map_is_empty (isl_map_intersect a b)
  | _, _ => true
  end.

Definition union_access `{IslOps M} (a b : option M) : option M :=
  match a, b with
  | Some a, Some b => Some (isl_map_union a b)
  | _, _ => None
  end.

Record grouping (M : Type) := mk_grouping {
  gr_groups : list (cuda_array_ref_group M);
  gr_leader : list nat;
  gr_l : nat;
  gr_n_group : Z }.
Arguments mk_grouping {M}.
Arguments gr_groups {M}.
Arguments gr_leader {M}.
Arguments gr_l {M}.
Arguments gr_n_group {M}.

(** Body of the inner loop of [group_overlapping_writes] at index [j]. *)
Definition overlapping_writes_step `{IslOps M} (j : nat) (st : grouping M) : grouping M :=
  let groups := gr_groups st in
  let leader := gr_leader st in
  let l := gr_l st in
  if decide (leader_at leader j <> j) then st
  else if negb (write (group_at groups l)) && negb (write (group_at groups j)) then st
  else if overlap_is_empty (access (group_at groups l)) (access (group_at groups j)) then st
  else
    let gj := group_at groups j in
    let gl := group_at groups l in
    let gj := mk_group (nr gj) (union_access (access gj) (access gl)) true
                (shared_bound gj) (private_bound gj) (n_ref gj + n_ref gl) (refs gj) in
    let gl := mk_group (nr gl) None (write gl) (shared_bound gl) (private_bound gl)
                (n_ref gl) (refs gl) in
    let groups := <[j := gj]> (<[l := gl]> groups) in
    mk_grouping groups (<[l := j]> leader) j (gr_n_group st - 1).

(** [for (j = from - 1; j >= 0; --j) step j]. *)
Fixpoint down_from {S : Type} (from : nat) (step : nat -> S -> S) (st : S) : S :=
  match from with
  | O => st
  | Datatypes.S j => down_from j step (step j st)
  end.

Definition set_n_ref {M} (g : cuda_array_ref_group M) (n : Z) : cuda_array_ref_group M :=
  mk_group (nr g) (access g) (write g) (shared_bound g) (private_bound g) n (refs g).

(** [group_overlapping_writes]: if two groups have overlapping access
    relations and one of them involves a write, merge them.  [leader j]
    points to an earlier group of the same group, or to [j] itself. *)
Definition group_overlapping_writes `{IslOps M} (n : nat)
    (groups : list (cuda_array_ref_group M)) (leader : list nat)
    : list (cuda_array_ref_group M) * list nat * Z :=
  let st := fold_left (fun st i =>
      let groups := <[i := set_n_ref (group_at (gr_groups st) i) 1]> (gr_groups st) in
      let st := mk_grouping groups (gr_leader st) i (gr_n_group st) in
      let st := down_from i overlapping_writes_step st in
      mk_grouping (gr_groups st) (<[i := gr_l st]> (gr_leader st)) (gr_l st) (gr_n_group st))
    (seq 0 n) (mk_grouping groups leader 0%nat (Z.of_nat n)) in
  (gr_groups st, gr_leader st, gr_n_group st).

(** [compute_group_shared_bound]: the size and offset of the shared piece
    of the group, or no bound at all. *)
Definition compute_group_shared_bound `{IslOps M} (n_index : nat)
    (group : cuda_array_ref_group M) : cuda_array_ref_group M :=
  let bounds := create_bound_list n_index in
  let shared :=
    match access group with
    | Some acc =>
        let '(bounds, ok) := can_tile_for_shared_memory n_index acc bounds in
        if ok then Some bounds else None
    | None => if decide (n_index = 0%nat) then Some bounds else None
    end in
  mk_group (nr group) (access group) (write group) shared (private_bound group)
    (n_ref group) (refs group).

(** Body of the inner loop of [group_common_shared_memory_tile]. *)
Definition common_tile_step `{IslOps M} (n_index : nat) (j : nat) (st : grouping M)
    : grouping M :=
  let groups := gr_groups st in
  let leader := gr_leader st in
  let l := gr_l st in
  if decide (leader_at leader j <> j) then st
  else match shared_bound (group_at groups j) with
  | None => st
  | Some _ =>
    if overlap_is_empty (access (group_at groups l)) (access (group_at groups j)) then st
    else match union_access (access (group_at groups l)) (access (group_at groups j)) with
    | None => st
    | Some map =>
      let '(new_bound, ok) :=
        can_tile_for_shared_memory n_index map (create_bound_list n_index) in
      if negb ok then st
      else
        let gj := group_at groups j in
        let gl := group_at groups l in
        let gj := mk_group (nr gj) (Some map) (write gj) (Some new_bound)
                    (private_bound gj) (n_ref gj + n_ref gl) (refs gj) in
        mk_grouping (<[j := gj]> groups) (<[l := j]> leader) j (gr_n_group st - 1)
    end
  end.

(** [group_common_shared_memory_tile]: merge two groups if both have a
    shared memory tile and the merged group also has one. *)
Definition group_common_shared_memory_tile `{IslOps M} (n_index : nat) (n : nat)
    (groups : list (cuda_array_ref_group M)) (leader : list nat) (n_group : Z)
    : list (cuda_array_ref_group M) * list nat * Z :=
  let st := fold_left (fun st i =>
      if decide (gr_n_group st > 1) then
        if decide (leader_at (gr_leader st) i <> i) then st
        else match shared_bound (group_at (gr_groups st) i) with
        | None => st
        | Some _ =>
          down_from i (common_tile_step n_index)
            (mk_grouping (gr_groups st) (gr_leader st) i (gr_n_group st))
        end
      else st)
    (seq 0 n) (mk_grouping groups leader 0%nat n_group) in
  (gr_groups st, gr_leader st, gr_n_group st).

Definition set_ref_group {M} (r : cuda_stmt_access M) (j : Z) : cuda_stmt_access M :=
  mk_access (ref_read r) (ref_write r) (ref_access r) j.

Record extraction (M : Type) := mk_extraction {
  ex_array_refs : list (cuda_stmt_access M);
  ex_array_groups : list (cuda_array_ref_group M);
  ex_j : Z }.
Arguments mk_extraction {M}.
Arguments ex_array_refs {M}.
Arguments ex_array_groups {M}.
Arguments ex_j {M}.

(** [extract_array_groups]: the array of reference groups of the array,
    from the groups under construction and the grouping in [leader]; every
    reference gets the position of its group. *)
Definition extract_array_groups {M} (array_refs : list (cuda_stmt_access M)) (n : nat)
    (groups : list (cuda_array_ref_group M)) (leader : list nat)
    : list (cuda_stmt_access M) * list (cuda_array_ref_group M) :=
  let leader := fold_left (fun leader i =>
      <[i := leader_at leader (leader_at leader i)]> leader) (seq 2 (n - 2)) leader in
  let st := fold_left (fun st i =>
      if decide (leader_at leader i <> i) then st
      else
        let j := ex_j st in
        let '(new_refs, array_refs) := fold_left (fun '(new_refs, array_refs) k =>
            if decide (leader_at leader k = i) then
              match refs (group_at groups k) with
              | r :: _ =>
                  (new_refs ++ [r],
                   match array_refs !! r with
                   | Some a => <[r := set_ref_group a j]> array_refs
                   | None => array_refs
                   end)
              | [] => (new_refs, array_refs)
              end
            else (new_refs, array_refs))
          (seq i (n - i)) ([], ex_array_refs st) in
        let gi := group_at groups i in
        let gi := mk_group j (access gi) (write gi) (shared_bound gi) (private_bound gi)
                    (n_ref gi) new_refs in
        mk_extraction array_refs (ex_array_groups st ++ [gi]) (j + 1))
    (seq 0 n) (mk_extraction array_refs [] 0) in
  (ex_array_refs st, ex_array_groups st).

(** [group_array_references]: group the references of one array for the
    current kernel.  [leader0] is the content of the freshly allocated
    [leader] array. *)
Definition group_array_references `{IslOps M} (n_index : nat)
    (array_refs : list (cuda_stmt_access M)) (sched : M) (leader0 : list nat)
    : list (cuda_stmt_access M) * list (cuda_array_ref_group M) :=
  let groups := populate_array_references array_refs sched in
  let n := length groups in
  let leader := leader0 in
  let '(groups, leader, n_group) := group_overlapping_writes n groups leader in
  let groups := fold_left (fun groups i =>
      if decide (leader_at leader i = i)
      then <[i := compute_group_shared_bound n_index (group_at groups i)]> groups
      else groups) (seq 0 n) groups in
  let '(groups, leader, n_group) :=
    group_common_shared_memory_tile n_index n groups leader n_group in
  extract_array_groups array_refs n groups leader.

(** ** Private-memory promotion *)

(** The fields of [struct cuda_gen] the promotion pass reads. *)
Record cuda_gen (M : Type) := mk_gen {
  tiled_sched : M;
  shared_sched : M;
  privatization : M;
  shared_len : nat;
  n_block : nat }.
Arguments mk_gen {M}.
Arguments tiled_sched {M}.
Arguments shared_sched {M}.
Arguments privatization {M}.
Arguments shared_len {M}.
Arguments n_block {M}.

(** [group_access_relation]: the union of all read and/or write access
    relations in the group. *)
Definition group_access_relation `{IslOps M} (array_refs : list (cuda_stmt_access M))
    (group : cuda_array_ref_group M) (read write : bool) : M :=
  fold_left (fun access r =>
      match array_refs !! r with
      | None => access
      | Some a =>
          if (read && ref_read a) || (write && ref_write a)
          then isl_map_union access (ref_access a)
          else access
      end) (take (Z.to_nat (n_ref group)) (refs group)) isl_union_map_empty.

(** [access_is_coalesced]: whether incrementing the dimension that will get
    wrapped over the last thread index results in incrementing the last
    array index. *)
Definition access_is_coalesced `{IslOps M} (gen : cuda_gen M) (access : M) : bool :=
  let access_map := isl_map_apply_domain access (tiled_sched gen) in
  let next_thread_x := next (isl_map_dim_in access_map) (isl_map_n_param access_map)
      (Z.of_nat (shared_len gen) + Z.of_nat (n_block gen) - 1) in
  let next_element := next (isl_map_dim_out access_map) (isl_map_n_param access_map)
      (Z.of_nat (isl_map_dim_out access_map) - 1) in
  match next_thread_x, next_element with
  | Some next_thread_x, Some next_element =>
      let map := isl_map_apply_domain (isl_map_from_basic_map next_thread_x) access_map in
      let map := isl_map_apply_range map access_map in
      isl_map_is_subset map (isl_map_from_basic_map next_element)
  | _, _ => true
  end.

Definition set_shared_bound {M} (g : cuda_array_ref_group M)
    (b : option (list cuda_array_bound)) : cuda_array_ref_group M :=
  mk_group (nr g) (access g) (write g) b (private_bound g) (n_ref g) (refs g).

Definition set_private_bound {M} (g : cuda_array_ref_group M)
    (b : option (list cuda_array_bound)) : cuda_array_ref_group M :=
  mk_group (nr g) (access g) (write g) (shared_bound g) b (n_ref g) (refs g).

(** [check_private_group_access]: if there is no reuse on the group,
    return, after removing the shared tile of a coalesced access; otherwise
    check that the access is private to the thread and, if so, compute the
    private tile. *)
Definition check_private_group_access `{IslOps M} (gen : cuda_gen M) (n_index : nat)
    (array_refs : list (cuda_stmt_access M)) (group : cuda_array_ref_group M)
    : cuda_array_ref_group M :=
  let access := group_access_relation array_refs group true true in
  if isl_map_is_injective access then
    match shared_bound group with
    | Some _ =>
        if access_is_coalesced gen access then set_shared_bound group None else group
    | None => group
    end
  else
    let acc := isl_map_apply_domain access (shared_sched gen) in
    if negb (isl_map_is_bijective acc) then group
    else
      let acc := isl_map_apply_domain acc (privatization gen) in
      let '(bounds, ok) :=
        can_tile_for_shared_memory n_index acc (create_bound_list n_index) in
      set_private_bound group (if ok then Some bounds else None).

(** The loop of [compute_private_size] over the groups of one array. *)
Definition compute_private_size `{IslOps M} (gen : cuda_gen M) (n_index : nat)
    (array_refs : list (cuda_stmt_access M)) (groups : list (cuda_array_ref_group M))
    : list (cuda_array_ref_group M) :=
  map (check_private_group_access gen n_index array_refs) groups.

(** ** Definitions used in the statements and proofs *)

(** Adding a batch of constraints to a basic map. *)
Definition add_constraints (b : isl_basic_map) (cs : list isl_constraint) : isl_basic_map :=
  mk_bmap (bm_dim b) (bm_n_div b) (bm_cons b ++ cs).

(** The constraint the first loop of [tile] adds for index [i]. *)
Definition tile_copy (n_par len first tile_len : nat) (i : nat) : list isl_constraint :=
  let j := if decide (i < first)%nat then i else (i + tile_len)%nat in
  let k := if decide (i < first)%nat then i else (i + 2 * tile_len)%nat in
  [mk_constraint true 0 (zeros n_par) (<[j := -1]> (zeros len))
     (<[k := 1]> (zeros (len + tile_len))) []].

(** The three constraints the second loop of [tile] adds for index [i]. *)
Definition tile_split (n_par len first tile_len : nat) (tile_size : list Z) (i : nat)
    : list isl_constraint :=
  let sz := coord tile_size i in
  [mk_constraint true 0 (zeros n_par) (<[(first + i)%nat := -1]> (zeros len))
     (<[(first + i + tile_len)%nat := 1]> (<[(first + i)%nat := sz]> (zeros (len + tile_len)))) [];
   mk_constraint false 0 (zeros n_par) (zeros len)
     (<[(first + i + tile_len)%nat := 1]> (zeros (len + tile_len))) [];
   mk_constraint false (sz - 1) (zeros n_par) (zeros len)
     (<[(first + i + tile_len)%nat := -1]> (zeros (len + tile_len))) []].

(** What [tile] relates, following the words of the specification. *)
Definition tile_spec (len first tile_len : nat) (sizes : list Z) (x y : list Z) : Prop :=
  length x = len /\ length y = (len + tile_len)%nat /\
  (forall i, (i < first)%nat -> coord y i = coord x i) /\
  (forall i, (first + tile_len <= i < len)%nat -> coord y (i + tile_len) = coord x i) /\
  (forall k, (k < tile_len)%nat ->
     coord y (first + k) = coord x (first + k) / coord sizes k /\
     coord y (first + tile_len + k) = coord x (first + k) mod coord sizes k /\
     0 <= coord y (first + tile_len + k) < coord sizes k).

(** The constraint the first loop of [wrap] adds for index [i]. *)
Definition wrap_copy (n_par len first wrap_len : nat) (i : nat) : list isl_constraint :=
  let k := if decide (i < first + wrap_len)%nat then i else (i + 2 * wrap_len)%nat in
  [mk_constraint true 0 (zeros n_par) (<[i := -1]> (zeros len))
     (<[k := 1]> (zeros (len + 2 * wrap_len))) []].

(** The three constraints the second loop of [wrap] adds for index [i]. *)
Definition wrap_split (n_par len first wrap_len : nat) (wrap_size : list Z) (i : nat)
    : list isl_constraint :=
  let sz := coord wrap_size i in
  [mk_constraint true 0 (zeros n_par) (zeros len)
     (<[(first + 2 * wrap_len + i)%nat := sz]>
        (<[(first + wrap_len + i)%nat := 1]>
           (<[(first + i)%nat := -1]> (zeros (len + 2 * wrap_len))))) [];
   mk_constraint false 0 (zeros n_par) (zeros len)
     (<[(first + wrap_len + i)%nat := 1]> (zeros (len + 2 * wrap_len))) [];
   mk_constraint false (sz - 1) (zeros n_par) (zeros len)
     (<[(first + wrap_len + i)%nat := -1]> (zeros (len + 2 * wrap_len))) []].

(** The map [wrap] builds before the quotients are projected out. *)
Definition wrap_unprojected (n_par len first wrap_len : nat) (wrap_size : list Z)
    : isl_basic_map :=
  mk_bmap (mk_dim n_par len (len + 2 * wrap_len)) 0
    (flat_map (wrap_copy n_par len first wrap_len) (seq 0 len) ++
     flat_map (wrap_split n_par len first wrap_len wrap_size) (seq 0 wrap_len)).

(** What [wrap] relates, following the words of the specification. *)
Definition wrap_spec (len first wrap_len : nat) (sizes : list Z) (x y : list Z) : Prop :=
  length x = len /\ length y = (len + wrap_len)%nat /\
  (forall i, (i < first + wrap_len)%nat -> coord y i = coord x i) /\
  (forall i, (first + wrap_len <= i < len)%nat -> coord y (i + wrap_len) = coord x i) /\
  (forall k, (k < wrap_len)%nat ->
     coord y (first + wrap_len + k) = coord x (first + k) mod coord sizes k /\
     0 <= coord y (first + wrap_len + k) < coord sizes k).

(** The tuple [tile] relates [x] to: the coordinates before [first], the
    quotients, the remainders, the coordinates from [first + tile_len]. *)
Definition tile_image (first tile_len : nat) (sizes : list Z) (x : list Z) : list Z :=
  take first x ++
  map (fun k => coord x (first + k) / coord sizes k) (seq 0 tile_len) ++
  map (fun k => coord x (first + k) mod coord sizes k) (seq 0 tile_len) ++
  drop (first + tile_len) x.

(** The tuple [wrap] relates [x] to: the coordinates up to
    [first + wrap_len], the remainders, the remaining coordinates. *)
Definition wrap_image (first wrap_len : nat) (sizes : list Z) (x : list Z) : list Z :=
  take (first + wrap_len) x ++
  map (fun k => coord x (first + k) mod coord sizes k) (seq 0 wrap_len) ++
  drop (first + wrap_len) x.

(** [rep] names, for each of the first [i] entries of [leader], the first
    element of its group: [leader] points to an earlier element of the same
    group, or to the element itself if it is the first. *)
Definition leader_inv (i : nat) (leader : list nat) (rep : nat -> nat) : Prop :=
  forall k, (k < i)%nat ->
    (leader_at leader k <= k)%nat /\ (rep k <= k)%nat /\
    rep (leader_at leader k) = rep k /\
    (leader_at leader k = k <-> rep k = k) /\
    rep (rep k) = rep k.

(** Merging the group that starts at [l] into the one that starts at [j]. *)
Definition merge_rep (rep : nat -> nat) (l j : nat) (k : nat) : nat :=
  if decide (rep k = l) then j else rep k.

(** The points of [a] are points of [b], both relations being present. *)
Definition acc_incl {M Pt : Type} (pts : M -> Pt -> Prop) (a b : option M) : Prop :=
  exists a' b', a = Some a' /\ b = Some b' /\ forall p, pts a' p -> pts b' p.

(** Two references conflict: one of them writes and their scheduled access
    relations intersect. *)
Definition conflict `{IslOps M} (g1 g2 : cuda_array_ref_group M) : Prop :=
  (write g1 = true \/ write g2 = true) /\
  overlap_is_empty (access g1) (access g2) = false.

(** What the group [g] under construction knows of the reference that
    started as the singleton group [g0]. *)
Definition covers `{IslOps M} {Pt : Type} (pts : M -> Pt -> Prop)
    (g0 g : cuda_array_ref_group M) : Prop :=
  acc_incl pts (access g0) (access g) /\ (write g0 = true -> write g = true).

(** Invariant of the inner loop of [group_overlapping_writes] for reference
    [i], before index [m - 1] is examined. *)
Definition writes_inner_inv `{IslOps M} {Pt : Type} (pts : M -> Pt -> Prop)
    (groups0 : list (cuda_array_ref_group M)) (i m : nat) (st : grouping M)
    (rep : nat -> nat) : Prop :=
  length (gr_groups st) = length groups0 /\
  length (gr_leader st) = length groups0 /\
  (i < length groups0)%nat /\
  leader_inv i (gr_leader st) rep /\
  (gr_l st = i \/ ((gr_l st < i)%nat /\ rep (gr_l st) = gr_l st /\ (m <= gr_l st)%nat)) /\
  (forall k, (k < i)%nat ->
     covers pts (group_at groups0 k) (group_at (gr_groups st) (rep k))) /\
  covers pts (group_at groups0 i) (group_at (gr_groups st) (gr_l st)) /\
  (forall k1 k2, (k1 < i)%nat -> (k2 < i)%nat ->
     conflict (group_at groups0 k1) (group_at groups0 k2) -> rep k1 = rep k2) /\
  (forall k, (k < i)%nat -> conflict (group_at groups0 k) (group_at groups0 i) ->
     (rep k < m)%nat \/ rep k = gr_l st) /\
  (forall k, (i < k)%nat -> group_at (gr_groups st) k = group_at groups0 k) /\
  (forall k, refs (group_at (gr_groups st) k) = refs (group_at groups0 k)).

(** The contract of the relation library that the grouping relies on:
    intersection, union and the emptiness test mean what their names say. *)
Definition relation_laws `{IslOps M} {Pt : Type} (pts : M -> Pt -> Prop) : Prop :=
  (forall a b p, pts (isl_map_intersect a b) p <-> pts a p /\ pts b p) /\
  (forall a b p, pts (isl_map_union a b) p <-> pts a p \/ pts b p) /\
  (forall a, isl_map_is_empty a = true <-> forall p, ~ pts a p).

(** Invariant of the outer loop of [group_overlapping_writes], after the
    first [i] references have been placed. *)
Definition writes_outer_inv `{IslOps M} {Pt : Type} (pts : M -> Pt -> Prop)
    (groups0 : list (cuda_array_ref_group M)) (i : nat) (st : grouping M)
    (rep : nat -> nat) : Prop :=
  length (gr_groups st) = length groups0 /\
  length (gr_leader st) = length groups0 /\
  (i <= length groups0)%nat /\
  leader_inv i (gr_leader st) rep /\
  (forall k, (k < i)%nat ->
     covers pts (group_at groups0 k) (group_at (gr_groups st) (rep k))) /\
  (forall k1 k2, (k1 < i)%nat -> (k2 < i)%nat ->
     conflict (group_at groups0 k1) (group_at groups0 k2) -> rep k1 = rep k2) /\
  (forall k, (i <= k)%nat -> group_at (gr_groups st) k = group_at groups0 k) /\
  (forall k, refs (group_at (gr_groups st) k) = refs (group_at groups0 k)).

(** What the later passes keep of the grouping: [leader] is a forest of
    groups in which conflicting references share their first element. *)
Definition merged_inv `{IslOps M} (groups0 : list (cuda_array_ref_group M))
    (groups : list (cuda_array_ref_group M)) (leader : list nat)
    (rep : nat -> nat) : Prop :=
  length groups = length groups0 /\
  length leader = length groups0 /\
  leader_inv (length groups0) leader rep /\
  (forall k1 k2, (k1 < length groups0)%nat -> (k2 < length groups0)%nat ->
     conflict (group_at groups0 k1) (group_at groups0 k2) -> rep k1 = rep k2) /\
  (forall k, refs (group_at groups k) = refs (group_at groups0 k)).

(** References [i1] and [i2] ended up in one final group: their [group]
    fields hold the same position, and the group at that position has this
    position as its [nr] and lists both references. *)
Definition grouped_together {M} (array_refs : list (cuda_stmt_access M))
    (groups : list (cuda_array_ref_group M)) (i1 i2 : nat) : Prop :=
  exists a1 a2 g,
    array_refs !! i1 = Some a1 /\ array_refs !! i2 = Some a2 /\
    ref_group a1 = ref_group a2 /\ 0 <= ref_group a1 /\
    groups !! Z.to_nat (ref_group a1) = Some g /\ nr g = ref_group a1 /\
    i1 ∈ refs g /\ i2 ∈ refs g.

(** Invariant of the main loop of [extract_array_groups]: every reference
    whose group starts before [i0] has been given the position [gi] of that
    group. *)
Definition extract_inv {M} (n : nat) (rep : nat -> nat) (idx : nat -> nat)
    (n_refs : nat) (i0 : nat) (st : extraction M) (gi : nat -> Z) : Prop :=
  length (ex_array_refs st) = n_refs /\
  ex_j st = Z.of_nat (length (ex_array_groups st)) /\
  forall k, (k < n)%nat -> (rep k < i0)%nat ->
    exists a g, ex_array_refs st !! idx k = Some a /\
      ref_group a = gi (rep k) /\ 0 <= gi (rep k) /\
      ex_array_groups st !! Z.to_nat (gi (rep k)) = Some g /\
      nr g = gi (rep k) /\ idx k ∈ refs g.

(** Whether reference [i] of the array is active in the kernel. *)
Definition is_active `{IslOps M} (array_refs : list (cuda_stmt_access M)) (sched : M)
    (i : nat) : bool :=
  match array_refs !! i with
  | Some acc => negb (isl_map_is_empty (isl_map_apply_domain (ref_access acc) sched))
  | None => false
  end.

(** The singleton group [populate_array_references] makes for reference [i]. *)
Definition singleton_group `{IslOps M} (array_refs : list (cuda_stmt_access M))
    (sched : M) (i : nat) : cuda_array_ref_group M :=
  match array_refs !! i with
  | Some acc =>
      mk_group 0 (Some (isl_map_apply_domain (ref_access acc) sched)) (ref_write acc)
        None None 0 [i]
  | None => dummy_group
  end.

Definition active_refs `{IslOps M} (array_refs : list (cuda_stmt_access M)) (sched : M)
    : list nat :=
  filter (fun i => is_active array_refs sched i = true) (seq 0 (length array_refs)).

(** ** A finite model of the relation library

    Relations between integer tuples given by the list of their pairs.  All
    operations of the library that the grouping uses are computed exactly;
    the hull of a map with one output dimension is its bounding interval. *)

Definition fin_rel : Type := list (list Z * list Z).

Definition fin_intersect (a b : fin_rel) : fin_rel :=
  filter (fun p => p ∈ b) a.

Definition fin_is_empty (a : fin_rel) : bool :=
  match a with [] => true | _ => false end.

Definition fin_dim_out (a : fin_rel) : nat :=
  match a with [] => 0%nat | (_, y) :: _ => length y end.

Definition fin_dim_in (a : fin_rel) : nat :=
  match a with [] => 0%nat | (x, _) :: _ => length x end.

Definition fin_project_out (a : fin_rel) (first n : nat) : option fin_rel :=
  if decide (n = 0%nat) then Some a
  else if decide (first + n <= fin_dim_out a)%nat
  then Some (map (fun '(x, y) => (x, take first y ++ drop (first + n) y)) a)
  else None.

Definition fin_apply_domain (a s : fin_rel) : fin_rel :=
  flat_map (fun '(x, y) =>
    flat_map (fun '(x1, x') => if decide (x1 = x) then [(x', y)] else []) s) a.

Definition fin_apply_range (a s : fin_rel) : fin_rel :=
  flat_map (fun '(x, y) =>
    flat_map (fun '(y1, y') => if decide (y1 = y) then [(x, y')] else []) s) a.

Definition fin_is_injective (a : fin_rel) : bool :=
  forallb (fun '(x1, y1) => forallb (fun '(x2, y2) =>
    implb (bool_decide (y1 = y2)) (bool_decide (x1 = x2))) a) a.

Definition fin_is_single_valued (a : fin_rel) : bool :=
  forallb (fun '(x1, y1) => forallb (fun '(x2, y2) =>
    implb (bool_decide (x1 = x2)) (bool_decide (y1 = y2))) a) a.

Definition fin_is_subset (a b : fin_rel) : bool :=
  forallb (fun p => bool_decide (p ∈ b)) a.

(** The bounding interval [lo <= y <= hi] of the single output dimension;
    the empty relation has the infeasible hull [-1 >= 0]. *)
Definition fin_simple_hull (a : fin_rel) : isl_basic_map :=
  let ys := map (fun '(_, y) => coord y 0) a in
  match ys with
  | [] => mk_bmap (mk_dim 0 (fin_dim_in a) 1) 0
            [mk_constraint false (-1) [] (zeros (fin_dim_in a)) [0] []]
  | y0 :: rest =>
      let lo := fold_left Z.min rest y0 in
      let hi := fold_left Z.max rest y0 in
      mk_bmap (mk_dim 0 (fin_dim_in a) 1) 0
        [mk_constraint false (- lo) [] (zeros (fin_dim_in a)) [1] [];
         mk_constraint false hi [] (zeros (fin_dim_in a)) [-1] []]
  end.

(** The maximum of a quasi-affine expression over an interval given by
    constraints [y - lo >= 0] and [hi - y >= 0] on the last set dimension,
    the other dimensions being unconstrained and absent from the
    expression: found by trying every [y] of the interval. *)
Definition fin_interval (b : isl_basic_map) : option (Z * Z) :=
  match bm_cons b with
  | [c1; c2] =>
      if decide (c_eq c1 = false /\ c_eq c2 = false /\
                 c_param c1 = [] /\ c_param c2 = [] /\
                 c_div c1 = [] /\ c_div c2 = [] /\
                 c_out c1 = zeros (length (c_out c1) - 1) ++ [1] /\
                 c_out c2 = zeros (length (c_out c1) - 1) ++ [-1])
      then Some (- c_const c1, c_const c2) else None
  | _ => None
  end.

Definition fin_basic_set_max (b : isl_basic_map) (a : isl_aff) : isl_lp_result :=
  match fin_interval b with
  | Some (lo, hi) =>
      if decide (lo <= hi) then
        let pos := (n_out (bm_dim b) - 1)%nat in
        let vals := map (fun k =>
            let y := lo + Z.of_nat k in
            (aff_val a [] (zeros pos ++ [y])).1) (seq 0 (Z.to_nat (hi - lo + 1))) in
        isl_lp_ok (fold_left Z.max vals (aff_val a [] (zeros pos ++ [lo])).1)
      else isl_lp_empty
  | None => isl_lp_error
  end.

#[export] Instance fin_ops : IslOps fin_rel := {|
  isl_union_map_empty := [];
  isl_map_intersect := fin_intersect;
  isl_map_union := fun a b => a ++ b;
  isl_map_is_empty := fin_is_empty;
  isl_map_dim_out := fin_dim_out;
  isl_map_project_out := fin_project_out;
  isl_map_compute_divs := fun a => a;
  isl_map_simple_hull := fin_simple_hull;
  isl_map_is_injective := fin_is_injective;
  isl_map_is_bijective := fun a => fin_is_single_valued a && fin_is_injective a;
  isl_map_is_subset := fin_is_subset;
  isl_map_apply_domain := fin_apply_domain;
  isl_map_apply_range := fin_apply_range;
  isl_map_from_basic_map := fun _ => [];
  isl_map_dim_in := fin_dim_in;
  isl_map_n_param := fun _ => 0%nat;
  isl_basic_map_affine_hull := fun b => mk_bmap (bm_dim b) 0 [];
  isl_basic_map_apply_range := fun b _ => b;
  isl_basic_set_max := fin_basic_set_max |}.

(** The pairs of a finite relation. *)
Definition fin_pts (a : fin_rel) (p : list Z * list Z) : Prop := p ∈ a.

(** Three references of a one-dimensional array, in the finite model: a
    read of elements 0 and 1, a read of element 0 and a write of element 1,
    under the schedule that keeps the iteration coordinate. *)
Definition sample_refs : list (cuda_stmt_access fin_rel) :=
  [mk_access true false [([0], [0]); ([1], [1])] (-1);
   mk_access true false [([0], [0])] (-1);
   mk_access false true [([1], [1])] (-1)].

Definition sample_sched : fin_rel := [([0], [0]); ([1], [1])].

(** The first element of the group of [k]: follow [leader] from [k]. *)
Definition group_leader (leader : list nat) (k : nat) : nat :=
  Nat.iter k (leader_at leader) k.

(** No conflict merge is possible between two leader groups any more, as
    the specification words the fixed point: two distinct leaders either
    have accumulated access relations that do not intersect, or neither
    contains a write. *)
Definition conflict_fixed_point `{IslOps M} (n : nat)
    (groups : list (cuda_array_ref_group M)) (leader : list nat) : Prop :=
  forall i j, (i < n)%nat -> (j < n)%nat -> i <> j ->
    leader_at leader i = i -> leader_at leader j = j ->
    overlap_is_empty (access (group_at groups i)) (access (group_at groups j)) = true \/
    (write (group_at groups i) = false /\ write (group_at groups j) = false).

(** The expression [i - ceil(b(x)/m)] that [compute_size_in_direction]
    maximises for the constraint [c]. *)
Definition size_objective (c : isl_constraint) (pos : nat) : isl_aff :=
  isl_aff_add_coefficient_si
    (isl_aff_neg (isl_aff_ceil (isl_constraint_get_bound c pos))) pos 1.

(** The constraint [c] is a lower bound on dimension [pos] that yields a
    finite constant size. *)
Definition finite_lower_bound `{IslOps M} (bset : isl_basic_map) (pos : nat)
    (c : isl_constraint) : Prop :=
  isl_constraint_involves_divs c = false /\
  0 < isl_constraint_get_coefficient c isl_dim_out pos /\
  exists v, isl_basic_set_max bset (size_objective c pos) = isl_lp_ok v.

(** No lower bound of the (possibly stride-rewritten) hull of one array
    dimension yields a finite constant size. *)
Definition dim_infeasible `{IslOps M} (hull : option isl_basic_map) : Prop :=
  match hull with
  | None => True
  | Some h =>
      forall bnd c,
        let bounds := (check_stride bnd h).2 in
        c ∈ bm_cons (wrap_flatten bounds) ->
        ~ finite_lower_bound (wrap_flatten bounds) (n_in (bm_dim bounds)) c
  end.

(** The access relation the private tile of a group is computed from. *)
Definition private_access `{IslOps M} (gen : cuda_gen M)
    (array_refs : list (cuda_stmt_access M)) (group : cuda_array_ref_group M) : M :=
  isl_map_apply_domain
    (isl_map_apply_domain (group_access_relation array_refs group true true)
       (shared_sched gen))
    (privatization gen).

(** The shared-tile attempt of [group_array_references]: every leader gets
    its shared bound computed. *)
Definition shared_tile_attempt `{IslOps M} (n_index n : nat) (leader : list nat)
    (groups : list (cuda_array_ref_group M)) : list (cuda_array_ref_group M) :=
  fold_left (fun groups i =>
      if decide (leader_at leader i = i)
      then <[i := compute_group_shared_bound n_index (group_at groups i)]> groups
      else groups) (seq 0 n) groups.

(** ** An unbounded access, as a table of the library's answers

    The accesses [A[i]] for all [i >= 0] of a loop without upper bound:
    the hull of the only index is the half-line [j >= 0], and the
    expression [j - 0] has no maximum over it. *)
Inductive halfline_map := halfline_access.

Definition halfline_hull : isl_basic_map :=
  mk_bmap (mk_dim 0 0 1) 0 [mk_constraint false 0 [] [] [1] []].

#[export] Instance halfline_ops : IslOps halfline_map := {|
  isl_union_map_empty := halfline_access;
  isl_map_intersect := fun a _ => a;
  isl_map_union := fun a _ => a;
  isl_map_is_empty := fun _ => false;
  isl_map_dim_out := fun _ => 1%nat;
  isl_map_project_out := fun a first n =>
    if decide (n = 0%nat) then Some a else None;
  isl_map_compute_divs := fun a => a;
  isl_map_simple_hull := fun _ => halfline_hull;
  isl_map_is_injective := fun _ => true;
  isl_map_is_bijective := fun _ => true;
  isl_map_is_subset := fun _ _ => true;
  isl_map_apply_domain := fun a _ => a;
  isl_map_apply_range := fun a _ => a;
  isl_map_from_basic_map := fun _ => halfline_access;
  isl_map_dim_in := fun _ => 0%nat;
  isl_map_n_param := fun _ => 0%nat;
  isl_basic_map_affine_hull := fun b => mk_bmap (bm_dim b) 0 [];
  isl_basic_map_apply_range := fun b _ => b;
  isl_basic_set_max := fun _ _ => isl_lp_unbounded |}.

(** At most one of the two bounds of a group is present. *)
Definition tier_exclusive {M} (g : cuda_array_ref_group M) : Prop :=
  private_bound g = None \/ shared_bound g = None.

(** A kernel with a single thread in the finite model: the statement
    instances [(0, 0)] and [(0, 1)] both access element 5 of a
    one-dimensional array; there are no shared tile loops, and the first
    iteration coordinate is the one wrapped over the thread. *)
Definition reuse_refs : list (cuda_stmt_access fin_rel) :=
  [mk_access true true [([0; 0], [5]); ([0; 1], [5])] (-1)].

(** The schedule onto the (zero) shared tile loops. *)
Definition reuse_tile_sched : fin_rel := [([0; 0], []); ([0; 1], [])].

Definition reuse_gen : cuda_gen fin_rel :=
  mk_gen [([0; 0], [0]); ([0; 1], [0])] [([0; 0], [0]); ([0; 1], [0])] [([0], [])] 0 1.

(** The references and the single group of the one-thread kernel after
    [group_array_references]. *)
Definition reuse_grouped_refs : list (cuda_stmt_access fin_rel) :=
  Eval vm_compute in (group_array_references 1 reuse_refs reuse_tile_sched [0%nat]).1.

Definition reuse_group : cuda_array_ref_group fin_rel :=
  Eval vm_compute in
    group_at (group_array_references 1 reuse_refs reuse_tile_sched [0%nat]).2 0.

(** [x'] is [x] with the coordinate at position [pos] incremented by one
    and all other coordinates unchanged. *)
Definition steps_to (pos : Z) (x x' : list Z) : Prop :=
  length x' = length x /\
  forall i, (i < length x)%nat ->
    coord x' i = coord x i + (if decide (Z.of_nat i = pos) then 1 else 0).

(** The access relation in terms of the tiled schedule coordinates, as
    [access_is_coalesced] computes it. *)
Definition scheduled_access `{IslOps M} (gen : cuda_gen M) (acc : M) : M :=
  isl_map_apply_domain acc (tiled_sched gen).

(** Position of the loop that is wrapped over the last thread index. *)
Definition thread_pos {M} (gen : cuda_gen M) : Z :=
  Z.of_nat (shared_len gen) + Z.of_nat (n_block gen) - 1.

(** The access is coalesced, in the words of the specification: advancing
    the innermost thread-wrapped loop coordinate by one always advances the
    innermost array index by one (to the next array element). *)
Definition coalesced_semantics `{IslOps M} (pts : M -> list Z -> list Z -> list Z -> Prop)
    (gen : cuda_gen M) (acc : M) : Prop :=
  let am := scheduled_access gen acc in
  forall p x a x' a', pts am p x a -> pts am p x' a' ->
    steps_to (thread_pos gen) x x' ->
    steps_to (Z.of_nat (isl_map_dim_out am) - 1) a a'.

(** What the relation library is relied on for in [access_is_coalesced]:
    the tuples of the scheduled access have the dimensions the library
    reports, and the subset test on the composed map decides whether the
    access maps every pair related by [next_thread_x] to a pair related by
    [next_element]. *)
Definition coalescing_contract `{IslOps M}
    (pts : M -> list Z -> list Z -> list Z -> Prop) (gen : cuda_gen M) (acc : M) : Prop :=
  let am := scheduled_access gen acc in
  (forall p x a, pts am p x a ->
     length x = isl_map_dim_in am /\ length a = isl_map_dim_out am) /\
  (forall next_thread_x next_element,
     next (isl_map_dim_in am) (isl_map_n_param am) (thread_pos gen) = Some next_thread_x ->
     next (isl_map_dim_out am) (isl_map_n_param am)
       (Z.of_nat (isl_map_dim_out am) - 1) = Some next_element ->
     (isl_map_is_subset
        (isl_map_apply_range
           (isl_map_apply_domain (isl_map_from_basic_map next_thread_x) am) am)
        (isl_map_from_basic_map next_element) = true <->
      forall p x a x' a', pts am p x a -> rel next_thread_x p x x' ->
        pts am p x' a' -> rel next_element p a a')).

(** The access is the identity: the array has one index, which is the
    thread-wrapped loop coordinate. *)
Definition identity_access `{IslOps M} (pts : M -> list Z -> list Z -> list Z -> Prop)
    (gen : cuda_gen M) (acc : M) : Prop :=
  let am := scheduled_access gen acc in
  isl_map_dim_out am = 1%nat /\
  0 <= thread_pos gen < Z.of_nat (isl_map_dim_in am) /\
  forall p x a, pts am p x a -> a = [coord x (Z.to_nat (thread_pos gen))].

(** ** The identity access, as a table of the library's answers

    One statement [S[t]] reads [A[t]]; the kernel has no shared tile loop
    and one thread-wrapped loop [t].  The relations that occur are named,
    and each operation returns the name of its result:
    [id_access] is [S[t] -> A[t]], [id_tiled_sched] is [S[t] -> [t]],
    [id_scheduled] is [[t] -> A[t]], [id_next] is [[i] -> [i + 1]],
    [id_shifted] is [A[t] -> [t + 1]] and [id_image] is
    [A[t] -> A[t + 1]]. *)
Inductive id_map :=
| id_access | id_tiled_sched | id_scheduled | id_next | id_shifted | id_image
| id_empty | id_unused.

#[export] Instance id_map_eq_dec : EqDecision id_map.
Proof. solve_decision. Defined.

#[export] Instance id_ops : IslOps id_map := {|
  isl_union_map_empty := id_empty;
  isl_map_intersect := fun a b => if decide (a = b) then a else id_empty;
  isl_map_union := fun a b =>
    if decide (a = id_empty) then b else if decide (b = id_empty) then a else id_unused;
  isl_map_is_empty := fun a => bool_decide (a = id_empty);
  isl_map_dim_out := fun _ => 1%nat;
  isl_map_project_out := fun a first n => if decide (n = 0%nat) then Some a else None;
  isl_map_compute_divs := fun a => a;
  isl_map_simple_hull := fun _ => mk_bmap (mk_dim 0 1 1) 0 [];
  isl_map_is_injective := fun a => bool_decide (a <> id_unused);
  isl_map_is_bijective := fun a => bool_decide (a <> id_unused);
  isl_map_is_subset := fun a b =>
    bool_decide (a = b \/ a = id_empty \/ (a = id_image /\ b = id_next));
  isl_map_apply_domain := fun a s =>
    match a, s with
    | id_access, id_tiled_sched => id_scheduled
    | id_next, id_scheduled => id_shifted
    | _, _ => id_unused
    end;
  isl_map_apply_range := fun a s =>
    match a, s with
    | id_shifted, id_scheduled => id_image
    | _, _ => id_unused
    end;
  isl_map_from_basic_map := fun _ => id_next;
  isl_map_dim_in := fun _ => 1%nat;
  isl_map_n_param := fun _ => 0%nat;
  isl_basic_map_affine_hull := fun b => mk_bmap (bm_dim b) 0 [];
  isl_basic_map_apply_range := fun b _ => b;
  isl_basic_set_max := fun _ _ => isl_lp_unbounded |}.

(** The pairs of the scheduled identity access: [[t] -> A[t]]. *)
Definition id_pts (m : id_map) (p x a : list Z) : Prop :=
  match m with
  | id_scheduled => length x = 1%nat /\ a = x
  | _ => False
  end.

Definition id_refs : list (cuda_stmt_access id_map) := [mk_access true false id_access (-1)].

Definition id_gen : cuda_gen id_map := mk_gen id_tiled_sched id_tiled_sched id_unused 0 1.

(** The group of the identity access, holding a shared tile of 32 elements. *)
Definition id_group : cuda_array_ref_group id_map :=
  mk_group 0 (Some id_unused) false (Some [mk_bound 32 None (-1) None None]) None 1 [0%nat].

(** What [isl_map_is_bijective] is relied on for: it holds exactly of the
    relations that are single-valued and injective. *)
Definition bijective_contract `{IslOps M} (pts : M -> list Z -> list Z -> Prop)
    (acc : M) : Prop :=
  isl_map_is_bijective acc = true <->
  (forall x y y', pts acc x y -> pts acc x y' -> y = y') /\
  (forall x x' y, pts acc x y -> pts acc x' y -> x = x').

(** The pairs of a finite relation, as a relation between tuples. *)
Definition fin_pairs (a : fin_rel) (x y : list Z) : Prop := (x, y) ∈ a.

(** What [isl_basic_set_max] is relied on for: a value it returns for the
    expression of a constraint of [bset] is an upper bound of that
    expression over the points of [bset]. *)
Definition lp_sound `{IslOps M} (bset : isl_basic_map) (pos : nat) : Prop :=
  forall c v, c ∈ bm_cons bset ->
    isl_basic_set_max bset (size_objective c pos) = isl_lp_ok v ->
    forall p pt, rel bset p [] pt -> (aff_val (size_objective c pos) p pt).1 <= v.

(** The size and lower bound recorded so far are sound for the points of
    the set, if a size has been recorded at all. *)
Definition size_sound (bset : isl_basic_map) (pos : nat) (b : cuda_array_bound) : Prop :=
  size b < 0 \/
  exists q, lb b = Some q /\
    forall p pt, rel bset p [] pt -> 0 <= coord pt pos - qp_val q p pt < size b.

(** Every constraint of a basic map has one coefficient per input
    dimension. *)
Definition bmap_wf (b : isl_basic_map) : Prop :=
  Forall (fun c => length (c_in c) = n_in (bm_dim b)) (bm_cons b).

(** Every constraint of a basic map has one coefficient per parameter,
    input dimension and output dimension. *)
Definition cons_wf (b : isl_basic_map) : Prop :=
  Forall (fun c => length (c_param c) = n_param (bm_dim b) /\
                   length (c_in c) = n_in (bm_dim b) /\
                   length (c_out c) = n_out (bm_dim b)) (bm_cons b).

(** The stride [check_stride_constraint] computes for a constraint: the
    gcd of the coefficients of its existentially quantified variables. *)
Definition div_gcd (c : isl_constraint) : Z :=
  fold_left (fun stride i =>
      Z.gcd stride (isl_constraint_get_coefficient c isl_dim_div i))
    (seq 0 (length (c_div c))) 0.

(** The constraint has the form [check_stride_constraint] looks for,
    [a + j = g f(e)] or [-a - j = g f(e)]: it has existentially quantified
    variables, whose coefficients have the gcd [g], which is not zero, and
    the coefficient of the index is 1 or -1. *)
Definition shows_stride (c : isl_constraint) (g : Z) : Prop :=
  c_div c <> [] /\
  (isl_constraint_get_coefficient c isl_dim_out 0 = 1 \/
   isl_constraint_get_coefficient c isl_dim_out 0 = -1) /\
  div_gcd c = g /\ g <> 0.

(** The shift [extract_stride] stores for such a constraint: its constant
    and its parameter coefficients, times the coefficient of the index. *)
Definition stride_shift (c : isl_constraint) : isl_qpolynomial :=
  let s := isl_constraint_get_coefficient c isl_dim_out 0 in
  qp_affine (s * c_const c) (map (Z.mul s) (c_param c)).

(** The map [i -> (i + shift)/stride] for the stride that [c] shows, and
    the hull [h] composed with it: what [check_stride] asks
    [isl_basic_map_apply_range] for when it has recorded the stride of
    [c]. *)
Definition stride_map (c : isl_constraint) : isl_basic_map :=
  shift_basic_map (stride_shift c) (div_gcd c).

Definition reindexed `{IslOps M} (h : isl_basic_map) (c : isl_constraint)
    : isl_basic_map :=
  isl_basic_map_apply_range h (stride_map c).

(** What [isl_basic_map_affine_hull] is relied on for in [check_stride]:
    the result lives in the space of the basic map, consists of
    equalities, and holds of every pair the basic map relates. *)
Definition affine_hull_contract `{IslOps M} (h : isl_basic_map) : Prop :=
  let aff := isl_basic_map_affine_hull h in
  bm_dim aff = bm_dim h /\ cons_wf aff /\
  Forall (fun c => c_eq c = true) (bm_cons aff) /\
  forall p x y, rel h p x y -> rel aff p x y.

(** What [extract_stride] assumes of the equalities it is called on
    ("a(p,i) is assumed to be an expression in only the parameters"): no
    input dimension has a coefficient. *)
Definition stride_input_free (aff : isl_basic_map) : Prop :=
  forall c g, c ∈ bm_cons aff -> shows_stride c g ->
    Forall (fun v => v = 0) (c_in c).

(** The bound [b] of array dimension [i] confines the accesses of [acc],
    for all parameter values [p] and outer dimensions [x] and every
    accessed element [y].  Without a stride, index [i] of [y] minus the
    lower bound lies in [0, size).  With a stride, the index plus the shift
    is a multiple of the stride, and the quotient minus the lower bound
    lies in [0, size). *)
Definition bound_confines_access {M} (pts : M -> list Z -> list Z -> list Z -> Prop)
    (acc : M) (i : nat) (b : cuda_array_bound) : Prop :=
  exists q, lb b = Some q /\
    forall p x y, pts acc p x y ->
      let j := coord y i in
      match shift b with
      | None => 0 <= j - qp_val q p (x ++ [j]) < size b
      | Some sh =>
          (stride b | j + qp_val sh p []) /\
          let j' := (j + qp_val sh p []) / stride b in
          0 <= j' - qp_val q p (x ++ [j']) < size b
      end.

(** What [compute_array_dim_size] relies on for the bounds [h] it scans:
    they are well formed, and the LP answers are upper bounds. *)
Definition size_contract `{IslOps M} (h : isl_basic_map) : Prop :=
  bmap_wf h /\ lp_sound (wrap_flatten h) (n_in (bm_dim h)).

(** What [isl_basic_map_apply_range] is relied on for in [check_stride]:
    the re-indexed hull contains the image of every point of the hull
    under the map [i -> (i + shift)/stride]. *)
Definition reindex_sound `{IslOps M} (h : isl_basic_map) (c : isl_constraint)
    : Prop :=
  forall p x j j', rel h p x [j] -> rel (stride_map c) p [j] [j'] ->
    rel (reindexed h c) p x [j'].

(** What the relation library is relied on for by the bound solver, for
    the access relation [acc]: the hull of the projection on index [i]
    contains that index of every access, its affine hull is a set of
    equalities that hold on it, the hull re-indexed for a stride that the
    affine hull shows contains the re-indexed points, and hull and
    re-indexed hull are well formed with LP answers that are upper
    bounds. *)
Definition solver_contract `{IslOps M} (pts : M -> list Z -> list Z -> list Z -> Prop)
    (n_index : nat) (acc : M) : Prop :=
  forall i h, (i < n_index)%nat -> access_hull n_index i acc = Some h ->
    (forall p x y, pts acc p x y -> rel h p x [coord y i]) /\
    affine_hull_contract h /\
    size_contract h /\
    forall c g, c ∈ bm_cons (isl_basic_map_affine_hull h) -> shows_stride c g ->
      reindex_sound h c /\ size_contract (reindexed h c).

(** [v] is the maximum of the expression [a] over the points of [bset]. *)
Definition is_max (bset : isl_basic_map) (a : isl_aff) (v : Z) : Prop :=
  (exists p pt, rel bset p [] pt /\ (aff_val a p pt).1 = v) /\
  (forall p pt, rel bset p [] pt -> (aff_val a p pt).1 <= v).

(** [isl_basic_set_max] returns the maximum, when there is one, of the
    expressions [compute_size_in_direction] asks about. *)
Definition lp_exact `{IslOps M} (bset : isl_basic_map) (pos : nat) : Prop :=
  forall c v, c ∈ bm_cons bset ->
    isl_constraint_involves_divs c = false ->
    0 < isl_constraint_get_coefficient c isl_dim_out pos ->
    is_max bset (size_objective c pos) v ->
    isl_basic_set_max bset (size_objective c pos) = isl_lp_ok v.

(** [isl_basic_map_apply_range] returns the composition: the hull
    re-indexed for the stride of [c] lives in the space of the hull and
    relates [x] to exactly the images, under [i -> (i + shift)/stride], of
    the indices the hull relates [x] to. *)
Definition reindex_exact `{IslOps M} (h : isl_basic_map) (c : isl_constraint)
    : Prop :=
  bm_dim (reindexed h c) = bm_dim h /\ cons_wf (reindexed h c) /\
  forall p x j', rel (reindexed h c) p x [j'] <->
    exists j, rel h p x [j] /\ rel (stride_map c) p [j] [j'].

(** The composition is returned without existentially quantified
    variables. *)
Definition no_divs (h : isl_basic_map) : Prop :=
  Forall (fun c => isl_constraint_involves_divs c = false) (bm_cons h).

(** ** The stride scenario: accesses [A[2 i + 1]] for [0 <= i < K] *)

(** [h] is a hull of the accesses: without parameters and outer
    dimensions, it holds of exactly the indices [2 i + 1], [0 <= i < K]. *)
Definition stride_access (K : Z) (h : isl_basic_map) : Prop :=
  bm_dim h = mk_dim 0 0 1 /\
  forall p j, rel h p [] [j] <-> exists i, 0 <= i < K /\ j = 2 * i + 1.

(** The hull as the library returns it for [K >= 2]: [-1 - j + 2 e = 0]
    and [1 <= j <= 2 K - 1], with [e] existentially quantified. *)
Definition stride_hull (K : Z) : isl_basic_map :=
  mk_bmap (mk_dim 0 0 1) 1
    [mk_constraint true (-1) [] [] [-1] [2];
     mk_constraint false (-1) [] [] [1] [0];
     mk_constraint false (2 * K - 1) [] [] [-1] [0]].

(** For [K = 1] the only access is [A[1]], and the hull is [j = 1]. *)
Definition point_hull : isl_basic_map :=
  mk_bmap (mk_dim 0 0 1) 0 [mk_constraint true (-1) [] [] [1] []].

(** The hull after the map [j -> (j + 1)/2], as the library returns it:
    [1 <= j' <= K]. *)
Definition reindexed_hull (K : Z) : isl_basic_map :=
  mk_bmap (mk_dim 0 0 1) 0
    [mk_constraint false (-1) [] [] [1] [];
     mk_constraint false K [] [] [-1] []].

(** The equalities of a basic map: they hold on it, and they are the
    affine hull when the basic map is written with its equalities, as the
    hulls of this section are. *)
Definition equalities (b : isl_basic_map) : isl_basic_map :=
  mk_bmap (bm_dim b) (bm_n_div b) (List.filter c_eq (bm_cons b)).

(** The LP by enumeration, for a set without parameters whose points, and
    the values of whose existentially quantified variables, lie between -8
    and 8: the largest value of the expression at the points of the set. *)
Definition window : list Z := map (fun k => Z.of_nat k - 8) (seq 0 17).

Fixpoint tuples (n : nat) : list (list Z) :=
  match n with
  | O => [[]]
  | S n => flat_map (fun v => map (cons v) (tuples n)) window
  end.

Definition window_points (b : isl_basic_map) : list (list Z) :=
  List.filter (fun pt =>
      existsb (fun e => forallb (sat_b [] [] pt e) (bm_cons b))
        (tuples (bm_n_div b)))
    (tuples (n_out (bm_dim b))).

Definition window_basic_set_max (b : isl_basic_map) (a : isl_aff) : isl_lp_result :=
  match map (fun pt => (aff_val a [] pt).1) (window_points b) with
  | [] => isl_lp_empty
  | v :: vs => isl_lp_ok (fold_left Z.max vs v)
  end.

(** The library's answers in the stride scenario for [K = 3] and for
    [K = 1]. *)
#[export] Instance stride_ops : IslOps unit := {|
  isl_union_map_empty := tt;
  isl_map_intersect := fun _ _ => tt;
  isl_map_union := fun _ _ => tt;
  isl_map_is_empty := fun _ => false;
  isl_map_dim_out := fun _ => 1%nat;
  isl_map_project_out := fun a _ _ => Some a;
  isl_map_compute_divs := fun a => a;
  isl_map_simple_hull := fun _ => stride_hull 3;
  isl_map_is_injective := fun _ => true;
  isl_map_is_bijective := fun _ => true;
  isl_map_is_subset := fun _ _ => true;
  isl_map_apply_domain := fun a _ => a;
  isl_map_apply_range := fun a _ => a;
  isl_map_from_basic_map := fun _ => tt;
  isl_map_dim_in := fun _ => 0%nat;
  isl_map_n_param := fun _ => 0%nat;
  isl_basic_map_affine_hull := equalities;
  isl_basic_map_apply_range := fun _ _ => reindexed_hull 3;
  isl_basic_set_max := window_basic_set_max |}.

(** The accesses of the stride scenario for [K = 3]. *)
Definition stride_pts (a : unit) (p x y : list Z) : Prop :=
  x = [] /\ exists i, 0 <= i < 3 /\ y = [2 * i + 1].

(** ** A stride that depends on an outer dimension

    The accesses [A[2 e - i0]] for [0 <= i0 <= 1] and [1 <= e <= 3], where
    [i0] is an outer dimension. *)
Inductive skew_map := skew_access.


(** The hull as the library returns it: [-i0 - j + 2 e' = 0],
    [0 <= i0 <= 1] and [2 - i0 <= j <= 6 - i0]. *)
Definition skew_hull : isl_basic_map :=
  mk_bmap (mk_dim 0 1 1) 1
    [mk_constraint true 0 [] [-1] [-1] [2];
     mk_constraint false 0 [] [1] [0] [0];
     mk_constraint false 1 [] [-1] [0] [0];
     mk_constraint false (-2) [] [1] [1] [0];
     mk_constraint false 6 [] [-1] [-1] [0]].

(** The hull after the map [j -> j/2], as the library returns it:
    [-i0 + 2 e' = 0], [0 <= i0 <= 1] and [2 - i0 <= 2 j' <= 6 - i0]. *)
Definition skew_reindexed : isl_basic_map :=
  mk_bmap (mk_dim 0 1 1) 1
    [mk_constraint true 0 [] [-1] [0] [2];
     mk_constraint false 0 [] [1] [0] [0];
     mk_constraint false 1 [] [-1] [0] [0];
     mk_constraint false (-2) [] [1] [2] [0];
     mk_constraint false 6 [] [-1] [-2] [0]].

#[export] Instance skew_ops : IslOps skew_map := {|
  isl_union_map_empty := skew_access;
  isl_map_intersect := fun a _ => a;
  isl_map_union := fun a _ => a;
  isl_map_is_empty := fun _ => false;
  isl_map_dim_out := fun _ => 1%nat;
  isl_map_project_out := fun a _ _ => Some a;
  isl_map_compute_divs := fun a => a;
  isl_map_simple_hull := fun _ => skew_hull;
  isl_map_is_injective := fun _ => false;
  isl_map_is_bijective := fun _ => false;
  isl_map_is_subset := fun _ _ => true;
  isl_map_apply_domain := fun a _ => a;
  isl_map_apply_range := fun a _ => a;
  isl_map_from_basic_map := fun _ => skew_access;
  isl_map_dim_in := fun _ => 1%nat;
  isl_map_n_param := fun _ => 0%nat;
  isl_basic_map_affine_hull := equalities;
  isl_basic_map_apply_range := fun _ _ => skew_reindexed;
  isl_basic_set_max := window_basic_set_max |}.

(** What [compute_array_dim_size] can have recorded while it scans the
    constraints of a set whose points are [L, L + K): no size yet, or a
    size of at least [K], with a lower bound that is [L] if the size is
    [K]. *)
Definition size_record (K L : Z) (b : cuda_array_bound) : Prop :=
  size b = -1 \/
  (K <= size b /\
   exists q, lb b = Some q /\ (size b = K -> forall p pt, qp_val q p pt = L)).

(** The constraint is a lower bound of the index that is attained at
    [L]. *)
Definition tight_at (L : Z) (c : isl_constraint) : Prop :=
  0 < coord (c_out c) 0 /\ ceil_div (- c_const c) (coord (c_out c) 0) = L.

(** ** Launch configuration: tile, block and grid sizes *)

(** [reverse_list]: swap [list[i]] and [list[len - 1 - i]] as long as
    [2 * i < len].  The guard fails from some [i] on, where the C loop
    leaves; the iterations after it change nothing.  An access outside the
    array is undefined in C and [None] here. *)
Definition reverse_list (lst : list Z) (len : nat) : option (list Z) :=
  for_range len (fun i lst =>
      if decide (2 * i < len)%nat then
        t ← lst !! i;
        v ← lst !! (len - 1 - i)%nat;
        lst ← set_at lst i v;
        set_at lst (len - 1 - i) t
      else Some lst) (Some lst).

(** [print_reverse_list]: the text written to [out]; [%d] is the decimal
    notation of the integer. *)
Definition print_reverse_list (len : nat) (lst : list Z) : option string :=
  for_range len (fun i out =>
      v ← lst !! (len - 1 - i)%nat;
      let out := if decide (i <> 0%nat) then out +:+ ", " else out in
      Some (out +:+ pretty v)) (Some "").

(** A sizes file is known by the integers [fscanf] reads at its start;
    [None] is a file that cannot be opened. *)
Definition sizes_file : Type := option (list Z).

(** [read_sizes_from_file]: overwrite [sizes[i]] by the [i]-th integer of
    the file, for [i < len], up to the first integer that cannot be read. *)
Definition read_sizes_from_file (file : sizes_file) (sizes : list Z) (len : nat)
    : option (list Z) :=
  match file with
  | None => Some sizes
  | Some ints =>
      for_range len (fun i sizes =>
          match ints !! i with
          | Some v => set_at sizes i v
          | None => Some sizes
          end) (Some sizes)
  end.

(** The fields of [struct cuda_gen] that [read_sizes] sets. *)
Record cuda_sizes := mk_sizes {
  sz_tile_size : list Z;
  sz_n_block : nat;
  sz_block_dim : list Z;
  sz_n_grid : nat;
  sz_grid_dim : list Z }.

(** [read_sizes]: read user specified sizes from "tile.sizes",
    "block.sizes" and "grid.sizes" after filling in some potentially useful
    defaults.  [block_dim] and [grid_dim] are the arrays of [gen] as the
    previous kernel left them. *)
Definition read_sizes (files : string -> sizes_file) (tile_len : nat)
    (options_tile_size : Z) (n_parallel : nat) (block_dim grid_dim : list Z)
    : option cuda_sizes :=
  let tile_size := replicate tile_len 0 in
  tile_size ← for_range tile_len (fun n tile_size =>
      set_at tile_size n options_tile_size) (Some tile_size);
  tile_size ← read_sizes_from_file (files "tile.sizes") tile_size tile_len;
  let n := n_parallel in
  let n_block := if decide (n <= 3)%nat then n else 3%nat in
  block_dim ←
    match n_block with
    | 1%nat => set_at block_dim 0 512
    | 2%nat => block_dim ← set_at block_dim 0 32; set_at block_dim 1 16
    | _ => block_dim ← set_at block_dim 0 32;
           block_dim ← set_at block_dim 1 4; set_at block_dim 2 4
    end;
  block_dim ← read_sizes_from_file (files "block.sizes") block_dim n_block;
  block_dim ← reverse_list block_dim n_block;
  let n_grid := if decide (n <= 2)%nat then n else 2%nat in
  grid_dim ←
    match n_grid with
    | 1%nat => set_at grid_dim 0 65536
    | _ => grid_dim ← set_at grid_dim 0 256; set_at grid_dim 1 256
    end;
  grid_dim ← read_sizes_from_file (files "grid.sizes") grid_dim n_grid;
  grid_dim ← reverse_list grid_dim n_grid;
  Some (mk_sizes tile_size n_block block_dim n_grid grid_dim).

(** The product of the first [n] entries of a list of sizes. *)
Definition size_product (n : nat) (sizes : list Z) : Z :=
  fold_right Z.mul 1 (take n sizes).

(** The size a sizes file gives at position [i], or else the default. *)
Definition user_size (file : sizes_file) (defaults : list Z) (i : nat) : Z :=
  match file with
  | Some ints => default (coord defaults i) (ints !! i)
  | None => coord defaults i
  end.

(** The defaults [read_sizes] fills in for [n_block] and [n_grid]. *)
Definition default_block_dim (n_block : nat) : list Z :=
  match n_block with
  | 1%nat => [512]
  | 2%nat => [32; 16]
  | _ => [32; 4; 4]
  end.

Definition default_grid_dim (n_grid : nat) : list Z :=
  match n_grid with
  | 1%nat => [65536]
  | _ => [256; 256]
  end.

(** Entry [j] of the array of [reverse_list] after [k] iterations. *)
Definition reversed_upto (l : list Z) (len k : nat) (j : nat) : option Z :=
  if decide ((j < len)%nat /\
             ((2 * j < len)%nat /\ (j < k)%nat \/
              (2 * (len - 1 - j) < len)%nat /\ (len - 1 - j < k)%nat))
  then l !! (len - 1 - j)%nat else l !! j.

(** Size files of a kernel: two thread-block sizes given, the rest left to
    the defaults. *)
Definition sample_files (name : string) : sizes_file :=
  if decide (name = "block.sizes") then Some [8; 4] else None.

(** ** Schedule construction *)

(** The operations on sets ([isl_set], type [U]) that [cuda.c] only calls. *)
Class IslSetOps (U : Type) := {
  isl_set_get_dim : U -> isl_dim;
  isl_set_universe : isl_dim -> U;
  isl_set_add_dims : U -> isl_dim_type -> nat -> U;
  isl_set_from_basic_set : isl_basic_map -> U;
  isl_set_intersect : U -> U -> U }.

(** Restricting the range of a schedule to a set. *)
Class IslRangeOps (M U : Type) := {
  isl_union_map_intersect_range : M -> U -> M }.

(** [add_params]: add [n] parameters; their names [prefix%d] are not
    modelled, parameters are known by their positions. *)
Definition add_params `{IslSetOps U} (set : U) (n : nat) : U :=
  isl_set_add_dims set isl_dim_param n.

(** [parametrize]: equate the [n] dimensions of [set] starting at [first]
    to freshly created parameters. *)
Definition parametrize `{IslSetOps U} (set : U) (first n : nat) : option U :=
  let nparam := n_param (isl_set_get_dim set) in
  let set := add_params set n in
  let dim := isl_set_get_dim set in
  bset ← for_range n (fun i bset =>
      c ← isl_constraint_set_coefficient (isl_equality_alloc dim) isl_dim_param
             (nparam + i) (-1);
      c ← isl_constraint_set_coefficient c isl_dim_set (first + i) 1;
      Some (isl_basic_map_add_constraint bset c)) (Some (isl_basic_map_universe dim));
  Some (isl_set_intersect set (isl_set_from_basic_set bset)).

Definition parametrization `{IslSetOps U} (dim : isl_dim) (len first n : nat)
    : option U :=
  let dim := isl_dim_add dim isl_dim_set len in
  parametrize (isl_set_universe dim) first n.

(** [add_bounded_parameters]: add [len] parameters [p[i]] with bounds
    [0 <= p[i] < size[i]]. *)
Definition add_bounded_parameters `{IslSetOps U} (set : U) (len : nat) (size : list Z)
    : option U :=
  let nparam := n_param (isl_set_get_dim set) in
  let set := isl_set_add_dims set isl_dim_param len in
  let dim := isl_set_get_dim set in
  bset ← for_range len (fun i bset =>
      c ← isl_constraint_set_coefficient (isl_inequality_alloc dim) isl_dim_param
             (nparam + i) 1;
      let bset := isl_basic_map_add_constraint bset c in
      c ← isl_constraint_set_coefficient (isl_inequality_alloc dim) isl_dim_param
             (nparam + i) (-1);
      sz ← size !! i;
      let c := isl_constraint_set_constant c (sz - 1) in
      Some (isl_basic_map_add_constraint bset c)) (Some (isl_basic_map_universe dim));
  Some (isl_set_intersect set (isl_set_from_basic_set bset)).

(** The space of a union map holds its parameters only. *)
Definition isl_union_map_get_dim `{IslOps M} (umap : M) : isl_dim :=
  mk_dim (isl_map_n_param umap) 0 0.

(** [tile_schedule]: tile the B loops over the tile sizes and then
    tile/wrap the T1 loops over the blocks.  The result comes with the
    values stored in [gen->tiled_len] and [gen->shared_len]. *)
Definition tile_schedule `{IslOps M} (options_wrap : bool)
    (untiled_len tile_first tile_len : nat) (tile_size : list Z)
    (n_grid : nat) (grid_dim : list Z) (sched : M) : option (M * nat * nat) :=
  let dim := isl_union_map_get_dim sched in
  tiling ← tile dim untiled_len tile_first tile_len tile_size;
  block_tiling ←
    (if options_wrap
     then wrap dim (untiled_len + tile_len) tile_first n_grid grid_dim
     else tile dim (untiled_len + tile_len) tile_first n_grid grid_dim);
  let tiled_len := (untiled_len + tile_len + n_grid)%nat in
  let tiling := isl_map_apply_range (isl_map_from_basic_map tiling)
                  (isl_map_from_basic_map block_tiling) in
  let sched := isl_map_apply_range sched tiling in
  let shared_len := (tile_first + tile_len + n_grid)%nat in
  Some (sched, tiled_len, shared_len).

(** [parametrize_tiled_schedule]: equate the outer [tile_first] loops to
    the parameters [h] and the block loops to the parameters [b]. *)
Definition parametrize_tiled_schedule `{IslOps M} `{IslSetOps U} `{!IslRangeOps M U}
    (tiled_len tile_first n_grid : nat) (sched : M) : option M :=
  let dim := isl_union_map_get_dim sched in
  par ← parametrization dim tiled_len 0 tile_first;
  let sched := isl_union_map_intersect_range sched par in
  let dim := isl_union_map_get_dim sched in
  par ← parametrization dim tiled_len (tile_first + n_grid) n_grid;
  Some (isl_union_map_intersect_range sched par).

(** [thread_tile_schedule]: tile/wrap the P1 loops over the threads.  The
    result comes with the values stored in [gen->thread_tiled_len] and
    [gen->shared_len]. *)
Definition thread_tile_schedule `{IslOps M} `{IslSetOps U} `{!IslRangeOps M U}
    (options_wrap : bool) (tiled_len shared_len n_block : nat) (block_dim : list Z)
    (tile_first tile_len n_grid : nat) (sched : M) : option (M * nat * nat) :=
  let dim := isl_union_map_get_dim sched in
  tiling ←
    (if options_wrap
     then wrap dim tiled_len shared_len n_block block_dim
     else tile dim tiled_len shared_len n_block block_dim);
  let thread_tiled_len := (tiled_len + n_block)%nat in
  let sched := isl_map_apply_range sched (isl_map_from_basic_map tiling) in
  par ← parametrization dim thread_tiled_len
          (tile_first + tile_len + n_grid + n_block) n_block;
  let sched := isl_union_map_intersect_range sched par in
  let shared_len := (tile_first + tile_len + n_grid)%nat in
  Some (sched, thread_tiled_len, shared_len).

(** The values of a C [int]; a product that leaves them is undefined. *)
Definition int_range (v : Z) : Prop := - 2 ^ 31 <= v < 2 ^ 31.

#[export] Instance int_range_dec v : Decision (int_range v).
Proof. unfold int_range. apply _. Defined.

(** [scale_tile_loops]: if the user asked for it, scale the shared memory
    tile loops (T1P and T2) of [sched] by [tile_size[i]]; without wrapping,
    additionally scale the T1P loops by [grid_dim[i]]. *)
Definition scale_tile_loops `{IslOps M} (options_scale_tile_loops options_wrap : bool)
    (tiled_len tile_first n_grid tile_len : nat) (tile_size grid_dim : list Z)
    (sched : M) : option M :=
  if negb options_scale_tile_loops then Some sched
  else
    let dim := isl_union_map_get_dim sched in
    let dim := isl_dim_add dim isl_dim_in tiled_len in
    let dim := isl_dim_add dim isl_dim_out tiled_len in
    scale ← for_range tiled_len (fun i scale =>
        f ← (if decide (tile_first <= i < tile_first + n_grid)%nat then
               f ← tile_size !! (i - tile_first)%nat;
               if negb options_wrap then
                 g ← grid_dim !! (i - tile_first)%nat;
                 if decide (int_range (f * g)) then Some (f * g) else None
               else Some f
             else if decide (tile_first + n_grid <= i < tile_first + n_grid + tile_len)%nat
             then tile_size !! (i - (tile_first + n_grid))%nat
             else Some 1);
        c ← isl_constraint_set_coefficient (isl_equality_alloc dim) isl_dim_in i f;
        c ← isl_constraint_set_coefficient c isl_dim_out i (-1);
        Some (isl_basic_map_add_constraint scale c)) (Some (isl_basic_map_universe dim));
    Some (isl_map_apply_range sched (isl_map_from_basic_map scale)).

(** [scale_thread_tile_loops]: if we are not performing "wrapping" and if
    the user asked for it, scale the thread tile loops (P1T) of [sched] by
    [block_dim[i]]. *)
Definition scale_thread_tile_loops `{IslOps M}
    (options_scale_tile_loops options_wrap : bool)
    (thread_tiled_len shared_len n_block : nat) (block_dim : list Z)
    (sched : M) : option M :=
  if options_wrap then Some sched
  else if negb options_scale_tile_loops then Some sched
  else
    let dim := isl_union_map_get_dim sched in
    let dim := isl_dim_add dim isl_dim_in thread_tiled_len in
    let dim := isl_dim_add dim isl_dim_out thread_tiled_len in
    scale ← for_range thread_tiled_len (fun i scale =>
        f ← (if decide (shared_len <= i < shared_len + n_block)%nat
             then block_dim !! (i - shared_len)%nat else Some 1);
        c ← isl_constraint_set_coefficient (isl_equality_alloc dim) isl_dim_in i f;
        c ← isl_constraint_set_coefficient c isl_dim_out i (-1);
        Some (isl_basic_map_add_constraint scale c)) (Some (isl_basic_map_universe dim));
    Some (isl_map_apply_range sched (isl_map_from_basic_map scale)).

(** [scale_access_tile_loops]: if we are not performing "wrapping" and if
    the user asked for it, scale the [n_tile] loops starting at [first] of
    [sched] by [block_dim[i]]. *)
Definition scale_access_tile_loops `{IslOps M}
    (options_scale_tile_loops options_wrap : bool) (block_dim : list Z)
    (sched : M) (len first n_tile : nat) : option M :=
  if options_wrap then Some sched
  else if negb options_scale_tile_loops then Some sched
  else
    let dim := isl_union_map_get_dim sched in
    let dim := isl_dim_add dim isl_dim_in len in
    let dim := isl_dim_add dim isl_dim_out len in
    scale ← for_range len (fun i scale =>
        f ← (if decide (first <= i < first + n_tile)%nat
             then block_dim !! (i - first)%nat else Some 1);
        c ← isl_constraint_set_coefficient (isl_equality_alloc dim) isl_dim_in i f;
        c ← isl_constraint_set_coefficient c isl_dim_out i (-1);
        Some (isl_basic_map_add_constraint scale c)) (Some (isl_basic_map_universe dim));
    Some (isl_map_apply_range sched (isl_map_from_basic_map scale)).

(** [permutation]: given an array [pos] mapping input dimensions to the
    corresponding output dimension, construct the corresponding map. *)
Definition permutation (dim : isl_dim) (pos : list nat) (len : nat)
    : option isl_basic_map :=
  let dim := isl_dim_add dim isl_dim_in len in
  let dim := isl_dim_add dim isl_dim_out len in
  for_range len (fun i bmap =>
      c ← isl_constraint_set_coefficient (isl_equality_alloc dim) isl_dim_in i (-1);
      pos_i ← pos !! i;
      c ← isl_constraint_set_coefficient c isl_dim_out pos_i 1;
      Some (isl_basic_map_add_constraint bmap c)) (Some (isl_basic_map_universe dim)).

(** ** The contract of the set and schedule operations

    [spts s p y]: the point [y] belongs to the set [s] at the parameter
    values [p]; [mpts m p x y]: the relation [m] relates [x] to [y] at [p].
    Parameters are known by position; a set or relation does not look at
    the values of parameters it does not have. *)

Definition set_laws `{IslSetOps U} (spts : U -> list Z -> list Z -> Prop) : Prop :=
  (forall d, isl_set_get_dim (isl_set_universe d) = d) /\
  (forall s t n, isl_set_get_dim (isl_set_add_dims s t n) =
                 isl_dim_add (isl_set_get_dim s) t n) /\
  (forall d p y, spts (isl_set_universe d) p y <->
                 n_in d = 0%nat /\ length y = n_out d) /\
  (forall s n p y, spts (isl_set_add_dims s isl_dim_param n) p y <-> spts s p y) /\
  (forall b p y, spts (isl_set_from_basic_set b) p y <-> rel b p [] y) /\
  (forall a b p y, spts (isl_set_intersect a b) p y <-> spts a p y /\ spts b p y) /\
  (forall a b, isl_set_get_dim (isl_set_intersect a b) = isl_set_get_dim a) /\
  (forall s p y, spts s p y ->
     n_in (isl_set_get_dim s) = 0%nat /\ length y = n_out (isl_set_get_dim s)).

Definition map_laws `{IslOps M} (mpts : M -> list Z -> list Z -> list Z -> Prop) : Prop :=
  (forall a b p x z, mpts (isl_map_apply_range a b) p x z <->
                     exists y, mpts a p x y /\ mpts b p y z) /\
  (forall b p x y, mpts (isl_map_from_basic_map b) p x y <-> rel b p x y) /\
  (forall a b, isl_map_n_param (isl_map_apply_range a b) =
               (isl_map_n_param a `max` isl_map_n_param b)%nat) /\
  (forall b, isl_map_n_param (isl_map_from_basic_map b) = n_param (bm_dim b)).

Definition range_laws `{IslOps M} `{IslSetOps U} `{!IslRangeOps M U}
    (mpts : M -> list Z -> list Z -> list Z -> Prop)
    (spts : U -> list Z -> list Z -> Prop) : Prop :=
  (forall m s p x y, mpts (isl_union_map_intersect_range m s) p x y <->
                     mpts m p x y /\ spts s p y) /\
  (forall m s, isl_map_n_param (isl_union_map_intersect_range m s) =
               (isl_map_n_param m `max` n_param (isl_set_get_dim s))%nat).

(** ** Sets and relations kept as the expressions that build them

    A model of the library in which every law of the contract holds by the
    meaning given to the expressions; queries about a relation (emptiness,
    hulls, ...) are not answered by it. *)

Inductive sym_set :=
| ss_universe (d : isl_dim)
| ss_add_dims (s : sym_set) (t : isl_dim_type) (n : nat)
| ss_from_basic_set (b : isl_basic_map)
| ss_intersect (a b : sym_set).

Fixpoint sym_set_dim (s : sym_set) : isl_dim :=
  match s with
  | ss_universe d => d
  | ss_add_dims s t n => isl_dim_add (sym_set_dim s) t n
  | ss_from_basic_set b => bm_dim b
  | ss_intersect a b => sym_set_dim a
  end.

Fixpoint sym_set_pts (s : sym_set) (p y : list Z) : Prop :=
  match s with
  | ss_universe d => n_in d = 0%nat /\ length y = n_out d
  | ss_add_dims s isl_dim_param n => sym_set_pts s p y
  | ss_add_dims s _ n => False
  | ss_from_basic_set b => rel b p [] y
  | ss_intersect a b => sym_set_pts a p y /\ sym_set_pts b p y
  end.

Definition sym_set_ops : IslSetOps sym_set := {|
  isl_set_get_dim := sym_set_dim;
  isl_set_universe := ss_universe;
  isl_set_add_dims := ss_add_dims;
  isl_set_from_basic_set := ss_from_basic_set;
  isl_set_intersect := ss_intersect |}.

Inductive sym_map :=
| sm_empty
| sm_from_basic_map (b : isl_basic_map)
| sm_intersect (a b : sym_map)
| sm_union (a b : sym_map)
| sm_apply_domain (a b : sym_map)
| sm_apply_range (a b : sym_map)
| sm_intersect_range (m : sym_map) (s : sym_set)
| sm_insert (m : sym_map) (n : nat)
| sm_fix (m : sym_map) (pos : nat) (v : Z).

Fixpoint sym_map_pts (m : sym_map) (p x y : list Z) : Prop :=
  match m with
  | sm_empty => False
  | sm_from_basic_map b => rel b p x y
  | sm_intersect a b => sym_map_pts a p x y /\ sym_map_pts b p x y
  | sm_union a b => sym_map_pts a p x y \/ sym_map_pts b p x y
  | sm_apply_domain a b => exists x0, sym_map_pts a p x0 y /\ sym_map_pts b p x0 x
  | sm_apply_range a b => exists y0, sym_map_pts a p x y0 /\ sym_map_pts b p y0 y
  | sm_intersect_range m s => sym_map_pts m p x y /\ sym_set_pts s p y
  | sm_insert m n => exists pre y0, y = pre ++ y0 /\ length pre = n /\ sym_map_pts m p x y0
  | sm_fix m pos v => sym_map_pts m p x y /\ coord y pos = v
  end.

Fixpoint sym_map_n_param (m : sym_map) : nat :=
  match m with
  | sm_empty => 0
  | sm_from_basic_map b => n_param (bm_dim b)
  | sm_intersect a b | sm_union a b | sm_apply_domain a b | sm_apply_range a b =>
      sym_map_n_param a `max` sym_map_n_param b
  | sm_intersect_range m s => sym_map_n_param m `max` n_param (sym_set_dim s)
  | sm_insert m _ | sm_fix m _ _ => sym_map_n_param m
  end.

Definition sym_map_ops : IslOps sym_map := {|
  isl_union_map_empty := sm_empty;
  isl_map_intersect := sm_intersect;
  isl_map_union := sm_union;
  isl_map_is_empty := fun _ => false;
  isl_map_dim_out := fun _ => 0%nat;
  isl_map_project_out := fun _ _ _ => None;
  isl_map_compute_divs := fun m => m;
  isl_map_simple_hull := fun _ => isl_basic_map_universe (mk_dim 0 0 0);
  isl_map_is_injective := fun _ => false;
  isl_map_is_bijective := fun _ => false;
  isl_map_is_subset := fun _ _ => false;
  isl_map_apply_domain := sm_apply_domain;
  isl_map_apply_range := sm_apply_range;
  isl_map_from_basic_map := sm_from_basic_map;
  isl_map_dim_in := fun _ => 0%nat;
  isl_map_n_param := sym_map_n_param;
  isl_basic_map_affine_hull := fun b => b;
  isl_basic_map_apply_range := fun a _ => a;
  isl_basic_set_max := fun _ _ => isl_lp_error |}.

Definition sym_range_ops : IslRangeOps sym_map sym_set := {|
  isl_union_map_intersect_range := sm_intersect_range |}.

(** The equality [parametrize] adds for index [i]. *)
Definition param_equality (dim : isl_dim) (nparam first i : nat) : list isl_constraint :=
  [mk_constraint true 0 (<[(nparam + i)%nat := -1]> (zeros (n_param dim)))
     (zeros (n_in dim)) (<[(first + i)%nat := 1]> (zeros (n_out dim))) []].

(** The two inequalities [add_bounded_parameters] adds for index [i]. *)
Definition param_bounds (dim : isl_dim) (nparam : nat) (size : list Z) (i : nat)
    : list isl_constraint :=
  [mk_constraint false 0 (<[(nparam + i)%nat := 1]> (zeros (n_param dim)))
     (zeros (n_in dim)) (zeros (n_out dim)) [];
   mk_constraint false (coord size i - 1) (<[(nparam + i)%nat := -1]> (zeros (n_param dim)))
     (zeros (n_in dim)) (zeros (n_out dim)) []].

(** The tuple a tiling of [n] coordinates from [first] relates [x] to:
    [wrap] or [tile], as the option asks. *)
Definition band_image (options_wrap : bool) (first n : nat) (sizes : list Z)
    (x : list Z) : list Z :=
  if options_wrap then wrap_image first n sizes x else tile_image first n sizes x.

(** The tuple [tile_schedule] relates the schedule point [x] to. *)
Definition block_image (options_wrap : bool) (tile_first tile_len : nat)
    (tile_size : list Z) (n_grid : nat) (grid_dim : list Z) (x : list Z) : list Z :=
  band_image options_wrap tile_first n_grid grid_dim
    (tile_image tile_first tile_len tile_size x).

(** The equality a scaling loop adds for index [i] and factor [f]. *)
Definition scale_equality (dim : isl_dim) (f : nat -> Z) (i : nat) : list isl_constraint :=
  [mk_constraint true 0 (zeros (n_param dim)) (<[i := f i]> (zeros (n_in dim)))
     (<[i := -1]> (zeros (n_out dim))) []].

(** The factor [scale_tile_loops] gives to coordinate [i]. *)
Definition tile_scale_factor (options_wrap : bool) (tile_first n_grid tile_len : nat)
    (tile_size grid_dim : list Z) (i : nat) : Z :=
  if decide (tile_first <= i < tile_first + n_grid)%nat then
    if options_wrap then coord tile_size (i - tile_first)
    else coord tile_size (i - tile_first) * coord grid_dim (i - tile_first)
  else if decide (tile_first + n_grid <= i < tile_first + n_grid + tile_len)%nat
  then coord tile_size (i - (tile_first + n_grid))
  else 1.

(** The factor [scale_thread_tile_loops] and [scale_access_tile_loops] give
    to coordinate [i]. *)
Definition block_scale_factor (first n : nat) (block_dim : list Z) (i : nat) : Z :=
  if decide (first <= i < first + n)%nat then coord block_dim (i - first) else 1.

(** Coordinate-wise product of a tuple with the factors [f]. *)
Definition scaled (f : nat -> Z) (x : list Z) : list Z :=
  imap (fun i v => f i * v) x.

(** A schedule to start from: every statement instance of one dimension is
    related to every point of the given dimension. *)
Definition sample_schedule (len : nat) : sym_map :=
  sm_from_basic_map (isl_basic_map_universe (mk_dim 0 1 len)).

(** ** Interchange for unrolling *)

(** Storing into a C array at a position it does not have is undefined. *)
Definition store_at {A : Type} (l : list A) (pos : nat) (v : A) : option (list A) :=
  if decide (pos < length l)%nat then Some (<[pos := v]> l) else None.

(** [isl_constraint_involves_dims (c, isl_dim_in, j, 1)]. *)
Definition isl_constraint_involves_in (c : isl_constraint) (j : nat) : bool :=
  bool_decide (coord (c_in c) j <> 0).

(** The queries of [interchange_for_unroll] about the private accesses. *)
Class IslUnrollOps (M : Type) := {
  isl_union_map_extract_map : M -> nat -> nat -> M;
  isl_map_foreach_basic_map : M -> list isl_basic_map;
  isl_basic_map_has_defining_equality : isl_basic_map -> nat -> option isl_constraint }.

(** [check_unroll]: set [unroll[j]] if the input dimension [j] is involved
    in the index expression represented by [bmap].  An output dimension
    without defining equality fails the assertion. *)
Definition check_unroll `{IslUnrollOps M} (bmap : isl_basic_map) (unroll : list Z)
    : option (list Z) :=
  let n_in := n_in (bm_dim bmap) in
  let n_out := n_out (bm_dim bmap) in
  for_range n_out (fun i unroll =>
      c ← isl_basic_map_has_defining_equality bmap i;
      for_range n_in (fun j unroll =>
          if isl_constraint_involves_in c j then set_at unroll j 1 else Some unroll)
        (Some unroll)) (Some unroll).

(** [for (i = from; i < to; ++i) if (unroll[i]) ...]: whether the loop
    meets a set entry. *)
Fixpoint unroll_set_from (unroll : list Z) (from n : nat) : option bool :=
  match n with
  | O => Some false
  | S n =>
      v ← unroll !! from;
      if decide (v <> 0) then Some true else unroll_set_from unroll (S from) n
  end.

Definition unroll_set (unroll : list Z) (from to : nat) : option bool :=
  unroll_set_from unroll from (to - from).

(** The part of [interchange_for_unroll] that follows the inspection of the
    accesses: [None] where the schedule is returned as it is, or else the
    permutation and the value of [gen->first_unroll]. *)
Definition unroll_permutation (unroll : list Z) (shared_len len thread_tiled_len : nat)
    (perm : list nat) : option (option (list nat * Z)) :=
  outer ← unroll_set unroll 0 shared_len;
  if (outer : bool) then Some None
  else
    inner ← unroll_set unroll shared_len len;
    if negb (inner : bool) then Some None
    else
      rest ← unroll_set unroll len thread_tiled_len;
      if (rest : bool) then Some None
      else
        st ← for_range thread_tiled_len (fun i '(perm, j) =>
            v ← unroll !! i;
            if decide (v = 0) then perm ← store_at perm i j; Some (perm, S j)
            else Some (perm, j)) (Some (perm, 0%nat));
        let '(perm, j) := st in
        let first_unroll := 1 + Z.of_nat j in
        st ← for_range len (fun i '(perm, j) =>
            v ← unroll !! i;
            if decide (v <> 0) then perm ← store_at perm i j; Some (perm, S j)
            else Some (perm, j)) (Some (perm, j));
        Some (Some (st.1, first_unroll)).

(** One array of the kernel, as [interchange_for_unroll] looks at it. *)
Record cuda_array_info (M : Type) := mk_array {
  array_n_index : nat;
  array_refs : list (cuda_stmt_access M);
  array_groups : list (cuda_array_ref_group M) }.
Arguments mk_array {M}.
Arguments array_n_index {M}.
Arguments array_refs {M}.
Arguments array_groups {M}.

(** The first half of [interchange_for_unroll]: the loops involved in any
    of the index expressions for any of the private accesses. *)
Definition private_access_loops `{IslOps M} `{!IslUnrollOps M}
    (arrays : list (cuda_array_info M)) (thread_tiled_len : nat) (sched : M)
    : option (list Z) :=
  let unroll := replicate thread_tiled_len 0 in
  fold_left (fun unroll array =>
      fold_left (fun unroll group =>
          match private_bound group with
          | None => unroll
          | Some _ =>
              let access := group_access_relation (array_refs array) group true true in
              let access := isl_map_apply_domain access sched in
              let acc := isl_union_map_extract_map access (array_n_index array)
                           thread_tiled_len in
              fold_left (fun unroll bmap => unroll ≫= check_unroll bmap)
                (isl_map_foreach_basic_map acc) unroll
          end) (array_groups array) unroll) arrays (Some unroll).

(** [interchange_for_unroll]: find all loops involved in any of the index
    expressions for any of the private accesses, move them innermost and
    mark them as requiring unrolling by setting [gen->first_unroll].  The
    result is the schedule and [gen->first_unroll]; [perm] is the content
    of the fresh array [perm]. *)
Definition interchange_for_unroll `{IslOps M} `{!IslUnrollOps M}
    (arrays : list (cuda_array_info M))
    (thread_tiled_len shared_len n_parallel n_block : nat) (perm : list nat)
    (sched : M) : option (M * Z) :=
  let len := (shared_len + n_parallel + n_block)%nat in
  unroll ← private_access_loops arrays thread_tiled_len sched;
  r ← unroll_permutation unroll shared_len len thread_tiled_len perm;
  match r with
  | None => Some (sched, -1)
  | Some (perm, first_unroll) =>
      permute ← permutation (isl_union_map_get_dim sched) perm thread_tiled_len;
      Some (isl_map_apply_range sched (isl_map_from_basic_map permute), first_unroll)
  end.

(** The equality [permutation] adds for index [i]. *)
Definition permutation_equality (dim : isl_dim) (pos : list nat) (i : nat)
    : list isl_constraint :=
  [mk_constraint true 0 (zeros (n_param dim)) (<[i := -1]> (zeros (n_in dim)))
     (<[default 0%nat (pos !! i) := 1]> (zeros (n_out dim))) []].

(** The number of entries of [unroll] before [i] that are not set, and
    that are set. *)
Definition count_clear (unroll : list Z) (i : nat) : nat :=
  length (filter (fun v => v = 0) (take i unroll)).

Definition count_set (unroll : list Z) (i : nat) : nat :=
  length (filter (fun v => v <> 0) (take i unroll)).

(** The position [interchange_for_unroll] moves loop [i] to. *)
Definition unroll_position (unroll : list Z) (i : nat) : nat :=
  if decide (coord unroll i = 0) then count_clear unroll i
  else (count_clear unroll (length unroll) + count_set unroll i)%nat.

(** The schedule can be interchanged: no loop outside the thread-tile band
    is involved in a private access and some loop inside it is. *)
Definition unroll_movable (unroll : list Z) (shared_len len thread_tiled_len : nat)
    : Prop :=
  (forall i, (i < shared_len)%nat -> coord unroll i = 0) /\
  (exists i, (shared_len <= i < len)%nat /\ coord unroll i <> 0) /\
  (forall i, (len <= i < thread_tiled_len)%nat -> coord unroll i = 0).

(** A library that knows the defining equalities of the identity access
    of a one-dimensional array from a schedule of three loops. *)
Definition sample_unroll_ops : IslUnrollOps sym_map := {|
  isl_union_map_extract_map := fun m _ _ => m;
  isl_map_foreach_basic_map := fun _ =>
    [mk_bmap (mk_dim 0 3 1) 0 [mk_constraint true 0 [] [0; 1; 0] [-1] []]];
  isl_basic_map_has_defining_equality := fun b i => bm_cons b !! i |}.

Definition sample_private_array : cuda_array_info sym_map :=
  mk_array 1 [mk_access true false sm_empty 0]
    [mk_group 0 None false None (Some [dummy_bound]) 1 [0%nat]].

(** ** Placement of the copy code *)

(** The inner loop of [set_last_shared] from index [i] on, [n] iterations
    being left: whether it is left by [break], because the lower bound or
    the shift of some index involves the parameter at [pos].  [involves q
    pos] is [isl_qpolynomial_involves_dims (q, isl_dim_param, pos, 1)], on
    a pointer that may be NULL. *)
Fixpoint bounds_involve (involves : option isl_qpolynomial -> nat -> bool)
    (bounds : list cuda_array_bound) (pos : nat) (i n : nat) : option bool :=
  match n with
  | O => Some false
  | S n =>
      b ← bounds !! i;
      if involves (lb b) pos then Some true
      else match shift b with
           | None => bounds_involve involves bounds pos (S i) n
           | Some sh =>
               if involves (Some sh) pos then Some true
               else bounds_involve involves bounds pos (S i) n
           end
  end.

(** [for (j = from - 1; j >= 0; --j)] of [set_last_shared]: the value of
    [j] the loop is left with. *)
Fixpoint last_shared_from (involves : option isl_qpolynomial -> nat -> bool)
    (bounds : list cuda_array_bound) (first_shared n_index : nat) (from : nat)
    : option Z :=
  match from with
  | O => Some (-1)
  | S j =>
      found ← bounds_involve involves bounds (first_shared + j) 0 n_index;
      if (found : bool) then Some (Z.of_nat j)
      else last_shared_from involves bounds first_shared n_index j
  end.

(** [set_last_shared]: look for the last shared tile loop that affects the
    offset of the shared or private tile; the result is the new value of
    [array->last_shared]. *)
Definition set_last_shared {M} (involves : option isl_qpolynomial -> nat -> bool)
    (first_shared shared_len n_index : nat) (group : cuda_array_ref_group M)
    (last_shared : Z) : option Z :=
  let bounds :=
    match private_bound group with
    | Some bounds => Some bounds
    | None => shared_bound group
    end in
  match bounds with
  | None => Some last_shared
  | Some bounds => last_shared_from involves bounds first_shared n_index shared_len
  end.

(** The fields of [struct cuda_array_info] that place the copy code. *)
Record cuda_array_levels := mk_levels {
  array_last_shared : Z;
  array_print_shared_level : Z }.

Definition set_print_shared_level (a : cuda_array_levels) (level : Z) : cuda_array_levels :=
  mk_levels (array_last_shared a) level.

(** [print_kernel_for_head] at a loop of the given [level]: any array for
    which we are allowed to print copying instructions at this level, but
    have not done so already, is marked; the flag tells whether copying
    instructions are printed. *)
Definition print_kernel_for_head (level : Z) (arrays : list cuda_array_levels)
    : list cuda_array_levels * bool :=
  fold_left (fun '(arrays, print) i =>
      match arrays !! i with
      | None => (arrays, print)
      | Some a =>
          if decide (array_print_shared_level a >= 0) then (arrays, print)
          else if decide (array_last_shared a > level) then (arrays, print)
          else (<[i := set_print_shared_level a level]> arrays, true)
      end) (seq 0 (length arrays)) (arrays, false).

(** [print_kernel_for_foot]: whether instructions for copying from shared
    memory are printed at the end of a loop of the given [level]. *)
Definition print_kernel_for_foot (level : Z) (arrays : list cuda_array_levels) : bool :=
  existsb (fun a => bool_decide (array_print_shared_level a = level)) arrays.

(** The loops met on the way down to a statement. *)
Definition enter_loops (levels : list Z) (arrays : list cuda_array_levels)
    : list cuda_array_levels :=
  fold_left (fun arrays level => (print_kernel_for_head level arrays).1) levels arrays.

(** ** References of an array and names of the local copies *)

(** [collect_references]: collect all references to the array called
    [array_name]; the statements are given by their lists of accesses.  The
    result is [array->n_ref] and [array->refs], which is filled from the
    front and holds [n_ref] entries. *)
Definition collect_references {M} (isl_map_get_tuple_name : M -> option string)
    (array_name : string) (stmts : list (list (cuda_stmt_access M)))
    : option (nat * list (cuda_stmt_access M)) :=
  let n := fold_left (fun n stmt =>
      fold_left (fun n access =>
          match isl_map_get_tuple_name (ref_access access) with
          | Some name => if decide (array_name = name) then S n else n
          | None => n
          end) stmt n) stmts 0%nat in
  let n_ref := n in
  refs ← fold_left (fun refs stmt =>
      fold_left (fun refs access =>
          refs ← refs;
          match isl_map_get_tuple_name (ref_access access) with
          | Some name =>
              if decide (array_name = name) then
                if decide (length refs < n_ref)%nat then Some (refs ++ [access]) else None
              else Some refs
          | None => Some refs
          end) stmt refs) stmts (Some []);
  Some (n_ref, refs).

(** [print_array_name]: the name of the local copy of a given group of
    array references. *)
Definition print_array_name {M} (array_name : string) (array_n_group : Z)
    (group : cuda_array_ref_group M) : string :=
  let '(out, global) :=
    match private_bound group with
    | Some _ => ("private_", false)
    | None =>
        match shared_bound group with
        | Some _ => ("shared_", false)
        | None => ("", true)
        end
    end in
  let out := out +:+ array_name in
  if negb global && bool_decide (array_n_group > 1)
  then out +:+ "_" +:+ pretty (nr group) else out.

(** Whether a polynomial, as it was built, mentions the parameter at
    [pos]. *)
Fixpoint aff_mentions_param (a : isl_aff) (pos : nat) : bool :=
  match a with
  | isl_constraint_get_bound c _ => bool_decide (coord (c_param c) pos <> 0)
  | isl_aff_ceil a | isl_aff_neg a | isl_aff_add_coefficient_si a _ _ =>
      aff_mentions_param a pos
  end.

Definition qp_mentions_param (q : option isl_qpolynomial) (pos : nat) : bool :=
  match q with
  | None => true
  | Some (qp_affine cst par) => bool_decide (coord par pos <> 0)
  | Some (isl_qpolynomial_from_aff a) => aff_mentions_param a pos
  end.

(** What [isl_qpolynomial_involves_dims] promises: a polynomial takes the
    same value at parameter values that differ only in a parameter it does
    not involve. *)
Definition involves_sound (involves : option isl_qpolynomial -> nat -> bool) : Prop :=
  forall q pos, involves (Some q) pos = false ->
    forall p p' x, length p = length p' ->
      (forall k, k <> pos -> coord p k = coord p' k) ->
      qp_val q p x = qp_val q p' x.

(** The value of a bound does not change with the parameters at the
    positions [lo <= k < hi]. *)
Definition offset_independent (b : cuda_array_bound) (lo hi : Z) : Prop :=
  forall q, lb b = Some q \/ shift b = Some q ->
    forall p p' x, length p = length p' ->
      (forall k, ~ (lo <= Z.of_nat k < hi) -> coord p k = coord p' k) ->
      qp_val q p x = qp_val q p' x.

(** The first of the [levels] at which an array with the given
    [last_shared] may be copied, or [-1]. *)
Definition first_allowed_level (last_shared : Z) (levels : list Z) : Z :=
  default (-1) (head (filter (fun level => last_shared <= level) levels)).

(** The bounds [set_last_shared] looks at: those of the private tile, or
    else those of the shared tile. *)
Definition tile_bounds {M} (group : cuda_array_ref_group M)
    : option (list cuda_array_bound) :=
  match private_bound group with
  | Some bounds => Some bounds
  | None => shared_bound group
  end.

(** What one call of [print_kernel_for_head] does to one array. *)
Definition mark_level (level : Z) (a : cuda_array_levels) : cuda_array_levels :=
  if decide (array_print_shared_level a >= 0) then a
  else if decide (array_last_shared a > level) then a
  else set_print_shared_level a level.

(** Whether an access refers to the array called [array_name]. *)
Definition refers_to {M} (isl_map_get_tuple_name : M -> option string)
    (array_name : string) (access : cuda_stmt_access M) : bool :=
  bool_decide (isl_map_get_tuple_name (ref_access access) = Some array_name).

(** A group with a private tile whose offset is the second parameter. *)
Definition sample_tiled_group : cuda_array_ref_group unit :=
  mk_group 0 None false None
    (Some [mk_bound 4 (Some (qp_affine 0 [0; 1; 0])) 1 None None]) 1 [0%nat].

(** ** Counting the reference groups *)

(** [array->n_group] as [group_array_references] leaves it: the number of
    group leaders that [extract_array_groups] is called with. *)
Definition array_n_group `{IslOps M} (n_index : nat)
    (array_refs : list (cuda_stmt_access M)) (sched : M) (leader0 : list nat) : Z :=
  let groups := populate_array_references array_refs sched in
  let n := length groups in
  let leader := leader0 in
  let '(groups, leader, n_group) := group_overlapping_writes n groups leader in
  let groups := fold_left (fun groups i =>
      if decide (leader_at leader i = i)
      then <[i := compute_group_shared_bound n_index (group_at groups i)]> groups
      else groups) (seq 0 n) groups in
  let '(groups, leader, n_group) :=
    group_common_shared_memory_tile n_index n groups leader n_group in
  n_group.

(** How many [k < i] satisfy [f]. *)
Fixpoint count_upto (f : nat -> bool) (i : nat) : nat :=
  match i with
  | O => 0
  | S i => count_upto f i + (if f i then 1 else 0)
  end.

(** How many of the first [i] references belong to the group that starts
    at [r], and how many groups they form. *)
Definition members (rep : nat -> nat) (i r : nat) : nat :=
  count_upto (fun k => bool_decide (rep k = r)) i.

Definition n_roots (rep : nat -> nat) (i : nat) : nat :=
  count_upto (fun k => bool_decide (rep k = k)) i.

(** Invariant of the inner loop of [group_overlapping_writes] on the
    counters [n_group] and [n_ref]. *)
Definition count_inner_inv {M} (n i m : nat) (refs0 : nat -> list nat)
    (st : grouping M) (rep : nat -> nat) : Prop :=
  length (gr_groups st) = n /\ length (gr_leader st) = n /\ (i < n)%nat /\
  leader_inv i (gr_leader st) rep /\
  (gr_l st = i \/ ((gr_l st < i)%nat /\ rep (gr_l st) = gr_l st /\ (m <= gr_l st)%nat)) /\
  gr_n_group st = Z.of_nat (n - i - 1) + Z.of_nat (n_roots rep i) +
                  (if decide (gr_l st = i) then 1 else 0) /\
  (forall r, (r < i)%nat -> rep r = r ->
     n_ref (group_at (gr_groups st) r) =
     Z.of_nat (members rep i r) + (if decide (r = gr_l st) then 1 else 0)) /\
  (gr_l st = i -> n_ref (group_at (gr_groups st) i) = 1) /\
  (forall k, refs (group_at (gr_groups st) k) = refs0 k).

(** Invariant of its outer loop. *)
Definition count_outer_inv {M} (n i : nat) (refs0 : nat -> list nat)
    (st : grouping M) (rep : nat -> nat) : Prop :=
  length (gr_groups st) = n /\ length (gr_leader st) = n /\ (i <= n)%nat /\
  leader_inv i (gr_leader st) rep /\
  gr_n_group st = Z.of_nat (n - i) + Z.of_nat (n_roots rep i) /\
  (forall r, (r < i)%nat -> rep r = r ->
     n_ref (group_at (gr_groups st) r) = Z.of_nat (members rep i r)) /\
  (forall k, refs (group_at (gr_groups st) k) = refs0 k).

(** What the passes after [group_overlapping_writes] keep: [n_group] is
    the number of groups and [n_ref] of the first element of a group is
    the number of its references. *)
Definition counted_inv {M} (n : nat) (refs0 : nat -> list nat)
    (groups : list (cuda_array_ref_group M)) (leader : list nat) (n_group : Z)
    (rep : nat -> nat) : Prop :=
  length groups = n /\ length leader = n /\
  leader_inv n leader rep /\
  n_group = Z.of_nat (n_roots rep n) /\
  (forall r, (r < n)%nat -> rep r = r ->
     n_ref (group_at groups r) = Z.of_nat (members rep n r)) /\
  (forall k, refs (group_at groups k) = refs0 k).

(** The group [extract_array_groups] makes of the group under construction
    that starts at [i], at position [pos]. *)
Definition extracted_group {M} (n : nat) (groups : list (cuda_array_ref_group M))
    (rep : nat -> nat) (idx : nat -> nat) (pos i : nat) : cuda_array_ref_group M :=
  let gi := group_at groups i in
  mk_group (Z.of_nat pos) (access gi) (write gi) (shared_bound gi) (private_bound gi)
    (n_ref gi) (map idx (filter (fun k => rep k = i) (seq 0 n))).

(** Two references of the one-thread kernel that access different elements
    of the array, each from both statement instances. *)
Definition disjoint_refs : list (cuda_stmt_access fin_rel) :=
  [mk_access true true [([0; 0], [5]); ([0; 1], [5])] (-1);
   mk_access true true [([0; 0], [9]); ([0; 1], [9])] (-1)].

(** ** Statement bodies *)

(** An access with its place in the text of the statement: the fields
    [text_offset] and [text_len] of [struct cuda_stmt_access]. *)
Record cuda_stmt_access_text (M : Type) := mk_access_text {
  text_access : cuda_stmt_access M;
  text_offset : Z;
  text_len : Z }.
Arguments mk_access_text {M}.
Arguments text_access {M}.
Arguments text_offset {M}.
Arguments text_len {M}.

(** [print_stmt_body]: the text of the statement, with every access
    replaced by what [print_access] prints for it.  [fwrite] and [fprintf]
    read the text from [last] on; reading outside the text is undefined,
    and so is a sum that is no [int]. *)
Definition print_stmt_body {M} (print_access : cuda_stmt_access M -> string)
    (text : string) (accesses : list (cuda_stmt_access_text M)) : option string :=
  st ← fold_left (fun st access =>
      '(out, last) ← st;
      if decide (0 <= last <= text_offset access /\
                 text_offset access <= Z.of_nat (String.length text)) then
        let out := out +:+ String.substring (Z.to_nat last)
                             (Z.to_nat (text_offset access - last)) text in
        if decide (int_range (text_offset access + text_len access)) then
          let last := text_offset access + text_len access in
          Some (out +:+ print_access (text_access access), last)
        else None
      else None) accesses (Some ("", 0));
  let '(out, last) := st in
  if decide (0 <= last <= Z.of_nat (String.length text)) then
    Some (out +:+ String.substring (Z.to_nat last) (String.length text - Z.to_nat last) text
              +:+ String (Ascii.ascii_of_nat 10) EmptyString)
  else None.

(** The accesses follow one another in the text, from position [last]
    on, without overlap. *)
Fixpoint placed_from {M} (text : string) (last : Z)
    (accesses : list (cuda_stmt_access_text M)) : Prop :=
  match accesses with
  | [] => last <= Z.of_nat (String.length text)
  | access :: accesses =>
      last <= text_offset access /\ 0 <= text_len access /\
      text_offset access + text_len access <= Z.of_nat (String.length text) /\
      placed_from text (text_offset access + text_len access) accesses
  end.

(** The text an access takes up in the statement. *)
Definition access_text {M} (text : string) (access : cuda_stmt_access_text M) : string :=
  String.substring (Z.to_nat (text_offset access)) (Z.to_nat (text_len access)) text.

(** ** Outermost tilable bands *)

(** The fields of [struct band_info] that [separate_bands] uses. *)
Record band_info (M : Type) := mk_band_info {
  band_tile_first : Z;
  band_tile_len : Z;
  band_n_parallel : Z;
  band_prefix : M }.
Arguments mk_band_info {M}.
Arguments band_tile_first {M}.
Arguments band_tile_len {M}.
Arguments band_n_parallel {M}.
Arguments band_prefix {M}.

(** [cmp_band]: comparison function that returns a non-zero value for
    band_infos with different tile_len fields or different n_parallel
    fields.  A difference that is no [int] is undefined. *)
Definition cmp_band {M} (info1 info2 : band_info M) : option Z :=
  if decide (band_tile_len info1 <> band_tile_len info2) then
    if decide (int_range (band_tile_len info1 - band_tile_len info2))
    then Some (band_tile_len info1 - band_tile_len info2) else None
  else
    if decide (int_range (band_n_parallel info1 - band_n_parallel info2))
    then Some (band_n_parallel info1 - band_n_parallel info2) else None.

(** [separate_bands]: group bands with the same values for tile_len and
    n_parallel; the prefix schedule is extended with a fixed coordinate
    that is different for each such group.  [extend_range umap src_len
    dst_len val] extends [umap] with coordinates of value [val]. *)
Definition separate_bands {M} (extend_range : M -> Z -> Z -> Z -> M)
    (info : list (band_info M)) (n : nat) : option (list (band_info M)) :=
  st ← for_range n (fun i '(info, j) =>
      cur ← info !! i;
      let l := band_tile_first cur in
      j ← (if decide (i <> 0%nat) then
             prev ← info !! (i - 1)%nat;
             if decide (band_tile_len cur <> band_tile_len prev \/
                        band_n_parallel cur <> band_n_parallel prev)
             then Some (j + 1) else Some j
           else Some j);
      if decide (int_range (l + 1)) then
        info ← store_at info i
          (mk_band_info (l + 1) (band_tile_len cur) (band_n_parallel cur)
             (extend_range (band_prefix cur) l (l + 1) j));
        Some (info, j)
      else None) (Some (info, 0));
  Some st.1.

(** Whether two bands have the same tile_len and n_parallel. *)
Definition same_tiling {M} (info1 info2 : band_info M) : Prop :=
  band_tile_len info1 = band_tile_len info2 /\
  band_n_parallel info1 = band_n_parallel info2.

#[export] Instance same_tiling_dec {M} (info1 info2 : band_info M) :
  Decision (same_tiling info1 info2).
Proof. unfold same_tiling. apply _. Defined.

(** The coordinate [separate_bands] gives to the band at position [i]. *)
Fixpoint band_class {M} (info : list (band_info M)) (i : nat) : Z :=
  match i with
  | O => 0
  | S k =>
      match info !! k, info !! S k with
      | Some prev, Some cur =>
          if decide (same_tiling cur prev) then band_class info k
          else band_class info k + 1
      | _, _ => band_class info k
      end
  end.

(** The list is sorted by [cmp_band]. *)
Definition sorted_bands {M} (info : list (band_info M)) : Prop :=
  forall a b info1 info2, (a <= b)%nat ->
    info !! a = Some info1 -> info !! b = Some info2 ->
    exists c, cmp_band info1 info2 = Some c /\ c <= 0.

(** Three bands, the last two with the same tiling. *)
Definition sample_bands : list (band_info unit) :=
  [mk_band_info 1 2 1 tt; mk_band_info 1 3 2 tt; mk_band_info 1 3 2 tt].

(** The entry [separate_bands] stores for the band [cur], given the
    coordinate [j]. *)
Definition separated {M} (extend_range : M -> Z -> Z -> Z -> M) (cur : band_info M)
    (j : Z) : band_info M :=
  mk_band_info (band_tile_first cur + 1) (band_tile_len cur) (band_n_parallel cur)
    (extend_range (band_prefix cur) (band_tile_first cur) (band_tile_first cur + 1) j).

(** ** Schedule of the copy code *)

(** The operations on the range of a map that [access_schedule] calls:
    [isl_map_insert (map, isl_dim_out, pos, n)], [isl_map_fix_si (map,
    isl_dim_out, pos, value)] and [isl_map_plain_is_fixed (map,
    isl_dim_out, pos, NULL)]. *)
Class IslInsertOps (M : Type) := {
  isl_map_insert : M -> nat -> nat -> M;
  isl_map_fix_si : M -> nat -> Z -> M;
  isl_map_plain_is_fixed : M -> nat -> bool }.

(** [for (; first > 0; first--)] of [access_schedule]: the value of
    [first] the loop is left with. *)
Fixpoint first_not_fixed `{IslInsertOps M} (sched : M) (n_tile first : nat) : nat :=
  match first with
  | O => O
  | S f =>
      if negb (isl_map_plain_is_fixed sched (first + n_tile - 1)) then first
      else first_not_fixed sched n_tile f
  end.

(** [access_schedule]: construct a schedule for iterating over all
    elements in the given piece of an array, tiled or wrapped over the
    threads.  [sched] is the result of [shift_access] and [nvar] the
    dimension of the piece. *)
Definition access_schedule `{IslOps M} `{IslSetOps U} `{!IslRangeOps M U}
    `{!IslInsertOps M} (options_scale_tile_loops options_wrap : bool) (n_block : nat)
    (block_dim : list Z) (nvar : nat) (sched : M) : option M :=
  let n_tile := n_block in
  let '(sched, nvar) :=
    if decide (nvar < n_tile)%nat then
      let sched := isl_map_insert sched 0 (n_tile - nvar) in
      let sched := fold_left (fun sched i => isl_map_fix_si sched i 0)
                     (seq 0 (n_tile - nvar)) sched in
      (sched, n_tile)
    else (sched, nvar) in
  let first := (nvar - n_tile)%nat in
  let first := first_not_fixed sched n_tile first in
  let dim := isl_union_map_get_dim sched in
  tiling ←
    (if options_wrap
     then wrap dim nvar first n_tile block_dim
     else tile dim nvar first n_tile block_dim);
  let sched := isl_map_apply_range sched (isl_map_from_basic_map tiling) in
  par ← parametrization dim (nvar + n_tile) (first + n_tile) n_tile;
  let usched := isl_union_map_intersect_range sched par in
  scale_access_tile_loops options_scale_tile_loops options_wrap block_dim usched
    (nvar + n_tile) first n_tile.

(** The contract of the operations on the range. *)
Definition insert_laws `{IslOps M} `{!IslInsertOps M}
    (mpts : M -> list Z -> list Z -> list Z -> Prop) : Prop :=
  (forall m n p x y, mpts (isl_map_insert m 0 n) p x y <->
     exists pre y0, y = pre ++ y0 /\ length pre = n /\ mpts m p x y0) /\
  (forall m pos v p x y, mpts (isl_map_fix_si m pos v) p x y <->
     mpts m p x y /\ coord y pos = v) /\
  (forall m n, isl_map_n_param (isl_map_insert m 0 n) = isl_map_n_param m) /\
  (forall m pos v, isl_map_n_param (isl_map_fix_si m pos v) = isl_map_n_param m).

Definition sym_insert_ops : IslInsertOps sym_map := {|
  isl_map_insert := fun m _ n => sm_insert m n;
  isl_map_fix_si := sm_fix;
  isl_map_plain_is_fixed := fun _ _ => false |}.

(** The factors [access_schedule] scales the tiled coordinates by. *)
Definition copy_scale_factor (options_scale_tile_loops options_wrap : bool)
    (first n_tile : nat) (block_dim : list Z) (i : nat) : Z :=
  if options_wrap || negb options_scale_tile_loops then 1
  else block_scale_factor first n_tile block_dim i.

(** * Properties *)

(** ** Constraints *)

Lemma dot_nil_r c : dot c [] = 0.
Proof. by destruct c. Qed.

Lemma dot_zeros n x : dot (zeros n) x = 0.
Proof.
  revert x. induction n as [|n IH]; intros [|b x]; simpl; try done.
  rewrite IH. lia.
Qed.

Lemma coord_nil i : coord [] i = 0.
Proof. by destruct i. Qed.

Lemma coord_zeros n i : coord (zeros n) i = 0.
Proof.
  unfold coord, zeros. destruct (replicate n 0 !! i) as [v|] eqn:E; [|done].
  apply lookup_replicate in E as [-> _]. done.
Qed.

Lemma dot_insert c x j v :
  (j < length c)%nat ->
  dot (<[j := v]> c) x = dot c x + (v - coord c j) * coord x j.
Proof.
  revert x j. induction c as [|a c IH]; intros x j Hj; simpl in Hj; [lia|].
  destruct j as [|j], x as [|b x]; simpl; unfold coord; simpl;
    try (rewrite ?dot_nil_r; lia).
  rewrite IH by lia. unfold coord. lia.
Qed.

Lemma coord_insert_eq c j v : (j < length c)%nat -> coord (<[j := v]> c) j = v.
Proof. intros. unfold coord. by rewrite list_lookup_insert_eq. Qed.

Lemma coord_insert_ne c i j v : i <> j -> coord (<[i := v]> c) j = coord c j.
Proof. intros. unfold coord. by rewrite list_lookup_insert_ne. Qed.

Lemma set_at_Some l pos v : (pos < length l)%nat -> set_at l pos v = Some (<[pos := v]> l).
Proof. intros. unfold set_at. by rewrite decide_True. Qed.

Lemma length_zeros n : length (zeros n) = n.
Proof. apply length_replicate. Qed.

Lemma for_range_add n (body : nat -> isl_basic_map -> option isl_basic_map)
    (cs : nat -> list isl_constraint) b0 :
  (forall i b, (i < n)%nat -> body i b = Some (add_constraints b (cs i))) ->
  for_range n body (Some b0) = Some (add_constraints b0 (flat_map cs (seq 0 n))).
Proof.
  unfold for_range. induction n as [|n IH]; intros Hb.
  - simpl. unfold add_constraints. rewrite app_nil_r. by destruct b0.
  - rewrite seq_S, fold_left_app, IH by (intros; apply Hb; lia). simpl.
    rewrite Hb by lia. f_equal. unfold add_constraints; simpl.
    rewrite flat_map_app. simpl. by rewrite app_nil_r, <- app_assoc.
Qed.

Lemma Forall_flat_map_seq {A} (P : A -> Prop) (f : nat -> list A) n :
  Forall P (flat_map f (seq 0 n)) <-> forall i, (i < n)%nat -> Forall P (f i).
Proof.
  rewrite Forall_flat_map, Forall_forall. split.
  - intros H i Hi. apply H, elem_of_seq. lia.
  - intros H i Hi%elem_of_seq. apply H. lia.
Qed.

Ltac len_solve := rewrite ?length_insert, ?length_zeros; simpl; lia.

Ltac eval_simpl :=
  unfold sat, eval; cbn [c_eq c_const c_param c_in c_out c_div dot];
  repeat first
    [ rewrite dot_insert by len_solve
    | rewrite dot_zeros
    | rewrite coord_insert_eq by len_solve
    | rewrite coord_insert_ne by lia
    | rewrite coord_zeros
    | rewrite dot_nil_r ].

Lemma tile_constraints n_par len first tile_len tile_size :
  (first + tile_len <= len)%nat -> length tile_size = tile_len ->
  tile (mk_dim n_par 0 0) len first tile_len tile_size =
  Some (mk_bmap (mk_dim n_par len (len + tile_len)) 0
          (flat_map (tile_copy n_par len first tile_len) (seq 0 (len - tile_len)) ++
           flat_map (tile_split n_par len first tile_len tile_size) (seq 0 tile_len))).
Proof.
  intros Hr Hl. unfold tile. simpl.
  rewrite (for_range_add _ _ (tile_copy n_par len first tile_len)).
  2:{ intros i b Hi. unfold isl_constraint_set_coefficient, isl_equality_alloc. simpl.
      rewrite set_at_Some by (case_decide; len_solve). simpl.
      rewrite set_at_Some by (case_decide; len_solve). done. }
  rewrite (for_range_add _ _ (tile_split n_par len first tile_len tile_size)).
  2:{ intros i b Hi.
      destruct (lookup_lt_is_Some_2 tile_size i) as [sz Hsz]; [lia|].
      rewrite Hsz. simpl.
      unfold isl_constraint_set_coefficient, isl_equality_alloc, isl_inequality_alloc. simpl.
      repeat (rewrite set_at_Some by len_solve; simpl).
      unfold tile_split, coord. rewrite Hsz. simpl.
      unfold add_constraints, isl_basic_map_add_constraint. simpl.
      f_equal. f_equal. rewrite <- !app_assoc. done. }
  done.
Qed.

Lemma coord_pos sizes k :
  Forall (fun s => 0 < s) sizes -> (k < length sizes)%nat -> 0 < coord sizes k.
Proof.
  intros HF Hk. destruct (lookup_lt_is_Some_2 sizes k Hk) as [s Hs].
  unfold coord. rewrite Hs. simpl. eapply Forall_lookup_1 in HF; eauto.
Qed.

Lemma split_unique x s q r :
  0 < s -> - x + s * q + r = 0 -> 0 <= r -> 0 <= s - 1 - r -> q = x / s /\ r = x mod s.
Proof.
  intros Hs He H0 H1. split.
  - apply (Z.div_unique x s q r); lia.
  - apply (Z.mod_unique x s q r); lia.
Qed.

Lemma tile_rel n_par len first tile_len sizes b :
  (first + tile_len <= len)%nat -> length sizes = tile_len ->
  Forall (fun s => 0 < s) sizes ->
  tile (mk_dim n_par 0 0) len first tile_len sizes = Some b ->
  forall p x y, rel b p x y <-> tile_spec len first tile_len sizes x y.
Proof.
  intros Hr Hl Hpos Ht p x y.
  rewrite tile_constraints in Ht by done. injection Ht as <-.
  unfold rel, tile_spec. simpl. split.
  - intros (Hx & Hy & e & He & HF). apply Forall_app in HF as [H1 H2].
    rewrite Forall_flat_map_seq in H1, H2.
    split; [done|]. split; [done|]. split; [|split].
    + intros i Hi. specialize (H1 i ltac:(lia)). unfold tile_copy in H1.
      cbv zeta in H1. rewrite Forall_singleton in H1. revert H1.
      destruct (decide (i < first)%nat); [|lia]. eval_simpl. lia.
    + intros i Hi. specialize (H1 (i - tile_len)%nat ltac:(lia)).
      unfold tile_copy in H1. cbv zeta in H1. rewrite Forall_singleton in H1. revert H1.
      destruct (decide (i - tile_len < first)%nat); [lia|].
      replace (i - tile_len + tile_len)%nat with i by lia.
      replace (i - tile_len + 2 * tile_len)%nat with (i + tile_len)%nat by lia.
      eval_simpl. lia.
    + intros k Hk. specialize (H2 k Hk). unfold tile_split in H2. cbv zeta in H2.
      rewrite !Forall_cons in H2. destruct H2 as (Ha & Hb & Hc & _).
      revert Ha Hb Hc. eval_simpl. intros Ha Hb Hc.
      pose proof (coord_pos sizes k Hpos ltac:(lia)) as Hs.
      replace (first + tile_len + k)%nat with (first + k + tile_len)%nat by lia.
      destruct (split_unique (coord x (first + k)) (coord sizes k)
                  (coord y (first + k)) (coord y (first + k + tile_len))) as [-> ->];
        try lia.
      split; [done|]. split; [done|]. apply Z.mod_pos_bound. lia.
  - intros (Hx & Hy & H1 & H2 & H3). split; [done|]. split; [done|].
    exists []. split; [done|]. apply Forall_app. rewrite !Forall_flat_map_seq. split.
    + intros i Hi. unfold tile_copy. cbv zeta. apply Forall_singleton. case_decide.
      * eval_simpl. rewrite H1 by lia. lia.
      * eval_simpl.
        specialize (H2 (i + tile_len)%nat ltac:(lia)).
        replace (i + tile_len + tile_len)%nat with (i + 2 * tile_len)%nat in H2 by lia.
        lia.
    + intros k Hk. destruct (H3 k Hk) as (Hq & Hm & Hb).
      pose proof (coord_pos sizes k Hpos ltac:(lia)) as Hs.
      replace (first + tile_len + k)%nat with (first + k + tile_len)%nat in * by lia.
      unfold tile_split. cbv zeta. repeat apply Forall_cons_2; [| | |apply Forall_nil_2]; eval_simpl.
      * rewrite Hq, Hm. pose proof (Z.div_mod (coord x (first + k)) (coord sizes k)). lia.
      * lia.
      * lia.
Qed.

Lemma dot_app a b x y :
  length a = length x -> dot (a ++ b) (x ++ y) = dot a x + dot b y.
Proof.
  revert x. induction a as [|u a IH]; intros [|v x] Hl; simpl in *; try lia.
  rewrite IH by lia. lia.
Qed.

Lemma coord_app_l a b i : (i < length a)%nat -> coord (a ++ b) i = coord a i.
Proof. intros. unfold coord. by rewrite lookup_app_l. Qed.

Lemma coord_app_r a b i : (length a <= i)%nat -> coord (a ++ b) i = coord b (i - length a).
Proof. intros. unfold coord. by rewrite lookup_app_r. Qed.

Lemma coord_take n l i : (i < n)%nat -> coord (take n l) i = coord l i.
Proof. intros. unfold coord. by rewrite lookup_take_lt. Qed.

Lemma coord_drop n l i : coord (drop n l) i = coord l (n + i).
Proof. unfold coord. by rewrite lookup_drop. Qed.

Lemma dot_project_out c y q first n :
  (first + n <= length c)%nat -> length y = (length c - n)%nat -> length q = n ->
  dot c (take first y ++ q ++ drop first y) =
  dot (take first c ++ drop (first + n) c) y + dot (take n (drop first c)) q.
Proof.
  intros Hr Hy Hq.
  replace (dot (take first c ++ drop (first + n) c) y)
    with (dot (take first c ++ drop (first + n) c) (take first y ++ drop first y))
    by (by rewrite take_drop).
  rewrite (dot_app (take first c)) by (rewrite !length_take; lia).
  rewrite <- (take_drop first c) at 1.
  rewrite <- (take_drop n (drop first c)) at 1.
  rewrite drop_drop.
  rewrite dot_app by (rewrite !length_take; lia).
  rewrite dot_app by (rewrite length_take, length_drop; lia).
  lia.
Qed.

(** Projecting out output dimensions quantifies them existentially. *)
Lemma project_out_rel b first n p x y :
  (first + n <= n_out (bm_dim b))%nat ->
  Forall (fun c => length (c_out c) = n_out (bm_dim b) /\
                   length (c_div c) = bm_n_div b) (bm_cons b) ->
  rel (isl_basic_map_project_out b first n) p x y <->
  exists q, length q = n /\ rel b p x (take first y ++ q ++ drop first y).
Proof.
  intros Hr Hwf. unfold rel. simpl.
  assert (Hsat : forall e q c, length y = (n_out (bm_dim b) - n)%nat ->
            length e = bm_n_div b -> length q = n ->
            length (c_out c) = n_out (bm_dim b) -> length (c_div c) = bm_n_div b ->
            sat p x y (e ++ q) (project_out_constraint first n c) <->
            sat p x (take first y ++ q ++ drop first y) e c).
  { intros e q c Hy He Hq Hco Hcd. unfold sat, eval. simpl.
    rewrite (dot_app (c_div c)) by lia.
    rewrite (dot_project_out (c_out c) y q first n) by lia.
    destruct (c_eq c); split; lia. }
  split.
  - intros (Hx & Hy & e & He & HF).
    exists (drop (bm_n_div b) e). rewrite length_drop.
    split; [lia|]. split; [done|].
    split. { rewrite !length_app, length_take, !length_drop. lia. }
    exists (take (bm_n_div b) e). rewrite length_take. split; [lia|].
    rewrite Forall_forall. intros c Hc.
    rewrite Forall_forall in Hwf. destruct (Hwf c Hc) as [Hco Hcd].
    rewrite Forall_map, Forall_forall in HF. specialize (HF c Hc).
    rewrite <- (take_drop (bm_n_div b) e) in HF.
    apply Hsat in HF; try done; rewrite ?length_take, ?length_drop; lia.
  - intros (q & Hq & Hx & Hy & e & He & HF).
    rewrite !length_app, length_take, !length_drop in Hy.
    split; [done|]. split; [lia|].
    exists (e ++ q). rewrite length_app. split; [lia|].
    rewrite Forall_map, Forall_forall. intros c Hc.
    rewrite Forall_forall in Hwf, HF. destruct (Hwf c Hc) as [Hco Hcd].
    apply Hsat; try done; try lia. by apply HF.
Qed.

Lemma wrap_constraints n_par len first wrap_len wrap_size :
  (first + wrap_len <= len)%nat -> length wrap_size = wrap_len ->
  wrap (mk_dim n_par 0 0) len first wrap_len wrap_size =
  Some (isl_basic_map_project_out (wrap_unprojected n_par len first wrap_len wrap_size)
          (first + 2 * wrap_len) wrap_len).
Proof.
  intros Hr Hl. unfold wrap. simpl.
  rewrite (for_range_add _ _ (wrap_copy n_par len first wrap_len)).
  2:{ intros i b Hi. unfold isl_constraint_set_coefficient, isl_equality_alloc. simpl.
      rewrite set_at_Some by len_solve. simpl.
      rewrite set_at_Some by (case_decide; len_solve). done. }
  rewrite (for_range_add _ _ (wrap_split n_par len first wrap_len wrap_size)).
  2:{ intros i b Hi.
      destruct (lookup_lt_is_Some_2 wrap_size i) as [sz Hsz]; [lia|].
      rewrite Hsz. simpl.
      unfold isl_constraint_set_coefficient, isl_equality_alloc, isl_inequality_alloc. simpl.
      repeat (rewrite set_at_Some by len_solve; simpl).
      unfold wrap_split, coord. rewrite Hsz. simpl.
      unfold add_constraints, isl_basic_map_add_constraint. simpl.
      f_equal. f_equal. rewrite <- !app_assoc. done. }
  done.
Qed.

Lemma wrap_unprojected_wf n_par len first wrap_len wrap_size :
  let b := wrap_unprojected n_par len first wrap_len wrap_size in
  Forall (fun c => length (c_out c) = n_out (bm_dim b) /\
                   length (c_div c) = bm_n_div b) (bm_cons b).
Proof.
  simpl. apply Forall_app. rewrite !Forall_flat_map_seq. split; intros i Hi.
  - unfold wrap_copy. cbv zeta. rewrite Forall_singleton. simpl.
    by rewrite length_insert, length_zeros.
  - unfold wrap_split. cbv zeta. rewrite !Forall_cons. simpl.
    rewrite !length_insert, length_zeros. repeat split; try done.
Qed.

Lemma coord_block_lt y q f i :
  (f <= length y)%nat -> (i < f)%nat -> coord (take f y ++ q ++ drop f y) i = coord y i.
Proof.
  intros. rewrite coord_app_l by (rewrite length_take; lia). by apply coord_take.
Qed.

Lemma coord_block_mid y q f k :
  (f <= length y)%nat -> (k < length q)%nat ->
  coord (take f y ++ q ++ drop f y) (f + k) = coord q k.
Proof.
  intros. rewrite coord_app_r by (rewrite length_take; lia).
  rewrite length_take, coord_app_l by lia. f_equal. lia.
Qed.

Lemma coord_block_ge y q f i :
  (f <= length y)%nat -> (f <= i)%nat ->
  coord (take f y ++ q ++ drop f y) (i + length q) = coord y i.
Proof.
  intros. rewrite coord_app_r by (rewrite length_take; lia).
  rewrite length_take, coord_app_r by lia. rewrite coord_drop. f_equal. lia.
Qed.

Lemma wrap_rel n_par len first wrap_len sizes b :
  (first + wrap_len <= len)%nat -> length sizes = wrap_len ->
  Forall (fun s => 0 < s) sizes ->
  wrap (mk_dim n_par 0 0) len first wrap_len sizes = Some b ->
  forall p x y, rel b p x y <-> wrap_spec len first wrap_len sizes x y.
Proof.
  intros Hr Hl Hpos Hw p x y.
  rewrite wrap_constraints in Hw by done. injection Hw as <-.
  rewrite project_out_rel;
    [|simpl; lia|apply wrap_unprojected_wf].
  unfold rel, wrap_spec, wrap_unprojected.
  cbn [bm_dim bm_n_div bm_cons n_in n_out]. split.
  - intros (q & Hq & Hx & Hy & e & He & HF).
    rewrite !length_app, length_take, length_drop in Hy.
    apply Forall_app in HF as [H1 H2]. rewrite Forall_flat_map_seq in H1, H2.
    assert (Hfy : (first + 2 * wrap_len <= length y)%nat) by lia.
    split; [done|]. split; [lia|]. split; [|split].
    + intros i Hi. specialize (H1 i ltac:(lia)). unfold wrap_copy in H1.
      cbv zeta in H1. rewrite Forall_singleton in H1. revert H1.
      destruct (decide (i < first + wrap_len)%nat); [|lia]. eval_simpl.
      rewrite coord_block_lt by lia. lia.
    + intros i Hi. specialize (H1 i ltac:(lia)). unfold wrap_copy in H1.
      cbv zeta in H1. rewrite Forall_singleton in H1. revert H1.
      destruct (decide (i < first + wrap_len)%nat); [lia|]. eval_simpl.
      replace (i + 2 * wrap_len)%nat with (i + wrap_len + length q)%nat by lia.
      rewrite coord_block_ge by lia. lia.
    + intros k Hk. specialize (H2 k Hk). unfold wrap_split in H2. cbv zeta in H2.
      rewrite !Forall_cons in H2. destruct H2 as (Ha & Hb & Hc & _).
      revert Ha Hb Hc. eval_simpl.
      rewrite !(coord_block_lt y q) by lia.
      rewrite (coord_block_mid y q) by lia.
      intros Ha Hb Hc.
      pose proof (coord_pos sizes k Hpos ltac:(lia)) as Hs.
      assert (Hxy : coord y (first + k) = coord x (first + k)).
      { specialize (H1 (first + k)%nat ltac:(lia)). unfold wrap_copy in H1.
        cbv zeta in H1. rewrite Forall_singleton in H1. revert H1.
        destruct (decide (first + k < first + wrap_len)%nat); [|lia]. eval_simpl.
        rewrite coord_block_lt by lia. lia. }
      destruct (split_unique (coord x (first + k)) (coord sizes k)
                  (coord q k) (coord y (first + wrap_len + k))) as [_ ->]; try lia.
      split; [done|]. apply Z.mod_pos_bound. lia.
  - intros (Hx & Hy & H1 & H2 & H3).
    exists (map (fun k => coord x (first + k) / coord sizes k) (seq 0 wrap_len)).
    rewrite length_map, length_seq. split; [done|].
    set (q := map _ _).
    assert (Hq : length q = wrap_len) by (unfold q; by rewrite length_map, length_seq).
    assert (Hqk : forall k, (k < wrap_len)%nat ->
              coord q k = coord x (first + k) / coord sizes k).
    { intros k Hk. unfold q, coord at 1. rewrite list_lookup_fmap.
      rewrite lookup_seq_lt by done. done. }
    split; [done|]. split.
    { rewrite !length_app, length_take, length_drop. lia. }
    exists []. split; [done|]. apply Forall_app. rewrite !Forall_flat_map_seq. split.
    + intros i Hi. unfold wrap_copy. cbv zeta. apply Forall_singleton. case_decide.
      * eval_simpl. rewrite coord_block_lt by lia. rewrite H1 by lia. lia.
      * eval_simpl.
        replace (i + 2 * wrap_len)%nat with (i + wrap_len + length q)%nat by lia.
        rewrite coord_block_ge by lia. rewrite H2 by lia. lia.
    + intros k Hk. destruct (H3 k Hk) as (Hm & Hb).
      pose proof (coord_pos sizes k Hpos ltac:(lia)) as Hs.
      unfold wrap_split. cbv zeta.
      repeat apply Forall_cons_2; [| | |apply Forall_nil_2]; eval_simpl;
        rewrite ?(coord_block_lt y q) by lia;
        rewrite ?(coord_block_mid y q) by lia.
      * rewrite Hqk, Hm, H1 by lia.
        pose proof (Z.div_mod (coord x (first + k)) (coord sizes k)). lia.
      * lia.
      * lia.
Qed.

Lemma coord_map_seq (f : nat -> Z) n k : (k < n)%nat -> coord (map f (seq 0 n)) k = f k.
Proof.
  intros. unfold coord. rewrite list_lookup_fmap, lookup_seq_lt by done. done.
Qed.

Lemma tile_spec_image len first tile_len sizes x :
  (first + tile_len <= len)%nat -> length sizes = tile_len ->
  Forall (fun s => 0 < s) sizes -> length x = len ->
  tile_spec len first tile_len sizes x (tile_image first tile_len sizes x).
Proof.
  intros Hr Hl Hpos Hx. unfold tile_spec, tile_image.
  split; [done|]. split.
  { rewrite !length_app, length_take, !length_map, !length_seq, length_drop. lia. }
  split; [|split].
  - intros i Hi. rewrite coord_app_l by (rewrite length_take; lia). by apply coord_take.
  - intros i Hi.
    rewrite coord_app_r by (rewrite length_take; lia). rewrite length_take.
    rewrite coord_app_r by (rewrite length_map, length_seq; lia).
    rewrite coord_app_r by (rewrite !length_map, !length_seq; lia).
    rewrite !length_map, !length_seq, coord_drop. f_equal. lia.
  - intros k Hk.
    pose proof (coord_pos sizes k Hpos ltac:(lia)) as Hs.
    assert (Hm : coord (take first x ++
                map (fun k => coord x (first + k) / coord sizes k) (seq 0 tile_len) ++
                map (fun k => coord x (first + k) mod coord sizes k) (seq 0 tile_len) ++
                drop (first + tile_len) x) (first + tile_len + k)
              = coord x (first + k) mod coord sizes k).
    { rewrite coord_app_r by (rewrite length_take; lia). rewrite length_take.
      rewrite coord_app_r by (rewrite length_map, length_seq; lia).
      rewrite coord_app_l by (rewrite !length_map, !length_seq; lia).
      rewrite !length_map, !length_seq.
      replace (first + tile_len + k - first `min` length x - tile_len)%nat with k by lia.
      by rewrite coord_map_seq. }
    rewrite Hm. split; [|split; [done|apply Z.mod_pos_bound; lia]].
    rewrite coord_app_r by (rewrite length_take; lia). rewrite length_take.
    rewrite coord_app_l by (rewrite length_map, length_seq; lia).
    replace (first + k - first `min` length x)%nat with k by lia.
    by rewrite coord_map_seq.
Qed.

Lemma wrap_spec_image len first wrap_len sizes x :
  (first + wrap_len <= len)%nat -> length sizes = wrap_len ->
  Forall (fun s => 0 < s) sizes -> length x = len ->
  wrap_spec len first wrap_len sizes x (wrap_image first wrap_len sizes x).
Proof.
  intros Hr Hl Hpos Hx. unfold wrap_spec, wrap_image.
  split; [done|]. split.
  { rewrite !length_app, length_take, !length_map, !length_seq, length_drop. lia. }
  split; [|split].
  - intros i Hi. rewrite coord_app_l by (rewrite length_take; lia). by apply coord_take.
  - intros i Hi.
    rewrite coord_app_r by (rewrite length_take; lia). rewrite length_take.
    rewrite coord_app_r by (rewrite length_map, length_seq; lia).
    rewrite !length_map, !length_seq, coord_drop. f_equal. lia.
  - intros k Hk.
    pose proof (coord_pos sizes k Hpos ltac:(lia)) as Hs.
    rewrite coord_app_r by (rewrite length_take; lia). rewrite length_take.
    rewrite coord_app_l by (rewrite length_map, length_seq; lia).
    replace (first + wrap_len + k - (first + wrap_len) `min` length x)%nat with k by lia.
    rewrite coord_map_seq by done. split; [done|]. apply Z.mod_pos_bound. lia.
Qed.

(** C9 (tiling primitives).  For [first + tile_len <= len] and positive
    sizes, [tile] relates every [len]-tuple [x] to the [len + tile_len]-tuple
    that copies the coordinates outside [first, first + tile_len) and
    splits each coordinate [s] inside into [s div size] and [s mod size],
    the remainder lying in [0, size); [wrap] relates [x] to the tuple that
    keeps every original coordinate and adds the remainders, the quotients
    being the [tile_len] existentially quantified variables of the result,
    which are no output dimensions any more. *)
Theorem tile_wrap_structure (n_par len first tile_len : nat) (sizes : list Z) :
  (first + tile_len <= len)%nat -> length sizes = tile_len ->
  Forall (fun s => 0 < s) sizes ->
  (exists b, tile (mk_dim n_par 0 0) len first tile_len sizes = Some b /\
     n_in (bm_dim b) = len /\ n_out (bm_dim b) = (len + tile_len)%nat /\
     (forall p x y, rel b p x y <-> tile_spec len first tile_len sizes x y) /\
     (forall p x, length x = len -> rel b p x (tile_image first tile_len sizes x))) /\
  (exists b, wrap (mk_dim n_par 0 0) len first tile_len sizes = Some b /\
     n_in (bm_dim b) = len /\ n_out (bm_dim b) = (len + tile_len)%nat /\
     bm_n_div b = tile_len /\
     (forall p x y, rel b p x y <-> wrap_spec len first tile_len sizes x y) /\
     (forall p x, length x = len -> rel b p x (wrap_image first tile_len sizes x))).
Proof.
  intros Hr Hl Hpos. split.
  - pose proof (tile_constraints n_par len first tile_len sizes Hr Hl) as Ht.
    eexists. split; [exact Ht|]. split; [done|]. split; [done|].
    pose proof (tile_rel _ _ _ _ _ _ Hr Hl Hpos Ht) as Hrel.
    split; [exact Hrel|]. intros p x Hx. apply Hrel. by apply tile_spec_image.
  - pose proof (wrap_constraints n_par len first tile_len sizes Hr Hl) as Hw.
    eexists. split; [exact Hw|]. split; [done|]. split; [simpl; lia|].
    split; [done|].
    pose proof (wrap_rel _ _ _ _ _ _ Hr Hl Hpos Hw) as Hrel.
    split; [exact Hrel|]. intros p x Hx. apply Hrel. by apply wrap_spec_image.
Qed.

Lemma tile_wrap_structure_witness :
  (exists b, tile (mk_dim 0 0 0) 3 1 1 [4] = Some b /\
     n_in (bm_dim b) = 3%nat /\ n_out (bm_dim b) = (3 + 1)%nat /\
     (forall p x y, rel b p x y <-> tile_spec 3 1 1 [4] x y) /\
     (forall p x, length x = 3%nat -> rel b p x (tile_image 1 1 [4] x))) /\
  (exists b, wrap (mk_dim 0 0 0) 3 1 1 [4] = Some b /\
     n_in (bm_dim b) = 3%nat /\ n_out (bm_dim b) = (3 + 1)%nat /\
     bm_n_div b = 1%nat /\
     (forall p x y, rel b p x y <-> wrap_spec 3 1 1 [4] x y) /\
     (forall p x, length x = 3%nat -> rel b p x (wrap_image 1 1 [4] x))).
Proof.
  apply (tile_wrap_structure 0 3 1 1 [4]).
  - simpl. lia.
  - reflexivity.
  - repeat constructor.
Defined.

(** ** Reference groups *)

Lemma leader_at_insert_eq (leader : list nat) l j :
  (l < length leader)%nat -> leader_at (<[l := j]> leader) l = j.
Proof. intros. unfold leader_at. by rewrite list_lookup_insert_eq. Qed.

Lemma leader_at_insert_ne (leader : list nat) l j k :
  l <> k -> leader_at (<[l := j]> leader) k = leader_at leader k.
Proof. intros. unfold leader_at. by rewrite list_lookup_insert_ne. Qed.

Lemma leader_inv_merge i leader rep l j :
  leader_inv i leader rep -> (l < i)%nat -> (l < length leader)%nat -> (j < l)%nat ->
  rep l = l -> rep j = j ->
  leader_inv i (<[l := j]> leader) (merge_rep rep l j).
Proof.
  intros HI Hl Hlen Hj Hrl Hrj k Hk. unfold merge_rep.
  destruct (HI k Hk) as (H1 & H2 & H3 & H4 & H5).
  destruct (decide (k = l)) as [->|Hkl].
  - rewrite leader_at_insert_eq by done.
    rewrite !decide_True by done. rewrite decide_False by lia.
    repeat split; try lia.
  - rewrite leader_at_insert_ne by done.
    rewrite H3. destruct (decide (rep k = l)) as [E|E].
    + rewrite decide_False by lia. repeat split; try lia.
    + rewrite H5. rewrite decide_False by done. repeat split; try lia; tauto.
Qed.

Lemma leader_inv_outside i leader rep l j :
  leader_inv i leader rep -> (i <= l)%nat -> leader_inv i (<[l := j]> leader) rep.
Proof.
  intros HI Hl k Hk. rewrite leader_at_insert_ne by lia. by apply HI.
Qed.

Lemma leader_inv_extend i leader rep l :
  leader_inv i leader rep -> (i < length leader)%nat ->
  (l = i \/ ((l < i)%nat /\ rep l = l)) ->
  leader_inv (S i) (<[i := l]> leader) (fun k => if decide (k = i) then l else rep k).
Proof.
  intros HI Hlen Hl k Hk. destruct (decide (k = i)) as [->|Hki].
  - rewrite leader_at_insert_eq by done.
    destruct Hl as [->|[Hl Hr]].
    + rewrite !decide_True by done. repeat split; lia.
    + rewrite (decide_False (P := l = i)) by lia. repeat split; try lia.
  - rewrite leader_at_insert_ne by done.
    destruct (HI k ltac:(lia)) as (H1 & H2 & H3 & H4 & H5).
    rewrite !decide_False by lia. repeat split; try lia; tauto.
Qed.

Lemma leader_inv_mono i i' leader rep :
  leader_inv i leader rep -> (i' <= i)%nat -> leader_inv i' leader rep.
Proof. intros HI Hle k Hk. apply HI. lia. Qed.

Lemma group_at_insert_eq {M} (groups : list (cuda_array_ref_group M)) l g :
  (l < length groups)%nat -> group_at (<[l := g]> groups) l = g.
Proof. intros. unfold group_at. by rewrite list_lookup_insert_eq. Qed.

Lemma group_at_insert_ne {M} (groups : list (cuda_array_ref_group M)) l k g :
  l <> k -> group_at (<[l := g]> groups) k = group_at groups k.
Proof. intros. unfold group_at. by rewrite list_lookup_insert_ne. Qed.

Section relation_laws.
Context `{IslOps M} {Pt : Type} (pts : M -> Pt -> Prop).
Hypothesis intersect_spec :
  forall a b p, pts (isl_map_intersect a b) p <-> pts a p /\ pts b p.
Hypothesis union_spec :
  forall a b p, pts (isl_map_union a b) p <-> pts a p \/ pts b p.
Hypothesis is_empty_spec :
  forall a, isl_map_is_empty a = true <-> forall p, ~ pts a p.

Lemma acc_incl_refl a : acc_incl pts (Some a) (Some a).
Proof. exists a, a. auto. Qed.

Lemma acc_incl_union_l a b c :
  acc_incl pts a b -> is_Some c -> acc_incl pts a (union_access b c).
Proof.
  intros (a' & b' & -> & -> & Hi) [c' ->]. exists a', (isl_map_union b' c').
  repeat split; try done. intros p Hp. apply union_spec. auto.
Qed.

Lemma acc_incl_union_r a b c :
  acc_incl pts a c -> is_Some b -> acc_incl pts a (union_access b c).
Proof.
  intros (a' & c' & -> & -> & Hi) [b' ->]. exists a', (isl_map_union b' c').
  repeat split; try done. intros p Hp. apply union_spec. auto.
Qed.

Lemma acc_incl_is_Some_r a b : acc_incl pts a b -> is_Some b.
Proof. intros (a' & b' & -> & -> & _). eauto. Qed.

Lemma overlap_mono a b a2 b2 :
  acc_incl pts a a2 -> acc_incl pts b b2 ->
  overlap_is_empty a2 b2 = true -> overlap_is_empty a b = true.
Proof.
  intros (a' & a2' & -> & -> & Ha) (b' & b2' & -> & -> & Hb). simpl.
  rewrite !is_empty_spec. intros He p [Hp1 Hp2]%intersect_spec.
  apply (He p), intersect_spec. auto.
Qed.

Lemma overlap_sym a b : overlap_is_empty a b = overlap_is_empty b a.
Proof.
  destruct a as [a|], b as [b|]; simpl; try done.
  apply eq_true_iff_eq. rewrite !is_empty_spec.
  split; intros He p [Hp1 Hp2]%intersect_spec; apply (He p), intersect_spec; auto.
Qed.

Lemma conflict_sym g1 g2 : conflict g1 g2 -> conflict g2 g1.
Proof. intros [Hw He]. split; [tauto|]. by rewrite overlap_sym. Qed.

Lemma conflict_detected g01 g02 g1 g2 :
  covers pts g01 g1 -> covers pts g02 g2 -> conflict g01 g02 ->
  negb (write g1) && negb (write g2) = false /\
  overlap_is_empty (access g1) (access g2) = false.
Proof.
  intros [Ha1 Hw1] [Ha2 Hw2] [Hw He]. split.
  - destruct Hw as [Hw|Hw]; [rewrite (Hw1 Hw)|rewrite (Hw2 Hw)]; simpl; [done|].
    by rewrite andb_false_r.
  - destruct (overlap_is_empty (access g1) (access g2)) eqn:E; [|done].
    rewrite (overlap_mono _ _ _ _ Ha1 Ha2 E) in He. done.
Qed.
End relation_laws.

Lemma covers_is_Some `{IslOps M} {Pt} (pts : M -> Pt -> Prop) g0 g :
  covers pts g0 g -> is_Some (access g).
Proof. intros [Ha _]. by eapply acc_incl_is_Some_r. Qed.

Lemma leader_inv_root i leader rep k :
  leader_inv i leader rep -> (k < i)%nat ->
  (rep k < i)%nat /\ leader_at leader (rep k) = rep k.
Proof.
  intros HI Hk. destruct (HI k Hk) as (H1 & H2 & H3 & H4 & H5).
  split; [lia|]. destruct (HI (rep k) ltac:(lia)) as (_ & _ & _ & H4' & _).
  by apply H4'.
Qed.

Lemma writes_step `{IslOps M} {Pt} (pts : M -> Pt -> Prop) groups0 i j st rep :
  relation_laws pts -> (j < i)%nat ->
  writes_inner_inv pts groups0 i (S j) st rep ->
  exists rep', writes_inner_inv pts groups0 i j (overlapping_writes_step j st) rep'.
Proof.
  intros (Lint & Luni & Lemp) Hji
    (Hlg & Hll & Hi & HI & Hl & Hcov & Hcovi & Hpair & Hscan & Hun & Hrefs).
  assert (Hnoj : forall k, (k < i)%nat -> rep k = j ->
            conflict (group_at groups0 k) (group_at groups0 i) ->
            negb (write (group_at (gr_groups st) (gr_l st))) &&
              negb (write (group_at (gr_groups st) j)) = false /\
            overlap_is_empty (access (group_at (gr_groups st) (gr_l st)))
              (access (group_at (gr_groups st) j)) = false).
  { intros k Hk Hr Hc. specialize (Hcov k Hk). rewrite Hr in Hcov.
    apply (conflict_sym pts Lint Lemp) in Hc.
    exact (conflict_detected pts Lint Lemp _ _ _ _ Hcovi Hcov Hc). }
  assert (Hkeep : forall st', st' = st ->
            (forall k, (k < i)%nat -> rep k = j ->
               conflict (group_at groups0 k) (group_at groups0 i) -> False) ->
            writes_inner_inv pts groups0 i j st' rep).
  { intros st' -> Hno. unfold writes_inner_inv. split_and!; try done.
    - destruct Hl as [Hl|(Hl1 & Hl2 & Hl3)]; [by left|right; repeat split; lia].
    - intros k Hk Hc. destruct (Hscan k Hk Hc) as [Hlt|He]; [|by right].
      destruct (decide (rep k = j)) as [E|E]; [|left; lia].
      destruct (Hno k Hk E Hc). }
  unfold overlapping_writes_step.
  destruct (decide (leader_at (gr_leader st) j <> j)) as [Hld|Hld].
  { exists rep. apply Hkeep; [done|]. intros k Hk Hr _. apply Hld.
    destruct (leader_inv_root _ _ _ k HI Hk) as [_ Hroot]. by rewrite Hr in Hroot. }
  apply dec_stable in Hld.
  destruct (negb (write (group_at (gr_groups st) (gr_l st))) &&
            negb (write (group_at (gr_groups st) j))) eqn:Hw.
  { exists rep. apply Hkeep; [done|]. intros k Hk Hr Hc.
    destruct (Hnoj k Hk Hr Hc) as [Hw' _]. congruence. }
  destruct (overlap_is_empty (access (group_at (gr_groups st) (gr_l st)))
              (access (group_at (gr_groups st) j))) eqn:Ho.
  { exists rep. apply Hkeep; [done|]. intros k Hk Hr Hc.
    destruct (Hnoj k Hk Hr Hc) as [_ Ho']. congruence. }
  (* the two groups are merged *)
  set (groups := gr_groups st) in *. set (leader := gr_leader st) in *.
  set (l := gr_l st) in *.
  assert (Hrj : rep j = j) by (by apply (HI j Hji)).
  assert (Hjl : (j < l)%nat) by (destruct Hl as [->|(? & ? & ?)]; lia).
  assert (Hlle : (l <= i)%nat) by (destruct Hl as [->|(? & ? & ?)]; lia).
  assert (Hcovj : covers pts (group_at groups0 j) (group_at groups j)).
  { specialize (Hcov j Hji). by rewrite Hrj in Hcov. }
  pose proof (covers_is_Some pts _ _ Hcovj) as Hsj.
  pose proof (covers_is_Some pts _ _ Hcovi) as Hsl.
  exists (merge_rep rep l j).
  assert (Hrep' : forall k, (k < i)%nat ->
            merge_rep rep l j k = j /\ (rep k = l \/ rep k = j) \/
            merge_rep rep l j k = rep k /\ rep k <> l /\ rep k <> j).
  { intros k Hk. unfold merge_rep. destruct (decide (rep k = l)); [left; auto|].
    destruct (decide (rep k = j)) as [E|E]; [left; rewrite E; auto|right; auto]. }
  assert (Hgj : forall g0, covers pts g0 (group_at groups j) \/
                           covers pts g0 (group_at groups l) ->
            covers pts g0 (group_at
              (<[j := mk_group (nr (group_at groups j))
                        (union_access (access (group_at groups j))
                                      (access (group_at groups l))) true
                        (shared_bound (group_at groups j))
                        (private_bound (group_at groups j))
                        (n_ref (group_at groups j) + n_ref (group_at groups l))
                        (refs (group_at groups j))]>
                 (<[l := mk_group (nr (group_at groups l)) None
                           (write (group_at groups l))
                           (shared_bound (group_at groups l))
                           (private_bound (group_at groups l))
                           (n_ref (group_at groups l)) (refs (group_at groups l))]>
                    groups)) j)).
  { intros g0 Hg. rewrite group_at_insert_eq by (rewrite length_insert; lia).
    split; [|done]. simpl.
    destruct Hg as [[Hg _]|[Hg _]].
    - by apply (acc_incl_union_l pts Luni).
    - by apply (acc_incl_union_r pts Luni). }
  assert (Hother : forall k g1 g2, k <> j -> k <> l ->
            group_at (<[j := g1]> (<[l := g2]> groups)) k = group_at groups k).
  { intros k g1 g2 ? ?. by rewrite !group_at_insert_ne. }
  unfold writes_inner_inv. simpl. split_and!.
  - by rewrite !length_insert.
  - by rewrite length_insert.
  - done.
  - destruct (decide (l = i)) as [E|E].
    + intros k Hk. rewrite leader_at_insert_ne by lia.
      destruct (HI k Hk) as (H1 & H2 & H3 & H4 & H5).
      unfold merge_rep. rewrite H3. rewrite !(decide_False (P := rep k = l)) by lia.
      rewrite H5. rewrite !(decide_False (P := rep k = l)) by lia.
      repeat split; try lia; tauto.
    + destruct Hl as [?|(Hl1 & Hl2 & Hl3)]; [done|].
      apply leader_inv_merge; try done; lia.
  - right. unfold merge_rep. rewrite Hrj. rewrite decide_False by lia. lia.
  - intros k Hk. destruct (Hrep' k Hk) as [[-> Hor]|(-> & Hn1 & Hn2)].
    + apply Hgj. destruct Hor as [E|E]; [right|left]; rewrite <- E; by apply Hcov.
    + rewrite Hother by done. by apply Hcov.
  - apply Hgj. by right.
  - intros k1 k2 Hk1 Hk2 Hc. unfold merge_rep. by rewrite (Hpair k1 k2 Hk1 Hk2 Hc).
  - intros k Hk Hc. destruct (Hrep' k Hk) as [[-> _]|(-> & Hn1 & Hn2)]; [by right|].
    destruct (Hscan k Hk Hc) as [?|?]; [left; lia|done].
  - intros k Hk. rewrite Hother by lia. by apply Hun.
  - intros k. destruct (decide (k = j)) as [->|Hkj].
    + rewrite group_at_insert_eq by (rewrite length_insert; lia). simpl. apply Hrefs.
    + rewrite group_at_insert_ne by done. destruct (decide (k = l)) as [->|Hkl].
      * rewrite group_at_insert_eq by lia. simpl. apply Hrefs.
      * rewrite group_at_insert_ne by done. apply Hrefs.
Qed.

Lemma fold_left_seq_inv {S : Type} (P : nat -> S -> Prop) (f : S -> nat -> S) n s0 :
  P 0%nat s0 ->
  (forall i s, (i < n)%nat -> P i s -> P (Datatypes.S i) (f s i)) ->
  P n (fold_left f (seq 0 n) s0).
Proof.
  induction n as [|n IH]; intros H0 Hstep; [done|].
  rewrite seq_S, fold_left_app. simpl. apply Hstep; [lia|].
  apply IH; [done|]. intros. apply Hstep; [lia|done].
Qed.

Lemma down_from_inv {S : Type} (P : nat -> S -> Prop) (step : nat -> S -> S) m st :
  P m st ->
  (forall j s, (j < m)%nat -> P (Datatypes.S j) s -> P j (step j s)) ->
  P 0%nat (down_from m step st).
Proof.
  revert st. induction m as [|m IH]; intros st Hm Hstep; [done|].
  simpl. apply IH.
  - apply Hstep; [lia|done].
  - intros. apply Hstep; [lia|done].
Qed.

Lemma writes_outer_step `{IslOps M} {Pt} (pts : M -> Pt -> Prop) groups0 i st :
  relation_laws pts ->
  (forall k, (k < length groups0)%nat -> is_Some (access (group_at groups0 k))) ->
  (i < length groups0)%nat ->
  (exists rep, writes_outer_inv pts groups0 i st rep) ->
  exists rep, writes_outer_inv pts groups0 (S i)
    (let st1 := down_from i overlapping_writes_step
       (mk_grouping (<[i := set_n_ref (group_at (gr_groups st) i) 1]> (gr_groups st))
          (gr_leader st) i (gr_n_group st)) in
     mk_grouping (gr_groups st1) (<[i := gr_l st1]> (gr_leader st1)) (gr_l st1)
       (gr_n_group st1)) rep.
Proof.
  intros HL H0 Hi [rep (Hlg & Hll & _ & HI & Hcov & Hpair & Hun & Hrefs)].
  pose proof HL as (Lint & Luni & Lemp).
  set (st0 := mk_grouping (<[i := _]> _) (gr_leader st) i (gr_n_group st)).
  assert (Hinner : exists rep', writes_inner_inv pts groups0 i 0 
            (down_from i overlapping_writes_step st0) rep').
  { apply (down_from_inv (fun m s => exists r, writes_inner_inv pts groups0 i m s r)
             overlapping_writes_step i st0).
    - exists rep. unfold writes_inner_inv, st0. simpl. split_and!.
      + by rewrite length_insert.
      + done.
      + done.
      + done.
      + by left.
      + intros k Hk. destruct (HI k Hk) as (_ & ? & _).
        rewrite group_at_insert_ne by lia. by apply Hcov.
      + rewrite group_at_insert_eq by lia. rewrite Hun by lia.
        destruct (H0 i Hi) as [a Ha]. split; simpl; [|done].
        rewrite Ha. apply acc_incl_refl.
      + done.
      + intros k Hk _. destruct (HI k Hk) as (_ & ? & _). left. lia.
      + intros k Hk. rewrite group_at_insert_ne by lia. apply Hun. lia.
      + intros k. destruct (decide (k = i)) as [->|].
        * rewrite group_at_insert_eq by lia. simpl. apply Hrefs.
        * rewrite group_at_insert_ne by done. apply Hrefs.
    - intros j s Hj [r Hr]. by apply (writes_step pts groups0 i j s r). }
  destruct Hinner as [rep' (Hlg' & Hll' & _ & HI' & Hl' & Hcov' & Hcovi' & Hpair' &
                            Hscan' & Hun' & Hrefs')].
  set (st1 := down_from i overlapping_writes_step st0) in *.
  exists (fun k => if decide (k = i) then gr_l st1 else rep' k).
  unfold writes_outer_inv. simpl. split_and!.
  - done.
  - by rewrite length_insert.
  - lia.
  - apply leader_inv_extend; [done|lia|].
    destruct Hl' as [?|(? & ? & ?)]; [by left|by right].
  - intros k Hk. destruct (decide (k = i)) as [->|]; [done|]. apply Hcov'. lia.
  - assert (Hi_k : forall k, (k < i)%nat ->
              conflict (group_at groups0 k) (group_at groups0 i) -> rep' k = gr_l st1).
    { intros k Hk Hc. destruct (Hscan' k Hk Hc); [lia|done]. }
    intros k1 k2 Hk1 Hk2 Hc.
    destruct (decide (k1 = i)) as [->|], (decide (k2 = i)) as [->|]; try done.
    + symmetry. apply Hi_k; [lia|]. by apply (conflict_sym pts Lint Lemp).
    + apply Hi_k; [lia|done].
    + apply Hpair'; [lia|lia|done].
  - intros k Hk. apply Hun'. lia.
  - done.
Qed.

Lemma group_overlapping_writes_inv `{IslOps M} {Pt} (pts : M -> Pt -> Prop)
    groups0 leader0 :
  relation_laws pts ->
  (forall k, (k < length groups0)%nat -> is_Some (access (group_at groups0 k))) ->
  length leader0 = length groups0 ->
  exists rep, writes_outer_inv pts groups0 (length groups0)
    (let '(groups, leader, n_group) :=
       group_overlapping_writes (length groups0) groups0 leader0 in
     mk_grouping groups leader 0%nat n_group) rep.
Proof.
  intros HL H0 Hlen. unfold group_overlapping_writes.
  set (f := fun (st : grouping M) (i : nat) => _).
  assert (Hfold : exists rep, writes_outer_inv pts groups0 (length groups0)
            (fold_left f (seq 0 (length groups0))
               (mk_grouping groups0 leader0 0%nat (Z.of_nat (length groups0)))) rep).
  { apply (fold_left_seq_inv
             (fun i st => exists rep, writes_outer_inv pts groups0 i st rep)).
    - exists (fun k => k). unfold writes_outer_inv. simpl. split_and!; try done; try lia.
      intros k Hk. lia.
    - intros i st Hi Hinv. unfold f.
      by apply (writes_outer_step pts groups0 i st). }
  destruct Hfold as [rep Hrep]. exists rep.
  destruct Hrep as (? & ? & ? & ? & ? & ? & ? & ?).
  unfold writes_outer_inv. simpl. split_and!; done.
Qed.

Lemma common_tile_step_inv `{IslOps M} groups0 n_index j st rep :
  merged_inv groups0 (gr_groups st) (gr_leader st) rep ->
  (gr_l st < length groups0)%nat -> rep (gr_l st) = gr_l st -> (j < gr_l st)%nat ->
  exists rep', let st' := common_tile_step n_index j st in
    merged_inv groups0 (gr_groups st') (gr_leader st') rep' /\
    (gr_l st' < length groups0)%nat /\ rep' (gr_l st') = gr_l st' /\
    (j <= gr_l st')%nat.
Proof.
  intros (Hlg & Hll & HI & Hpair & Hrefs) Hl Hrl Hjl.
  assert (Hsame : exists rep', merged_inv groups0 (gr_groups st) (gr_leader st) rep' /\
            (gr_l st < length groups0)%nat /\ rep' (gr_l st) = gr_l st /\
            (j <= gr_l st)%nat).
  { exists rep. split_and!; try done. lia. }
  unfold common_tile_step.
  destruct (decide (leader_at (gr_leader st) j <> j)) as [Hld|Hld]; [done|].
  apply dec_stable in Hld.
  destruct (shared_bound (group_at (gr_groups st) j)); [|done].
  destruct (overlap_is_empty _ _); [done|].
  destruct (union_access _ _) as [map|]; [|done].
  destruct (can_tile_for_shared_memory n_index map (create_bound_list n_index))
    as [new_bound ok].
  destruct ok; simpl; [|done].
  assert (Hrj : rep j = j) by (apply (HI j); [lia|done]).
  exists (merge_rep rep (gr_l st) j). split_and!.
  - split_and!.
    + by rewrite length_insert.
    + by rewrite length_insert.
    + apply leader_inv_merge; try done; lia.
    + intros k1 k2 Hk1 Hk2 Hc. unfold merge_rep. by rewrite (Hpair k1 k2 Hk1 Hk2 Hc).
    + intros k. destruct (decide (k = j)) as [->|].
      * rewrite group_at_insert_eq by lia. simpl. apply Hrefs.
      * rewrite group_at_insert_ne by done. apply Hrefs.
  - lia.
  - unfold merge_rep. rewrite Hrj. rewrite decide_False by lia. done.
  - done.
Qed.

Lemma group_common_shared_memory_tile_inv `{IslOps M} groups0 n_index
    groups leader n_group rep :
  merged_inv groups0 groups leader rep ->
  exists rep', 
    (let '(groups', leader', _) :=
       group_common_shared_memory_tile n_index (length groups0) groups leader n_group in
     merged_inv groups0 groups' leader' rep').
Proof.
  intros Hinv. unfold group_common_shared_memory_tile.
  set (f := fun (st : grouping M) (i : nat) => _).
  assert (Hfold : exists rep', 
            let st := fold_left f (seq 0 (length groups0))
                        (mk_grouping groups leader 0%nat n_group) in
            merged_inv groups0 (gr_groups st) (gr_leader st) rep').
  { apply (fold_left_seq_inv
       (fun (i : nat) st => exists rep',
          merged_inv groups0 (gr_groups st) (gr_leader st) rep')).
    - by exists rep.
    - intros i st Hi [r Hr]. unfold f.
      destruct (decide (gr_n_group st > 1)); [|by exists r].
      destruct (decide (leader_at (gr_leader st) i <> i)) as [Hld|Hld]; [by exists r|].
      apply dec_stable in Hld.
      destruct (shared_bound (group_at (gr_groups st) i)); [|by exists r].
      set (st0 := mk_grouping _ _ _ _).
      assert (Hd : exists r', 
                let s := down_from i (common_tile_step n_index) st0 in
                merged_inv groups0 (gr_groups s) (gr_leader s) r' /\
                (gr_l s < length groups0)%nat /\ r' (gr_l s) = gr_l s /\
                (0 <= gr_l s)%nat).
      { apply (down_from_inv (fun m s => exists r',
                 merged_inv groups0 (gr_groups s) (gr_leader s) r' /\
                 (gr_l s < length groups0)%nat /\ r' (gr_l s) = gr_l s /\
                 (m <= gr_l s)%nat) (common_tile_step n_index) i st0).
        - assert (Hri : r i = i)
            by (destruct Hr as (_ & _ & HI & _); by apply (HI i Hi)).
          exists r. unfold st0. simpl. split_and!; first [done|lia].
        - intros j s Hj (r' & Hm & Hl & Hrl & Hle).
          apply (common_tile_step_inv groups0 n_index j s r'); first [done|lia]. }
      destruct Hd as (r' & Hm & _). by exists r'. }
  destruct Hfold as [rep' Hrep']. exists rep'. done.
Qed.

Lemma fold_left_seq_from_inv {S : Type} (P : nat -> S -> Prop) (f : S -> nat -> S)
    a n s0 :
  P a s0 ->
  (forall i s, (a <= i < a + n)%nat -> P i s -> P (Datatypes.S i) (f s i)) ->
  P (a + n)%nat (fold_left f (seq a n) s0).
Proof.
  induction n as [|n IH]; intros H0 Hstep.
  - by rewrite Nat.add_0_r.
  - rewrite seq_S, fold_left_app. simpl.
    replace (a + Datatypes.S n)%nat with (Datatypes.S (a + n)) by lia.
    apply Hstep; [lia|]. apply IH; [done|]. intros. apply Hstep; [lia|done].
Qed.

(** The path compression of [extract_array_groups] makes every entry of
    [leader] point at the first element of its group. *)
Lemma leader_compress leader rep n :
  leader_inv n leader rep -> length leader = n ->
  let leader' := fold_left (fun leader i =>
      <[i := leader_at leader (leader_at leader i)]> leader) (seq 2 (n - 2)) leader in
  length leader' = n /\ forall k, (k < n)%nat -> leader_at leader' k = rep k.
Proof.
  intros HI Hlen. simpl.
  set (f := fun (leader : list nat) (i : nat) => _).
  assert (Hfold : (fun i ld => length ld = n /\
            (forall k, (k < i)%nat -> (k < n)%nat -> leader_at ld k = rep k) /\
            (forall k, (i <= k)%nat -> leader_at ld k = leader_at leader k))
            (2 + (n - 2))%nat (fold_left f (seq 2 (n - 2)) leader)).
  { apply fold_left_seq_from_inv.
    - split; [done|]. split; [|done]. intros k Hk Hkn.
      destruct (HI k Hkn) as (H1 & H2 & H3 & H4 & H5).
      destruct k as [|[|k]]; [lia| |lia].
      destruct (decide (leader_at leader 1 = 1%nat)) as [E|E]; [rewrite E; symmetry; tauto|].
      assert (E0 : leader_at leader 1 = 0%nat) by lia.
      destruct (HI 0%nat ltac:(lia)) as (_ & ? & _). rewrite E0 in *. lia.
    - intros i ld Hi (Hl & Hlt & Hge). unfold f. split_and!.
      + by rewrite length_insert.
      + intros k Hk Hkn. destruct (decide (k = i)) as [->|].
        * rewrite leader_at_insert_eq by lia.
          destruct (HI i Hkn) as (H1 & H2 & H3 & H4 & H5).
          rewrite (Hge i) by lia.
          destruct (decide (leader_at leader i = i)) as [E|E].
          -- rewrite E. rewrite (Hge i) by lia. rewrite E. symmetry. tauto.
          -- rewrite Hlt by lia. done.
        * rewrite leader_at_insert_ne by done. apply Hlt; lia.
      + intros k Hk. rewrite leader_at_insert_ne by lia. apply Hge. lia. }
  destruct Hfold as (Hl & Hlt & _). split; [done|].
  intros k Hk. apply Hlt; lia.
Qed.

Lemma extract_inner {M} (groups : list (cuda_array_ref_group M)) leader n rep idx
    (array_refs0 : list (cuda_stmt_access M)) i j :
  (forall k, (k < n)%nat -> leader_at leader k = rep k) ->
  (forall k, (k < n)%nat -> refs (group_at groups k) = [idx k]) ->
  (forall k, (k < n)%nat -> (idx k < length array_refs0)%nat) ->
  (forall k1 k2, (k1 < n)%nat -> (k2 < n)%nat -> idx k1 = idx k2 -> k1 = k2) ->
  (i <= n)%nat ->
  let '(new_refs, array_refs) := fold_left (fun '(new_refs, array_refs) k =>
      if decide (leader_at leader k = i) then
        match refs (group_at groups k) with
        | r :: _ =>
            (new_refs ++ [r],
             match array_refs !! r with
             | Some a => <[r := set_ref_group a j]> array_refs
             | None => array_refs
             end)
        | [] => (new_refs, array_refs)
        end
      else (new_refs, array_refs))
    (seq i (n - i)) ([], array_refs0) in
  length array_refs = length array_refs0 /\
  (forall k, (i <= k < n)%nat -> rep k = i ->
     idx k ∈ new_refs /\ exists a, array_refs !! idx k = Some a /\ ref_group a = j) /\
  (forall k, (k < n)%nat -> ~ ((i <= k)%nat /\ rep k = i) ->
     array_refs !! idx k = array_refs0 !! idx k).
Proof.
  intros Hld Hrefs Hidx Hinj Hin.
  match goal with |- context [fold_left ?g _ _] => set (f := g) end.
  assert (Hfold : (fun k0 (acc : list nat * list (cuda_stmt_access M)) =>
            length acc.2 = length array_refs0 /\
            (forall k, (i <= k < k0)%nat -> (k < n)%nat -> rep k = i ->
               idx k ∈ acc.1 /\
               exists a, acc.2 !! idx k = Some a /\ ref_group a = j) /\
            (forall k, (k < n)%nat -> ~ ((i <= k < k0)%nat /\ rep k = i) ->
               acc.2 !! idx k = array_refs0 !! idx k))
            (i + (n - i))%nat (fold_left f (seq i (n - i)) ([], array_refs0))).
  { apply fold_left_seq_from_inv.
    - simpl. split_and!; [done| |done]. intros k Hk. lia.
    - intros k [nr ar] Hk (Hl & Hin' & Hout). simpl in *. unfold f.
      destruct (decide (leader_at leader k = i)) as [E|E].
      + rewrite Hrefs by lia. rewrite Hld in E by lia.
        destruct (lookup_lt_is_Some_2 ar (idx k)) as [a Ha].
        { rewrite Hl. apply Hidx. lia. }
        rewrite Ha. simpl. split_and!.
        * by rewrite length_insert.
        * intros k' Hk' Hk'n Hr. destruct (decide (k' = k)) as [->|Hne].
          -- split; [apply elem_of_app; right; by apply list_elem_of_singleton|].
             exists (set_ref_group a j).
             rewrite list_lookup_insert_eq by (rewrite Hl; apply Hidx; lia). done.
          -- destruct (Hin' k' ltac:(lia) Hk'n Hr) as [Hel (a' & Ha' & Hg')].
             split; [apply elem_of_app; by left|]. exists a'.
             rewrite list_lookup_insert_ne; [done|].
             intros Heq. apply Hne. symmetry. apply Hinj; [lia|lia|done].
        * intros k' Hk'n Hno. rewrite list_lookup_insert_ne.
          -- apply Hout; [done|]. intros [? ?]. apply Hno. split; [lia|done].
          -- intros Heq. apply Hno. 
             assert (k = k') by (apply Hinj; [lia|lia|done]). subst k'. split; [lia|done].
      + rewrite Hld in E by lia. split_and!.
        * done.
        * intros k' Hk' Hk'n Hr. apply Hin'; [|done|done].
          destruct (decide (k' = k)) as [->|]; [done|lia].
        * intros k' Hk'n Hno. apply Hout; [done|]. intros [? ?]. apply Hno.
          split; [lia|done]. }
  destruct (fold_left f _ _) as [new_refs array_refs]. simpl in Hfold.
  destruct Hfold as (Hl & Hin' & Hout). split_and!.
  - done.
  - intros k Hk Hr. apply Hin'; [lia|lia|done].
  - intros k Hk Hno. apply Hout; [done|]. intros [? ?]. apply Hno. split; [lia|done].
Qed.

Lemma extract_array_groups_spec {M} (array_refs : list (cuda_stmt_access M)) n
    (groups : list (cuda_array_ref_group M)) leader rep idx :
  leader_inv n leader rep -> length leader = n ->
  (forall k, (k < n)%nat -> refs (group_at groups k) = [idx k]) ->
  (forall k, (k < n)%nat -> (idx k < length array_refs)%nat) ->
  (forall k1 k2, (k1 < n)%nat -> (k2 < n)%nat -> idx k1 = idx k2 -> k1 = k2) ->
  let '(array_refs', groups') := extract_array_groups array_refs n groups leader in
  forall k1 k2, (k1 < n)%nat -> (k2 < n)%nat -> rep k1 = rep k2 ->
    grouped_together array_refs' groups' (idx k1) (idx k2).
Proof.
  intros HI Hlen Hrefs Hidx Hinj. unfold extract_array_groups.
  destruct (leader_compress leader rep n HI Hlen) as [Hlen' Hld].
  set (leader' := fold_left _ (seq 2 (n - 2)) leader) in *.
  match goal with |- context [fold_left ?g (seq 0 n) _] => set (f := g) end.
  assert (Hroot : forall k, (k < n)%nat -> (rep k < n)%nat /\ rep (rep k) = rep k).
  { intros k Hk. destruct (HI k Hk) as (_ & ? & _ & _ & ?). split; [lia|done]. }
  assert (Hfold : exists gi, extract_inv n rep idx (length array_refs) n
            (fold_left f (seq 0 n) (mk_extraction array_refs [] 0)) gi).
  { apply (fold_left_seq_inv
       (fun i0 st => exists gi, extract_inv n rep idx (length array_refs) i0 st gi)).
    - exists (fun _ => 0). split_and!; try done. intros k _ Hk. lia.
    - intros i st Hi [gi (Hl & Hj & Hdone)]. unfold f.
      destruct (decide (leader_at leader' i <> i)) as [Hnr|Hr].
      + exists gi. split_and!; try done. intros k Hk Hrk. apply Hdone; [done|].
        destruct (decide (rep k = i)) as [E|E]; [|lia].
        exfalso. apply Hnr. rewrite <- E. rewrite Hld by (apply Hroot; done).
        by apply Hroot.
      + apply dec_stable in Hr. rewrite Hld in Hr by done.
        pose proof (extract_inner groups leader' n rep idx (ex_array_refs st) i
                      (ex_j st) Hld Hrefs) as Hinner.
        rewrite Hl in Hinner. specialize (Hinner Hidx Hinj ltac:(lia)).
        destruct (fold_left _ (seq i (n - i)) _) as [new_refs ar].
        destruct Hinner as (Hl' & Hnew & Hold).
        exists (fun r => if decide (r = i) then ex_j st else gi r).
        split_and!; simpl.
        * done.
        * rewrite length_app. simpl. lia.
        * intros k Hk Hrk. destruct (decide (rep k = i)) as [E|E].
          -- assert (Hik : (i <= k)%nat).
             { destruct (HI k Hk) as (_ & ? & _). lia. }
             destruct (Hnew k ltac:(lia) E) as [Hel (a & Ha & Hg)].
             exists a, (mk_group (ex_j st) (access (group_at groups i))
                         (write (group_at groups i)) (shared_bound (group_at groups i))
                         (private_bound (group_at groups i)) (n_ref (group_at groups i))
                         new_refs).
             split_and!; try done; try lia.
             rewrite Hj, Nat2Z.id. rewrite lookup_app_r by lia.
             by rewrite Nat.sub_diag.
          -- destruct (Hdone k Hk ltac:(lia)) as (a & g & Ha & Hg & H0 & Hgr & Hnr & Hel).
             exists a, g. split_and!; try done.
             ++ rewrite Hold; [done|done|]. intros [_ ?]. done.
             ++ rewrite lookup_app_l; [done|]. by apply lookup_lt_Some in Hgr. }
  destruct Hfold as [gi (Hl & Hj & Hdone)].
  destruct (fold_left f (seq 0 n) _) as [ar gs ej]. simpl in *.
  intros k1 k2 Hk1 Hk2 Hr.
  destruct (Hdone k1 Hk1) as (a1 & g1 & Ha1 & Hg1 & H01 & Hgr1 & Hnr1 & Hel1).
  { apply Hroot. done. }
  destruct (Hdone k2 Hk2) as (a2 & g2 & Ha2 & Hg2 & H02 & Hgr2 & Hnr2 & Hel2).
  { apply Hroot. done. }
  rewrite <- Hr in *. assert (g2 = g1) by congruence. subst g2.
  exists a1, a2, g1. rewrite Hg1, Hg2. split_and!; done.
Qed.

Lemma singleton_group_Some `{IslOps M} (array_refs : list (cuda_stmt_access M))
    sched i acc :
  array_refs !! i = Some acc ->
  singleton_group array_refs sched i =
  mk_group 0 (Some (isl_map_apply_domain (ref_access acc) sched)) (ref_write acc)
    None None 0 [i].
Proof. intros E. unfold singleton_group. by rewrite E. Qed.

Lemma populate_array_references_spec `{IslOps M} (array_refs : list (cuda_stmt_access M))
    sched :
  populate_array_references array_refs sched =
  map (singleton_group array_refs sched) (active_refs array_refs sched).
Proof.
  unfold populate_array_references, active_refs.
  generalize (length array_refs) as m.
  induction m as [|m IH]; [done|].
  rewrite seq_S, fold_left_app, IH, filter_app, map_app. simpl.
  rewrite filter_cons, filter_nil.
  case_decide as Hd; unfold is_active in Hd; simpl.
  - destruct (array_refs !! m) as [acc|] eqn:E; [|done].
    rewrite (singleton_group_Some _ _ _ _ E).
    by destruct (isl_map_is_empty _).
  - rewrite app_nil_r. destruct (array_refs !! m) as [acc|] eqn:E; [|done].
    by destruct (isl_map_is_empty _).
Qed.

Lemma shared_bound_loop_inv `{IslOps M} groups0 n_index n leader groups rep :
  merged_inv groups0 groups leader rep ->
  merged_inv groups0
    (fold_left (fun groups i =>
       if decide (leader_at leader i = i)
       then <[i := compute_group_shared_bound n_index (group_at groups i)]> groups
       else groups) (seq 0 n) groups) leader rep.
Proof.
  intros Hinv.
  apply (fold_left_seq_inv (fun (_ : nat) gs => merged_inv groups0 gs leader rep));
    [done|].
  intros i gs Hi (Hlg & Hll & HI & Hpair & Hrefs).
  destruct (decide (leader_at leader i = i)); [|done].
  split_and!; try done.
  - by rewrite length_insert.
  - intros k. destruct (decide (k = i)) as [->|].
    + destruct (decide (i < length gs)%nat).
      * rewrite group_at_insert_eq by done. simpl. apply Hrefs.
      * rewrite list_insert_ge by lia. apply Hrefs.
    + rewrite group_at_insert_ne by done. apply Hrefs.
Qed.

Lemma active_refs_lookup `{IslOps M} (array_refs : list (cuda_stmt_access M)) sched k i :
  active_refs array_refs sched !! k = Some i ->
  (i < length array_refs)%nat /\
  exists acc, array_refs !! i = Some acc /\
    isl_map_is_empty (isl_map_apply_domain (ref_access acc) sched) = false.
Proof.
  intros Hk. apply list_elem_of_lookup_2 in Hk.
  apply list_elem_of_filter in Hk as [Ha Hs]. apply elem_of_seq in Hs.
  split; [lia|]. unfold is_active in Ha.
  destruct (array_refs !! i) as [acc|]; [|done].
  exists acc. split; [done|]. by apply negb_true_iff.
Qed.

Lemma active_refs_inj `{IslOps M} (array_refs : list (cuda_stmt_access M)) sched k1 k2 i :
  active_refs array_refs sched !! k1 = Some i ->
  active_refs array_refs sched !! k2 = Some i -> k1 = k2.
Proof.
  apply NoDup_lookup. apply NoDup_filter, NoDup_seq.
Qed.

Lemma active_refs_elem `{IslOps M} (array_refs : list (cuda_stmt_access M)) sched i acc :
  array_refs !! i = Some acc ->
  isl_map_is_empty (isl_map_apply_domain (ref_access acc) sched) = false ->
  exists k, active_refs array_refs sched !! k = Some i.
Proof.
  intros Hi He. apply list_elem_of_lookup_1. apply list_elem_of_filter. split.
  - unfold is_active. rewrite Hi, He. done.
  - apply elem_of_seq. apply lookup_lt_Some in Hi. lia.
Qed.

(** The grouping of the whole of [group_array_references], in terms of
    the singleton groups it starts from. *)
Lemma group_array_references_groups `{IslOps M} {Pt} (pts : M -> Pt -> Prop)
    n_index (array_refs : list (cuda_stmt_access M)) sched leader0 :
  relation_laws pts ->
  length leader0 = length (populate_array_references array_refs sched) ->
  let groups0 := map (singleton_group array_refs sched) (active_refs array_refs sched) in
  let idx := fun k => default 0%nat (active_refs array_refs sched !! k) in
  let '(array_refs', groups') :=
    group_array_references n_index array_refs sched leader0 in
  forall k1 k2, (k1 < length groups0)%nat -> (k2 < length groups0)%nat ->
    conflict (group_at groups0 k1) (group_at groups0 k2) ->
    grouped_together array_refs' groups' (idx k1) (idx k2).
Proof.
  intros HL Hlen groups0 idx. unfold group_array_references.
  rewrite populate_array_references_spec in *. fold groups0 in Hlen |- *.
  assert (Hn : length groups0 = length (active_refs array_refs sched))
    by (unfold groups0; by rewrite length_map).
  assert (Hg0 : forall k, (k < length groups0)%nat ->
            active_refs array_refs sched !! k = Some (idx k) /\
            exists acc, array_refs !! idx k = Some acc /\
              group_at groups0 k =
              mk_group 0 (Some (isl_map_apply_domain (ref_access acc) sched))
                (ref_write acc) None None 0 [idx k]).
  { intros k Hk. destruct (lookup_lt_is_Some_2 (active_refs array_refs sched) k)
      as [i Hi]; [lia|].
    assert (idx k = i) as -> by (unfold idx; by rewrite Hi).
    split; [done|]. destruct (active_refs_lookup _ _ _ _ Hi) as (_ & acc & Ha & _).
    exists acc. split; [done|]. unfold group_at, groups0.
    rewrite list_lookup_fmap, Hi. simpl. by apply singleton_group_Some. }
  assert (H0 : forall k, (k < length groups0)%nat ->
            is_Some (access (group_at groups0 k))).
  { intros k Hk. destruct (Hg0 k Hk) as (_ & acc & _ & ->). simpl. eauto. }
  destruct (group_overlapping_writes_inv pts groups0 leader0 HL H0 Hlen) as [rep Hout].
  destruct (group_overlapping_writes (length groups0) groups0 leader0)
    as [[groups1 leader1] n_group1].
  destruct Hout as (Hlg & Hll & _ & HI & _ & Hpair & _ & Hrefs).
  simpl in Hlg, Hll, HI, Hpair, Hrefs.
  assert (Hm1 : merged_inv groups0 groups1 leader1 rep) by (split_and!; done).
  apply (shared_bound_loop_inv groups0 n_index (length groups0)) in Hm1.
  set (groups2 := fold_left _ (seq 0 (length groups0)) groups1) in *.
  destruct (group_common_shared_memory_tile_inv groups0 n_index groups2 leader1
              n_group1 rep Hm1) as [rep' Hm3].
  destruct (group_common_shared_memory_tile n_index (length groups0) groups2 leader1
              n_group1) as [[groups3 leader3] n_group3].
  destruct Hm3 as (Hlg3 & Hll3 & HI3 & Hpair3 & Hrefs3).
  pose proof (extract_array_groups_spec array_refs (length groups0) groups3 leader3
                rep' idx HI3 Hll3) as Hex.
  destruct (extract_array_groups array_refs (length groups0) groups3 leader3)
    as [array_refs' groups'].
  intros k1 k2 Hk1 Hk2 Hc. apply Hex; try done.
  - intros k Hk. rewrite Hrefs3. destruct (Hg0 k Hk) as (_ & acc & _ & ->). done.
  - intros k Hk. destruct (Hg0 k Hk) as (Hi & _).
    by destruct (active_refs_lookup _ _ _ _ Hi).
  - intros k k' Hk Hk' He. destruct (Hg0 k Hk) as (Hi & _).
    destruct (Hg0 k' Hk') as (Hi' & _). rewrite <- He in Hi'.
    by eapply active_refs_inj.
  - by apply Hpair3.
Qed.

Lemma fin_relation_laws : relation_laws fin_pts.
Proof.
  unfold relation_laws, fin_pts. simpl. split_and!.
  - intros a b p. unfold fin_intersect. rewrite list_elem_of_filter. tauto.
  - intros a b p. apply elem_of_app.
  - intros a. destruct a as [|p a]; simpl.
    + split; [|done]. intros _ p Hp. by apply not_elem_of_nil in Hp.
    + split; [done|]. intros Hno. exfalso. apply (Hno p). by left.
Qed.

(** C1 (conflict safety).  Two references of an array of which at least
    one writes and whose scheduled access relations intersect are given the
    same final group: their [group] fields hold the same position, and the
    group of the array at that position lists both references. *)
Theorem conflict_safety `{IslOps M} {Pt : Type} (pts : M -> Pt -> Prop)
    (n_index : nat) (array_refs : list (cuda_stmt_access M)) (sched : M)
    (leader0 : list nat) (i1 i2 : nat) (r1 r2 : cuda_stmt_access M) :
  relation_laws pts ->
  length leader0 = length (populate_array_references array_refs sched) ->
  array_refs !! i1 = Some r1 -> array_refs !! i2 = Some r2 ->
  ref_write r1 = true \/ ref_write r2 = true ->
  isl_map_is_empty
    (isl_map_intersect (isl_map_apply_domain (ref_access r1) sched)
                       (isl_map_apply_domain (ref_access r2) sched)) = false ->
  let '(array_refs', groups) := group_array_references n_index array_refs sched leader0 in
  grouped_together array_refs' groups i1 i2.
Proof.
  intros HL Hlen H1 H2 Hw He.
  pose proof (group_array_references_groups pts n_index array_refs sched leader0 HL Hlen)
    as Hg.
  cbv zeta in Hg.
  destruct (group_array_references n_index array_refs sched leader0)
    as [array_refs' groups].
  pose proof HL as (Lint & Luni & Lemp).
  assert (Hact : forall r r', isl_map_is_empty (isl_map_intersect r r') = false ->
            isl_map_is_empty r = false /\ isl_map_is_empty r' = false).
  { intros r r' Hn. split.
    - destruct (isl_map_is_empty r) eqn:E; [|done]. rewrite <- Hn. symmetry.
      apply Lemp. intros p [Hp _]%Lint. by apply (proj1 (Lemp r) E p).
    - destruct (isl_map_is_empty r') eqn:E; [|done]. rewrite <- Hn. symmetry.
      apply Lemp. intros p [_ Hp]%Lint. by apply (proj1 (Lemp r') E p). }
  destruct (Hact _ _ He) as [He1 He2].
  destruct (active_refs_elem array_refs sched i1 r1 H1 He1) as [k1 Hk1].
  destruct (active_refs_elem array_refs sched i2 r2 H2 He2) as [k2 Hk2].
  specialize (Hg k1 k2). rewrite Hk1, Hk2 in Hg. cbn [default] in Hg.
  rewrite length_map in Hg.
  apply Hg.
  - by apply lookup_lt_Some in Hk1.
  - by apply lookup_lt_Some in Hk2.
  - unfold group_at. rewrite !list_lookup_fmap, Hk1, Hk2. simpl.
    rewrite (singleton_group_Some _ _ _ _ H1), (singleton_group_Some _ _ _ _ H2).
    split; simpl; done.
Qed.

Lemma conflict_safety_witness :
  let '(array_refs', groups) :=
    group_array_references 1 sample_refs sample_sched [0; 0; 0]%nat in
  grouped_together array_refs' groups 0 2.
Proof.
  refine (conflict_safety fin_pts 1 sample_refs sample_sched [0; 0; 0]%nat 0 2
            (mk_access true false [([0], [0]); ([1], [1])] (-1))
            (mk_access false true [([1], [1])] (-1)) fin_relation_laws _ _ _ _ _).
  - reflexivity.
  - reflexivity.
  - reflexivity.
  - right. reflexivity.
  - reflexivity.
Defined.

Lemma group_leader_rep n leader rep k :
  leader_inv n leader rep -> (k < n)%nat -> group_leader leader k = rep k.
Proof.
  intros HI Hk. unfold group_leader.
  assert (Hit : forall m k, (k < n)%nat -> (k - rep k <= m)%nat ->
            Nat.iter m (leader_at leader) k = rep k).
  { induction m as [|m IH]; intros k' Hk' Hm;
      destruct (HI k' Hk') as (H1 & H2 & H3 & H4 & H5).
    - simpl. lia.
    - rewrite Nat.iter_succ_r. destruct (decide (leader_at leader k' = k')) as [E|E].
      + rewrite E. apply IH; [done|]. lia.
      + rewrite <- H3. apply IH; [lia|].
        destruct (HI (leader_at leader k') ltac:(lia)) as (_ & ? & _).
        assert (rep k' <> k') by tauto. rewrite H3 in *. lia. }
  apply Hit; [done|lia].
Qed.

(** C4, as the code has it.  When the conflict-merge pass is over, every
    reference belongs to a surviving leader group whose accumulated access
    relation and write flag cover it, and two references that conflict (one
    of them writes and their scheduled access relations intersect) belong to
    the same leader group. *)
Theorem conflict_merge_separates `{IslOps M} {Pt : Type} (pts : M -> Pt -> Prop)
    (groups0 : list (cuda_array_ref_group M)) (leader0 : list nat) :
  relation_laws pts ->
  (forall k, (k < length groups0)%nat -> is_Some (access (group_at groups0 k))) ->
  length leader0 = length groups0 ->
  let '(groups, leader, _) :=
    group_overlapping_writes (length groups0) groups0 leader0 in
  forall k1, (k1 < length groups0)%nat ->
    leader_at leader (group_leader leader k1) = group_leader leader k1 /\
    covers pts (group_at groups0 k1) (group_at groups (group_leader leader k1)) /\
    forall k2, (k2 < length groups0)%nat ->
      conflict (group_at groups0 k1) (group_at groups0 k2) ->
      group_leader leader k1 = group_leader leader k2.
Proof.
  intros HL H0 Hlen.
  destruct (group_overlapping_writes_inv pts groups0 leader0 HL H0 Hlen) as [rep Hout].
  destruct (group_overlapping_writes (length groups0) groups0 leader0)
    as [[groups leader] n_group].
  destruct Hout as (Hlg & Hll & _ & HI & Hcov & Hpair & _ & Hrefs).
  simpl in Hlg, Hll, HI, Hcov, Hpair, Hrefs.
  intros k1 Hk1. rewrite (group_leader_rep _ _ _ _ HI Hk1). split_and!.
  - by apply (leader_inv_root _ _ _ _ HI Hk1).
  - by apply Hcov.
  - intros k2 Hk2 Hc. rewrite (group_leader_rep _ _ _ _ HI Hk2). by apply Hpair.
Qed.

Lemma conflict_merge_separates_witness :
  let groups0 := populate_array_references sample_refs sample_sched in
  let '(groups, leader, _) := group_overlapping_writes 3 groups0 [0; 0; 0]%nat in
  forall k1, (k1 < 3)%nat ->
    leader_at leader (group_leader leader k1) = group_leader leader k1 /\
    covers fin_pts (group_at groups0 k1) (group_at groups (group_leader leader k1)) /\
    forall k2, (k2 < 3)%nat ->
      conflict (group_at groups0 k1) (group_at groups0 k2) ->
      group_leader leader k1 = group_leader leader k2.
Proof.
  refine (conflict_merge_separates fin_pts
            (populate_array_references sample_refs sample_sched) [0; 0; 0]%nat
            fin_relation_laws _ _).
  - intros [|[|[|k]]] Hk; simpl in Hk; try lia; simpl; eauto.
  - reflexivity.
Defined.

(** C4 as stated fails: after the conflict merge of the sample references
    the leader groups 0 (the read of elements 0 and 1, merged with the write
    of element 1) and 1 (the read of element 0) are distinct, their
    accumulated access relations intersect in element 0, and group 0
    contains a write. *)
Lemma conflict_fixed_point_counterexample :
  ~ (let '(groups, leader, _) :=
       group_overlapping_writes 3
         (populate_array_references sample_refs sample_sched) [0; 0; 0]%nat in
     conflict_fixed_point 3 groups leader).
Proof.
  vm_compute. intros Hfix.
  destruct (Hfix 0%nat 1%nat) as [He|[Hw _]]; try lia; try done.
Qed.

(** ** The bound solver *)

Lemma size_fold_frame `{IslOps M} cs info :
  let info' := fold_left (fun s c => compute_size_in_direction c s) cs info in
  bset info' = bset info /\ pos info' = pos info.
Proof.
  revert info. induction cs as [|c cs IH]; intros info; simpl; [done|].
  destruct (IH (compute_size_in_direction c info)) as [-> ->].
  unfold compute_size_in_direction.
  destruct (isl_constraint_involves_divs c); [done|].
  destruct (decide _); [|done].
  destruct (isl_basic_set_max _ _); try done.
  destruct (decide _); done.
Qed.

Lemma size_step_no_bound `{IslOps M} c info :
  ~ finite_lower_bound (bset info) (pos info) c ->
  compute_size_in_direction c info = info.
Proof.
  intros Hno. unfold compute_size_in_direction.
  destruct (isl_constraint_involves_divs c) eqn:Ed; [done|].
  destruct (decide _) as [Hpos|]; [|done].
  destruct (isl_basic_set_max _ _) eqn:Emax; try done.
  exfalso. apply Hno. split_and!; [done|done|]. exists v. exact Emax.
Qed.

Lemma size_fold_no_bound `{IslOps M} cs info :
  (forall c, c ∈ cs -> ~ finite_lower_bound (bset info) (pos info) c) ->
  fold_left (fun s c => compute_size_in_direction c s) cs info = info.
Proof.
  induction cs as [|c cs IH]; intros Hno; simpl; [done|].
  rewrite size_step_no_bound by (apply Hno; by left).
  apply IH. intros c' Hc'. apply Hno. by right.
Qed.

Lemma compute_array_dim_size_infeasible `{IslOps M} bnd hull :
  dim_infeasible hull -> (compute_array_dim_size_opt bnd hull).2 = false.
Proof.
  destruct hull as [h|]; [|done]. simpl. intros Hno.
  unfold compute_array_dim_size. specialize (Hno bnd).
  destruct (check_stride bnd h) as [b bounds]. simpl in Hno.
  rewrite size_fold_no_bound; simpl; [done|]. exact Hno.
Qed.

Lemma can_tile_loop_infeasible `{IslOps M} n_index access indices bounds i :
  i ∈ indices -> dim_infeasible (access_hull n_index i access) ->
  (can_tile_loop n_index access indices bounds).2 = false.
Proof.
  revert bounds. induction indices as [|i' rest IH]; intros bounds Hi Hno.
  - by apply not_elem_of_nil in Hi.
  - simpl. destruct (compute_array_dim_size_opt _ _) as [b ok] eqn:E.
    destruct ok; [|done].
    apply elem_of_cons in Hi as [->|Hi]; [|by apply IH].
    pose proof (compute_array_dim_size_infeasible (bound_at bounds i') _ Hno) as Hf.
    rewrite E in Hf. done.
Qed.

(** C7 (infeasible bound).  If for dimension [i] of the array no lower
    bound of the (possibly stride-rewritten) hull yields a finite constant
    size, the feasibility test answers "no" as a value; the shared-tile
    attempt then leaves the group without any shared bound (global
    memory), and a private-tile attempt that fails this way leaves the
    group with no private bound and the shared bound, hence the tier, it
    already had. *)
Theorem infeasible_fallback `{IslOps M} (n_index i : nat) :
  (i < n_index)%nat ->
  (forall acc, dim_infeasible (access_hull n_index i acc) ->
     (forall bounds, (can_tile_for_shared_memory n_index acc bounds).2 = false) /\
     (forall group, access group = Some acc ->
        shared_bound (compute_group_shared_bound n_index group) = None /\
        private_bound (compute_group_shared_bound n_index group) = private_bound group)) /\
  (forall gen array_refs group,
     dim_infeasible (access_hull n_index i (private_access gen array_refs group)) ->
     isl_map_is_injective (group_access_relation array_refs group true true) = false ->
     private_bound group = None ->
     let group' := check_private_group_access gen n_index array_refs group in
     private_bound group' = None /\ shared_bound group' = shared_bound group /\
     group_tier group' = group_tier group).
Proof.
  intros Hi.
  assert (Hfail : forall acc bounds, dim_infeasible (access_hull n_index i acc) ->
            (can_tile_for_shared_memory n_index acc bounds).2 = false).
  { intros acc bounds Hno. unfold can_tile_for_shared_memory.
    apply (can_tile_loop_infeasible n_index acc _ bounds i); [|done].
    apply elem_of_seq. lia. }
  split.
  - intros acc Hno. split; [intros; by apply Hfail|].
    intros group Hacc. unfold compute_group_shared_bound. rewrite Hacc.
    pose proof (Hfail acc (create_bound_list n_index) Hno) as Hf.
    destruct (can_tile_for_shared_memory _ _ _) as [b ok]. simpl in Hf. subst ok.
    done.
  - intros gen array_refs group Hno Hinj Hpriv. simpl.
    unfold check_private_group_access. rewrite Hinj.
    destruct (isl_map_is_bijective _); simpl.
    + pose proof (Hfail _ (create_bound_list n_index) Hno) as Hf.
      unfold private_access in Hf.
      destruct (can_tile_for_shared_memory _ _ _) as [b ok]. simpl in Hf. subst ok.
      unfold group_tier. simpl. rewrite Hpriv. done.
    + done.
Qed.

Lemma halfline_infeasible :
  dim_infeasible (M := halfline_map) (access_hull 1 0 halfline_access).
Proof.
  change (access_hull 1 0 halfline_access) with (Some halfline_hull).
  intros bnd c bounds Hc Hf. destruct Hf as (_ & _ & v & Hv).
  change (isl_lp_unbounded = isl_lp_ok v) in Hv. discriminate.
Qed.

Lemma infeasible_fallback_witness :
  (can_tile_for_shared_memory 1 halfline_access (create_bound_list 1)).2 = false /\
  shared_bound (compute_group_shared_bound 1
    (mk_group 0 (Some halfline_access) false None None 1 [0%nat])) = None.
Proof.
  destruct (infeasible_fallback (M := halfline_map) 1 0 ltac:(lia)) as [Hshared _].
  destruct (Hshared halfline_access halfline_infeasible) as [Hcan Hgroup].
  split.
  - apply Hcan.
  - apply Hgroup. reflexivity.
Defined.

Lemma shared_tile_attempt_lookup `{IslOps M} n_index n leader groups i :
  (i < n)%nat -> (n <= length groups)%nat ->
  group_at (shared_tile_attempt n_index n leader groups) i =
  if decide (leader_at leader i = i)
  then compute_group_shared_bound n_index (group_at groups i)
  else group_at groups i.
Proof.
  intros Hi Hn. unfold shared_tile_attempt.
  set (f := fun (gs : list (cuda_array_ref_group M)) (k : nat) => _).
  assert (Hfold : (fun i0 gs => length gs = length groups /\
            forall k, group_at gs k =
              if decide ((k < i0)%nat /\ leader_at leader k = k)
              then compute_group_shared_bound n_index (group_at groups k)
              else group_at groups k) n (fold_left f (seq 0 n) groups)).
  { apply fold_left_seq_inv.
    - split; [done|]. intros k. rewrite decide_False; [done|lia].
    - intros i0 gs Hi0 [Hl Hk]. unfold f.
      destruct (decide (leader_at leader i0 = i0)) as [E|E].
      + split; [by rewrite length_insert|]. intros k.
        destruct (decide (k = i0)) as [->|Hne].
        * rewrite group_at_insert_eq by lia. rewrite decide_True by (split; [lia|done]).
          rewrite Hk. rewrite decide_False; [done|lia].
        * rewrite group_at_insert_ne by done. rewrite Hk.
          destruct (decide (leader_at leader k = k)).
          -- destruct (decide (k < i0)%nat).
             ++ rewrite !decide_True; [done|split; [lia|done]|done].
             ++ rewrite !decide_False; [done|lia|lia].
          -- rewrite !decide_False; [done|tauto|tauto].
      + split; [done|]. intros k. rewrite Hk.
        destruct (decide (k = i0)) as [->|Hne].
        * rewrite !decide_False; [done|tauto|lia].
        * destruct (decide (leader_at leader k = k)).
          -- destruct (decide (k < i0)%nat).
             ++ rewrite !decide_True; [done|split; [lia|done]|done].
             ++ rewrite !decide_False; [done|lia|lia].
          -- rewrite !decide_False; [done|tauto|tauto]. }
  destruct Hfold as [_ Hk]. rewrite Hk.
  destruct (decide (leader_at leader i = i)).
  - rewrite decide_True; [done|done].
  - rewrite decide_False; [done|tauto].
Qed.

(** C10 (scalars).  For an array with zero index dimensions the
    feasibility test succeeds without looking at the access relation, so
    the shared-tile attempt gives every group it is run on, that is every
    leader, a shared bound (the empty list of per-dimension bounds). *)
Theorem zero_dim_shared_bound `{IslOps M} :
  (forall (acc : M) bounds, can_tile_for_shared_memory 0 acc bounds = (bounds, true)) /\
  (forall group : cuda_array_ref_group M,
     shared_bound (compute_group_shared_bound 0 group) = Some []) /\
  (forall n leader (groups : list (cuda_array_ref_group M)) i,
     (i < n)%nat -> (n <= length groups)%nat -> leader_at leader i = i ->
     shared_bound (group_at (shared_tile_attempt 0 n leader groups) i) = Some []).
Proof.
  assert (Hg : forall group : cuda_array_ref_group M,
            shared_bound (compute_group_shared_bound 0 group) = Some []).
  { intros group. unfold compute_group_shared_bound. by destruct (access group). }
  split_and!; [done|done|].
  intros n leader groups i Hi Hn Hl.
  rewrite shared_tile_attempt_lookup by done. rewrite decide_True by done. apply Hg.
Qed.

Lemma zero_dim_shared_bound_witness :
  let groups0 := populate_array_references sample_refs sample_sched in
  let '(groups, leader, _) := group_overlapping_writes 3 groups0 [0; 0; 0]%nat in
  shared_bound (group_at (shared_tile_attempt 0 3 leader groups) 1) = Some [].
Proof.
  destruct (@zero_dim_shared_bound fin_rel fin_ops) as (_ & _ & Hloop).
  apply Hloop.
  - lia.
  - simpl. lia.
  - reflexivity.
Defined.

(** ** Private-memory promotion *)

Lemma check_private_injective `{IslOps M} gen n_index array_refs
    (group : cuda_array_ref_group M) :
  isl_map_is_injective (group_access_relation array_refs group true true) = true ->
  check_private_group_access gen n_index array_refs group =
  match shared_bound group with
  | Some _ =>
      if access_is_coalesced gen (group_access_relation array_refs group true true)
      then set_shared_bound group None else group
  | None => group
  end.
Proof. intros Hinj. unfold check_private_group_access. by rewrite Hinj. Qed.

Lemma check_private_reuse `{IslOps M} gen n_index array_refs
    (group : cuda_array_ref_group M) :
  isl_map_is_injective (group_access_relation array_refs group true true) = false ->
  check_private_group_access gen n_index array_refs group =
  if isl_map_is_bijective
       (isl_map_apply_domain (group_access_relation array_refs group true true)
          (shared_sched gen))
  then
    let '(bounds, ok) := can_tile_for_shared_memory n_index
        (private_access gen array_refs group) (create_bound_list n_index) in
    set_private_bound group (if ok then Some bounds else None)
  else group.
Proof.
  intros Hinj. unfold check_private_group_access, private_access. rewrite Hinj.
  by destruct (isl_map_is_bijective _).
Qed.

(** C2, as the code has it.  The promotion pass never gives a private
    bound to a group without reuse, so that for such a group the two bounds
    are not both present; a group with reuse that is given a private bound
    keeps the shared bound it had, and is then mapped to private memory. *)
Theorem promotion_tiers `{IslOps M} (gen : cuda_gen M) (n_index : nat)
    (array_refs : list (cuda_stmt_access M)) (group : cuda_array_ref_group M) :
  private_bound group = None ->
  let group' := check_private_group_access gen n_index array_refs group in
  (isl_map_is_injective (group_access_relation array_refs group true true) = true ->
   private_bound group' = None /\ tier_exclusive group') /\
  (forall b, private_bound group' = Some b ->
     shared_bound group' = shared_bound group /\ group_tier group' = tier_private).
Proof.
  intros Hp. simpl. split.
  - intros Hinj. rewrite check_private_injective by done.
    destruct (shared_bound group); [destruct (access_is_coalesced _ _)|];
      simpl; split; try done; by left.
  - intros b Hb.
    destruct (isl_map_is_injective (group_access_relation array_refs group true true))
      eqn:Hinj.
    + rewrite check_private_injective in Hb by done.
      destruct (shared_bound group); [destruct (access_is_coalesced _ _)|];
        simpl in Hb; congruence.
    + rewrite check_private_reuse in Hb |- * by done.
      destruct (isl_map_is_bijective _); [|congruence].
      destruct (can_tile_for_shared_memory _ _ _) as [bounds ok].
      destruct ok; simpl in Hb; [|done]. split; [done|].
      unfold group_tier. simpl. done.
Qed.

Lemma promotion_tiers_witness :
  let '(array_refs, groups) :=
    group_array_references 1 reuse_refs reuse_tile_sched [0%nat] in
  let group := group_at groups 0 in
  let group' := check_private_group_access reuse_gen 1 array_refs group in
  (isl_map_is_injective (group_access_relation array_refs group true true) = true ->
   private_bound group' = None /\ tier_exclusive group') /\
  (forall b, private_bound group' = Some b ->
     shared_bound group' = shared_bound group /\ group_tier group' = tier_private).
Proof.
  destruct (group_array_references 1 reuse_refs reuse_tile_sched [0%nat])
    as [array_refs groups] eqn:E.
  apply (promotion_tiers reuse_gen 1 array_refs (group_at groups 0)).
  vm_compute in E. injection E as <- <-. reflexivity.
Defined.

(** C2 as stated fails: the single group of the one-thread kernel has a
    shared tile after the grouping, its access has reuse and is a bijection
    from the thread-wrapped coordinate, so that the promotion pass adds a
    private tile and leaves the shared one in place. *)
Lemma tier_exclusive_counterexample :
  ~ (let '(array_refs, groups) :=
       group_array_references 1 reuse_refs reuse_tile_sched [0%nat] in
     Forall tier_exclusive (compute_private_size reuse_gen 1 array_refs groups)).
Proof.
  vm_compute. intros Hall. inversion Hall as [|g l [Hg|Hg] _]; discriminate.
Qed.

Lemma next_constraints len n_par pos :
  next len n_par pos =
  Some (mk_bmap (mk_dim n_par len len) 0
          (flat_map (fun i =>
             [mk_constraint true (if decide (Z.of_nat i = pos) then 1 else 0)
                (zeros n_par) (<[i := 1]> (zeros len)) (<[i := -1]> (zeros len)) []])
             (seq 0 len))).
Proof.
  unfold next.
  rewrite (for_range_add _ _ (fun i =>
             [mk_constraint true (if decide (Z.of_nat i = pos) then 1 else 0)
                (zeros n_par) (<[i := 1]> (zeros len)) (<[i := -1]> (zeros len)) []])).
  - done.
  - intros i b Hi. unfold isl_constraint_set_coefficient, isl_equality_alloc. simpl.
    rewrite set_at_Some by len_solve. simpl.
    rewrite set_at_Some by len_solve. simpl.
    by destruct (decide (Z.of_nat i = pos)).
Qed.

(** [next] relates [x] to [x] with position [pos] incremented. *)
Lemma next_rel len n_par pos b :
  next len n_par pos = Some b ->
  forall p x y, rel b p x y <-> length x = len /\ steps_to pos x y.
Proof.
  rewrite next_constraints. intros [= <-] p x y. unfold rel, steps_to. simpl. split.
  - intros (Hx & Hy & e & He & HF). rewrite Forall_flat_map_seq in HF.
    split; [done|]. split; [lia|]. intros i Hi. specialize (HF i ltac:(lia)).
    rewrite Forall_singleton in HF. revert HF. eval_simpl. lia.
  - intros (Hx & Hy & Hs). split; [done|]. split; [lia|]. exists []. split; [done|].
    rewrite Forall_flat_map_seq. intros i Hi. rewrite Forall_singleton.
    eval_simpl. rewrite Hs by lia. lia.
Qed.

Lemma access_is_coalesced_spec `{IslOps M} pts (gen : cuda_gen M) acc :
  coalescing_contract pts gen acc ->
  access_is_coalesced gen acc = true <-> coalesced_semantics pts gen acc.
Proof.
  intros [Hdim Hsub]. unfold access_is_coalesced, coalesced_semantics.
  fold (scheduled_access gen acc) in *. fold (thread_pos gen) in *.
  set (am := scheduled_access gen acc) in *.
  destruct (next (isl_map_dim_in am) (isl_map_n_param am) (thread_pos gen))
    as [nt|] eqn:Ent; [|by rewrite next_constraints in Ent].
  destruct (next (isl_map_dim_out am) (isl_map_n_param am)
              (Z.of_nat (isl_map_dim_out am) - 1))
    as [ne|] eqn:Ene; [|by rewrite next_constraints in Ene].
  rewrite (Hsub nt ne eq_refl eq_refl). split.
  - intros Hall p x a x' a' Hxa Hxa' Hstep.
    apply (next_rel _ _ _ _ Ene p a a').
    apply (Hall p x a x' a' Hxa); [|done].
    apply (next_rel _ _ _ _ Ent). split; [|done]. by apply (Hdim p x a).
  - intros Hall p x a x' a' Hxa Hnt Hxa'.
    apply (next_rel _ _ _ _ Ene). split; [by apply (Hdim p x a)|].
    apply (Hall p x a x' a' Hxa Hxa'). by apply (next_rel _ _ _ _ Ent p x x').
Qed.

Lemma identity_is_coalesced `{IslOps M} pts (gen : cuda_gen M) acc :
  coalescing_contract pts gen acc ->
  identity_access pts gen acc -> coalesced_semantics pts gen acc.
Proof.
  intros [Hdim _] (Hone & Hpos & Hid) p x a x' a' Hxa Hxa' [Hlen Hstep].
  fold (scheduled_access gen acc) in *.
  rewrite (Hid p x a Hxa), (Hid p x' a' Hxa'), Hone. split; [done|].
  intros i Hi. simpl in Hi. assert (i = 0%nat) as -> by lia.
  destruct (Hdim p x a Hxa) as [Hx _].
  rewrite Hstep by lia.
  rewrite !decide_True by lia. done.
Qed.

(** C6 (coalesced demotion).  For a group whose access relation is
    injective, the promotion pass drops the shared bound when there is one
    and the access is coalesced, and otherwise leaves the group as it is; it
    never gives such a group a private bound.  [access_is_coalesced] holds
    exactly when advancing the thread-wrapped coordinate by one always
    moves to the next element along the innermost array index, so that the
    identity access is coalesced and ends without a shared bound. *)
Theorem coalesced_demotion `{IslOps M} (pts : M -> list Z -> list Z -> list Z -> Prop)
    (gen : cuda_gen M) (n_index : nat) (array_refs : list (cuda_stmt_access M))
    (group : cuda_array_ref_group M) :
  let acc := group_access_relation array_refs group true true in
  isl_map_is_injective acc = true ->
  coalescing_contract pts gen acc ->
  let group' := check_private_group_access gen n_index array_refs group in
  (access_is_coalesced gen acc = true <-> coalesced_semantics pts gen acc) /\
  private_bound group' = private_bound group /\
  (is_Some (shared_bound group) -> coalesced_semantics pts gen acc ->
   group' = set_shared_bound group None) /\
  (shared_bound group = None \/ ~ coalesced_semantics pts gen acc -> group' = group) /\
  (identity_access pts gen acc ->
   access_is_coalesced gen acc = true /\ shared_bound group' = None).
Proof.
  intros acc Hinj Hc group'.
  pose proof (access_is_coalesced_spec pts gen acc Hc) as Hspec.
  assert (Hg : group' = match shared_bound group with
                        | Some _ => if access_is_coalesced gen acc
                                    then set_shared_bound group None else group
                        | None => group
                        end) by (by apply check_private_injective).
  split_and!.
  - done.
  - rewrite Hg. destruct (shared_bound group); [destruct (access_is_coalesced _ _)|];
      done.
  - intros [b Hb] Hsem. rewrite Hg, Hb. apply Hspec in Hsem. by rewrite Hsem.
  - intros Hor. rewrite Hg. destruct (shared_bound group) as [b|]; [|done].
    destruct Hor as [?|Hno]; [done|].
    destruct (access_is_coalesced gen acc); [|done]. exfalso. by apply Hno, Hspec.
  - intros Hid. pose proof (identity_is_coalesced pts gen acc Hc Hid) as Hsem.
    apply Hspec in Hsem. split; [done|]. rewrite Hg, Hsem.
    destruct (shared_bound group) eqn:E; [done|exact E].
Qed.

Lemma id_coalescing_contract :
  coalescing_contract id_pts id_gen (group_access_relation id_refs id_group true true).
Proof.
  split.
  - intros p x a [Hx ->]. split; exact Hx.
  - intros nt ne Hnt Hne.
    assert (nt = ne) as <- by (vm_compute in Hnt, Hne; congruence).
    split; [|done]. intros _ p x a x' a' [Hx ->] Hrel [Hx' ->]. done.
Qed.

Lemma id_identity_access :
  identity_access id_pts id_gen (group_access_relation id_refs id_group true true).
Proof.
  split_and!; try done. intros p x a [Hx ->].
  destruct x as [|t [|? ?]]; simpl in Hx; try lia. done.
Qed.

Lemma coalesced_demotion_witness :
  access_is_coalesced id_gen (group_access_relation id_refs id_group true true) = true /\
  shared_bound (check_private_group_access id_gen 1 id_refs id_group) = None.
Proof.
  destruct (coalesced_demotion id_pts id_gen 1 id_refs id_group)
    as (_ & _ & _ & _ & Hid).
  - reflexivity.
  - apply id_coalescing_contract.
  - apply Hid, id_identity_access.
Defined.

(** C5 (bijection promotion).  For a group whose access relation has
    reuse, the promotion pass tests the relation from the shared-tile and
    thread-wrapped coordinates to the array elements for bijectivity, and
    the group receives a private bound exactly when that relation is
    bijective and the bound solver succeeds on the privatized relation.  So
    a single-valued, injective access (a permutation of the per-thread
    iteration space) is promoted when the solver succeeds, an access that
    maps two distinct iterations to one element is not, and the shared
    bound is left as it was. *)
Theorem bijection_promotion `{IslOps M} (pts : M -> list Z -> list Z -> Prop)
    (gen : cuda_gen M) (n_index : nat) (array_refs : list (cuda_stmt_access M))
    (group : cuda_array_ref_group M) :
  let acc := isl_map_apply_domain (group_access_relation array_refs group true true)
               (shared_sched gen) in
  let solver := can_tile_for_shared_memory n_index
                  (private_access gen array_refs group) (create_bound_list n_index) in
  isl_map_is_injective (group_access_relation array_refs group true true) = false ->
  private_bound group = None ->
  bijective_contract pts acc ->
  let group' := check_private_group_access gen n_index array_refs group in
  (forall b, private_bound group' = Some b <->
     isl_map_is_bijective acc = true /\ solver = (b, true)) /\
  ((forall x y y', pts acc x y -> pts acc x y' -> y = y') ->
   (forall x x' y, pts acc x y -> pts acc x' y -> x = x') ->
   solver.2 = true -> private_bound group' = Some solver.1) /\
  (forall x x' y, x <> x' -> pts acc x y -> pts acc x' y ->
     private_bound group' = None) /\
  shared_bound group' = shared_bound group.
Proof.
  intros acc solver Hinj Hpriv Hbij group'.
  assert (Hg : group' =
            if isl_map_is_bijective acc
            then set_private_bound group (if solver.2 then Some solver.1 else None)
            else group).
  { unfold group'. rewrite check_private_reuse by done. fold acc. fold solver.
    by destruct solver. }
  clearbody group'. subst group'.
  assert (Hsolver : solver = (solver.1, solver.2)) by (by destruct solver).
  clearbody solver acc.
  destruct (isl_map_is_bijective acc) eqn:E.
  - assert (Hiff : forall b,
              (if solver.2 then Some solver.1 else None) = Some b <->
              true = true /\ solver = (b, true)).
    { intros b. destruct solver as [bounds ok]. simpl. destruct ok; split.
      - intros [= ->]. done.
      - intros [_ [= ->]]. done.
      - done.
      - intros [_ [=]]. }
    simpl. split_and!.
    + exact Hiff.
    + intros _ _ Hok. by rewrite Hok.
    + intros x x' y Hne Hx Hx'. apply Hbij in E as [_ Hin].
      destruct Hne. by apply (Hin x x' y).
    + done.
  - split_and!.
    + intros b. rewrite Hpriv. split; [done|]. intros [? _]. done.
    + intros Hsv Hin _. exfalso. apply not_true_iff_false in E. apply E.
      by apply Hbij.
    + done.
    + done.
Qed.

Lemma reuse_bijective_contract :
  bijective_contract fin_pairs
    (isl_map_apply_domain (group_access_relation reuse_grouped_refs reuse_group true true)
       (shared_sched reuse_gen)).
Proof.
  split; [|reflexivity]. intros _. unfold fin_pairs. vm_compute.
  split; intros x y z Hy%list_elem_of_In Hz%list_elem_of_In;
    simpl in Hy, Hz; intuition congruence.
Qed.

Lemma bijection_promotion_witness :
  let solver := can_tile_for_shared_memory 1
                  (private_access reuse_gen reuse_grouped_refs reuse_group)
                  (create_bound_list 1) in
  private_bound (check_private_group_access reuse_gen 1 reuse_grouped_refs reuse_group) =
    Some solver.1.
Proof.
  destruct (bijection_promotion fin_pairs reuse_gen 1 reuse_grouped_refs reuse_group)
    as (_ & Hperm & _).
  - reflexivity.
  - reflexivity.
  - apply reuse_bijective_contract.
  - apply Hperm; [| |reflexivity];
      apply reuse_bijective_contract; reflexivity.
Defined.

Lemma involves_divs_false c e :
  isl_constraint_involves_divs c = false -> dot (c_div c) e = 0.
Proof.
  unfold isl_constraint_involves_divs. intros Hno%bool_decide_eq_false.
  revert e. induction (c_div c) as [|a l IH]; intros e; [done|].
  assert (a = 0) as ->.
  { destruct (decide (a = 0)); [done|]. exfalso. apply Hno. by left. }
  destruct e as [|b e]; simpl; [done|]. rewrite IH; [lia|].
  intros Hex. apply Hno. by right.
Qed.

Lemma ceil_div_le n m j : 0 < m -> n <= m * j -> ceil_div n m <= j.
Proof.
  intros Hm Hn. unfold ceil_div.
  assert (- j <= (- n) / m); [|lia].
  apply Z.div_le_lower_bound; lia.
Qed.

(** One lower-bound constraint of the set gives a sound offset and size. *)
Lemma size_candidate_sound `{IslOps M} bset pos c v p pt :
  c ∈ bm_cons bset ->
  isl_constraint_involves_divs c = false ->
  0 < isl_constraint_get_coefficient c isl_dim_out pos ->
  isl_basic_set_max bset (size_objective c pos) = isl_lp_ok v ->
  lp_sound bset pos ->
  rel bset p [] pt ->
  0 <= coord pt pos -
       qp_val (isl_qpolynomial_from_aff (isl_aff_ceil (isl_constraint_get_bound c pos)))
         p pt < v + 1.
Proof.
  intros Hc Hdiv Hpos Hmax Hlp Hpt.
  pose proof (Hlp c v Hc Hmax p pt Hpt) as Hle.
  destruct Hpt as (_ & _ & e & _ & Hall).
  rewrite Forall_forall in Hall. specialize (Hall c Hc).
  unfold isl_constraint_get_coefficient in Hpos. fold (coord (c_out c) pos) in Hpos.
  assert (Hlt : (pos < length (c_out c))%nat).
  { destruct (decide (pos < length (c_out c))%nat); [done|].
    unfold coord in Hpos. rewrite lookup_ge_None_2 in Hpos by lia. simpl in Hpos. lia. }
  assert (Hsat : 0 <= c_const c + dot (c_param c) p + dot (c_out c) pt).
  { unfold sat, eval in Hall. rewrite (involves_divs_false c e Hdiv) in Hall.
    rewrite dot_nil_r in Hall. destruct (c_eq c); lia. }
  revert Hle. unfold size_objective. simpl.
  rewrite dot_insert by done. rewrite Z.div_1_r.
  set (m := coord (c_out c) pos) in *. set (j := coord pt pos).
  set (rest := c_const c + dot (c_param c) p + (dot (c_out c) pt + (0 - m) * j)).
  intros Hle.
  assert (ceil_div (- rest) m <= j).
  { apply ceil_div_le; [done|]. unfold rest. lia. }
  lia.
Qed.

Lemma size_step_sound `{IslOps M} c info :
  c ∈ bm_cons (bset info) -> lp_sound (bset info) (pos info) ->
  size_sound (bset info) (pos info) (bound info) ->
  let info' := compute_size_in_direction c info in
  size_sound (bset info) (pos info) (bound info') /\
  stride (bound info') = stride (bound info) /\
  shift (bound info') = shift (bound info) /\
  shift_map (bound info') = shift_map (bound info).
Proof.
  intros Hc Hlp Hs. simpl. unfold compute_size_in_direction.
  destruct (isl_constraint_involves_divs c) eqn:Ed; [done|].
  destruct (decide _) as [Hpos|]; [|done].
  destruct (isl_basic_set_max _ _) eqn:Emax; try done.
  destruct (decide _) as [Hupd|]; [|done].
  simpl. split; [|done]. right. eexists. split; [done|].
  intros p pt Hpt. by apply (size_candidate_sound (bset info) (pos info) c v p pt).
Qed.

Lemma size_fold_sound `{IslOps M} cs info :
  (forall c, c ∈ cs -> c ∈ bm_cons (bset info)) -> lp_sound (bset info) (pos info) ->
  size_sound (bset info) (pos info) (bound info) ->
  let info' := fold_left (fun s c => compute_size_in_direction c s) cs info in
  size_sound (bset info) (pos info) (bound info') /\
  stride (bound info') = stride (bound info) /\
  shift (bound info') = shift (bound info) /\
  shift_map (bound info') = shift_map (bound info).
Proof.
  revert info. induction cs as [|c cs IH]; intros info Hin Hlp Hs; simpl; [done|].
  destruct (size_step_sound c info) as (Hs1 & E1 & E2 & E3); try done.
  { apply Hin. by left. }
  destruct (size_fold_frame [c] info) as [Eb Ep]. simpl in Eb, Ep.
  destruct (IH (compute_size_in_direction c info)) as (Hs2 & F1 & F2 & F3).
  - intros c' Hc'. rewrite Eb. apply Hin. by right.
  - by rewrite Eb, Ep.
  - by rewrite Eb, Ep.
  - rewrite Eb, Ep in Hs2. rewrite F1, F2, F3, E1, E2, E3. done.
Qed.

Lemma wrap_flatten_rel b p x y :
  bmap_wf b -> rel b p x y -> rel (wrap_flatten b) p [] (x ++ y).
Proof.
  intros Hwf (Hx & Hy & e & He & Hall). unfold rel. simpl.
  split; [done|]. split; [rewrite length_app; lia|].
  exists e. split; [done|]. rewrite Forall_map.
  unfold bmap_wf in Hwf. rewrite Forall_forall in Hwf, Hall |- *.
  intros c Hc. specialize (Hwf c Hc). specialize (Hall c Hc).
  unfold sat, eval in *. simpl.
  rewrite dot_app by lia. destruct (c_eq c); lia.
Qed.

Lemma shift_basic_map_rel cst par g p j j' :
  rel (shift_basic_map (qp_affine cst par) g) p [j] [j'] <->
  g * j' = j + (cst + dot par p).
Proof.
  assert (Hopp : forall l q, dot (map Z.opp l) q = - dot l q).
  { induction l as [|a l IH]; intros [|b q]; simpl; try done. rewrite IH. lia. }
  unfold rel. simpl. split.
  - intros (_ & _ & e & _ & Hall). rewrite Forall_singleton in Hall.
    unfold sat, eval in Hall. simpl in Hall. rewrite Hopp in Hall. lia.
  - intros Hg. split; [done|]. split; [done|]. exists []. split; [done|].
    rewrite Forall_singleton. unfold sat, eval. simpl. rewrite Hopp. lia.
Qed.

Lemma coord_app_last x j : coord (x ++ [j]) (length x) = j.
Proof.
  rewrite coord_app_r by lia. by rewrite Nat.sub_diag.
Qed.

(** A successful run of the loop of [can_tile_for_shared_memory] has
    computed every bound from the bound that was in the list before. *)
Lemma can_tile_loop_success `{IslOps M} n_index acc k a bounds bounds' :
  can_tile_loop n_index acc (seq a k) bounds = (bounds', true) ->
  (a + k <= length bounds)%nat ->
  forall i, (a <= i < a + k)%nat ->
    exists h, access_hull n_index i acc = Some h /\
      compute_array_dim_size (bound_at bounds i) h = (bound_at bounds' i, true).
Proof.
  revert a bounds. induction k as [|k IH]; intros a bounds Hres Hlen i Hi; [lia|].
  simpl in Hres.
  destruct (compute_array_dim_size_opt (bound_at bounds a) (access_hull n_index a acc))
    as [b ok] eqn:E.
  destruct ok; [|done].
  assert (Hkeep : forall a' bs bs', (a < a')%nat ->
            forall k', can_tile_loop n_index acc (seq a' k') bs = (bs', true) ->
            bound_at bs' a = bound_at bs a).
  { intros a' bs bs' Ha k'. revert a' bs Ha.
    induction k' as [|k' IH']; intros a' bs Ha Hr; simpl in Hr.
    - by injection Hr as <-.
    - destruct (compute_array_dim_size_opt (bound_at bs a') (access_hull n_index a' acc))
        as [b' ok']. destruct ok'; [|done].
      rewrite (IH' (S a') _ ltac:(lia) Hr). unfold bound_at.
      by rewrite list_lookup_insert_ne by lia. }
  destruct (decide (i = a)) as [->|Hne].
  - destruct (access_hull n_index a acc) as [h|]; [|done]. exists h. split; [done|].
    simpl in E. rewrite E. f_equal.
    rewrite (Hkeep (S a) _ _ ltac:(lia) k Hres). unfold bound_at.
    by rewrite list_lookup_insert_eq by lia.
  - destruct (IH (S a) _ Hres) with (i := i) as (h & Hh & Hc).
    + rewrite length_insert. lia.
    + lia.
    + exists h. split; [done|]. rewrite <- Hc. f_equal. unfold bound_at.
      by rewrite list_lookup_insert_ne by lia.
Qed.

(** ** Strides *)

Lemma dot_single c j : dot c [j] = coord c 0 * j.
Proof.
  destruct c as [|a c]; unfold coord; simpl; [lia|]. rewrite dot_nil_r. lia.
Qed.

Lemma divides_dot g l e :
  (forall k, (k < length l)%nat -> (g | coord l k)) -> (g | dot l e).
Proof.
  revert e. induction l as [|a l IH]; intros e Hg; simpl.
  - apply Z.divide_0_r.
  - destruct e as [|b e]; [apply Z.divide_0_r|].
    apply Z.divide_add_r.
    + apply Z.divide_mul_l. apply (Hg 0%nat). simpl. lia.
    + apply IH. intros k Hk. apply (Hg (S k)). simpl. lia.
Qed.

Lemma div_gcd_spec c :
  0 <= div_gcd c /\ forall e, (div_gcd c | dot (c_div c) e).
Proof.
  unfold div_gcd.
  set (P := fun (i : nat) (s : Z) =>
              0 <= s /\ forall k, (k < i)%nat -> (s | coord (c_div c) k)).
  assert (HP : P (length (c_div c))
                 (fold_left (fun stride i =>
                      Z.gcd stride (isl_constraint_get_coefficient c isl_dim_div i))
                    (seq 0 (length (c_div c))) 0)).
  { apply (fold_left_seq_inv P).
    - split; [lia|]. intros k Hk. lia.
    - intros i s Hi [Hs Hdiv]. split; [apply Z.gcd_nonneg|].
      intros k Hk. destruct (decide (k = i)) as [->|Hne].
      + apply Z.gcd_divide_r.
      + eapply Z.divide_trans; [apply Z.gcd_divide_l|]. apply Hdiv. lia. }
  destruct HP as [Hs Hdiv]. split; [done|]. intros e. by apply divides_dot.
Qed.

(** What [extract_stride] stores: the stride, and as shift the constant
    and the parameter coefficients of the constraint, times the sign. *)
Lemma extract_stride_spec c b g :
  isl_constraint_get_coefficient c isl_dim_out 0 = 1 \/
  isl_constraint_get_coefficient c isl_dim_out 0 = -1 ->
  extract_stride c b g (isl_constraint_get_coefficient c isl_dim_out 0) =
  mk_bound (size b) (lb b) g (Some (stride_shift c)) (shift_map b).
Proof.
  set (s := isl_constraint_get_coefficient c isl_dim_out 0).
  intros Hs. unfold extract_stride, stride_shift, set_shift, set_stride. fold s.
  simpl. f_equal. f_equal. f_equal.
  - destruct (decide (s < 0)); lia.
  - set (l := c_param c). set (n := length l).
    set (f := fun qp i =>
                let v := isl_constraint_get_coefficient c isl_dim_param i in
                if decide (v = 0) then qp
                else let v := if decide (s < 0) then - v else v in <[i := v]> qp).
    set (P := fun (k : nat) (qp : list Z) =>
                length qp = n /\
                forall i, (i < n)%nat ->
                  coord qp i = if decide (i < k)%nat then s * coord l i else 0).
    assert (HP : P n (fold_left f (seq 0 n) (zeros n))).
    { apply (fold_left_seq_inv P).
      - split; [apply length_replicate|]. intros i Hi.
        rewrite coord_zeros. by rewrite decide_False by lia.
      - intros k qp Hk [Hlen Hqp]. unfold f. cbn zeta.
        change (isl_constraint_get_coefficient c isl_dim_param k) with (coord l k).
        destruct (decide (coord l k = 0)) as [E0|Hne].
        + split; [done|]. intros i Hi. rewrite Hqp by done.
          destruct (decide (i = k)) as [->|].
          * rewrite decide_False by lia. rewrite decide_True by lia. rewrite E0. lia.
          * destruct (decide (i < k)%nat), (decide (i < S k)%nat); try lia; done.
        + split; [by rewrite length_insert|]. intros i Hi.
          destruct (decide (i = k)) as [->|Hik].
          * rewrite coord_insert_eq by lia.
            destruct (decide (k < S k)%nat); [|lia].
            destruct (decide (s < 0)); lia.
          * rewrite coord_insert_ne by done. rewrite Hqp by done.
            destruct (decide (i < k)%nat), (decide (i < S k)%nat); try lia; done. }
    destruct HP as [Hlen Hqp]. apply list_eq. intros i.
    rewrite list_lookup_fmap.
    destruct (decide (i < n)%nat) as [Hi|Hi].
    + specialize (Hqp i Hi). rewrite decide_True in Hqp by done.
      unfold coord in Hqp.
      destruct (lookup_lt_is_Some_2 l i Hi) as [v Hv].
      destruct (lookup_lt_is_Some_2 (fold_left f (seq 0 n) (zeros n)) i) as [w Hw];
        [lia|].
      rewrite Hv, Hw in *. simpl in *. by rewrite Hqp.
    + rewrite !lookup_ge_None_2 by (fold l n; lia). done.
Qed.

(** What [check_stride_constraint] does with one constraint: nothing, or,
    when the constraint shows a stride larger than the one recorded, the
    call of [extract_stride]. *)
Lemma check_stride_constraint_cases c b :
  (check_stride_constraint c b = b /\
   forall g, shows_stride c g -> g <= stride b) \/
  (shows_stride c (div_gcd c) /\ stride b < div_gcd c /\
   check_stride_constraint c b =
   mk_bound (size b) (lb b) (div_gcd c) (Some (stride_shift c)) (shift_map b)).
Proof.
  unfold check_stride_constraint. fold (div_gcd c).
  set (v := isl_constraint_get_coefficient c isl_dim_out 0).
  assert (Hnil : length (c_div c) <> 0%nat <-> c_div c <> []).
  { destruct (c_div c); simpl; split; intros; done. }
  destruct (decide _) as [[Hn Hv]|Hno].
  - destruct (decide _) as [[Hg Hlt]|Hno].
    + right. split; [split_and!; try done; by apply Hnil|]. split; [lia|].
      replace (Z.sgn v) with v by (destruct Hv as [-> | ->]; done).
      by apply extract_stride_spec.
    + left. split; [done|]. intros g (_ & _ & <- & Hg).
      destruct (decide (div_gcd c <= stride b)); [done|].
      exfalso. apply Hno. split; [done|lia].
  - left. split; [done|]. intros g (Hn & Hv & _). exfalso. apply Hno.
    split; [by apply Hnil|done].
Qed.

(** An equality of a basic map makes the rest of the constraint a
    multiple of the gcd of the coefficients of the existentially
    quantified variables. *)
Lemma strided_equality_divides aff c p x j :
  rel aff p x [j] -> c ∈ bm_cons aff -> c_eq c = true ->
  (div_gcd c | c_const c + dot (c_param c) p + dot (c_in c) x +
               isl_constraint_get_coefficient c isl_dim_out 0 * j).
Proof.
  intros (_ & _ & e & _ & Hall) Hc Heq.
  rewrite Forall_forall in Hall. specialize (Hall c Hc).
  unfold sat, eval in Hall. rewrite Heq, dot_single in Hall.
  change (isl_constraint_get_coefficient c isl_dim_out 0) with (coord (c_out c) 0).
  destruct (div_gcd_spec c) as [_ Hdiv]. specialize (Hdiv e).
  replace (c_const c + dot (c_param c) p + dot (c_in c) x + coord (c_out c) 0 * j)
    with (- dot (c_div c) e) by lia.
  by apply Z.divide_opp_r.
Qed.

(** The scan of [check_stride] over the constraints [cs]: the bound is
    left as it was, or it holds the stride and the shift of one of the
    constraints; in either case no constraint shows a larger stride than
    the one recorded. *)
Lemma stride_scan cs b :
  let b' := fold_left (fun b c => check_stride_constraint c b) cs b in
  size b' = size b /\ lb b' = lb b /\ shift_map b' = shift_map b /\
  stride b <= stride b' /\
  (forall c g, c ∈ cs -> shows_stride c g -> g <= stride b') /\
  (b' = b \/
   exists c, c ∈ cs /\ shows_stride c (stride b') /\ stride b < stride b' /\
             shift b' = Some (stride_shift c)).
Proof.
  revert b. induction cs as [|c cs IH]; intros b; simpl.
  - split_and!; try done; [|by left]. intros c g Hc. by apply elem_of_nil in Hc.
  - destruct (IH (check_stride_constraint c b)) as (E1 & E2 & E3 & Hle & Hmax & Hrec).
    set (b1 := check_stride_constraint c b) in *.
    set (b' := fold_left _ cs b1) in *.
    destruct (check_stride_constraint_cases c b) as [[Eb Hc]|(Hshow & Hlt & Eb)];
      fold b1 in Eb.
    + rewrite Eb in *. split_and!; try done.
      * intros c' g [->|Hc']%elem_of_cons Hg; [|by eapply Hmax].
        specialize (Hc g Hg). lia.
      * destruct Hrec as [->|(c' & Hc' & Hs' & Hlt' & Esh)]; [by left|].
        right. exists c'. split_and!; try done. by right.
    + assert (Est : stride b1 = div_gcd c) by (by rewrite Eb).
      split_and!.
      * rewrite E1, Eb. done.
      * rewrite E2, Eb. done.
      * rewrite E3, Eb. done.
      * lia.
      * intros c' g [->|Hc']%elem_of_cons Hg; [|by eapply Hmax].
        destruct Hg as (_ & _ & <- & _). lia.
      * right. destruct Hrec as [->|(c' & Hc' & Hs' & Hlt' & Esh)].
        -- exists c. split_and!; [by left|by rewrite Est|lia|by rewrite Eb].
        -- exists c'. split_and!; try done; [by right|lia].
Qed.

(** [check_stride]: without a constraint that shows a stride, the bounds
    are returned as they are; otherwise the stride recorded is the largest
    that a constraint of the affine hull shows, the shift is the one of a
    constraint that shows it, and the bounds are composed with the map
    [i -> (i + shift)/stride]. *)
Lemma check_stride_cases `{IslOps M} bnd h :
  shift bnd = None ->
  let aff := isl_basic_map_affine_hull h in
  let b := (check_stride bnd h).1 in
  size b = size bnd /\ lb b = lb bnd /\
  (forall c g, c ∈ bm_cons aff -> shows_stride c g -> g <= stride b) /\
  ((shift b = None /\ stride b = -1 /\ (check_stride bnd h).2 = h) \/
   exists c, c ∈ bm_cons aff /\ shows_stride c (stride b) /\
     shift b = Some (stride_shift c) /\
     shift_map b = Some (stride_map c) /\
     (check_stride bnd h).2 = reindexed h c).
Proof.
  intros Hs aff. cbn zeta. unfold check_stride. fold aff.
  destruct (stride_scan (bm_cons aff) (set_stride bnd (-1)))
    as (E1 & E2 & E3 & Hle & Hmax & Hrec).
  set (b1 := fold_left _ _ _) in *. simpl in E1, E2, E3, Hle.
  destruct Hrec as [Eb|(c & Hc & Hshow & Hlt & Esh)].
  - rewrite Eb. rewrite decide_True by (simpl; lia). cbn [fst snd].
    split_and!; try done; [by rewrite Eb in Hmax|]. left. done.
  - simpl in Hlt. rewrite decide_False by lia. rewrite Esh. cbn [fst snd].
    unfold set_shift_map. cbn [size lb stride shift shift_map].
    split_and!; try done. right. exists c.
    assert (Eg : div_gcd c = stride b1) by (by destruct Hshow as (_ & _ & ? & _)).
    unfold reindexed, stride_map. rewrite Eg. done.
Qed.

Lemma ceil_div_ge n m j : 0 < m -> ceil_div n m <= j -> n <= m * j.
Proof.
  unfold ceil_div. intros Hm Hle. Z.div_mod_to_equations. nia.
Qed.

(** For a basic map without input dimensions, wrapping and flattening
    keeps the points. *)
Lemma wrap_flatten_rel_iff b p pt :
  n_in (bm_dim b) = 0%nat -> bmap_wf b ->
  rel (wrap_flatten b) p [] pt <-> rel b p [] pt.
Proof.
  intros Hin Hwf. unfold rel. simpl. rewrite Hin. simpl.
  assert (Hsat : forall e,
            Forall (sat p [] pt e)
              (map (fun c => mk_constraint (c_eq c) (c_const c) (c_param c) []
                               (c_in c ++ c_out c) (c_div c)) (bm_cons b)) <->
            Forall (sat p [] pt e) (bm_cons b)).
  { intros e. rewrite Forall_map. unfold bmap_wf in Hwf.
    rewrite !Forall_forall in *. split; intros Hall c Hc; specialize (Hall c Hc);
      specialize (Hwf c Hc); rewrite Hin in Hwf;
      assert (E : c_in c = []) by (by destruct (c_in c));
      unfold sat, eval in *; simpl in *; rewrite E in *; simpl in *;
      destruct (c_eq c); lia. }
  split; intros (Hx & Hy & e & He & Hall); (split; [done|]); (split; [done|]);
    exists e; (split; [done|]); by apply Hsat.
Qed.

(** *** Size of an interval

    The scan of [compute_array_dim_size] over a set [B] of one dimension,
    without parameters, whose constraints have no existentially quantified
    variable and whose points are [L, L + K), with the LP returning
    maxima: the size found is [K] and the lower bound is [L]. *)
Section line.
Context `{IslOps M}.
Variables (K L : Z) (B : isl_basic_map).
Hypothesis HK : 2 <= K.
Hypothesis Hshape : forall c, c ∈ bm_cons B ->
  c_param c = [] /\ c_in c = [] /\ (exists m, c_out c = [m]) /\
  isl_constraint_involves_divs c = false.
Hypothesis Hpts : forall p pt, rel B p [] pt <-> exists y, pt = [y] /\ L <= y < L + K.
Hypothesis Hlp : lp_exact B 0.

Lemma line_sat c y :
  c ∈ bm_cons B -> L <= y < L + K ->
  if c_eq c then c_const c + coord (c_out c) 0 * y = 0
  else 0 <= c_const c + coord (c_out c) 0 * y.
Proof.
  intros Hc Hy. destruct (Hshape c Hc) as (Hp & Hi & _ & Hd).
  assert (Hrel : rel B [] [] [y]) by (apply Hpts; by exists y).
  destruct Hrel as (_ & _ & e & _ & Hall). rewrite Forall_forall in Hall.
  specialize (Hall c Hc). unfold sat, eval in Hall.
  rewrite (involves_divs_false c e Hd), Hp, Hi, dot_single in Hall. simpl in Hall.
  destruct (c_eq c); lia.
Qed.

Lemma line_objective c p y :
  c ∈ bm_cons B ->
  (aff_val (size_objective c 0) p [y]).1 =
    y - ceil_div (- c_const c) (coord (c_out c) 0) /\
  forall pt, qp_val (isl_qpolynomial_from_aff
                       (isl_aff_ceil (isl_constraint_get_bound c 0))) p pt =
             ceil_div (- c_const c) (coord (c_out c) 0).
Proof.
  intros Hc. destruct (Hshape c Hc) as (Hp & _ & (m & Hm) & _).
  unfold size_objective, qp_val, aff_val. rewrite Hp, Hm. unfold coord. simpl.
  split.
  - replace (- (c_const c + 0 + (0 * y + 0))) with (- c_const c) by lia. lia.
  - intros pt. rewrite Z.div_1_r. f_equal. destruct pt; lia.
Qed.

Lemma line_max c :
  c ∈ bm_cons B -> 0 < coord (c_out c) 0 ->
  ceil_div (- c_const c) (coord (c_out c) 0) <= L /\
  is_max B (size_objective c 0)
    (L + K - 1 - ceil_div (- c_const c) (coord (c_out c) 0)).
Proof.
  intros Hc Hm. split.
  - apply ceil_div_le; [done|].
    pose proof (line_sat c L Hc ltac:(lia)) as Hs. destruct (c_eq c); lia.
  - split.
    + exists [], [L + K - 1]. split; [apply Hpts; eexists; split; [done|lia]|].
      destruct (line_objective c [] (L + K - 1) Hc) as [-> _]. lia.
    + intros p pt (y & -> & Hy)%Hpts.
      destruct (line_objective c p y Hc) as [-> _]. lia.
Qed.

Lemma line_step c info :
  c ∈ bm_cons B -> bset info = B -> pos info = 0%nat ->
  size_record K L (bound info) ->
  let info' := compute_size_in_direction c info in
  bset info' = B /\ pos info' = 0%nat /\
  stride (bound info') = stride (bound info) /\
  shift (bound info') = shift (bound info) /\
  shift_map (bound info') = shift_map (bound info) /\
  size_record K L (bound info') /\
  (size (bound info) = K \/ tight_at L c -> size (bound info') = K).
Proof.
  intros Hc Hb Hp Hrec. cbn zeta. unfold compute_size_in_direction.
  destruct (Hshape c Hc) as (_ & _ & _ & ->). rewrite Hp, Hb.
  change (isl_constraint_get_coefficient c isl_dim_out 0) with (coord (c_out c) 0).
  assert (Hstay : (size (bound info) = K \/ tight_at L c -> 0 < coord (c_out c) 0 ->
                   ~ (size (bound info) < 0 \/ K < size (bound info)) ->
                   size (bound info) = K)).
  { intros [E|_] _ Hno; [done|]. destruct Hrec as [E|[Hle _]]; lia. }
  destruct (decide (0 < coord (c_out c) 0)) as [Hm|Hm].
  - destruct (line_max c Hc Hm) as [Hle Hmax].
    set (t := ceil_div (- c_const c) (coord (c_out c) 0)) in *.
    fold (size_objective c 0).
    rewrite (Hlp c (L + K - 1 - t) Hc); [|by destruct (Hshape c Hc) as (_ & _ & _ & ?)|done|done].
    destruct (decide _) as [Hupd|Hno]; unfold set_lb, set_size; simpl.
    + split_and!; try done.
      * right. simpl. split; [lia|]. eexists. split; [done|]. intros Et p pt.
        destruct (line_objective c p 0 Hc) as [_ ->]. fold t. lia.
      * intros [E|[_ Et]]; [lia|]. fold t in Et. lia.
    + split_and!; try done. intros Hor.
      destruct Hor as [E|[_ Et]]; [done|]. fold t in Et.
      destruct Hrec as [E|[HKle _]]; lia.
  - split_and!; try done. intros [E|[Hpos _]]; [done|lia].
Qed.

Lemma line_fold cs info :
  (forall c, c ∈ cs -> c ∈ bm_cons B) -> bset info = B -> pos info = 0%nat ->
  size_record K L (bound info) ->
  let info' := fold_left (fun s c => compute_size_in_direction c s) cs info in
  stride (bound info') = stride (bound info) /\
  shift (bound info') = shift (bound info) /\
  shift_map (bound info') = shift_map (bound info) /\
  size_record K L (bound info') /\
  (size (bound info) = K \/ Exists (tight_at L) cs -> size (bound info') = K).
Proof.
  revert info. induction cs as [|c cs IH]; intros info Hsub Hb Hp Hrec; simpl.
  - split_and!; try done. intros [E|Hex]; [done|]. by apply Exists_nil in Hex.
  - destruct (line_step c info) as (Hb1 & Hp1 & E1 & E2 & E3 & Hrec1 & Ht1); try done.
    { apply Hsub. by left. }
    destruct (IH (compute_size_in_direction c info)) as (F1 & F2 & F3 & Hrec2 & Ht2);
      try done.
    { intros c' Hc'. apply Hsub. by right. }
    split_and!; try congruence.
    intros [E|Hex]; apply Ht2.
    + left. apply Ht1. by left.
    + apply Exists_cons in Hex as [Ht|Hex]; [left; apply Ht1; by right|by right].
Qed.

(** Some lower bound is attained at [L]: otherwise [L - 1] would satisfy
    every constraint. *)
Lemma line_tight : Exists (tight_at L) (bm_cons B).
Proof.
  assert (Hcs : forall cs, (forall c, c ∈ cs -> c ∈ bm_cons B) ->
            Exists (tight_at L) cs \/ Forall (sat [] [] [L - 1] []) cs).
  { induction cs as [|c cs IH]; intros Hsub; [right; constructor|].
    destruct IH as [Hex|Hall]; [intros c' Hc'; apply Hsub; by right|left; by right|].
    assert (Hc : c ∈ bm_cons B) by (apply Hsub; by left).
    destruct (decide (0 < coord (c_out c) 0 /\
                      ceil_div (- c_const c) (coord (c_out c) 0) = L)) as [Ht|Hnt].
    { left. by left. }
    right. constructor; [|done].
    destruct (Hshape c Hc) as (Hp & Hi & _ & Hd).
    pose proof (line_sat c L Hc ltac:(lia)) as HsL.
    pose proof (line_sat c (L + 1) Hc ltac:(lia)) as HsL1.
    unfold sat, eval. rewrite Hp, Hi, dot_single, !dot_nil_r. simpl.
    set (m := coord (c_out c) 0) in *.
    destruct (c_eq c); [lia|].
    destruct (decide (0 < m)) as [Hm|Hm]; [|lia].
    destruct (line_max c Hc Hm) as [Hle _]. fold m in Hle.
    assert (Hlt : ceil_div (- c_const c) m <= L - 1).
    { destruct (decide (ceil_div (- c_const c) m = L)); [|lia].
      exfalso. by apply Hnt. }
    apply ceil_div_ge in Hlt; [|done]. lia. }
  destruct (Hcs (bm_cons B)) as [Hex|Hall]; [done|done|].
  exfalso.
  assert (Hrel : rel B [] [] [L - 1]).
  { destruct (proj2 (Hpts [] [L]) ltac:(eexists; split; [done|lia]))
      as (Hx & Hy & e & He & _).
    split; [done|]. split; [done|]. exists e. split; [done|].
    rewrite Forall_forall in Hall |- *. intros c Hc. specialize (Hall c Hc).
    destruct (Hshape c Hc) as (_ & _ & _ & Hd).
    unfold sat, eval in Hall |- *. rewrite (involves_divs_false c e Hd).
    rewrite !dot_nil_r in Hall |- *. rewrite ?(dot_nil_r (c_div c)) in Hall.
    destruct (c_eq c); lia. }
  apply Hpts in Hrel as (y & [= <-] & Hy). lia.
Qed.

End line.

Lemma cons_wf_bmap_wf b : cons_wf b -> bmap_wf b.
Proof.
  unfold cons_wf, bmap_wf. intros Hwf. eapply Forall_impl; [exact Hwf|].
  by intros c (_ & ? & _).
Qed.

(** The stride scenario: [check_stride] records the stride 2 and the
    shift of an equality that shows it, and this shift is odd. *)
Lemma stride_scenario_record `{IslOps M} K h :
  2 <= K -> stride_access K h -> affine_hull_contract h ->
  (exists c, c ∈ bm_cons (isl_basic_map_affine_hull h) /\ shows_stride c 2) ->
  exists c a, c ∈ bm_cons (isl_basic_map_affine_hull h) /\ shows_stride c 2 /\
    stride_shift c = qp_affine a [] /\ a mod 2 = 1 /\
    check_stride dummy_bound h =
    (mk_bound 0 None 2 (Some (qp_affine a [])) (Some (stride_map c)),
     reindexed h c).
Proof.
  intros HK [Hdim Hacc] (Hadim & Hwf & Heq & Hsound) (c2 & Hc2 & Hshow2).
  set (aff := isl_basic_map_affine_hull h) in *.
  destruct (check_stride_cases dummy_bound h eq_refl) as (E1 & E2 & Hmax & Hcase).
  fold aff in Hmax, Hcase. specialize (Hmax c2 2 Hc2 Hshow2).
  destruct Hcase as [(_ & Est & _)|(c & Hc & Hshow & Esh & Esm & Eh)]; [lia|].
  set (g := stride (check_stride dummy_bound h).1) in *.
  assert (H1 : rel aff [] [] [1]) by (apply Hsound, Hacc; exists 0; lia).
  assert (H3 : rel aff [] [] [3]) by (apply Hsound, Hacc; exists 1; lia).
  rewrite Forall_forall in Heq.
  pose proof (strided_equality_divides aff c [] [] 1 H1 Hc (Heq c Hc)) as D1.
  pose proof (strided_equality_divides aff c [] [] 3 H3 Hc (Heq c Hc)) as D3.
  rewrite !dot_nil_r in D1, D3.
  destruct (div_gcd_spec c) as [Hg0 _].
  destruct Hshow as (Hn & Hs & Eg & Hg). rewrite Eg in D1, D3, Hg0.
  set (s := isl_constraint_get_coefficient c isl_dim_out 0) in *.
  assert (Hg2 : (g | 2)).
  { destruct D1 as [k1 F1], D3 as [k3 F3].
    destruct Hs as [Es|Es]; rewrite Es in F1, F3.
    - exists (k3 - k1). lia.
    - exists (k1 - k3). lia. }
  assert (Hle : g <= 2) by (apply Z.divide_pos_le; [lia|done]).
  assert (E : g = 2) by lia.
  assert (Hpar : c_param c = []).
  { unfold cons_wf in Hwf. rewrite Forall_forall in Hwf.
    destruct (Hwf c Hc) as (Hp & _). rewrite Hadim, Hdim in Hp. simpl in Hp.
    by destruct (c_param c). }
  assert (Eshift : stride_shift c = qp_affine (s * c_const c) []).
  { unfold stride_shift. fold s. by rewrite Hpar. }
  exists c, (s * c_const c). split_and!; try done.
  - by rewrite <- E.
  - rewrite E in D1. destruct D1 as [k1 F1].
    destruct Hs as [Es|Es]; rewrite Es in F1 |- *; Z.div_mod_to_equations; lia.
  - rewrite Eshift in Esh. unfold g in E.
    destruct (check_stride dummy_bound h) as [b h']. simpl in *.
    destruct b as [sz l st sh sm]. simpl in *. by subst.
Qed.

(** C8 (stride scenario, amended).  For [K >= 2] and a hull of the
    accesses [A[2 i + 1]], [0 <= i < K], whose affine hull the library
    returns with an equality of the form [a + j = 2 f(e)] or
    [-a - j = 2 f(e)], the bound solver records stride 2 and as shift the
    [a] of such an equality, which is odd, the map [j -> (j + a)/2], the
    size [K] and the lower bound [(1 + a)/2], the re-indexed index of the
    minimal [i]; the re-indexed indices are exactly
    [(1 + a)/2, (1 + a)/2 + K). *)
Theorem stride_detection `{IslOps M} (K : Z) (h : isl_basic_map) :
  2 <= K -> stride_access K h ->
  affine_hull_contract h ->
  (exists c, c ∈ bm_cons (isl_basic_map_affine_hull h) /\ shows_stride c 2) ->
  (forall c, c ∈ bm_cons (isl_basic_map_affine_hull h) -> shows_stride c 2 ->
     reindex_exact h c /\ no_divs (reindexed h c) /\
     lp_exact (wrap_flatten (reindexed h c)) (n_in (bm_dim (reindexed h c)))) ->
  let '(b, ok) := compute_array_dim_size dummy_bound h in
  exists c a, c ∈ bm_cons (isl_basic_map_affine_hull h) /\ shows_stride c 2 /\
    stride_shift c = qp_affine a [] /\ a mod 2 = 1 /\
    ok = true /\ stride b = 2 /\ shift b = Some (qp_affine a []) /\
    shift_map b = Some (shift_basic_map (qp_affine a []) 2) /\
    size b = K /\
    (exists q, lb b = Some q /\ forall p pt, qp_val q p pt = (1 + a) / 2) /\
    (forall p j',
       (exists j, rel h p [] [j] /\
                  rel (shift_basic_map (qp_affine a []) 2) p [j] [j']) <->
       (1 + a) / 2 <= j' < (1 + a) / 2 + K).
Proof.
  intros HK Hacc Haff Hshow Hlib.
  destruct (stride_scenario_record K h HK Hacc Haff Hshow)
    as (c0 & a & Hc0 & Hshow0 & Ea & Ha & Ecs).
  destruct (Hlib c0 Hc0 Hshow0) as ((Hrdim & Hrwf & Himg) & Hnodiv & Hlp).
  destruct Hacc as [Hdim Hacc].
  assert (Esm : stride_map c0 = shift_basic_map (qp_affine a []) 2).
  { unfold stride_map. rewrite Ea. by destruct Hshow0 as (_ & _ & -> & _). }
  rewrite Esm in Himg, Ecs.
  set (sm := shift_basic_map (qp_affine a []) 2) in *.
  set (R := reindexed h c0) in *.
  set (L := (1 + a) / 2).
  assert (HL : 2 * L = 1 + a) by (unfold L; Z.div_mod_to_equations; lia).
  assert (Hvis : forall p j',
            (exists j, rel h p [] [j] /\ rel sm p [j] [j']) <-> L <= j' < L + K).
  { intros p j'. split.
    - intros (j & (i & Hi & ->)%Hacc & Hs%shift_basic_map_rel). simpl in Hs. lia.
    - intros Hj. exists (2 * (j' - L) + 1). split.
      + apply Hacc. exists (j' - L). lia.
      + apply shift_basic_map_rel. simpl. lia. }
  rewrite Hrdim, Hdim in Hlp. simpl in Hlp.
  assert (Hshape : forall c, c ∈ bm_cons (wrap_flatten R) ->
            c_param c = [] /\ c_in c = [] /\ (exists m, c_out c = [m]) /\
            isl_constraint_involves_divs c = false).
  { intros c' (c & -> & Hc)%list_elem_of_fmap.
    unfold cons_wf in Hrwf. unfold no_divs in Hnodiv.
    rewrite Forall_forall in Hrwf, Hnodiv.
    destruct (Hrwf c Hc) as (Hp & Hi & Ho). rewrite Hrdim, Hdim in Hp, Hi, Ho.
    simpl in Hp, Hi, Ho. simpl. split_and!.
    - by destruct (c_param c).
    - done.
    - destruct (c_in c); [|done]. destruct (c_out c) as [|m [|? ?]]; try done.
      by exists m.
    - by apply (Hnodiv c). }
  assert (Hpts : forall p pt,
            rel (wrap_flatten R) p [] pt <-> exists y, pt = [y] /\ L <= y < L + K).
  { intros p pt. rewrite wrap_flatten_rel_iff;
      [|by rewrite Hrdim, Hdim|by apply cons_wf_bmap_wf].
    split.
    - intros Hrel. assert (Hlen : length pt = 1%nat).
      { destruct Hrel as (_ & Hy & _). by rewrite Hrdim, Hdim in Hy. }
      destruct pt as [|y [|? ?]]; try done. exists y. split; [done|].
      apply (Hvis p y). by apply Himg.
    - intros (y & -> & Hy). apply Himg. by apply Hvis. }
  unfold compute_array_dim_size. rewrite Ecs.
  rewrite Hrdim, Hdim. cbn [n_in].
  set (info0 := mk_size_info _ _ _).
  destruct (line_fold K L (wrap_flatten R) HK Hshape Hpts Hlp
              (bm_cons (bset info0)) info0)
    as (E1 & E2 & E3 & Hrec & Hsize); try done.
  { by left. }
  specialize (Hsize (or_intror (line_tight K L (wrap_flatten R) HK Hshape Hpts))).
  set (info := fold_left _ _ info0) in *.
  exists c0, a. simpl in E1, E2, E3. split_and!; try done.
  - apply bool_decide_eq_true. lia.
  - destruct Hrec as [E|(_ & q & Hq & HqL)]; [lia|]. exists q. split; [done|].
    by apply HqL.
Qed.

(** *** The library's answers in the stride scenario *)

Lemma equalities_sound b p x y : rel b p x y -> rel (equalities b) p x y.
Proof.
  intros (Hx & Hy & e & He & Hall). split; [done|]. split; [done|].
  exists e. split; [done|]. simpl. rewrite Forall_forall in Hall |- *.
  intros c Hc%list_elem_of_In%filter_In. apply Hall, list_elem_of_In, Hc.
Qed.

Lemma equalities_contract `{IslOps M} h :
  isl_basic_map_affine_hull h = equalities h -> cons_wf h ->
  affine_hull_contract h.
Proof.
  intros E Hwf. unfold affine_hull_contract. rewrite E. split_and!.
  - done.
  - unfold cons_wf in *. simpl. rewrite Forall_forall in Hwf |- *.
    intros c Hc%list_elem_of_In%filter_In. apply Hwf, list_elem_of_In, Hc.
  - simpl. rewrite Forall_forall.
    by intros c [_ Hc]%list_elem_of_In%filter_In.
  - intros p x y. apply equalities_sound.
Qed.

Lemma stride_hull_access K : stride_access K (stride_hull K).
Proof.
  split; [done|]. intros p j. unfold rel. simpl. split.
  - intros (_ & _ & e & He & Hall). destruct e as [|e [|? ?]]; simpl in He; try lia.
    rewrite !Forall_cons in Hall. destruct Hall as (H1 & H2 & H3 & _).
    unfold sat, eval in *. simpl in *. exists (e - 1). lia.
  - intros (i & Hi & ->). split; [done|]. split; [done|]. exists [i + 1].
    split; [done|].
    repeat apply Forall_cons_2; [| | |apply Forall_nil_2]; unfold sat, eval; simpl; lia.
Qed.

Lemma point_hull_access : stride_access 1 point_hull.
Proof.
  split; [done|]. intros p j. unfold rel. simpl. split.
  - intros (_ & _ & e & He & Hall). rewrite Forall_singleton in Hall.
    unfold sat, eval in Hall. simpl in Hall. rewrite ?dot_nil_r in Hall.
    exists 0. lia.
  - intros (i & Hi & ->). split; [done|]. split; [done|]. exists [].
    split; [done|]. rewrite Forall_singleton. unfold sat, eval. simpl. lia.
Qed.

Lemma reindexed_hull_rel K p x j' :
  rel (reindexed_hull K) p x [j'] <-> x = [] /\ 1 <= j' <= K.
Proof.
  unfold rel. simpl. split.
  - intros (Hx & _ & e & He & Hall). destruct x; [|done].
    rewrite !Forall_cons in Hall. destruct Hall as (H1 & H2 & _).
    unfold sat, eval in *. simpl in *. rewrite ?dot_nil_r in *. split; [done|lia].
  - intros [-> Hj]. split; [done|]. split; [done|]. exists []. split; [done|].
    repeat apply Forall_cons_2; [| |apply Forall_nil_2]; unfold sat, eval; simpl; lia.
Qed.

(** The only equality of the hull of the stride scenario. *)
Lemma stride_table_equality c g :
  c ∈ bm_cons (isl_basic_map_affine_hull (M := unit) (stride_hull 3)) ->
  shows_stride c g ->
  c = mk_constraint true (-1) [] [] [-1] [2] /\ g = 2 /\
  stride_map c = shift_basic_map (qp_affine 1 []) 2.
Proof.
  intros Hc (_ & _ & Hg & _). apply list_elem_of_In in Hc. simpl in Hc.
  destruct Hc as [<-|[]]. by rewrite <- Hg.
Qed.

Lemma stride_table_affine_hull : affine_hull_contract (M := unit) (stride_hull 3).
Proof. apply equalities_contract; [done|repeat constructor]. Qed.

Lemma stride_table_shows :
  exists c, c ∈ bm_cons (isl_basic_map_affine_hull (M := unit) (stride_hull 3)) /\
            shows_stride c 2.
Proof.
  exists (mk_constraint true (-1) [] [] [-1] [2]). split; [by left|].
  split_and!; [done|by right|done|done].
Qed.

Lemma stride_table_reindex c g :
  c ∈ bm_cons (isl_basic_map_affine_hull (M := unit) (stride_hull 3)) ->
  shows_stride c g ->
  reindex_exact (M := unit) (stride_hull 3) c.
Proof.
  intros Hc Hshow. destruct (stride_table_equality c g Hc Hshow) as (_ & _ & Esm).
  unfold reindex_exact. rewrite Esm. change (reindexed (stride_hull 3) c)
    with (reindexed_hull 3). split_and!.
  - done.
  - repeat constructor.
  - intros p x j'. rewrite reindexed_hull_rel. split.
    + intros [-> Hj]. exists (2 * j' - 1). split.
      * apply stride_hull_access. exists (j' - 1). lia.
      * apply shift_basic_map_rel. simpl. lia.
    + intros (j & Hrel & Hs%shift_basic_map_rel). simpl in Hs.
      assert (x = []) as ->.
      { destruct Hrel as (Hx & _). by destruct x. }
      apply stride_hull_access in Hrel as (i & Hi & ->). split; [done|lia].
Qed.

Lemma is_max_unique bset a v v' : is_max bset a v -> is_max bset a v' -> v = v'.
Proof.
  intros [(p & pt & Hrel & Hv) Hub] [(p' & pt' & Hrel' & Hv') Hub'].
  specialize (Hub p' pt' Hrel'). specialize (Hub' p pt Hrel). lia.
Qed.

Lemma reindexed_shape K c :
  c ∈ bm_cons (wrap_flatten (reindexed_hull K)) ->
  c_param c = [] /\ c_in c = [] /\ (exists m, c_out c = [m]) /\
  isl_constraint_involves_divs c = false.
Proof.
  intros Hc. apply list_elem_of_In in Hc. simpl in Hc.
  destruct Hc as [<-|[<-|[]]]; split_and!; try done; by eexists.
Qed.

Lemma reindexed_points K p pt :
  rel (wrap_flatten (reindexed_hull K)) p [] pt <->
  exists y, pt = [y] /\ 1 <= y < 1 + K.
Proof.
  rewrite wrap_flatten_rel_iff; [|done|repeat constructor]. split.
  - intros Hrel. assert (Hlen : length pt = 1%nat) by (by destruct Hrel as (_ & ? & _)).
    destruct pt as [|y [|? ?]]; try done. exists y. split; [done|].
    apply reindexed_hull_rel in Hrel. lia.
  - intros (y & -> & Hy). apply reindexed_hull_rel. split; [done|lia].
Qed.

Lemma stride_table_lp : lp_exact (M := unit) (wrap_flatten (reindexed_hull 3)) 0.
Proof.
  intros c v Hc _ Hpos Hmax.
  destruct (line_max 3 1 (wrap_flatten (reindexed_hull 3)) ltac:(lia)
              (reindexed_shape 3) (reindexed_points 3) c Hc Hpos) as [_ Hmax'].
  rewrite (is_max_unique _ _ _ _ Hmax Hmax').
  apply list_elem_of_In in Hc. simpl in Hc.
  destruct Hc as [<-|[<-|[]]]; [reflexivity|].
  vm_compute in Hpos. discriminate.
Qed.

Lemma stride_table_answers c :
  c ∈ bm_cons (isl_basic_map_affine_hull (M := unit) (stride_hull 3)) ->
  shows_stride c 2 ->
  reindex_exact (M := unit) (stride_hull 3) c /\
  no_divs (reindexed (M := unit) (stride_hull 3) c) /\
  lp_exact (M := unit) (wrap_flatten (reindexed (M := unit) (stride_hull 3) c))
    (n_in (bm_dim (reindexed (M := unit) (stride_hull 3) c))).
Proof.
  intros Hc Hshow. split_and!.
  - by apply (stride_table_reindex c 2).
  - repeat constructor.
  - apply stride_table_lp.
Qed.

Lemma stride_detection_witness :
  let '(b, ok) := compute_array_dim_size (M := unit) dummy_bound (stride_hull 3) in
  exists c a,
    c ∈ bm_cons (isl_basic_map_affine_hull (M := unit) (stride_hull 3)) /\
    shows_stride c 2 /\
    stride_shift c = qp_affine a [] /\ a mod 2 = 1 /\
    ok = true /\ stride b = 2 /\ shift b = Some (qp_affine a []) /\
    shift_map b = Some (shift_basic_map (qp_affine a []) 2) /\
    size b = 3 /\
    (exists q, lb b = Some q /\ forall p pt, qp_val q p pt = (1 + a) / 2) /\
    (forall p j',
       (exists j, rel (stride_hull 3) p [] [j] /\
                  rel (shift_basic_map (qp_affine a []) 2) p [j] [j']) <->
       (1 + a) / 2 <= j' < (1 + a) / 2 + 3).
Proof.
  apply (stride_detection (M := unit) 3 (stride_hull 3)).
  - lia.
  - apply stride_hull_access.
  - apply stride_table_affine_hull.
  - apply stride_table_shows.
  - apply stride_table_answers.
Defined.

Lemma stride_table_k1 :
  compute_array_dim_size (M := unit) dummy_bound point_hull =
  (mk_bound 1
     (Some (isl_qpolynomial_from_aff
              (isl_aff_ceil (isl_constraint_get_bound
                               (mk_constraint true (-1) [] [] [1] []) 0))))
     (-1) None None, true).
Proof. vm_compute. reflexivity. Qed.

Lemma stride_table_k3 :
  compute_array_dim_size (M := unit) dummy_bound (stride_hull 3) =
  (mk_bound 3
     (Some (isl_qpolynomial_from_aff
              (isl_aff_ceil (isl_constraint_get_bound
                               (mk_constraint false (-1) [] [] [1] []) 0))))
     2 (Some (qp_affine 1 [])) (Some (shift_basic_map (qp_affine 1 []) 2)), true).
Proof. vm_compute. reflexivity. Qed.

Lemma unit_bound_value eq p pt :
  qp_val (isl_qpolynomial_from_aff
            (isl_aff_ceil (isl_constraint_get_bound
                             (mk_constraint eq (-1) [] [] [1] []) 0))) p pt = 1.
Proof.
  unfold qp_val, aff_val, coord, ceil_div. simpl.
  destruct pt; reflexivity.
Qed.

Lemma point_table_lp : lp_exact (M := unit) (wrap_flatten point_hull) 0.
Proof.
  intros c v Hc _ _ [(p & pt & Hrel & Hv) _].
  apply list_elem_of_In in Hc. simpl in Hc. destruct Hc as [<-|[]].
  apply wrap_flatten_rel_iff in Hrel; [|done|repeat constructor].
  assert (Hlen : length pt = 1%nat) by (by destruct Hrel as (_ & ? & _)).
  destruct pt as [|y [|? ?]]; try done.
  apply point_hull_access in Hrel as (i & Hi & ->).
  assert (i = 0) as -> by lia. vm_compute in Hv. by subst v.
Qed.

(** C8 as the specification states it fails.  For [K = 1] the hull of the
    accesses is the point [j = 1], which is its own affine hull: no stride
    and no shift are recorded, and the tile is [A[1]].  For [K = 3] the
    library returns the equality [-1 - j + 2 e = 0]: the shift recorded is
    1, not -1, the lower bound is 1, and the re-indexed indices are
    [1, 4), not [0, 3).  In both cases the answers of the library are
    right: the affine hull holds on the hull, the re-indexed hull is the
    composition, and the LP returns the maximum. *)
Lemma stride_claim_counterexample :
  (stride_access 1 point_hull /\
   isl_basic_map_affine_hull (M := unit) point_hull = point_hull /\
   lp_exact (M := unit) (wrap_flatten point_hull) 0 /\
   let '(b, ok) := compute_array_dim_size (M := unit) dummy_bound point_hull in
   ok = true /\ stride b = -1 /\ shift b = None /\ size b = 1 /\
   (exists q, lb b = Some q /\ forall p pt, qp_val q p pt = 1) /\
   ~ (stride b = 2 /\ shift b = Some (qp_affine (-1) []))) /\
  (stride_access 3 (stride_hull 3) /\
   affine_hull_contract (M := unit) (stride_hull 3) /\
   (forall c, c ∈ bm_cons (isl_basic_map_affine_hull (M := unit) (stride_hull 3)) ->
      shows_stride c 2 ->
      reindex_exact (M := unit) (stride_hull 3) c /\
      no_divs (reindexed (M := unit) (stride_hull 3) c) /\
      lp_exact (M := unit) (wrap_flatten (reindexed (M := unit) (stride_hull 3) c))
        (n_in (bm_dim (reindexed (M := unit) (stride_hull 3) c)))) /\
   let '(b, ok) := compute_array_dim_size (M := unit) dummy_bound (stride_hull 3) in
   ok = true /\ stride b = 2 /\ shift b = Some (qp_affine 1 []) /\ size b = 3 /\
   (exists q, lb b = Some q /\ forall p pt, qp_val q p pt = 1) /\
   shift b <> Some (qp_affine (-1) []) /\
   ~ (forall p j',
        (exists j, rel (stride_hull 3) p [] [j] /\
                   rel (shift_basic_map (qp_affine 1 []) 2) p [j] [j']) <->
        0 <= j' < 3)).
Proof.
  split.
  - split; [apply point_hull_access|]. split; [reflexivity|].
    split; [apply point_table_lp|].
    rewrite stride_table_k1. cbn [size lb stride shift].
    split_and!; try done.
    + eexists. split; [done|]. apply unit_bound_value.
    + intros [? _]. done.
  - split; [apply stride_hull_access|].
    split; [apply stride_table_affine_hull|].
    split; [apply stride_table_answers|].
    rewrite stride_table_k3. cbn [size lb stride shift].
    split_and!; try done.
    + eexists. split; [done|]. apply unit_bound_value.
    + intros Hall. destruct (proj2 (Hall [] 0) ltac:(lia)) as (j & Hrel & Hs).
      apply stride_hull_access in Hrel as (i & Hi & ->).
      apply shift_basic_map_rel in Hs. simpl in Hs. lia.
Qed.

(** ** Soundness of the bounds *)

Lemma dot_map_mul s l p : dot (map (Z.mul s) l) p = s * dot l p.
Proof.
  revert p. induction l as [|a l IH]; intros [|b p]; simpl; try lia.
  rewrite IH. lia.
Qed.

Lemma dot_all_zero l x : Forall (fun v => v = 0) l -> dot l x = 0.
Proof.
  intros Hl. revert x. induction Hl as [|a l -> _ IH]; intros [|b x]; simpl; try done.
  rewrite IH. lia.
Qed.

(** For an equality that shows a stride and has no coefficient of an
    input dimension, the index plus the shift that [extract_stride] stores
    is a multiple of the stride. *)
Lemma stride_shift_divides aff c g p x j :
  rel aff p x [j] -> c ∈ bm_cons aff -> c_eq c = true -> shows_stride c g ->
  Forall (fun v => v = 0) (c_in c) ->
  (g | j + qp_val (stride_shift c) p []).
Proof.
  intros Hrel Hc Heq (_ & Hs & <- & _) Hfree.
  pose proof (strided_equality_divides aff c p x j Hrel Hc Heq) as Hdiv.
  rewrite (dot_all_zero (c_in c) x Hfree) in Hdiv.
  unfold stride_shift. simpl. rewrite dot_map_mul.
  set (s := isl_constraint_get_coefficient c isl_dim_out 0) in *.
  destruct Hdiv as [k Hk]. destruct Hs as [Es|Es]; rewrite Es in Hk |- *.
  - exists k. lia.
  - exists (- k). lia.
Qed.

Lemma stride_map_rel c p j j' :
  rel (stride_map c) p [j] [j'] <->
  div_gcd c * j' = j + qp_val (stride_shift c) p [].
Proof. unfold stride_map, stride_shift. by rewrite shift_basic_map_rel. Qed.

(** The bound computed for a hull confines every index the hull holds
    of. *)
Lemma compute_array_dim_size_sound `{IslOps M} bnd h b :
  shift bnd = None ->
  compute_array_dim_size bnd h = (b, true) ->
  affine_hull_contract h ->
  stride_input_free (isl_basic_map_affine_hull h) ->
  size_contract h ->
  (forall c g, c ∈ bm_cons (isl_basic_map_affine_hull h) -> shows_stride c g ->
     reindex_sound h c /\ size_contract (reindexed h c)) ->
  exists q, lb b = Some q /\
    forall p x j, rel h p x [j] ->
      match shift b with
      | None => 0 <= j - qp_val q p (x ++ [j]) < size b
      | Some sh =>
          (stride b | j + qp_val sh p []) /\
          let j' := (j + qp_val sh p []) / stride b in
          0 <= j' - qp_val q p (x ++ [j']) < size b
      end.
Proof.
  intros Hs Hres (_ & _ & Heq & Haff) Hfree Hsz Hlib.
  set (aff := isl_basic_map_affine_hull h) in *.
  destruct (check_stride_cases bnd h Hs) as (_ & _ & _ & Hcase). fold aff in Hcase.
  unfold compute_array_dim_size in Hres.
  destruct (check_stride bnd h) as [b1 h'] eqn:Ecs. cbn [fst snd] in Hcase.
  assert (Hsz' : size_contract h').
  { destruct Hcase as [(_ & _ & ->)|(c & Hc & Hshow & _ & _ & ->)]; [done|].
    by destruct (Hlib c _ Hc Hshow). }
  destruct Hsz' as [Hwf Hlp].
  set (info0 := mk_size_info (wrap_flatten h') (set_lb (set_size b1 (-1)) None)
                  (n_in (bm_dim h'))) in *.
  destruct (size_fold_sound (bm_cons (wrap_flatten h')) info0)
    as (Hsound & E1 & E2 & E3); try done.
  { left. simpl. lia. }
  simpl in Hsound, E1, E2, E3.
  injection Hres as Hb Hok. apply bool_decide_eq_true in Hok.
  rewrite Hb in *. clear Hb.
  destruct Hsound as [Hneg|(q & Hq & Hpts)]; [lia|].
  exists q. split; [done|]. intros p x j Hrel. rewrite E1, E2.
  assert (Hin : forall j', rel h' p x [j'] ->
            0 <= j' - qp_val q p (x ++ [j']) < size b).
  { intros j' Hrel'.
    pose proof (Hpts p _ (wrap_flatten_rel _ _ _ _ Hwf Hrel')) as Hin.
    destruct Hrel' as (Hx & _). by rewrite <- Hx, coord_app_last in Hin. }
  destruct Hcase as [(-> & _ & ->)|(c & Hc & Hshow & -> & _ & ->)].
  - by apply Hin.
  - rewrite Forall_forall in Heq.
    pose proof (stride_shift_divides aff c _ p x j (Haff _ _ _ Hrel) Hc (Heq c Hc)
                  Hshow (Hfree c _ Hc Hshow)) as Hdiv.
    split; [done|]. cbn zeta. apply Hin.
    destruct (Hlib c _ Hc Hshow) as [Hre _]. apply (Hre p x j); [done|].
    apply stride_map_rel.
    destruct Hshow as (_ & _ & -> & Hg). destruct Hdiv as [k Hk].
    rewrite Hk, Z.div_mul by done. lia.
Qed.

(** X27 (check_stride, extract_stride, compute_array_dim_size): bound
    soundness, where the strides are as [extract_stride] assumes.  Every
    bound the solver produces for a dimension of an access relation
    confines that dimension of every access, for all values of the
    parameters and outer dimensions, provided the equalities in which a
    stride is found have no coefficient of an outer dimension: the index
    plus the shift is a multiple of the stride, and the index, re-indexed
    by [i -> (i + shift)/stride] when a stride was recorded and with the
    lower bound subtracted, lies in [0, size). *)
Theorem parametric_stride_bound_soundness `{IslOps M}
    (pts : M -> list Z -> list Z -> list Z -> Prop)
    (n_index : nat) (acc : M) (bounds : list cuda_array_bound) :
  can_tile_for_shared_memory n_index acc (create_bound_list n_index) = (bounds, true) ->
  solver_contract pts n_index acc ->
  (forall i h, (i < n_index)%nat -> access_hull n_index i acc = Some h ->
     stride_input_free (isl_basic_map_affine_hull h)) ->
  forall i, (i < n_index)%nat -> bound_confines_access pts acc i (bound_at bounds i).
Proof.
  intros Hres Hc Hfree i Hi. unfold can_tile_for_shared_memory in Hres.
  destruct (can_tile_loop_success n_index acc n_index 0 _ _ Hres) with (i := i)
    as (h & Hh & Hdim).
  { unfold create_bound_list. rewrite length_replicate. lia. }
  { lia. }
  assert (Hb0 : bound_at (create_bound_list n_index) i = dummy_bound).
  { unfold bound_at, create_bound_list. by rewrite lookup_replicate_2. }
  rewrite Hb0 in Hdim.
  destruct (Hc i h Hi Hh) as (Hhull & Haff & Hsz & Hlib).
  destruct (compute_array_dim_size_sound dummy_bound h _ eq_refl Hdim Haff
              (Hfree i h Hi Hh) Hsz Hlib) as (q & Hq & Hconf).
  exists q. split; [done|]. intros p x y Hp. apply Hconf. by apply Hhull.
Qed.

Lemma stride_hull_points p pt :
  rel (wrap_flatten (stride_hull 3)) p [] pt -> pt = [1] \/ pt = [3] \/ pt = [5].
Proof.
  intros Hrel. apply wrap_flatten_rel_iff in Hrel; [|done|repeat constructor].
  assert (Hlen : length pt = 1%nat) by (by destruct Hrel as (_ & ? & _)).
  destruct pt as [|y [|? ?]]; try done.
  apply stride_hull_access in Hrel as (i & Hi & ->).
  assert (Hcase : i = 0 \/ i = 1 \/ i = 2) by lia.
  destruct Hcase as [->|[->| ->]]; auto.
Qed.

Lemma stride_table_size : size_contract (M := unit) (stride_hull 3).
Proof.
  split; [repeat constructor|].
  intros c v Hc Hmax p pt Hpt%stride_hull_points.
  apply list_elem_of_In in Hc. simpl in Hc.
  destruct Hc as [<-|[<-|[<-|[]]]]; vm_compute in Hmax; injection Hmax as <-;
    destruct Hpt as [->|[->| ->]]; vm_compute; discriminate.
Qed.

Lemma stride_table_reindexed_size : size_contract (M := unit) (reindexed_hull 3).
Proof.
  split; [repeat constructor|].
  intros c v Hc Hmax p pt (y & -> & Hy)%reindexed_points.
  apply list_elem_of_In in Hc. simpl in Hc.
  assert (Hcase : y = 1 \/ y = 2 \/ y = 3) by lia.
  destruct Hc as [<-|[<-|[]]]; vm_compute in Hmax; injection Hmax as <-;
    destruct Hcase as [->|[->| ->]]; vm_compute; discriminate.
Qed.

Lemma stride_table_contract : solver_contract stride_pts 1 tt.
Proof.
  intros i h Hi Hh. assert (i = 0%nat) as -> by lia.
  assert (h = stride_hull 3) as -> by (by injection Hh as <-).
  split_and!.
  - intros p x y [-> (k & Hk & ->)]. apply stride_hull_access. by exists k.
  - apply stride_table_affine_hull.
  - apply stride_table_size.
  - intros c g Hc Hshow. split; [|apply stride_table_reindexed_size].
    intros p x j j' Hrel Hs.
    destruct (stride_table_reindex c g Hc Hshow) as (_ & _ & Himg).
    apply Himg. by exists j.
Qed.

Lemma stride_table_input_free i h :
  (i < 1)%nat -> access_hull 1 i tt = Some h ->
  stride_input_free (isl_basic_map_affine_hull (M := unit) h).
Proof.
  intros Hi Hh. assert (i = 0%nat) as -> by lia.
  assert (h = stride_hull 3) as -> by (by injection Hh as <-).
  intros c g Hc Hshow.
  destruct (stride_table_equality c g Hc Hshow) as (-> & _). constructor.
Qed.

Lemma parametric_stride_bound_soundness_witness :
  bound_confines_access stride_pts tt 0
    (bound_at (can_tile_for_shared_memory 1 tt (create_bound_list 1)).1 0).
Proof.
  apply (parametric_stride_bound_soundness stride_pts 1 tt).
  - reflexivity.
  - apply stride_table_contract.
  - apply stride_table_input_free.
  - lia.
Defined.

(** *** A stride that depends on an outer dimension *)












(** ** Launch configuration *)

Lemma string_app_assoc (a b c : string) : (a +:+ b) +:+ c = a +:+ (b +:+ c).
Proof.
  induction a as [|x a IH]; [done|].
  change (String x ((a +:+ b) +:+ c) = String x (a +:+ (b +:+ c))). by rewrite IH.
Qed.

Lemma string_app_nil_r (a : string) : a +:+ "" = a.
Proof.
  induction a as [|x a IH]; [done|]. change (String x (a +:+ "") = String x a). by rewrite IH.
Qed.

Lemma for_range_S {A : Type} n (body : nat -> A -> option A) init :
  for_range (S n) body init = for_range n body init ≫= body n.
Proof. unfold for_range. by rewrite seq_S, fold_left_app. Qed.

Lemma reverse_list_steps l len k :
  (len <= length l)%nat -> (k <= len)%nat ->
  exists s,
    for_range k (fun i lst =>
      if decide (2 * i < len)%nat then
        t ← lst !! i;
        v ← lst !! (len - 1 - i)%nat;
        lst ← set_at lst i v;
        set_at lst (len - 1 - i) t
      else Some lst) (Some l) = Some s /\
    length s = length l /\ forall j, s !! j = reversed_upto l len k j.
Proof.
  intros Hlen. induction k as [|k IH]; intros Hk.
  - exists l. split; [done|]. split; [done|]. intros j. unfold reversed_upto.
    rewrite decide_False by lia. done.
  - destruct IH as (s & Hs & Hls & Hlk); [lia|].
    rewrite for_range_S, Hs. cbn [mbind option_bind].
    destruct (decide (2 * k < len)%nat) as [H2|H2].
    + assert (Hk1 : s !! k = l !! k).
      { rewrite Hlk. unfold reversed_upto. rewrite decide_False by lia. done. }
      assert (Hk2 : s !! (len - 1 - k)%nat = l !! (len - 1 - k)%nat).
      { rewrite Hlk. unfold reversed_upto. rewrite decide_False by lia. done. }
      destruct (lookup_lt_is_Some_2 l k ltac:(lia)) as [t Ht].
      destruct (lookup_lt_is_Some_2 l (len - 1 - k) ltac:(lia)) as [v Hv].
      rewrite Hk1, Ht, Hk2, Hv. simpl.
      rewrite set_at_Some by lia. simpl.
      rewrite set_at_Some by (rewrite length_insert; lia). simpl.
      eexists. split; [reflexivity|]. split; [by rewrite !length_insert|].
      intros j. unfold reversed_upto.
      destruct (decide (j = len - 1 - k)%nat) as [->|Hj1].
      * rewrite list_lookup_insert_eq by (rewrite length_insert; lia).
        rewrite decide_True by lia.
        replace (len - 1 - (len - 1 - k))%nat with k by lia. done.
      * rewrite list_lookup_insert_ne by done.
        destruct (decide (j = k)) as [->|Hj2].
        -- rewrite list_lookup_insert_eq by lia. rewrite decide_True by lia. done.
        -- rewrite list_lookup_insert_ne by done. rewrite Hlk. unfold reversed_upto.
           repeat case_decide; try done; lia.
    + exists s. split; [done|]. split; [done|]. intros j. rewrite Hlk.
      unfold reversed_upto. repeat case_decide; try done; lia.
Qed.

Lemma rev_is_reverse {A} (l : list A) : rev l = reverse l.
Proof. unfold reverse. apply rev_alt. Qed.

Lemma reverse_list_rev l len :
  (len <= length l)%nat -> reverse_list l len = Some (rev (take len l) ++ drop len l).
Proof.
  intros Hlen. destruct (reverse_list_steps l len len Hlen ltac:(lia)) as (s & Hs & Hls & Hlk).
  unfold reverse_list. rewrite Hs. f_equal. apply list_eq. intros j. rewrite Hlk.
  unfold reversed_upto. rewrite rev_is_reverse.
  destruct (decide (j < len)%nat) as [Hj|Hj].
  - rewrite decide_True by lia. rewrite lookup_app_l by (rewrite length_reverse, length_take; lia).
    rewrite reverse_lookup by (rewrite length_take; lia).
    rewrite length_take, lookup_take_lt by lia. f_equal. lia.
  - rewrite decide_False by lia.
    rewrite lookup_app_r by (rewrite length_reverse, length_take; lia).
    rewrite length_reverse, length_take, lookup_drop. f_equal. lia.
Qed.

Lemma for_range_None {A : Type} n (body : nat -> A -> option A) :
  for_range n body None = None.
Proof.
  induction n as [|n IH]; [done|]. by rewrite for_range_S, IH.
Qed.

Lemma for_range_first_None {A : Type} n (body : nat -> A -> option A) a :
  body 0%nat a = None -> for_range (S n) body (Some a) = None.
Proof.
  intros Hb. induction n as [|n IH].
  - unfold for_range. simpl. done.
  - by rewrite for_range_S, IH.
Qed.

Lemma reverse_list_spec l len :
  reverse_list l len =
  if decide (len <= length l)%nat then Some (rev (take len l) ++ drop len l) else None.
Proof.
  case_decide as Hlen; [by apply reverse_list_rev|].
  unfold reverse_list. destruct len as [|n]; [simpl in Hlen; lia|].
  apply for_range_first_None. rewrite decide_True by lia.
  replace (S n - 1 - 0)%nat with n by lia.
  rewrite (lookup_ge_None_2 l n) by lia. by destruct (l !! 0%nat).
Qed.

(** X1 (reverse_list): the first [len] entries end up in reverse order and
    the rest of the array is untouched; with [len] beyond the end of the
    array the function reads outside it. *)
Theorem reverse_list_reverses l len :
  reverse_list l len =
  if decide (len <= length l)%nat then Some (rev (take len l) ++ drop len l) else None.
Proof. apply reverse_list_spec. Qed.

Lemma concat_snoc sep (xs : list string) y :
  String.concat sep (xs ++ [y]) =
  match xs with [] => y | _ => String.concat sep xs +:+ sep +:+ y end.
Proof.
  induction xs as [|x xs IH]; [done|].
  destruct xs as [|x' xs]; [done|].
  change (x +:+ sep +:+ String.concat sep ((x' :: xs) ++ [y]) =
          (x +:+ sep +:+ String.concat sep (x' :: xs)) +:+ sep +:+ y).
  rewrite IH. by rewrite !string_app_assoc.
Qed.

Lemma print_reverse_list_steps l len k :
  (len <= length l)%nat -> (k <= len)%nat ->
  for_range k (fun i out =>
      v ← l !! (len - 1 - i)%nat;
      let out := if decide (i <> 0%nat) then out +:+ ", " else out in
      Some (out +:+ pretty v)) (Some "") =
  Some (String.concat ", " (map (fun i => pretty (coord l (len - 1 - i))) (seq 0 k))).
Proof.
  intros Hlen. induction k as [|k IH]; intros Hk; [done|].
  rewrite for_range_S, IH by lia. cbn [mbind option_bind].
  destruct (l !! (len - 1 - k)%nat) as [v|] eqn:Hv; [|apply lookup_ge_None in Hv; lia].
  cbn [mbind option_bind]. f_equal.
  rewrite seq_S, map_app. cbn [map]. rewrite concat_snoc.
  change (0 + k)%nat with k.
  replace (coord l (len - 1 - k)) with v by (unfold coord; by rewrite Hv).
  destruct k as [|k]; [done|].
  rewrite decide_True by lia. rewrite string_app_assoc. by cbn [seq map].
Qed.

Lemma map_seq_rev_take (l : list Z) len :
  (len <= length l)%nat ->
  map (fun i => pretty (coord l (len - 1 - i))) (seq 0 len) = map pretty (rev (take len l)).
Proof.
  intros Hlen. apply list_eq. intros j. rewrite rev_is_reverse.
  rewrite !list_lookup_fmap.
  destruct (decide (j < len)%nat) as [Hj|Hj].
  - rewrite lookup_seq_lt by lia.
    rewrite reverse_lookup by (rewrite length_take; lia).
    rewrite length_take, lookup_take_lt by lia.
    replace (len `min` length l - S j)%nat with (len - 1 - j)%nat by lia.
    destruct (lookup_lt_is_Some_2 l (len - 1 - j) ltac:(lia)) as [v Hv].
    cbn [fmap option_fmap option_map]. change (0 + j)%nat with j.
    unfold coord. rewrite Hv. done.
  - rewrite lookup_seq_ge by lia.
    rewrite (lookup_ge_None_2 (reverse _)) by (rewrite length_reverse, length_take; lia).
    done.
Qed.

Lemma print_reverse_list_spec l len :
  print_reverse_list len l =
  if decide (len <= length l)%nat
  then Some (String.concat ", " (map pretty (rev (take len l)))) else None.
Proof.
  unfold print_reverse_list. case_decide as Hlen.
  - rewrite print_reverse_list_steps by lia. by rewrite map_seq_rev_take.
  - destruct len as [|n]; [simpl in Hlen; lia|].
    apply for_range_first_None.
    replace (S n - 1 - 0)%nat with n by lia.
    by rewrite (lookup_ge_None_2 l n) by lia.
Qed.

(** X2 (reverse_list, print_reverse_list): a list that [reverse_list] has
    reversed is printed by [print_reverse_list] in its original order,
    separated by commas. *)
Theorem print_reverse_list_of_reversed l len :
  reverse_list l len ≫= print_reverse_list len =
  if decide (len <= length l)%nat
  then Some (String.concat ", " (map pretty (take len l))) else None.
Proof.
  rewrite reverse_list_spec. case_decide as Hlen; [|done].
  cbn [mbind option_bind]. rewrite print_reverse_list_spec.
  rewrite decide_True by (rewrite length_app, length_rev, length_take, length_drop; lia).
  rewrite take_app_le by (rewrite length_rev, length_take; lia).
  rewrite take_ge by (rewrite length_rev, length_take; lia).
  by rewrite rev_involutive.
Qed.

Lemma read_sizes_from_file_spec file sizes len :
  (len <= length sizes)%nat ->
  exists s, read_sizes_from_file file sizes len = Some s /\
    length s = length sizes /\
    forall i, coord s i =
      if decide (i < len)%nat then user_size file sizes i else coord sizes i.
Proof.
  intros Hlen. destruct file as [ints|]; simpl.
  2:{ exists sizes. split; [done|]. split; [done|]. intros i. by case_decide. }
  induction len as [|n IH].
  - exists sizes. split; [done|]. split; [done|]. intros i. rewrite decide_False by lia. done.
  - destruct IH as (s & Hs & Hl & Hc); [lia|]. rewrite for_range_S, Hs.
    cbn [mbind option_bind]. destruct (ints !! n) as [v|] eqn:Hv.
    + rewrite set_at_Some by lia. eexists. split; [done|].
      split; [by rewrite length_insert|]. intros i.
      destruct (decide (i = n)) as [->|Hin].
      * rewrite coord_insert_eq by lia. rewrite decide_True by lia. by rewrite Hv.
      * rewrite coord_insert_ne by done. rewrite Hc. repeat case_decide; try done; lia.
    + exists s. split; [done|]. split; [done|]. intros i. rewrite Hc.
      destruct (decide (i = n)) as [->|Hin].
      * rewrite decide_False by lia. rewrite decide_True by lia. by rewrite Hv.
      * repeat case_decide; try done; lia.
Qed.

Lemma fill_tile_size tile_len v :
  for_range tile_len (fun n tile_size => set_at tile_size n v)
    (Some (replicate tile_len 0)) = Some (replicate tile_len v).
Proof.
  assert (H : forall k, (k <= tile_len)%nat ->
            for_range k (fun n tile_size => set_at tile_size n v)
              (Some (replicate tile_len 0)) =
            Some (replicate k v ++ replicate (tile_len - k) 0)).
  { induction k as [|k IH]; intros Hk.
    - simpl. by rewrite Nat.sub_0_r.
    - rewrite for_range_S, IH by lia. cbn [mbind option_bind].
      rewrite set_at_Some by (rewrite length_app, !length_replicate; lia).
      f_equal. rewrite insert_app_r_alt by (rewrite length_replicate; lia).
      rewrite length_replicate, Nat.sub_diag.
      replace (tile_len - k)%nat with (S (tile_len - S k)) by lia.
      rewrite (replicate_S_end k v), <- app_assoc. done. }
  rewrite H by lia. by rewrite Nat.sub_diag, app_nil_r.
Qed.

Lemma coord_rev_take (l : list Z) n i :
  (n <= length l)%nat -> (i < n)%nat ->
  coord (rev (take n l) ++ drop n l) (n - 1 - i) = coord l i.
Proof.
  intros Hn Hi. unfold coord. rewrite rev_is_reverse.
  rewrite lookup_app_l by (rewrite length_reverse, length_take; lia).
  rewrite reverse_lookup by (rewrite length_take; lia).
  rewrite length_take, lookup_take_lt by lia. do 2 f_equal. lia.
Qed.

Lemma read_sizes_dims file arr defaults n :
  (n <= length arr)%nat ->
  (forall i, (i < n)%nat -> coord arr i = coord defaults i) ->
  exists arr', (read_sizes_from_file file arr n ≫= fun a => reverse_list a n) = Some arr' /\
    length arr' = length arr /\
    forall i, (i < n)%nat -> coord arr' (n - 1 - i) = user_size file defaults i.
Proof.
  intros Hn Hd. destruct (read_sizes_from_file_spec file arr n Hn) as (s & Hs & Hl & Hc).
  rewrite Hs. cbn [mbind option_bind]. rewrite reverse_list_spec.
  rewrite decide_True by lia. eexists. split; [done|]. split.
  - rewrite length_app, length_rev, length_take, length_drop. lia.
  - intros i Hi. rewrite coord_rev_take by lia. rewrite Hc, decide_True by lia.
    unfold user_size. destruct file as [ints|]; [|by apply Hd].
    destruct (ints !! i); [done|]. by apply Hd.
Qed.

Lemma read_sizes_spec files tile_len ts n_parallel block_dim grid_dim :
  (3 <= length block_dim)%nat -> (2 <= length grid_dim)%nat ->
  exists s, read_sizes files tile_len ts n_parallel block_dim grid_dim = Some s /\
    sz_n_block s = (n_parallel `min` 3)%nat /\ sz_n_grid s = (n_parallel `min` 2)%nat /\
    length (sz_tile_size s) = tile_len /\
    (forall i, (i < tile_len)%nat ->
       coord (sz_tile_size s) i =
       user_size (files "tile.sizes") (replicate tile_len ts) i) /\
    (forall i, (i < sz_n_block s)%nat ->
       coord (sz_block_dim s) (sz_n_block s - 1 - i) =
       user_size (files "block.sizes") (default_block_dim (sz_n_block s)) i) /\
    (forall i, (i < sz_n_grid s)%nat ->
       coord (sz_grid_dim s) (sz_n_grid s - 1 - i) =
       user_size (files "grid.sizes") (default_grid_dim (sz_n_grid s)) i) /\
    length (sz_block_dim s) = length block_dim /\
    length (sz_grid_dim s) = length grid_dim.
Proof.
  intros Hb Hg. unfold read_sizes. rewrite fill_tile_size. cbn [mbind option_bind].
  destruct (read_sizes_from_file_spec (files "tile.sizes") (replicate tile_len ts) tile_len)
    as (t & Ht & Htl & Htc); [by rewrite length_replicate|].
  rewrite Ht. cbn [mbind option_bind].
  set (n_block := if decide (n_parallel <= 3)%nat then n_parallel else 3%nat).
  set (n_grid := if decide (n_parallel <= 2)%nat then n_parallel else 2%nat).
  assert (Hnb : n_block = (n_parallel `min` 3)%nat) by (unfold n_block; case_decide; lia).
  assert (Hng : n_grid = (n_parallel `min` 2)%nat) by (unfold n_grid; case_decide; lia).
  assert (Hbd : exists b, match n_block with
            | 1%nat => set_at block_dim 0 512
            | 2%nat => block_dim ← set_at block_dim 0 32; set_at block_dim 1 16
            | _ => block_dim ← set_at block_dim 0 32;
                   block_dim ← set_at block_dim 1 4; set_at block_dim 2 4
            end = Some b /\ length b = length block_dim /\
            forall i, (i < n_block)%nat -> coord b i = coord (default_block_dim n_block) i).
  { destruct n_block as [|[|[|[|k]]]]; try lia;
      repeat (rewrite set_at_Some by (rewrite ?length_insert; lia); cbn [mbind option_bind]);
      eexists; (split; [done|]); (split; [by rewrite ?length_insert|]);
      intros i Hi; destruct i as [|[|[|i]]]; try lia;
      unfold coord; destruct block_dim as [|? [|? [|? ?]]]; simpl in Hb; try lia; done. }
  destruct Hbd as (b & -> & Hbl & Hbc). cbn [mbind option_bind].
  destruct (read_sizes_dims (files "block.sizes") b (default_block_dim n_block) n_block)
    as (b' & Hb' & Hbl' & Hbc'); [lia|done|].
  destruct (read_sizes_from_file (files "block.sizes") b n_block) as [b1|] eqn:Hb1;
    [|done]. cbn [mbind option_bind] in Hb' |- *. rewrite Hb'. cbn [mbind option_bind].
  assert (Hgd : exists g, match n_grid with
            | 1%nat => set_at grid_dim 0 65536
            | _ => grid_dim ← set_at grid_dim 0 256; set_at grid_dim 1 256
            end = Some g /\ length g = length grid_dim /\
            forall i, (i < n_grid)%nat -> coord g i = coord (default_grid_dim n_grid) i).
  { destruct n_grid as [|[|[|k]]]; try lia;
      repeat (rewrite set_at_Some by (rewrite ?length_insert; lia); cbn [mbind option_bind]);
      eexists; (split; [done|]); (split; [by rewrite ?length_insert|]);
      intros i Hi; destruct i as [|[|i]]; try lia;
      unfold coord; destruct grid_dim as [|? [|? ?]]; simpl in Hg; try lia; done. }
  destruct Hgd as (g & -> & Hgl & Hgc). cbn [mbind option_bind].
  destruct (read_sizes_dims (files "grid.sizes") g (default_grid_dim n_grid) n_grid)
    as (g' & Hg' & Hgl' & Hgc'); [lia|done|].
  destruct (read_sizes_from_file (files "grid.sizes") g n_grid) as [g1|] eqn:Hg1;
    [|done]. cbn [mbind option_bind] in Hg' |- *. rewrite Hg'. cbn [mbind option_bind].
  eexists. split; [done|]. cbn [sz_tile_size sz_n_block sz_block_dim sz_n_grid sz_grid_dim].
  split_and!; try done; try congruence.
  - by rewrite Htl, length_replicate.
  - intros i Hi. rewrite Htc. by rewrite decide_True.
Qed.

(** X3 (read_sizes, read_sizes_from_file): [read_sizes] stays inside the
    arrays of three block sizes and two grid sizes, uses at most three
    thread and two block dimensions, and stores the [i]-th size of
    "block.sizes" and "grid.sizes" (the default, where the file gives none)
    at position [n - 1 - i], the sizes of "tile.sizes" in the order of the
    file. *)
Theorem read_sizes_user_order files tile_len ts n_parallel block_dim grid_dim :
  (3 <= length block_dim)%nat -> (2 <= length grid_dim)%nat ->
  exists s, read_sizes files tile_len ts n_parallel block_dim grid_dim = Some s /\
    sz_n_block s = (n_parallel `min` 3)%nat /\ sz_n_grid s = (n_parallel `min` 2)%nat /\
    length (sz_tile_size s) = tile_len /\
    (forall i, (i < tile_len)%nat ->
       coord (sz_tile_size s) i =
       user_size (files "tile.sizes") (replicate tile_len ts) i) /\
    (forall i, (i < sz_n_block s)%nat ->
       coord (sz_block_dim s) (sz_n_block s - 1 - i) =
       user_size (files "block.sizes") (default_block_dim (sz_n_block s)) i) /\
    (forall i, (i < sz_n_grid s)%nat ->
       coord (sz_grid_dim s) (sz_n_grid s - 1 - i) =
       user_size (files "grid.sizes") (default_grid_dim (sz_n_grid s)) i).
Proof.
  intros Hb Hg.
  destruct (read_sizes_spec files tile_len ts n_parallel block_dim grid_dim Hb Hg)
    as (s & Hs & H1 & H2 & H3 & H4 & H5 & H6 & _).
  by exists s.
Qed.

Lemma read_sizes_user_order_witness :
  exists s, read_sizes sample_files 2 32 5 [0; 0; 0] [0; 0] = Some s /\
    sz_n_block s = (5 `min` 3)%nat /\ sz_n_grid s = (5 `min` 2)%nat /\
    length (sz_tile_size s) = 2%nat /\
    (forall i, (i < 2)%nat ->
       coord (sz_tile_size s) i =
       user_size (sample_files "tile.sizes") (replicate 2 32) i) /\
    (forall i, (i < sz_n_block s)%nat ->
       coord (sz_block_dim s) (sz_n_block s - 1 - i) =
       user_size (sample_files "block.sizes") (default_block_dim (sz_n_block s)) i) /\
    (forall i, (i < sz_n_grid s)%nat ->
       coord (sz_grid_dim s) (sz_n_grid s - 1 - i) =
       user_size (sample_files "grid.sizes") (default_grid_dim (sz_n_grid s)) i).
Proof. apply read_sizes_user_order; simpl; lia. Defined.

Lemma size_product_coords n (arr : list Z) :
  (n <= length arr)%nat ->
  size_product n arr = fold_right Z.mul 1 (map (coord arr) (seq 0 n)).
Proof.
  intros Hn. unfold size_product. f_equal. apply list_eq. intros i.
  rewrite list_lookup_fmap. destruct (decide (i < n)%nat) as [Hi|Hi].
  - rewrite lookup_take_lt, lookup_seq_lt by lia. simpl.
    destruct (lookup_lt_is_Some_2 arr i ltac:(lia)) as [v Hv].
    unfold coord. by rewrite Hv.
  - rewrite lookup_take_ge, lookup_seq_ge by lia. done.
Qed.

(** X4 (read_sizes): without "block.sizes" and "grid.sizes" a kernel with
    at least one parallel loop is launched with 512 threads in a block and
    65536 blocks in the grid, whatever the number of parallel loops. *)
Theorem read_sizes_default_launch files tile_len ts n_parallel block_dim grid_dim :
  (3 <= length block_dim)%nat -> (2 <= length grid_dim)%nat ->
  files "block.sizes" = None -> files "grid.sizes" = None ->
  (1 <= n_parallel)%nat ->
  exists s, read_sizes files tile_len ts n_parallel block_dim grid_dim = Some s /\
    size_product (sz_n_block s) (sz_block_dim s) = 512 /\
    size_product (sz_n_grid s) (sz_grid_dim s) = 65536.
Proof.
  intros Hb Hg Fb Fg Hn.
  destruct (read_sizes_spec files tile_len ts n_parallel block_dim grid_dim Hb Hg)
    as (s & Hs & Hnb & Hng & _ & _ & Hbc & Hgc & Hlb & Hlg).
  exists s. split; [done|].
  rewrite Fb in Hbc. rewrite Fg in Hgc. unfold user_size in Hbc, Hgc.
  rewrite !size_product_coords by lia.
  assert (Eb : sz_n_block s = 1%nat \/ sz_n_block s = 2%nat \/ sz_n_block s = 3%nat) by lia.
  assert (Eg : sz_n_grid s = 1%nat \/ sz_n_grid s = 2%nat) by lia.
  split.
  - destruct Eb as [E|[E|E]]; rewrite E in *; cbn [seq map fold_right default_block_dim];
      pose proof (Hbc 0%nat) as H0; pose proof (Hbc 1%nat) as H1;
      pose proof (Hbc 2%nat) as H2; cbn [Nat.sub] in H0, H1, H2;
      rewrite ?H0, ?H1, ?H2 by lia; by vm_compute.
  - destruct Eg as [E|E]; rewrite E in *; cbn [seq map fold_right default_grid_dim];
      pose proof (Hgc 0%nat) as H0; pose proof (Hgc 1%nat) as H1;
      cbn [Nat.sub] in H0, H1; rewrite ?H0, ?H1 by lia; by vm_compute.
Qed.

Lemma read_sizes_default_launch_witness :
  exists s, read_sizes (fun _ => None) 2 32 2 [0; 0; 0] [0; 0] = Some s /\
    size_product (sz_n_block s) (sz_block_dim s) = 512 /\
    size_product (sz_n_grid s) (sz_grid_dim s) = 65536.
Proof. apply read_sizes_default_launch; simpl; first [lia|done]. Defined.

Lemma rev_take_coords (arr : list Z) n (f : nat -> Z) :
  (n <= length arr)%nat ->
  (forall i, (i < n)%nat -> coord arr (n - 1 - i) = f i) ->
  rev (take n arr) = map f (seq 0 n).
Proof.
  intros Hn Hf. apply list_eq. intros i. rewrite rev_is_reverse, list_lookup_fmap.
  destruct (decide (i < n)%nat) as [Hi|Hi].
  - rewrite reverse_lookup by (rewrite length_take; lia).
    rewrite length_take, lookup_take_lt, lookup_seq_lt by lia. simpl.
    rewrite <- (Hf i Hi). unfold coord.
    replace (n `min` length arr - S i)%nat with (n - 1 - i)%nat by lia.
    destruct (lookup_lt_is_Some_2 arr (n - 1 - i) ltac:(lia)) as [v Hv]. by rewrite Hv.
  - rewrite lookup_seq_ge by lia.
    by rewrite lookup_ge_None_2 by (rewrite length_reverse, length_take; lia).
Qed.

(** X5 (read_sizes, print_reverse_list): the arguments printed for
    [dimBlock] and [dimGrid] are the sizes in the order in which
    "block.sizes" and "grid.sizes" list them, the defaults standing in for
    the sizes a file does not give. *)
Theorem launch_sizes_in_file_order files tile_len ts n_parallel block_dim grid_dim :
  (3 <= length block_dim)%nat -> (2 <= length grid_dim)%nat ->
  exists s, read_sizes files tile_len ts n_parallel block_dim grid_dim = Some s /\
    print_reverse_list (sz_n_block s) (sz_block_dim s) =
      Some (String.concat ", " (map pretty
        (map (user_size (files "block.sizes") (default_block_dim (sz_n_block s)))
           (seq 0 (sz_n_block s))))) /\
    print_reverse_list (sz_n_grid s) (sz_grid_dim s) =
      Some (String.concat ", " (map pretty
        (map (user_size (files "grid.sizes") (default_grid_dim (sz_n_grid s)))
           (seq 0 (sz_n_grid s))))).
Proof.
  intros Hb Hg.
  destruct (read_sizes_spec files tile_len ts n_parallel block_dim grid_dim Hb Hg)
    as (s & Hs & Hnb & Hng & _ & _ & Hbc & Hgc & Hlb & Hlg).
  exists s. split; [done|]. rewrite !print_reverse_list_spec.
  rewrite (decide_True (P := (sz_n_block s <= length (sz_block_dim s))%nat)) by lia.
  rewrite (decide_True (P := (sz_n_grid s <= length (sz_grid_dim s))%nat)) by lia.
  rewrite (rev_take_coords (sz_block_dim s) (sz_n_block s) _ ltac:(lia) Hbc).
  rewrite (rev_take_coords (sz_grid_dim s) (sz_n_grid s) _ ltac:(lia) Hgc). done.
Qed.

Lemma launch_sizes_in_file_order_witness :
  exists s, read_sizes sample_files 2 32 5 [0; 0; 0] [0; 0] = Some s /\
    print_reverse_list (sz_n_block s) (sz_block_dim s) =
      Some (String.concat ", " (map pretty
        (map (user_size (sample_files "block.sizes") (default_block_dim (sz_n_block s)))
           (seq 0 (sz_n_block s))))) /\
    print_reverse_list (sz_n_grid s) (sz_grid_dim s) =
      Some (String.concat ", " (map pretty
        (map (user_size (sample_files "grid.sizes") (default_grid_dim (sz_n_grid s)))
           (seq 0 (sz_n_grid s))))).
Proof. apply launch_sizes_in_file_order; simpl; lia. Defined.

(** ** Schedule construction *)

Lemma parametrize_bset dim nparam first n :
  (nparam + n <= n_param dim)%nat -> (first + n <= n_out dim)%nat ->
  for_range n (fun i bset =>
      c ← isl_constraint_set_coefficient (isl_equality_alloc dim) isl_dim_param
             (nparam + i) (-1);
      c ← isl_constraint_set_coefficient c isl_dim_set (first + i) 1;
      Some (isl_basic_map_add_constraint bset c)) (Some (isl_basic_map_universe dim)) =
  Some (mk_bmap dim 0 (flat_map (param_equality dim nparam first) (seq 0 n))).
Proof.
  intros Hp Hf.
  rewrite (for_range_add _ _ (param_equality dim nparam first)).
  - done.
  - intros i b Hi. unfold isl_constraint_set_coefficient, isl_equality_alloc. simpl.
    rewrite set_at_Some by len_solve. simpl.
    rewrite set_at_Some by len_solve. done.
Qed.

Lemma param_equality_rel dim nparam first n p y :
  (nparam + n <= n_param dim)%nat -> (first + n <= n_out dim)%nat ->
  rel (mk_bmap dim 0 (flat_map (param_equality dim nparam first) (seq 0 n))) p [] y <->
  n_in dim = 0%nat /\ length y = n_out dim /\
  forall i, (i < n)%nat -> coord y (first + i) = coord p (nparam + i).
Proof.
  intros Hp Hf. unfold rel. simpl. split.
  - intros (Hx & Hy & e & He & HF). split; [done|]. split; [done|].
    rewrite Forall_flat_map_seq in HF. intros i Hi. specialize (HF i Hi).
    unfold param_equality in HF. rewrite Forall_singleton in HF. revert HF.
    eval_simpl. lia.
  - intros (Hx & Hy & Hc). split; [done|]. split; [done|]. exists []. split; [done|].
    rewrite Forall_flat_map_seq. intros i Hi. unfold param_equality.
    apply Forall_singleton. eval_simpl. rewrite (Hc i Hi). lia.
Qed.

Lemma parametrize_spec `{IslSetOps U} (spts : U -> list Z -> list Z -> Prop) set first n :
  set_laws spts ->
  (first + n <= n_out (isl_set_get_dim set))%nat ->
  exists s, parametrize set first n = Some s /\
    isl_set_get_dim s = isl_dim_add (isl_set_get_dim set) isl_dim_param n /\
    forall p y, spts s p y <->
      spts set p y /\
      forall i, (i < n)%nat ->
        coord y (first + i) = coord p (n_param (isl_set_get_dim set) + i).
Proof.
  intros (Ldu & Lda & Lu & La & Lb & Li & Ldi & Ll) Hf.
  unfold parametrize, add_params. rewrite Lda.
  rewrite parametrize_bset by (simpl; lia). cbn [mbind option_bind].
  eexists. split; [done|]. split; [by rewrite Ldi, Lda|].
  intros p y. rewrite Li, La, Lb.
  rewrite param_equality_rel by (simpl; lia). simpl. split.
  - intros (Hs & _ & _ & Hc). done.
  - intros (Hs & Hc). destruct (Ll _ _ _ Hs) as [H1 H2]. done.
Qed.

Lemma parametrization_spec `{IslSetOps U} (spts : U -> list Z -> list Z -> Prop)
    n_par len first n :
  set_laws spts -> (first + n <= len)%nat ->
  exists s, parametrization (mk_dim n_par 0 0) len first n = Some s /\
    isl_set_get_dim s = mk_dim (n_par + n) 0 len /\
    forall p y, spts s p y <->
      length y = len /\
      forall i, (i < n)%nat -> coord y (first + i) = coord p (n_par + i).
Proof.
  intros HL Hf. pose proof HL as (Ldu & Lda & Lu & La & Lb & Li & Ldi & Ll).
  unfold parametrization.
  destruct (parametrize_spec spts
              (isl_set_universe (isl_dim_add (mk_dim n_par 0 0) isl_dim_set len)) first n HL)
    as (s & Hs & Hd & Hp); [by rewrite Ldu|].
  exists s. split; [done|]. rewrite Ldu in Hd, Hp. split; [done|].
  intros p y. rewrite Hp, Lu. simpl. tauto.
Qed.

(** X6 (parametrize, parametrization): the set [parametrization] builds
    holds the points of dimension [len] whose [n] coordinates from [first]
    have the values of the [n] parameters it creates. *)
Theorem parametrization_equates `{IslSetOps U} (spts : U -> list Z -> list Z -> Prop)
    n_par len first n :
  set_laws spts -> (first + n <= len)%nat ->
  exists s, parametrization (mk_dim n_par 0 0) len first n = Some s /\
    isl_set_get_dim s = mk_dim (n_par + n) 0 len /\
    forall p y, spts s p y <->
      length y = len /\
      forall i, (i < n)%nat -> coord y (first + i) = coord p (n_par + i).
Proof. apply parametrization_spec. Qed.

Section sym_model.
#[local] Existing Instance sym_set_ops.
#[local] Existing Instance sym_map_ops.
#[local] Existing Instance sym_range_ops.

Lemma sym_set_laws : set_laws sym_set_pts.
Proof.
  unfold set_laws. simpl. split_and!; try done.
  induction s as [d|s IH t n|b|a IHa b IHb]; intros p y; simpl.
  - done.
  - destruct t; try done. intros Hs. destruct (IH _ _ Hs) as [H1 H2]. done.
  - intros (Hx & Hy & _). done.
  - intros [Ha _]. by apply (IHa p y).
Qed.

Lemma sym_map_laws : map_laws sym_map_pts.
Proof. unfold map_laws. simpl. split_and!; done. Qed.

Lemma sym_range_laws : range_laws sym_map_pts sym_set_pts.
Proof. unfold range_laws. simpl. split_and!; done. Qed.

End sym_model.

Section parametrization_witness.
#[local] Existing Instance sym_set_ops.

Lemma parametrization_equates_witness :
  exists s, parametrization (mk_dim 1 0 0) 3 1 2 = Some s /\
    isl_set_get_dim s = mk_dim (1 + 2) 0 3 /\
    forall p y, sym_set_pts s p y <->
      length y = 3%nat /\
      forall i, (i < 2)%nat -> coord y (1 + i) = coord p (1 + i).
Proof. apply (parametrization_equates sym_set_pts); [apply sym_set_laws|lia]. Defined.

End parametrization_witness.

Lemma bounded_parameters_bset dim nparam len size :
  (nparam + len <= n_param dim)%nat -> (len <= length size)%nat ->
  for_range len (fun i bset =>
      c ← isl_constraint_set_coefficient (isl_inequality_alloc dim) isl_dim_param
             (nparam + i) 1;
      let bset := isl_basic_map_add_constraint bset c in
      c ← isl_constraint_set_coefficient (isl_inequality_alloc dim) isl_dim_param
             (nparam + i) (-1);
      sz ← size !! i;
      let c := isl_constraint_set_constant c (sz - 1) in
      Some (isl_basic_map_add_constraint bset c)) (Some (isl_basic_map_universe dim)) =
  Some (mk_bmap dim 0 (flat_map (param_bounds dim nparam size) (seq 0 len))).
Proof.
  intros Hp Hs.
  rewrite (for_range_add _ _ (param_bounds dim nparam size)).
  - done.
  - intros i b Hi. unfold isl_constraint_set_coefficient, isl_inequality_alloc. simpl.
    repeat (rewrite set_at_Some by len_solve; simpl).
    destruct (lookup_lt_is_Some_2 size i ltac:(lia)) as [sz Hsz]. rewrite Hsz. simpl.
    unfold param_bounds, coord. rewrite Hsz. simpl.
    unfold add_constraints, isl_basic_map_add_constraint. simpl.
    by rewrite <- app_assoc.
Qed.

Lemma param_bounds_rel dim nparam len size p y :
  (nparam + len <= n_param dim)%nat ->
  rel (mk_bmap dim 0 (flat_map (param_bounds dim nparam size) (seq 0 len))) p [] y <->
  n_in dim = 0%nat /\ length y = n_out dim /\
  forall i, (i < len)%nat -> 0 <= coord p (nparam + i) < coord size i.
Proof.
  intros Hp. unfold rel. simpl. split.
  - intros (Hx & Hy & e & He & HF). split; [done|]. split; [done|].
    rewrite Forall_flat_map_seq in HF. intros i Hi. specialize (HF i Hi).
    unfold param_bounds in HF. rewrite !Forall_cons in HF. destruct HF as (H1 & H2 & _).
    revert H1 H2. eval_simpl. lia.
  - intros (Hx & Hy & Hc). split; [done|]. split; [done|]. exists []. split; [done|].
    rewrite Forall_flat_map_seq. intros i Hi. unfold param_bounds.
    specialize (Hc i Hi).
    repeat apply Forall_cons_2; [| |apply Forall_nil_2]; eval_simpl; lia.
Qed.

(** X7 (add_bounded_parameters): the set [add_bounded_parameters] returns
    holds the points of [set] at the parameter values for which each new
    parameter [p[i]] satisfies [0 <= p[i] < size[i]]. *)
Theorem add_bounded_parameters_bounds `{IslSetOps U}
    (spts : U -> list Z -> list Z -> Prop) set len size :
  set_laws spts -> (len <= length size)%nat ->
  exists s, add_bounded_parameters set len size = Some s /\
    isl_set_get_dim s = isl_dim_add (isl_set_get_dim set) isl_dim_param len /\
    forall p y, spts s p y <->
      spts set p y /\
      forall i, (i < len)%nat ->
        0 <= coord p (n_param (isl_set_get_dim set) + i) < coord size i.
Proof.
  intros (Ldu & Lda & Lu & La & Lb & Li & Ldi & Ll) Hs.
  unfold add_bounded_parameters. rewrite Lda.
  rewrite bounded_parameters_bset by (simpl; lia). cbn [mbind option_bind].
  eexists. split; [done|]. split; [by rewrite Ldi, Lda|].
  intros p y. rewrite Li, La, Lb.
  rewrite param_bounds_rel by (simpl; lia). simpl. split.
  - intros (Hset & _ & _ & Hc). done.
  - intros (Hset & Hc). destruct (Ll _ _ _ Hset) as [H1 H2]. done.
Qed.

Section add_bounded_parameters_witness.
#[local] Existing Instance sym_set_ops.

Lemma add_bounded_parameters_bounds_witness :
  exists s, add_bounded_parameters (isl_set_universe (mk_dim 1 0 2)) 2 [32; 16] = Some s /\
    isl_set_get_dim s =
      isl_dim_add (isl_set_get_dim (isl_set_universe (mk_dim 1 0 2))) isl_dim_param 2 /\
    forall p y, sym_set_pts s p y <->
      sym_set_pts (isl_set_universe (mk_dim 1 0 2)) p y /\
      forall i, (i < 2)%nat ->
        0 <= coord p (n_param (isl_set_get_dim (isl_set_universe (mk_dim 1 0 2))) + i)
          < coord [32; 16] i.
Proof.
  apply (add_bounded_parameters_bounds sym_set_pts); [apply sym_set_laws|simpl; lia].
Defined.

End add_bounded_parameters_witness.

(** ** Tiling of the schedule *)

Lemma list_eq_coord (a b : list Z) :
  length a = length b -> (forall i, (i < length a)%nat -> coord a i = coord b i) -> a = b.
Proof.
  intros Hl Hc. apply list_eq. intros i.
  destruct (decide (i < length a)%nat) as [Hi|Hi].
  - specialize (Hc i Hi). unfold coord in Hc.
    destruct (lookup_lt_is_Some_2 a i Hi) as [u Hu].
    destruct (lookup_lt_is_Some_2 b i ltac:(lia)) as [v Hv].
    rewrite Hu, Hv in *. simpl in Hc. by subst.
  - rewrite !lookup_ge_None_2 by lia. done.
Qed.

Lemma tile_spec_unique len first tile_len sizes x y y' :
  tile_spec len first tile_len sizes x y -> tile_spec len first tile_len sizes x y' ->
  y = y'.
Proof.
  intros (Hx & Hy & H1 & H2 & H3) (_ & Hy' & H1' & H2' & H3').
  apply list_eq_coord; [lia|]. intros i Hi.
  destruct (decide (i < first)%nat); [by rewrite H1, H1'|].
  destruct (decide (i < first + tile_len)%nat).
  { destruct (H3 (i - first)%nat ltac:(lia)) as (E & _).
    destruct (H3' (i - first)%nat ltac:(lia)) as (E' & _).
    replace (first + (i - first))%nat with i in * by lia. by rewrite E, E'. }
  destruct (decide (i < first + tile_len + tile_len)%nat).
  { destruct (H3 (i - first - tile_len)%nat ltac:(lia)) as (_ & E & _).
    destruct (H3' (i - first - tile_len)%nat ltac:(lia)) as (_ & E' & _).
    replace (first + tile_len + (i - first - tile_len))%nat with i in * by lia.
    by rewrite E, E'. }
  specialize (H2 (i - tile_len)%nat ltac:(lia)).
  specialize (H2' (i - tile_len)%nat ltac:(lia)).
  replace (i - tile_len + tile_len)%nat with i in * by lia. by rewrite H2, H2'.
Qed.

Lemma wrap_spec_unique len first wrap_len sizes x y y' :
  wrap_spec len first wrap_len sizes x y -> wrap_spec len first wrap_len sizes x y' ->
  y = y'.
Proof.
  intros (Hx & Hy & H1 & H2 & H3) (_ & Hy' & H1' & H2' & H3').
  apply list_eq_coord; [lia|]. intros i Hi.
  destruct (decide (i < first + wrap_len)%nat); [by rewrite H1, H1'|].
  destruct (decide (i < first + wrap_len + wrap_len)%nat).
  { destruct (H3 (i - first - wrap_len)%nat ltac:(lia)) as (E & _).
    destruct (H3' (i - first - wrap_len)%nat ltac:(lia)) as (E' & _).
    replace (first + wrap_len + (i - first - wrap_len))%nat with i in * by lia.
    by rewrite E, E'. }
  specialize (H2 (i - wrap_len)%nat ltac:(lia)).
  specialize (H2' (i - wrap_len)%nat ltac:(lia)).
  replace (i - wrap_len + wrap_len)%nat with i in * by lia. by rewrite H2, H2'.
Qed.

Lemma for_range_ext {A : Type} n (f g : nat -> A -> option A) init :
  (forall i a, (i < n)%nat -> f i a = g i a) -> for_range n f init = for_range n g init.
Proof.
  intros Hfg. induction n as [|n IH]; [done|].
  rewrite !for_range_S, IH by (intros; apply Hfg; lia).
  destruct (for_range n g init); [|done]. simpl. apply Hfg. lia.
Qed.

Lemma tile_take dim len first tile_len sizes :
  tile dim len first tile_len sizes = tile dim len first tile_len (take tile_len sizes).
Proof.
  unfold tile. apply for_range_ext. intros i b Hi. by rewrite lookup_take_lt.
Qed.

Lemma wrap_take dim len first wrap_len sizes :
  wrap dim len first wrap_len sizes = wrap dim len first wrap_len (take wrap_len sizes).
Proof.
  unfold wrap. f_equal. apply for_range_ext. intros i b Hi. by rewrite lookup_take_lt.
Qed.

Lemma tile_image_take first n sizes x :
  tile_image first n sizes x = tile_image first n (take n sizes) x.
Proof.
  unfold tile_image. f_equal. f_equal; [|f_equal];
    apply map_ext_in; intros k Hk%in_seq; unfold coord; by rewrite lookup_take_lt by lia.
Qed.

Lemma wrap_image_take first n sizes x :
  wrap_image first n sizes x = wrap_image first n (take n sizes) x.
Proof.
  unfold wrap_image. f_equal. f_equal.
  apply map_ext_in; intros k Hk%in_seq; unfold coord; by rewrite lookup_take_lt by lia.
Qed.

Lemma sizes_positive n (sizes : list Z) :
  (n <= length sizes)%nat -> (forall k, (k < n)%nat -> 0 < coord sizes k) ->
  length (take n sizes) = n /\ Forall (fun s => 0 < s) (take n sizes).
Proof.
  intros Hn Hp. split; [rewrite length_take; lia|].
  apply Forall_lookup. intros k v Hv.
  assert (Hk : (k < n)%nat).
  { apply lookup_lt_Some in Hv. rewrite length_take in Hv. lia. }
  rewrite lookup_take_lt in Hv by done. specialize (Hp k Hk). unfold coord in Hp.
  by rewrite Hv in Hp.
Qed.

(** The tiling of a band is a function of the schedule point. *)
Lemma band_tiling (options_wrap : bool) n_par len first n sizes :
  (first + n <= len)%nat -> (n <= length sizes)%nat ->
  (forall k, (k < n)%nat -> 0 < coord sizes k) ->
  exists b,
    (if options_wrap then wrap (mk_dim n_par 0 0) len first n sizes
     else tile (mk_dim n_par 0 0) len first n sizes) = Some b /\
    n_param (bm_dim b) = n_par /\
    forall p x y, rel b p x y <->
      length x = len /\ y = band_image options_wrap first n sizes x.
Proof.
  intros Hr Hn Hp. destruct (sizes_positive n sizes Hn Hp) as [Hl Hpos].
  unfold band_image. destruct options_wrap.
  - rewrite wrap_take.
    pose proof (wrap_constraints n_par len first n (take n sizes) Hr Hl) as Hw.
    eexists. split; [exact Hw|]. split; [done|]. intros p x y.
    rewrite (wrap_rel _ _ _ _ _ _ Hr Hl Hpos Hw). rewrite wrap_image_take. split.
    + intros Hs. pose proof Hs as (Hx & _). split; [done|].
      eapply wrap_spec_unique; [exact Hs|]. by apply wrap_spec_image.
    + intros [Hx ->]. by apply wrap_spec_image.
  - rewrite tile_take.
    pose proof (tile_constraints n_par len first n (take n sizes) Hr Hl) as Ht.
    eexists. split; [exact Ht|]. split; [done|]. intros p x y.
    rewrite (tile_rel _ _ _ _ _ _ Hr Hl Hpos Ht). rewrite tile_image_take. split.
    + intros Hs. pose proof Hs as (Hx & _). split; [done|].
      eapply tile_spec_unique; [exact Hs|]. by apply tile_spec_image.
    + intros [Hx ->]. by apply tile_spec_image.
Qed.

Lemma band_image_length options_wrap first n sizes x :
  (first + n <= length x)%nat ->
  length (band_image options_wrap first n sizes x) = (length x + n)%nat.
Proof.
  intros Hr. unfold band_image, wrap_image, tile_image. destruct options_wrap;
    rewrite !length_app, length_take, !length_map, !length_seq, length_drop; lia.
Qed.

Lemma band_image_before options_wrap first n sizes x i :
  (first + n <= length x)%nat -> (i < first)%nat ->
  coord (band_image options_wrap first n sizes x) i = coord x i.
Proof.
  intros Hr Hi. unfold band_image, wrap_image, tile_image. destruct options_wrap;
    rewrite coord_app_l by (rewrite length_take; lia); apply coord_take; lia.
Qed.

Lemma band_image_rem options_wrap first n sizes x k :
  (first + n <= length x)%nat -> (k < n)%nat ->
  coord (band_image options_wrap first n sizes x) (first + n + k) =
  coord x (first + k) mod coord sizes k.
Proof.
  intros Hr Hk. unfold band_image, wrap_image, tile_image. destruct options_wrap.
  - rewrite coord_app_r by (rewrite length_take; lia).
    rewrite length_take.
    replace (first + n + k - (first + n) `min` length x)%nat with k by lia.
    rewrite coord_app_l by (rewrite length_map, length_seq; lia).
    by rewrite coord_map_seq.
  - rewrite coord_app_r by (rewrite length_take; lia).
    rewrite length_take.
    replace (first + n + k - first `min` length x)%nat with (n + k)%nat by lia.
    rewrite coord_app_r by (rewrite length_map, length_seq; lia).
    rewrite length_map, length_seq.
    replace (n + k - n)%nat with k by lia.
    rewrite coord_app_l by (rewrite length_map, length_seq; lia).
    by rewrite coord_map_seq.
Qed.

Lemma tile_image_quot first n sizes x k :
  (first + n <= length x)%nat -> (k < n)%nat ->
  coord (tile_image first n sizes x) (first + k) = coord x (first + k) / coord sizes k.
Proof.
  intros Hr Hk. unfold tile_image.
  rewrite coord_app_r by (rewrite length_take; lia). rewrite length_take.
  replace (first + k - first `min` length x)%nat with k by lia.
  rewrite coord_app_l by (rewrite length_map, length_seq; lia).
  by rewrite coord_map_seq.
Qed.

Lemma tile_schedule_spec `{IslOps M} (mpts : M -> list Z -> list Z -> list Z -> Prop)
    (options_wrap : bool) untiled_len tile_first tile_len tile_size n_grid grid_dim sched :
  map_laws mpts ->
  (tile_first + tile_len <= untiled_len)%nat -> (n_grid <= tile_len)%nat ->
  (tile_len <= length tile_size)%nat -> (n_grid <= length grid_dim)%nat ->
  (forall k, (k < tile_len)%nat -> 0 < coord tile_size k) ->
  (forall k, (k < n_grid)%nat -> 0 < coord grid_dim k) ->
  exists sched1,
    tile_schedule options_wrap untiled_len tile_first tile_len tile_size n_grid grid_dim
      sched =
    Some (sched1, (untiled_len + tile_len + n_grid)%nat,
          (tile_first + tile_len + n_grid)%nat) /\
    isl_map_n_param sched1 = isl_map_n_param sched /\
    forall p s z, mpts sched1 p s z <->
      exists x, mpts sched p s x /\ length x = untiled_len /\
        z = block_image options_wrap tile_first tile_len tile_size n_grid grid_dim x.
Proof.
  intros (Lapp & Lfbm & Lnapp & Lnfbm) Hr Hg Hlt Hlg Hpt Hpg.
  unfold tile_schedule, isl_union_map_get_dim.
  destruct (band_tiling false (isl_map_n_param sched) untiled_len tile_first tile_len
              tile_size Hr Hlt Hpt) as (bt & Hbt & Hnt & Hrt).
  destruct (band_tiling options_wrap (isl_map_n_param sched) (untiled_len + tile_len)
              tile_first n_grid grid_dim ltac:(lia) Hlg Hpg) as (bb & Hbb & Hnb & Hrb).
  cbn [negb] in Hbt. rewrite Hbt. cbn [mbind option_bind]. rewrite Hbb.
  cbn [mbind option_bind]. eexists. split; [done|]. split.
  { rewrite !Lnapp, !Lnfbm, Hnt, Hnb. lia. }
  intros p s z. rewrite Lapp. unfold block_image. split.
  - intros (x & Hx & Hz). apply Lapp in Hz as (y & Hy & Hz).
    apply Lfbm, Hrt in Hy as [Hlx ->]. apply Lfbm, Hrb in Hz as [_ ->].
    exists x. done.
  - intros (x & Hx & Hlx & ->). exists x. split; [done|]. apply Lapp.
    exists (tile_image tile_first tile_len tile_size x). split.
    + apply Lfbm, Hrt. done.
    + apply Lfbm, Hrb. split; [|done].
      rewrite (band_image_length false) by lia. lia.
Qed.

Lemma parametrize_tiled_schedule_spec `{IslOps M} `{IslSetOps U} `{!IslRangeOps M U}
    (mpts : M -> list Z -> list Z -> list Z -> Prop) (spts : U -> list Z -> list Z -> Prop)
    tiled_len tile_first n_grid sched :
  set_laws spts -> range_laws mpts spts ->
  (tile_first + 2 * n_grid <= tiled_len)%nat ->
  exists sched2,
    parametrize_tiled_schedule tiled_len tile_first n_grid sched = Some sched2 /\
    forall p s z, mpts sched2 p s z <->
      mpts sched p s z /\ length z = tiled_len /\
      (forall i, (i < tile_first)%nat -> coord z i = coord p (isl_map_n_param sched + i)) /\
      (forall k, (k < n_grid)%nat ->
         coord z (tile_first + n_grid + k) =
         coord p (isl_map_n_param sched + tile_first + k)).
Proof.
  intros HS (Lir & Lnir) Hr.
  unfold parametrize_tiled_schedule, isl_union_map_get_dim.
  destruct (parametrization_spec spts (isl_map_n_param sched) tiled_len 0 tile_first HS)
    as (par1 & Hp1 & Hd1 & Hs1); [lia|].
  rewrite Hp1. cbn [mbind option_bind]. rewrite Lnir, Hd1. cbn [n_param].
  replace (isl_map_n_param sched `max` (isl_map_n_param sched + tile_first))%nat
    with (isl_map_n_param sched + tile_first)%nat by lia.
  destruct (parametrization_spec spts (isl_map_n_param sched + tile_first) tiled_len
              (tile_first + n_grid) n_grid HS) as (par2 & Hp2 & Hd2 & Hs2); [lia|].
  rewrite Hp2. cbn [mbind option_bind]. eexists. split; [done|].
  intros p s z. rewrite !Lir, Hs1, Hs2. simpl. tauto.
Qed.

(** X8 (tile_schedule, parametrize_tiled_schedule): the tiled schedule
    relates a statement instance to the tiling of its schedule point [x];
    at parameter values [p] it holds the instances whose outer
    [tile_first] coordinates are the parameters [h] and whose tile
    [x / tile_size], wrapped over the grid, is the block [b]: the instance
    is executed by block [(x / tile_size) mod grid_dim]. *)
Theorem block_assignment `{IslOps M} `{IslSetOps U} `{!IslRangeOps M U}
    (mpts : M -> list Z -> list Z -> list Z -> Prop) (spts : U -> list Z -> list Z -> Prop)
    (options_wrap : bool) untiled_len tile_first tile_len tile_size n_grid grid_dim sched :
  map_laws mpts -> set_laws spts -> range_laws mpts spts ->
  (tile_first + tile_len <= untiled_len)%nat -> (n_grid <= tile_len)%nat ->
  (tile_len <= length tile_size)%nat -> (n_grid <= length grid_dim)%nat ->
  (forall k, (k < tile_len)%nat -> 0 < coord tile_size k) ->
  (forall k, (k < n_grid)%nat -> 0 < coord grid_dim k) ->
  exists sched1 sched2,
    tile_schedule options_wrap untiled_len tile_first tile_len tile_size n_grid grid_dim
      sched =
    Some (sched1, (untiled_len + tile_len + n_grid)%nat,
          (tile_first + tile_len + n_grid)%nat) /\
    parametrize_tiled_schedule (untiled_len + tile_len + n_grid) tile_first n_grid sched1 =
    Some sched2 /\
    forall p s z, mpts sched2 p s z <->
      exists x, mpts sched p s x /\ length x = untiled_len /\
        z = block_image options_wrap tile_first tile_len tile_size n_grid grid_dim x /\
        (forall i, (i < tile_first)%nat -> coord x i = coord p (isl_map_n_param sched + i)) /\
        (forall k, (k < n_grid)%nat ->
           (coord x (tile_first + k) / coord tile_size k) mod coord grid_dim k =
           coord p (isl_map_n_param sched + tile_first + k)).
Proof.
  intros HM HS HR Hr Hg Hlt Hlg Hpt Hpg.
  destruct (tile_schedule_spec mpts options_wrap untiled_len tile_first tile_len tile_size
              n_grid grid_dim sched HM Hr Hg Hlt Hlg Hpt Hpg) as (sched1 & Ht & Hn1 & Hp1).
  destruct (parametrize_tiled_schedule_spec mpts spts (untiled_len + tile_len + n_grid)
              tile_first n_grid sched1 HS HR ltac:(lia)) as (sched2 & Hq & Hp2).
  exists sched1, sched2. split; [done|]. split; [done|].
  assert (Himg : forall x, length x = untiled_len ->
    let z := block_image options_wrap tile_first tile_len tile_size n_grid grid_dim x in
    length z = (untiled_len + tile_len + n_grid)%nat /\
    (forall i, (i < tile_first)%nat -> coord z i = coord x i) /\
    (forall k, (k < n_grid)%nat -> coord z (tile_first + n_grid + k) =
       (coord x (tile_first + k) / coord tile_size k) mod coord grid_dim k)).
  { intros x Hx. unfold block_image.
    assert (Hly : length (tile_image tile_first tile_len tile_size x) =
                  (untiled_len + tile_len)%nat).
    { rewrite (band_image_length false) by lia. lia. }
    split; [rewrite band_image_length by lia; lia|]. split.
    - intros i Hi. rewrite band_image_before by lia.
      rewrite (band_image_before false) by lia. done.
    - intros k Hk. rewrite band_image_rem by lia.
      rewrite tile_image_quot by lia. done. }
  intros p s z. rewrite Hp2, Hp1, Hn1. split.
  - intros ((x & Hx & Hlx & ->) & Hlz & Hh & Hb).
    destruct (Himg x Hlx) as (_ & Hi1 & Hi2).
    exists x. split_and!; try done.
    + intros i Hi. rewrite <- Hi1 by done. by apply Hh.
    + intros k Hk. rewrite <- Hi2 by done. by apply Hb.
  - intros (x & Hx & Hlx & -> & Hh & Hb).
    destruct (Himg x Hlx) as (Hlz & Hi1 & Hi2).
    split; [by exists x|]. split; [done|]. split.
    + intros i Hi. rewrite Hi1 by done. by apply Hh.
    + intros k Hk. rewrite Hi2 by done. by apply Hb.
Qed.

Section block_assignment_witness.
#[local] Existing Instance sym_set_ops.
#[local] Existing Instance sym_map_ops.
#[local] Existing Instance sym_range_ops.

Lemma block_assignment_witness :
  exists sched1 sched2,
    tile_schedule true 3 1 2 [32; 32] 2 [256; 256] (sample_schedule 3) =
    Some (sched1, (3 + 2 + 2)%nat, (1 + 2 + 2)%nat) /\
    parametrize_tiled_schedule (3 + 2 + 2) 1 2 sched1 = Some sched2 /\
    forall p s z, sym_map_pts sched2 p s z <->
      exists x, sym_map_pts (sample_schedule 3) p s x /\ length x = 3%nat /\
        z = block_image true 1 2 [32; 32] 2 [256; 256] x /\
        (forall i, (i < 1)%nat ->
           coord x i = coord p (isl_map_n_param (sample_schedule 3) + i)) /\
        (forall k, (k < 2)%nat ->
           (coord x (1 + k) / coord [32; 32] k) mod coord [256; 256] k =
           coord p (isl_map_n_param (sample_schedule 3) + 1 + k)).
Proof.
  apply (block_assignment sym_map_pts sym_set_pts);
    first [apply sym_map_laws | apply sym_set_laws | apply sym_range_laws
          | simpl; lia | intros [|[|k]] Hk; [by vm_compute..|simpl in Hk; lia] ].
Defined.

End block_assignment_witness.

Lemma coord_scaled f x i :
  (i < length x)%nat -> coord (scaled f x) i = f i * coord x i.
Proof.
  intros Hi. unfold scaled, coord. rewrite list_lookup_imap.
  destruct (lookup_lt_is_Some_2 x i Hi) as [v Hv]. by rewrite Hv.
Qed.

Lemma scale_rel dim (f : nat -> Z) len p x y :
  n_in dim = len -> n_out dim = len ->
  rel (mk_bmap dim 0 (flat_map (scale_equality dim f) (seq 0 len))) p x y <->
  length x = len /\ y = scaled f x.
Proof.
  intros Hi Ho. unfold rel. simpl. rewrite Hi, Ho. split.
  - intros (Hx & Hy & e & He & HF). split; [done|].
    rewrite Forall_flat_map_seq in HF.
    apply list_eq_coord; [unfold scaled; rewrite length_imap; lia|].
    intros i Hlt. specialize (HF i ltac:(lia)).
    unfold scale_equality in HF. rewrite Forall_singleton in HF. revert HF.
    rewrite coord_scaled by lia. eval_simpl. lia.
  - intros (Hx & ->). split; [done|]. split; [unfold scaled; by rewrite length_imap|].
    exists []. split; [done|]. rewrite Forall_flat_map_seq. intros i Hlt.
    unfold scale_equality. apply Forall_singleton. eval_simpl.
    rewrite coord_scaled by lia. lia.
Qed.

Lemma scale_step dim i (fv : Z) (f : nat -> Z) b :
  (i < n_in dim)%nat -> (i < n_out dim)%nat -> fv = f i ->
  (c ← isl_constraint_set_coefficient (isl_equality_alloc dim) isl_dim_in i fv;
   c ← isl_constraint_set_coefficient c isl_dim_out i (-1);
   Some (isl_basic_map_add_constraint b c)) =
  Some (add_constraints b (scale_equality dim f i)).
Proof.
  intros Hi Ho ->. unfold isl_constraint_set_coefficient, isl_equality_alloc. simpl.
  rewrite set_at_Some by len_solve. simpl.
  rewrite set_at_Some by len_solve. done.
Qed.

Lemma band_image_after options_wrap first n sizes x j :
  (first + n <= length x)%nat ->
  coord (band_image options_wrap first n sizes x) (first + 2 * n + j) =
  coord x (first + n + j).
Proof.
  intros Hr. unfold band_image, wrap_image, tile_image. destruct options_wrap.
  - rewrite coord_app_r by (rewrite length_take; lia). rewrite length_take.
    rewrite coord_app_r by (rewrite length_map, length_seq; lia).
    rewrite length_map, length_seq, coord_drop. f_equal. lia.
  - rewrite coord_app_r by (rewrite length_take; lia). rewrite length_take.
    rewrite coord_app_r by (rewrite length_map, length_seq; lia).
    rewrite length_map, length_seq.
    rewrite coord_app_r by (rewrite length_map, length_seq; lia).
    rewrite length_map, length_seq, coord_drop. f_equal. lia.
Qed.

Lemma wrap_image_same first n sizes x k :
  (first + n <= length x)%nat -> (k < n)%nat ->
  coord (wrap_image first n sizes x) (first + k) = coord x (first + k).
Proof.
  intros Hr Hk. unfold wrap_image.
  rewrite coord_app_l by (rewrite length_take; lia). apply coord_take. lia.
Qed.

Lemma scale_tile_loops_spec `{IslOps M} (mpts : M -> list Z -> list Z -> list Z -> Prop)
    (options_wrap : bool) tiled_len tile_first n_grid tile_len tile_size grid_dim sched :
  map_laws mpts ->
  (tile_first + n_grid + tile_len <= tiled_len)%nat ->
  (tile_len <= length tile_size)%nat -> (n_grid <= tile_len)%nat ->
  (n_grid <= length grid_dim)%nat ->
  (options_wrap = false ->
   forall k, (k < n_grid)%nat -> int_range (coord tile_size k * coord grid_dim k)) ->
  exists sched3,
    scale_tile_loops true options_wrap tiled_len tile_first n_grid tile_len tile_size
      grid_dim sched = Some sched3 /\
    forall p s w, mpts sched3 p s w <->
      exists z, mpts sched p s z /\ length z = tiled_len /\
        w = scaled (tile_scale_factor options_wrap tile_first n_grid tile_len
                      tile_size grid_dim) z.
Proof.
  intros (Lapp & Lfbm & _) Hr Hlt Hg Hlg Hint.
  unfold scale_tile_loops, isl_union_map_get_dim. cbn [negb].
  set (dim := isl_dim_add (isl_dim_add _ isl_dim_in tiled_len) isl_dim_out tiled_len).
  rewrite (for_range_add _ _ (scale_equality dim
             (tile_scale_factor options_wrap tile_first n_grid tile_len tile_size grid_dim))).
  2:{ intros i b Hi. cbv beta.
      destruct (decide (tile_first <= i < tile_first + n_grid)%nat) as [H1|H1].
      - destruct (lookup_lt_is_Some_2 tile_size (i - tile_first) ltac:(lia)) as [t Ht].
        destruct (lookup_lt_is_Some_2 grid_dim (i - tile_first) ltac:(lia)) as [g Hgd].
        rewrite Ht. cbn [mbind option_bind].
        destruct options_wrap; cbn [negb mbind option_bind].
        + apply scale_step; [simpl; lia..|].
          unfold tile_scale_factor. rewrite decide_True by done.
          unfold coord. by rewrite Ht.
        + rewrite Hgd. cbn [mbind option_bind].
          specialize (Hint eq_refl (i - tile_first)%nat ltac:(lia)).
          unfold coord in Hint. rewrite Ht, Hgd in Hint. cbn [default] in Hint.
          rewrite decide_True by done. cbn [mbind option_bind].
          apply scale_step; [simpl; lia..|].
          unfold tile_scale_factor. rewrite decide_True by done.
          unfold coord. by rewrite Ht, Hgd.
      - destruct (decide (tile_first + n_grid <= i < tile_first + n_grid + tile_len)%nat)
          as [H2|H2].
        + destruct (lookup_lt_is_Some_2 tile_size (i - (tile_first + n_grid)) ltac:(lia))
            as [t Ht].
          rewrite Ht. cbn [mbind option_bind].
          apply scale_step; [simpl; lia..|].
          unfold tile_scale_factor. rewrite decide_False, decide_True by done.
          unfold coord. by rewrite Ht.
        + cbn [mbind option_bind]. apply scale_step; [simpl; lia..|].
          unfold tile_scale_factor. by rewrite !decide_False by done. }
  cbn [mbind option_bind]. eexists. split; [done|].
  intros p s w. rewrite Lapp. unfold add_constraints, isl_basic_map_universe. simpl.
  split.
  - intros (z & Hz & Hw). apply Lfbm, scale_rel in Hw as [Hlz ->]; [|done..].
    exists z. done.
  - intros (z & Hz & Hlz & ->). exists z. split; [done|].
    apply Lfbm, scale_rel; done.
Qed.

Lemma tile_scale_factor_point (options_wrap : bool) tile_first n_grid tile_len
    tile_size grid_dim k :
  tile_scale_factor options_wrap tile_first n_grid tile_len tile_size grid_dim
    (tile_first + n_grid + tile_len + k) = 1.
Proof. unfold tile_scale_factor. by rewrite !decide_False by lia. Qed.

Lemma tile_scale_factor_inner (options_wrap : bool) tile_first n_grid tile_len
    tile_size grid_dim k :
  (k < tile_len)%nat ->
  tile_scale_factor options_wrap tile_first n_grid tile_len tile_size grid_dim
    (tile_first + n_grid + k) = coord tile_size k.
Proof.
  intros Hk. unfold tile_scale_factor. rewrite decide_False, decide_True by lia.
  f_equal. lia.
Qed.

Lemma tile_scale_factor_outer (options_wrap : bool) tile_first n_grid tile_len
    tile_size grid_dim k :
  (k < n_grid)%nat ->
  tile_scale_factor options_wrap tile_first n_grid tile_len tile_size grid_dim
    (tile_first + k) =
  if options_wrap then coord tile_size k else coord tile_size k * coord grid_dim k.
Proof.
  intros Hk. unfold tile_scale_factor. rewrite decide_True by lia.
  replace (tile_first + k - tile_first)%nat with k by lia. done.
Qed.

Lemma scaled_block_image_sum (options_wrap : bool) untiled_len tile_first tile_len
    tile_size n_grid grid_dim x k :
  (tile_first + tile_len <= untiled_len)%nat -> (n_grid <= tile_len)%nat ->
  (forall k, (k < tile_len)%nat -> 0 < coord tile_size k) ->
  (forall k, (k < n_grid)%nat -> 0 < coord grid_dim k) ->
  length x = untiled_len -> (k < tile_len)%nat ->
  let w := scaled (tile_scale_factor options_wrap tile_first n_grid tile_len
                     tile_size grid_dim)
             (block_image options_wrap tile_first tile_len tile_size n_grid grid_dim x) in
  coord x (tile_first + k) =
    (if decide (k < n_grid)%nat then
       if options_wrap then coord w (tile_first + k)
       else coord w (tile_first + k) + coord w (tile_first + n_grid + k)
     else coord w (tile_first + n_grid + k))
    + coord w (tile_first + n_grid + tile_len + k).
Proof.
  intros Hr Hg Hpt Hpg Hx Hk w. unfold w, block_image.
  set (y := tile_image tile_first tile_len tile_size x).
  assert (Hly : length y = (untiled_len + tile_len)%nat).
  { unfold y. rewrite (band_image_length false) by lia. lia. }
  assert (Hlz : length (band_image options_wrap tile_first n_grid grid_dim y) =
                (untiled_len + tile_len + n_grid)%nat).
  { rewrite band_image_length by lia. lia. }
  assert (Hq : coord y (tile_first + k) = coord x (tile_first + k) / coord tile_size k).
  { unfold y. by rewrite tile_image_quot by lia. }
  assert (Hrem : coord y (tile_first + tile_len + k) =
                 coord x (tile_first + k) mod coord tile_size k).
  { unfold y. by rewrite (band_image_rem false) by lia. }
  pose proof (Z.div_mod (coord x (tile_first + k)) (coord tile_size k)
                ltac:(specialize (Hpt k Hk); lia)) as Ex.
  rewrite !coord_scaled by lia.
  rewrite tile_scale_factor_point.
  replace (tile_first + n_grid + tile_len + k)%nat
    with (tile_first + 2 * n_grid + (tile_len - n_grid + k))%nat by lia.
  rewrite band_image_after by lia.
  replace (tile_first + n_grid + (tile_len - n_grid + k))%nat
    with (tile_first + tile_len + k)%nat by lia.
  rewrite Hrem. case_decide as Hkg.
  - rewrite tile_scale_factor_outer by done.
    rewrite tile_scale_factor_inner by done. destruct options_wrap.
    + unfold band_image. rewrite wrap_image_same by lia. rewrite Hq. lia.
    + rewrite (band_image_rem false) by lia. unfold band_image.
      rewrite tile_image_quot by lia. rewrite Hq.
      pose proof (Z.div_mod (coord x (tile_first + k) / coord tile_size k)
                    (coord grid_dim k) ltac:(specialize (Hpg k Hkg); lia)) as Eq.
      set (q := coord x (tile_first + k) / coord tile_size k) in *.
      set (r := coord x (tile_first + k) mod coord tile_size k) in *.
      rewrite Ex. rewrite Eq at 1. ring.
  - rewrite tile_scale_factor_inner by done.
    replace (tile_first + n_grid + k)%nat
      with (tile_first + 2 * n_grid + (k - n_grid))%nat by lia.
    rewrite band_image_after by lia.
    replace (tile_first + n_grid + (k - n_grid))%nat with (tile_first + k)%nat by lia.
    rewrite Hq. lia.
Qed.

(** X9 (tile_schedule, scale_tile_loops): after [scale_tile_loops] the
    tile loop, the block loop where tiles are not wrapped over the grid,
    and the point loop of a tiled coordinate add up to the coordinate of
    the untiled schedule. *)
Theorem scaled_tile_loops_add_up `{IslOps M}
    (mpts : M -> list Z -> list Z -> list Z -> Prop)
    (options_wrap : bool) untiled_len tile_first tile_len tile_size n_grid grid_dim sched :
  map_laws mpts ->
  (tile_first + tile_len <= untiled_len)%nat -> (n_grid <= tile_len)%nat ->
  (tile_len <= length tile_size)%nat -> (n_grid <= length grid_dim)%nat ->
  (forall k, (k < tile_len)%nat -> 0 < coord tile_size k) ->
  (forall k, (k < n_grid)%nat -> 0 < coord grid_dim k) ->
  (options_wrap = false ->
   forall k, (k < n_grid)%nat -> int_range (coord tile_size k * coord grid_dim k)) ->
  exists sched1 sched3,
    tile_schedule options_wrap untiled_len tile_first tile_len tile_size n_grid grid_dim
      sched =
    Some (sched1, (untiled_len + tile_len + n_grid)%nat,
          (tile_first + tile_len + n_grid)%nat) /\
    scale_tile_loops true options_wrap (untiled_len + tile_len + n_grid) tile_first
      n_grid tile_len tile_size grid_dim sched1 = Some sched3 /\
    forall p s w, mpts sched3 p s w <->
      exists x, mpts sched p s x /\ length x = untiled_len /\
        w = scaled (tile_scale_factor options_wrap tile_first n_grid tile_len
                      tile_size grid_dim)
              (block_image options_wrap tile_first tile_len tile_size n_grid grid_dim x) /\
        forall k, (k < tile_len)%nat ->
          coord x (tile_first + k) =
            (if decide (k < n_grid)%nat then
               if options_wrap then coord w (tile_first + k)
               else coord w (tile_first + k) + coord w (tile_first + n_grid + k)
             else coord w (tile_first + n_grid + k))
            + coord w (tile_first + n_grid + tile_len + k).
Proof.
  intros HM Hr Hg Hlt Hlg Hpt Hpg Hint.
  destruct (tile_schedule_spec mpts options_wrap untiled_len tile_first tile_len tile_size
              n_grid grid_dim sched HM Hr Hg Hlt Hlg Hpt Hpg) as (sched1 & Ht & Hn1 & Hp1).
  destruct (scale_tile_loops_spec mpts options_wrap (untiled_len + tile_len + n_grid)
              tile_first n_grid tile_len tile_size grid_dim sched1 HM ltac:(lia) Hlt Hg
              Hlg Hint) as (sched3 & Hs & Hp3).
  exists sched1, sched3. split; [done|]. split; [done|].
  intros p s w. rewrite Hp3. split.
  - intros (z & Hz & Hlz & ->). apply Hp1 in Hz as (x & Hx & Hlx & ->).
    exists x. split_and!; try done.
    intros k Hk. by apply (scaled_block_image_sum options_wrap untiled_len).
  - intros (x & Hx & Hlx & -> & _). eexists. split; [apply Hp1; by exists x|].
    split; [|done]. unfold block_image.
    rewrite band_image_length by (rewrite (band_image_length false); lia).
    rewrite (band_image_length false) by lia. lia.
Qed.

Section scaled_tile_loops_witness.
#[local] Existing Instance sym_map_ops.

Lemma scaled_tile_loops_add_up_witness :
  exists sched1 sched3,
    tile_schedule false 3 1 2 [32; 32] 2 [256; 256] (sample_schedule 3) =
    Some (sched1, (3 + 2 + 2)%nat, (1 + 2 + 2)%nat) /\
    scale_tile_loops true false (3 + 2 + 2) 1 2 2 [32; 32] [256; 256] sched1 =
    Some sched3 /\
    forall p s w, sym_map_pts sched3 p s w <->
      exists x, sym_map_pts (sample_schedule 3) p s x /\ length x = 3%nat /\
        w = scaled (tile_scale_factor false 1 2 2 [32; 32] [256; 256])
              (block_image false 1 2 [32; 32] 2 [256; 256] x) /\
        forall k, (k < 2)%nat ->
          coord x (1 + k) =
            (if decide (k < 2)%nat then
               if false then coord w (1 + k)
               else coord w (1 + k) + coord w (1 + 2 + k)
             else coord w (1 + 2 + k))
            + coord w (1 + 2 + 2 + k).
Proof.
  apply (scaled_tile_loops_add_up sym_map_pts);
    first [apply sym_map_laws | simpl; lia
          | intros [|[|k]] Hk; [by vm_compute..|simpl in Hk; lia]
          | intros _ [|[|k]] Hk; [by vm_compute..|simpl in Hk; lia] ].
Defined.

End scaled_tile_loops_witness.

Lemma thread_tile_schedule_spec `{IslOps M} `{IslSetOps U} `{!IslRangeOps M U}
    (mpts : M -> list Z -> list Z -> list Z -> Prop) (spts : U -> list Z -> list Z -> Prop)
    (options_wrap : bool) tiled_len shared_len n_block block_dim tile_first tile_len n_grid
    sched :
  map_laws mpts -> set_laws spts -> range_laws mpts spts ->
  shared_len = (tile_first + tile_len + n_grid)%nat ->
  (shared_len + n_block <= tiled_len)%nat -> (n_block <= length block_dim)%nat ->
  (forall k, (k < n_block)%nat -> 0 < coord block_dim k) ->
  exists sched1,
    thread_tile_schedule options_wrap tiled_len shared_len n_block block_dim
      tile_first tile_len n_grid sched =
    Some (sched1, (tiled_len + n_block)%nat, shared_len) /\
    forall p s z, mpts sched1 p s z <->
      exists y, mpts sched p s y /\ length y = tiled_len /\
        z = band_image options_wrap shared_len n_block block_dim y /\
        forall k, (k < n_block)%nat ->
          coord y (shared_len + k) mod coord block_dim k =
          coord p (isl_map_n_param sched + k).
Proof.
  intros (Lapp & Lfbm & _) HS (Lir & _) Hsl Hr Hlb Hpb.
  unfold thread_tile_schedule, isl_union_map_get_dim.
  destruct (band_tiling options_wrap (isl_map_n_param sched) tiled_len shared_len n_block
              block_dim Hr Hlb Hpb) as (bt & Hbt & Hnt & Hrt).
  rewrite Hbt. cbn [mbind option_bind].
  destruct (parametrization_spec spts (isl_map_n_param sched) (tiled_len + n_block)
              (tile_first + tile_len + n_grid + n_block) n_block HS)
    as (par & Hp & Hd & Hs); [lia|].
  rewrite Hp. cbn [mbind option_bind]. rewrite <- Hsl. eexists. split; [done|].
  intros p s z. rewrite Lir, Lapp, Hs. rewrite <- Hsl. split.
  - intros ((y & Hy & Hz) & Hlz & Hc). apply Lfbm, Hrt in Hz as [Hly ->].
    exists y. split_and!; try done. intros k Hk.
    rewrite <- (band_image_rem options_wrap shared_len n_block block_dim y k) by lia.
    by apply Hc.
  - intros (y & Hy & Hly & -> & Hc). split_and!.
    + exists y. split; [done|]. apply Lfbm, Hrt. done.
    + rewrite band_image_length by lia. lia.
    + intros k Hk. rewrite band_image_rem by lia. by apply Hc.
Qed.

(** X10 (thread_tile_schedule): the thread-tiled schedule relates a
    statement instance to the tiling of its schedule point [y] over the
    thread block; at parameter values [p] it holds the instances whose
    coordinates in the thread band, taken modulo the block sizes, are the
    thread identifiers [t]: the instance is executed by thread
    [y mod block_dim]. *)
Theorem thread_assignment `{IslOps M} `{IslSetOps U} `{!IslRangeOps M U}
    (mpts : M -> list Z -> list Z -> list Z -> Prop) (spts : U -> list Z -> list Z -> Prop)
    (options_wrap : bool) tiled_len shared_len n_block block_dim tile_first tile_len n_grid
    sched :
  map_laws mpts -> set_laws spts -> range_laws mpts spts ->
  shared_len = (tile_first + tile_len + n_grid)%nat ->
  (shared_len + n_block <= tiled_len)%nat -> (n_block <= length block_dim)%nat ->
  (forall k, (k < n_block)%nat -> 0 < coord block_dim k) ->
  exists sched1,
    thread_tile_schedule options_wrap tiled_len shared_len n_block block_dim
      tile_first tile_len n_grid sched =
    Some (sched1, (tiled_len + n_block)%nat, shared_len) /\
    forall p s z, mpts sched1 p s z <->
      exists y, mpts sched p s y /\ length y = tiled_len /\
        z = band_image options_wrap shared_len n_block block_dim y /\
        forall k, (k < n_block)%nat ->
          coord y (shared_len + k) mod coord block_dim k =
          coord p (isl_map_n_param sched + k).
Proof. apply thread_tile_schedule_spec. Qed.

Section thread_assignment_witness.
#[local] Existing Instance sym_set_ops.
#[local] Existing Instance sym_map_ops.
#[local] Existing Instance sym_range_ops.

Lemma thread_assignment_witness :
  exists sched1,
    thread_tile_schedule true 7 5 2 [16; 32] 1 2 2 (sample_schedule 7) =
    Some (sched1, (7 + 2)%nat, 5%nat) /\
    forall p s z, sym_map_pts sched1 p s z <->
      exists y, sym_map_pts (sample_schedule 7) p s y /\ length y = 7%nat /\
        z = band_image true 5 2 [16; 32] y /\
        forall k, (k < 2)%nat ->
          coord y (5 + k) mod coord [16; 32] k =
          coord p (isl_map_n_param (sample_schedule 7) + k).
Proof.
  apply (thread_assignment sym_map_pts sym_set_pts);
    first [apply sym_map_laws | apply sym_set_laws | apply sym_range_laws
          | reflexivity | simpl; lia
          | intros [|[|k]] Hk; [by vm_compute..|simpl in Hk; lia] ].
Defined.

End thread_assignment_witness.

Lemma block_scale_loop dim len first n block_dim :
  n_in dim = len -> n_out dim = len ->
  (first + n <= len)%nat -> (n <= length block_dim)%nat ->
  for_range len (fun i scale =>
      f ← (if decide (first <= i < first + n)%nat
           then block_dim !! (i - first)%nat else Some 1);
      c ← isl_constraint_set_coefficient (isl_equality_alloc dim) isl_dim_in i f;
      c ← isl_constraint_set_coefficient c isl_dim_out i (-1);
      Some (isl_basic_map_add_constraint scale c)) (Some (isl_basic_map_universe dim)) =
  Some (mk_bmap dim 0
          (flat_map (scale_equality dim (block_scale_factor first n block_dim))
             (seq 0 len))).
Proof.
  intros Hi Ho Hr Hl.
  rewrite (for_range_add _ _ (scale_equality dim (block_scale_factor first n block_dim))).
  - done.
  - intros i b Hlt. cbv beta. unfold block_scale_factor.
    destruct (decide (first <= i < first + n)%nat) as [H1|H1].
    + destruct (lookup_lt_is_Some_2 block_dim (i - first) ltac:(lia)) as [v Hv].
      rewrite Hv. cbn [mbind option_bind]. apply scale_step; [lia..|].
      rewrite decide_True by done. unfold coord. by rewrite Hv.
    + cbn [mbind option_bind]. apply scale_step; [lia..|].
      by rewrite decide_False by done.
Qed.

Lemma scale_thread_tile_loops_spec `{IslOps M}
    (mpts : M -> list Z -> list Z -> list Z -> Prop)
    thread_tiled_len shared_len n_block block_dim sched :
  map_laws mpts ->
  (shared_len + n_block <= thread_tiled_len)%nat -> (n_block <= length block_dim)%nat ->
  exists sched2,
    scale_thread_tile_loops true false thread_tiled_len shared_len n_block block_dim
      sched = Some sched2 /\
    forall p s w, mpts sched2 p s w <->
      exists z, mpts sched p s z /\ length z = thread_tiled_len /\
        w = scaled (block_scale_factor shared_len n_block block_dim) z.
Proof.
  intros (Lapp & Lfbm & _) Hr Hl.
  unfold scale_thread_tile_loops, isl_union_map_get_dim. cbn [negb].
  rewrite block_scale_loop by (simpl; lia). cbn [mbind option_bind].
  eexists. split; [done|]. intros p s w. rewrite Lapp. split.
  - intros (z & Hz & Hw). apply Lfbm, scale_rel in Hw as [Hlz ->]; [|done..].
    exists z. done.
  - intros (z & Hz & Hlz & ->). exists z. split; [done|].
    apply Lfbm, scale_rel; done.
Qed.

(** X11 (thread_tile_schedule, scale_thread_tile_loops): where iterations
    are tiled (not wrapped) over the threads and the tile loops are scaled,
    the thread tile loop and the thread identifier of a coordinate add up
    to the coordinate before tiling. *)
Theorem scaled_thread_loops_add_up `{IslOps M} `{IslSetOps U} `{!IslRangeOps M U}
    (mpts : M -> list Z -> list Z -> list Z -> Prop) (spts : U -> list Z -> list Z -> Prop)
    tiled_len shared_len n_block block_dim tile_first tile_len n_grid sched :
  map_laws mpts -> set_laws spts -> range_laws mpts spts ->
  shared_len = (tile_first + tile_len + n_grid)%nat ->
  (shared_len + n_block <= tiled_len)%nat -> (n_block <= length block_dim)%nat ->
  (forall k, (k < n_block)%nat -> 0 < coord block_dim k) ->
  exists sched1 sched2,
    thread_tile_schedule false tiled_len shared_len n_block block_dim
      tile_first tile_len n_grid sched =
    Some (sched1, (tiled_len + n_block)%nat, shared_len) /\
    scale_thread_tile_loops true false (tiled_len + n_block) shared_len n_block
      block_dim sched1 = Some sched2 /\
    forall p s w, mpts sched2 p s w <->
      exists y, mpts sched p s y /\ length y = tiled_len /\
        w = scaled (block_scale_factor shared_len n_block block_dim)
              (tile_image shared_len n_block block_dim y) /\
        forall k, (k < n_block)%nat ->
          coord w (shared_len + n_block + k) = coord p (isl_map_n_param sched + k) /\
          coord w (shared_len + k) + coord w (shared_len + n_block + k) =
          coord y (shared_len + k).
Proof.
  intros HM HS HR Hsl Hr Hlb Hpb.
  destruct (thread_tile_schedule_spec mpts spts false tiled_len shared_len n_block
              block_dim tile_first tile_len n_grid sched HM HS HR Hsl Hr Hlb Hpb)
    as (sched1 & Ht & Hp1).
  destruct (scale_thread_tile_loops_spec mpts (tiled_len + n_block) shared_len n_block
              block_dim sched1 HM ltac:(lia) Hlb) as (sched2 & Hs & Hp2).
  exists sched1, sched2. split; [done|]. split; [done|].
  assert (Hw : forall y k, length y = tiled_len -> (k < n_block)%nat ->
    let w := scaled (block_scale_factor shared_len n_block block_dim)
               (tile_image shared_len n_block block_dim y) in
    coord w (shared_len + n_block + k) = coord y (shared_len + k) mod coord block_dim k /\
    coord w (shared_len + k) + coord w (shared_len + n_block + k) =
    coord y (shared_len + k)).
  { intros y k Hly Hk w. unfold w.
    assert (Hlz : length (tile_image shared_len n_block block_dim y) =
                  (tiled_len + n_block)%nat).
    { rewrite (band_image_length false) by lia. lia. }
    rewrite !coord_scaled by lia. unfold block_scale_factor.
    rewrite decide_False, decide_True by lia.
    replace (shared_len + k - shared_len)%nat with k by lia.
    rewrite (band_image_rem false) by lia. rewrite tile_image_quot by lia.
    pose proof (Z.div_mod (coord y (shared_len + k)) (coord block_dim k)
                  ltac:(specialize (Hpb k Hk); lia)). lia. }
  assert (Hbi : forall y, band_image false shared_len n_block block_dim y =
                          tile_image shared_len n_block block_dim y) by done.
  intros p s w. rewrite Hp2. split.
  - intros (z & Hz & Hlz & ->). apply Hp1 in Hz as (y & Hy & Hly & -> & Hc).
    rewrite Hbi. exists y. split_and!; try done. intros k Hk.
    destruct (Hw y k Hly Hk) as [H1 H2]. split; [|done].
    rewrite H1. by apply Hc.
  - intros (y & Hy & Hly & -> & Hc). eexists. split.
    + apply Hp1. exists y. split_and!; try done. intros k Hk.
      destruct (Hw y k Hly Hk) as [H1 _]. destruct (Hc k Hk) as [H2 _].
      rewrite <- H1. exact H2.
    + split; [|done].
      rewrite (band_image_length false) by lia. lia.
Qed.

Section scaled_thread_loops_witness.
#[local] Existing Instance sym_set_ops.
#[local] Existing Instance sym_map_ops.
#[local] Existing Instance sym_range_ops.

Lemma scaled_thread_loops_add_up_witness :
  exists sched1 sched2,
    thread_tile_schedule false 7 5 2 [16; 32] 1 2 2 (sample_schedule 7) =
    Some (sched1, (7 + 2)%nat, 5%nat) /\
    scale_thread_tile_loops true false (7 + 2) 5 2 [16; 32] sched1 = Some sched2 /\
    forall p s w, sym_map_pts sched2 p s w <->
      exists y, sym_map_pts (sample_schedule 7) p s y /\ length y = 7%nat /\
        w = scaled (block_scale_factor 5 2 [16; 32]) (tile_image 5 2 [16; 32] y) /\
        forall k, (k < 2)%nat ->
          coord w (5 + 2 + k) = coord p (isl_map_n_param (sample_schedule 7) + k) /\
          coord w (5 + k) + coord w (5 + 2 + k) = coord y (5 + k).
Proof.
  apply (scaled_thread_loops_add_up sym_map_pts sym_set_pts);
    first [apply sym_map_laws | apply sym_set_laws | apply sym_range_laws
          | reflexivity | simpl; lia
          | intros [|[|k]] Hk; [by vm_compute..|simpl in Hk; lia] ].
Defined.

End scaled_thread_loops_witness.

Lemma scale_access_tile_loops_spec `{IslOps M}
    (mpts : M -> list Z -> list Z -> list Z -> Prop)
    (options_scale_tile_loops options_wrap : bool) block_dim sched len first n_tile :
  map_laws mpts ->
  (first + n_tile <= len)%nat -> (n_tile <= length block_dim)%nat ->
  exists sched1,
    scale_access_tile_loops options_scale_tile_loops options_wrap block_dim sched
      len first n_tile = Some sched1 /\
    forall p s w, mpts sched1 p s w <->
      if options_wrap || negb options_scale_tile_loops then mpts sched p s w
      else exists z, mpts sched p s z /\ length z = len /\
             w = scaled (block_scale_factor first n_tile block_dim) z /\
             forall i, (i < len)%nat ->
               coord w i = if decide (first <= i < first + n_tile)%nat
                           then coord block_dim (i - first) * coord z i else coord z i.
Proof.
  intros (Lapp & Lfbm & _) Hr Hl. unfold scale_access_tile_loops.
  destruct options_wrap; [by exists sched|].
  destruct options_scale_tile_loops; [|by exists sched]. cbn [negb orb].
  unfold isl_union_map_get_dim.
  rewrite block_scale_loop by (simpl; lia). cbn [mbind option_bind].
  eexists. split; [done|]. intros p s w. rewrite Lapp.
  assert (Hc : forall z i, length z = len -> (i < len)%nat ->
            coord (scaled (block_scale_factor first n_tile block_dim) z) i =
            if decide (first <= i < first + n_tile)%nat
            then coord block_dim (i - first) * coord z i else coord z i).
  { intros z i Hlz Hi. rewrite coord_scaled by lia. unfold block_scale_factor.
    case_decide; lia. }
  split.
  - intros (z & Hz & Hw). apply Lfbm, scale_rel in Hw as [Hlz ->]; [|done..].
    exists z. split_and!; try done. intros i Hi. by apply Hc.
  - intros (z & Hz & Hlz & -> & _). exists z. split; [done|].
    apply Lfbm, scale_rel; done.
Qed.

(** X12 (scale_access_tile_loops): the schedule is returned as it is when
    wrapping is on or scaling is off; otherwise the [n_tile] coordinates
    from [first] are multiplied by the block sizes and the others are
    kept. *)
Theorem scale_access_tile_loops_scales `{IslOps M}
    (mpts : M -> list Z -> list Z -> list Z -> Prop)
    (options_scale_tile_loops options_wrap : bool) block_dim sched len first n_tile :
  map_laws mpts ->
  (first + n_tile <= len)%nat -> (n_tile <= length block_dim)%nat ->
  exists sched1,
    scale_access_tile_loops options_scale_tile_loops options_wrap block_dim sched
      len first n_tile = Some sched1 /\
    forall p s w, mpts sched1 p s w <->
      if options_wrap || negb options_scale_tile_loops then mpts sched p s w
      else exists z, mpts sched p s z /\ length z = len /\
             w = scaled (block_scale_factor first n_tile block_dim) z /\
             forall i, (i < len)%nat ->
               coord w i = if decide (first <= i < first + n_tile)%nat
                           then coord block_dim (i - first) * coord z i else coord z i.
Proof. apply scale_access_tile_loops_spec. Qed.

Section scale_access_witness.
#[local] Existing Instance sym_map_ops.

Lemma scale_access_tile_loops_scales_witness :
  exists sched1,
    scale_access_tile_loops true false [16; 32] (sample_schedule 4) 4 2 2 = Some sched1 /\
    forall p s w, sym_map_pts sched1 p s w <->
      if false || negb true then sym_map_pts (sample_schedule 4) p s w
      else exists z, sym_map_pts (sample_schedule 4) p s z /\ length z = 4%nat /\
             w = scaled (block_scale_factor 2 2 [16; 32]) z /\
             forall i, (i < 4)%nat ->
               coord w i = if decide (2 <= i < 2 + 2)%nat
                           then coord [16; 32] (i - 2) * coord z i else coord z i.
Proof.
  apply (scale_access_tile_loops_scales sym_map_pts);
    first [apply sym_map_laws | simpl; lia].
Defined.

End scale_access_witness.

(** ** Interchange for unrolling *)

Lemma permutation_constraints n_par pos len :
  (forall i, (i < len)%nat -> exists q, pos !! i = Some q /\ (q < len)%nat) ->
  permutation (mk_dim n_par 0 0) pos len =
  Some (mk_bmap (mk_dim n_par len len) 0
          (flat_map (permutation_equality (mk_dim n_par len len) pos) (seq 0 len))).
Proof.
  intros Hpos. unfold permutation. simpl.
  rewrite (for_range_add _ _ (permutation_equality (mk_dim n_par len len) pos)).
  - done.
  - intros i b Hi. destruct (Hpos i Hi) as (q & Hq & Hlt).
    unfold isl_constraint_set_coefficient, isl_equality_alloc. simpl.
    rewrite set_at_Some by len_solve. simpl. rewrite Hq. simpl.
    rewrite set_at_Some by len_solve. simpl.
    unfold permutation_equality. rewrite Hq. done.
Qed.

Lemma permutation_rel n_par pos len p x y :
  (forall i, (i < len)%nat -> exists q, pos !! i = Some q /\ (q < len)%nat) ->
  rel (mk_bmap (mk_dim n_par len len) 0
         (flat_map (permutation_equality (mk_dim n_par len len) pos) (seq 0 len))) p x y <->
  length x = len /\ length y = len /\
  forall i q, pos !! i = Some q -> (i < len)%nat -> coord y q = coord x i.
Proof.
  intros Hpos. unfold rel. simpl. split.
  - intros (Hx & Hy & e & He & HF). split; [done|]. split; [done|].
    rewrite Forall_flat_map_seq in HF. intros i q Hq Hi. specialize (HF i Hi).
    destruct (Hpos i Hi) as (q' & Hq' & Hlt). assert (q' = q) as -> by congruence.
    unfold permutation_equality in HF. rewrite Hq in HF. simpl in HF.
    rewrite Forall_singleton in HF. revert HF. eval_simpl. lia.
  - intros (Hx & Hy & Hc). split; [done|]. split; [done|]. exists []. split; [done|].
    rewrite Forall_flat_map_seq. intros i Hi.
    destruct (Hpos i Hi) as (q & Hq & Hlt).
    unfold permutation_equality. rewrite Hq. simpl.
    apply Forall_singleton. eval_simpl. rewrite (Hc i q Hq Hi). lia.
Qed.

Lemma assignment_exists (n : nat) (kvs : list (nat * Z)) :
  NoDup (kvs.*1) -> (forall k v, (k, v) ∈ kvs -> (k < n)%nat) ->
  exists y : list Z, length y = n /\ forall k v, (k, v) ∈ kvs -> coord y k = v.
Proof.
  induction kvs as [|[k v] kvs IH]; intros Hnd Hb.
  - exists (zeros n). split; [apply length_zeros|]. intros k v Hin. by apply elem_of_nil in Hin.
  - simpl in Hnd. apply NoDup_cons in Hnd as [Hk Hnd].
    destruct (IH Hnd) as (y & Hly & Hy).
    { intros k' v' Hin. apply (Hb k' v'). by apply elem_of_cons; right. }
    exists (<[k := v]> y). split; [by rewrite length_insert|].
    intros k' v' Hin. apply elem_of_cons in Hin as [[= -> ->]|Hin].
    + apply coord_insert_eq. rewrite Hly. apply (Hb k v). by apply elem_of_cons; left.
    + rewrite coord_insert_ne; [by apply Hy|].
      intros ->. apply Hk. apply list_elem_of_fmap. by exists (k', v').
Qed.

Lemma permutation_lookup (pos : list nat) len :
  pos ≡ₚ seq 0 len ->
  length pos = len /\ NoDup pos /\
  (forall i, (i < len)%nat -> exists q, pos !! i = Some q /\ (q < len)%nat) /\
  (forall q, (q < len)%nat -> exists i, pos !! i = Some q /\ (i < len)%nat).
Proof.
  intros Hp. assert (Hl : length pos = len) by (by rewrite Hp, length_seq).
  split; [done|]. split; [rewrite Hp; apply NoDup_seq|]. split.
  - intros i Hi. destruct (lookup_lt_is_Some_2 pos i ltac:(lia)) as [q Hq].
    exists q. split; [done|]. apply list_elem_of_lookup_2 in Hq. rewrite Hp in Hq.
    apply elem_of_seq in Hq. lia.
  - intros q Hq. assert (Hin : q ∈ pos) by (rewrite Hp; apply elem_of_seq; lia).
    apply list_elem_of_lookup_1 in Hin as [i Hi]. exists i. split; [done|].
    apply lookup_lt_Some in Hi. lia.
Qed.

(** X13 (permutation): for an array [pos] that lists the positions
    [0 .. len - 1] in some order, [permutation] builds a one-to-one
    correspondence of the tuples of dimension [len]: [y] has at position
    [pos[i]] the coordinate [i] of [x]. *)
Theorem permutation_bijective n_par (pos : list nat) len :
  pos ≡ₚ seq 0 len ->
  exists b, permutation (mk_dim n_par 0 0) pos len = Some b /\
    (forall p x y, rel b p x y <->
       length x = len /\ length y = len /\
       forall i q, pos !! i = Some q -> coord y q = coord x i) /\
    (forall p x, length x = len -> exists y, rel b p x y) /\
    (forall p y, length y = len -> exists x, rel b p x y) /\
    (forall p x y y', rel b p x y -> rel b p x y' -> y = y') /\
    (forall p x x' y, rel b p x y -> rel b p x' y -> x = x').
Proof.
  intros Hp. destruct (permutation_lookup pos len Hp) as (Hl & Hnd & Hfw & Hbw).
  eexists. split; [by apply permutation_constraints|].
  assert (Hrel : forall p x y,
    rel (mk_bmap (mk_dim n_par len len) 0
           (flat_map (permutation_equality (mk_dim n_par len len) pos) (seq 0 len))) p x y <->
    length x = len /\ length y = len /\
    forall i q, pos !! i = Some q -> coord y q = coord x i).
  { intros p x y. rewrite permutation_rel by done. split.
    - intros (Hx & Hy & Hc). split; [done|]. split; [done|]. intros i q Hq.
      apply Hc; [done|]. apply lookup_lt_Some in Hq. lia.
    - intros (Hx & Hy & Hc). split; [done|]. split; [done|]. intros i q Hq _.
      by apply Hc. }
  split; [exact Hrel|]. split_and!.
  - intros p x Hx.
    destruct (assignment_exists len (zip pos x)) as (y & Hly & Hy).
    { rewrite fst_zip by lia. done. }
    { intros k v Hin. apply list_elem_of_lookup_1 in Hin as [i Hi].
      apply lookup_zip_with_Some in Hi as (q & u & [= -> ->] & Hq & _).
      destruct (Hfw i) as (q' & Hq' & Hlt); [apply lookup_lt_Some in Hq; lia|].
      congruence. }
    exists y. apply Hrel. split; [done|]. split; [done|]. intros i q Hq.
    destruct (lookup_lt_is_Some_2 x i) as [u Hu]; [apply lookup_lt_Some in Hq; lia|].
    unfold coord at 2. rewrite Hu. simpl. apply Hy.
    apply list_elem_of_lookup_2 with i. apply lookup_zip_with_Some. by exists q, u.
  - intros p y Hy. exists (map (fun i => coord y (default 0%nat (pos !! i))) (seq 0 len)).
    apply Hrel. split; [by rewrite length_map, length_seq|]. split; [done|].
    intros i q Hq. rewrite coord_map_seq by (apply lookup_lt_Some in Hq; lia).
    by rewrite Hq.
  - intros p x y y' (Hx & Hy & Hc)%Hrel (_ & Hy' & Hc')%Hrel.
    apply list_eq_coord; [lia|]. intros q Hq.
    destruct (Hbw q ltac:(lia)) as (i & Hi & _). by rewrite (Hc i q Hi), (Hc' i q Hi).
  - intros p x x' y (Hx & Hy & Hc)%Hrel (Hx' & _ & Hc')%Hrel.
    apply list_eq_coord; [lia|]. intros i Hi.
    destruct (Hfw i ltac:(lia)) as (q & Hq & _). by rewrite <- (Hc i q Hq), <- (Hc' i q Hq).
Qed.

Lemma permutation_bijective_witness :
  exists b, permutation (mk_dim 0 0 0) [2; 0; 1]%nat 3 = Some b /\
    (forall p x y, rel b p x y <->
       length x = 3%nat /\ length y = 3%nat /\
       forall i q, [2; 0; 1]%nat !! i = Some q -> coord y q = coord x i) /\
    (forall p x, length x = 3%nat -> exists y, rel b p x y) /\
    (forall p y, length y = 3%nat -> exists x, rel b p x y) /\
    (forall p x y y', rel b p x y -> rel b p x y' -> y = y') /\
    (forall p x x' y, rel b p x y -> rel b p x' y -> x = x').
Proof.
  apply permutation_bijective. simpl.
  apply (Permutation_cons_append [0; 1]%nat 2%nat).
Defined.

Lemma unroll_set_from_spec unroll from n :
  (from + n <= length unroll)%nat ->
  exists b, unroll_set_from unroll from n = Some b /\
    (b = true <-> exists i, (from <= i < from + n)%nat /\ coord unroll i <> 0).
Proof.
  revert from. induction n as [|n IH]; intros from Hl.
  - exists false. split; [done|]. split; [done|]. intros (i & Hi & _). lia.
  - simpl. destruct (lookup_lt_is_Some_2 unroll from ltac:(lia)) as [v Hv].
    rewrite Hv. simpl. destruct (decide (v <> 0)) as [Hn|Hz].
    + exists true. split; [done|]. split; [|done]. intros _. exists from.
      split; [lia|]. unfold coord. by rewrite Hv.
    + destruct (IH (S from) ltac:(lia)) as (b & Hb & Hiff). exists b. split; [done|].
      rewrite Hiff. split.
      * intros (i & Hi & Hc). exists i. split; [lia|done].
      * intros (i & Hi & Hc). exists i. split; [|done].
        destruct (decide (i = from)) as [->|]; [|lia].
        unfold coord in Hc. rewrite Hv in Hc. simpl in Hc. done.
Qed.

Lemma unroll_set_spec unroll from to :
  (from <= to)%nat -> (to <= length unroll)%nat ->
  exists b, unroll_set unroll from to = Some b /\
    (b = true <-> exists i, (from <= i < to)%nat /\ coord unroll i <> 0).
Proof.
  intros Hft Hl. unfold unroll_set.
  destruct (unroll_set_from_spec unroll from (to - from) ltac:(lia)) as (b & Hb & Hiff).
  exists b. split; [done|]. rewrite Hiff. split; intros (i & Hi & Hc); exists i; (split; [lia|done]).
Qed.

Lemma count_clear_S unroll i :
  (i < length unroll)%nat ->
  count_clear unroll (S i) =
  (count_clear unroll i + if decide (coord unroll i = 0%Z) then 1 else 0)%nat.
Proof.
  intros Hi. unfold count_clear, coord.
  destruct (lookup_lt_is_Some_2 unroll i Hi) as [v Hv].
  rewrite (take_S_r _ _ _ Hv), filter_app, length_app, Hv. simpl. f_equal.
  rewrite filter_cons. simpl. by repeat case_decide.
Qed.

Lemma count_set_S unroll i :
  (i < length unroll)%nat ->
  count_set unroll (S i) =
  (count_set unroll i + if decide (coord unroll i = 0%Z) then 0 else 1)%nat.
Proof.
  intros Hi. unfold count_set, coord.
  destruct (lookup_lt_is_Some_2 unroll i Hi) as [v Hv].
  rewrite (take_S_r _ _ _ Hv), filter_app, length_app, Hv. simpl. f_equal.
  rewrite filter_cons. simpl. by repeat case_decide.
Qed.

Lemma count_clear_mono unroll i j :
  (i <= j)%nat -> (j <= length unroll)%nat ->
  (count_clear unroll i <= count_clear unroll j)%nat.
Proof.
  intros Hij Hj. induction j as [|j IH]; [by replace i with 0%nat by lia|].
  destruct (decide (i = S j)) as [->|]; [done|].
  rewrite count_clear_S by lia. specialize (IH ltac:(lia) ltac:(lia)). lia.
Qed.

Lemma count_set_mono unroll i j :
  (i <= j)%nat -> (j <= length unroll)%nat ->
  (count_set unroll i <= count_set unroll j)%nat.
Proof.
  intros Hij Hj. induction j as [|j IH]; [by replace i with 0%nat by lia|].
  destruct (decide (i = S j)) as [->|]; [done|].
  rewrite count_set_S by lia. specialize (IH ltac:(lia) ltac:(lia)). lia.
Qed.

Lemma count_clear_set unroll i :
  (i <= length unroll)%nat -> (count_clear unroll i + count_set unroll i = i)%nat.
Proof.
  intros Hi. induction i as [|i IH]; [done|].
  rewrite count_clear_S, count_set_S by lia. specialize (IH ltac:(lia)).
  case_decide; lia.
Qed.

Lemma unroll_position_order unroll i j :
  (i < length unroll)%nat -> (j < length unroll)%nat ->
  (coord unroll i = 0 -> coord unroll j <> 0 ->
   (unroll_position unroll i < unroll_position unroll j)%nat) /\
  ((i < j)%nat -> (coord unroll i = 0 <-> coord unroll j = 0) ->
   (unroll_position unroll i < unroll_position unroll j)%nat).
Proof.
  intros Hi Hj. unfold unroll_position. split.
  - intros Hzi Hnj. rewrite decide_True, decide_False by done.
    pose proof (count_clear_S unroll i Hi) as HS. rewrite decide_True in HS by done.
    pose proof (count_clear_mono unroll (S i) (length unroll) ltac:(lia) ltac:(lia)). lia.
  - intros Hij Hsame. destruct (decide (coord unroll i = 0)) as [Hzi|Hni].
    + rewrite decide_True by tauto.
      pose proof (count_clear_S unroll i Hi) as HS. rewrite decide_True in HS by done.
      pose proof (count_clear_mono unroll (S i) j ltac:(lia) ltac:(lia)). lia.
    + rewrite decide_False by tauto.
      pose proof (count_set_S unroll i Hi) as HS. rewrite decide_False in HS by done.
      pose proof (count_set_mono unroll (S i) j ltac:(lia) ltac:(lia)). lia.
Qed.

Lemma unroll_position_lt unroll i :
  (i < length unroll)%nat -> (unroll_position unroll i < length unroll)%nat.
Proof.
  intros Hi. unfold unroll_position.
  pose proof (count_clear_set unroll (length unroll) ltac:(lia)).
  case_decide as Hz.
  - pose proof (count_clear_S unroll i Hi) as HS. rewrite decide_True in HS by done.
    pose proof (count_clear_mono unroll (S i) (length unroll) ltac:(lia) ltac:(lia)). lia.
  - pose proof (count_set_S unroll i Hi) as HS. rewrite decide_False in HS by done.
    pose proof (count_set_mono unroll (S i) (length unroll) ltac:(lia) ltac:(lia)). lia.
Qed.

Lemma unroll_position_permutation unroll :
  map (unroll_position unroll) (seq 0 (length unroll)) ≡ₚ seq 0 (length unroll).
Proof.
  apply submseteq_length_Permutation; [|by rewrite length_map].
  apply NoDup_submseteq.
  - apply (NoDup_fmap_2_strong (unroll_position unroll)); [|apply NoDup_seq].
    intros i j Hi%elem_of_seq Hj%elem_of_seq Heq.
    destruct (decide (i = j)) as [|Hne]; [done|exfalso].
    destruct (unroll_position_order unroll i j ltac:(lia) ltac:(lia)) as [H1 H2].
    destruct (unroll_position_order unroll j i ltac:(lia) ltac:(lia)) as [H3 H4].
    destruct (decide (coord unroll i = 0)), (decide (coord unroll j = 0)).
    + destruct (decide (i < j)%nat); [specialize (H2 ltac:(lia) ltac:(tauto))
                                       |specialize (H4 ltac:(lia) ltac:(tauto))]; lia.
    + specialize (H1 ltac:(done) ltac:(done)). lia.
    + specialize (H3 ltac:(done) ltac:(done)). lia.
    + destruct (decide (i < j)%nat); [specialize (H2 ltac:(lia) ltac:(tauto))
                                       |specialize (H4 ltac:(lia) ltac:(tauto))]; lia.
  - intros q (i & -> & Hi%elem_of_seq)%list_elem_of_fmap. apply elem_of_seq.
    pose proof (unroll_position_lt unroll i ltac:(lia)). lia.
Qed.

Lemma store_at_Some {A} (l : list A) pos v :
  (pos < length l)%nat -> store_at l pos v = Some (<[pos := v]> l).
Proof. intros. unfold store_at. by rewrite decide_True. Qed.

Lemma unroll_clear_loop unroll (perm0 : list nat) k :
  length perm0 = length unroll -> (k <= length unroll)%nat ->
  exists perm,
    for_range k (fun i '(perm, j) =>
        v ← unroll !! i;
        if decide (v = 0) then perm ← store_at perm i j; Some (perm, S j)
        else Some (perm, j)) (Some (perm0, 0%nat)) =
    Some (perm, count_clear unroll k) /\
    length perm = length unroll /\
    forall i, perm !! i =
      if decide ((i < k)%nat /\ coord unroll i = 0)
      then Some (count_clear unroll i) else perm0 !! i.
Proof.
  intros Hl. induction k as [|k IH]; intros Hk.
  - exists perm0. split; [done|]. split; [done|]. intros i.
    rewrite decide_False by lia. done.
  - destruct IH as (perm & Hf & Hlp & Hp); [lia|].
    rewrite for_range_S, Hf. cbn [mbind option_bind].
    destruct (lookup_lt_is_Some_2 unroll k ltac:(lia)) as [v Hv].
    rewrite Hv. cbn [mbind option_bind].
    assert (Hcv : coord unroll k = v) by (unfold coord; by rewrite Hv).
    rewrite count_clear_S by lia. rewrite Hcv.
    destruct (decide (v = 0)) as [->|Hn].
    + rewrite store_at_Some by lia. cbn [mbind option_bind].
      eexists. split; [by rewrite Nat.add_1_r|]. split; [by rewrite length_insert|].
      intros i. destruct (decide (i = k)) as [->|Hik].
      * rewrite list_lookup_insert_eq by lia. rewrite decide_True; [done|].
        split; [lia|]. unfold coord. by rewrite Hv.
      * rewrite list_lookup_insert_ne by done. rewrite Hp.
        repeat case_decide; try done; lia.
    + exists perm. split; [by rewrite Nat.add_0_r|]. split; [done|].
      intros i. rewrite Hp. destruct (decide (i = k)) as [->|Hik].
      * rewrite !decide_False; [done| |lia].
        intros [_ Hc]. unfold coord in Hc. by rewrite Hv in Hc.
      * repeat case_decide; try done; lia.
Qed.

Lemma unroll_set_loop unroll (perm0 : list nat) n0 k :
  length perm0 = length unroll -> (k <= length unroll)%nat ->
  exists perm,
    for_range k (fun i '(perm, j) =>
        v ← unroll !! i;
        if decide (v <> 0) then perm ← store_at perm i j; Some (perm, S j)
        else Some (perm, j)) (Some (perm0, n0)) =
    Some (perm, (n0 + count_set unroll k)%nat) /\
    length perm = length unroll /\
    forall i, perm !! i =
      if decide ((i < k)%nat /\ coord unroll i <> 0)
      then Some (n0 + count_set unroll i)%nat else perm0 !! i.
Proof.
  intros Hl. induction k as [|k IH]; intros Hk.
  - exists perm0. split; [by rewrite Nat.add_0_r|]. split; [done|]. intros i.
    rewrite decide_False by lia. done.
  - destruct IH as (perm & Hf & Hlp & Hp); [lia|].
    rewrite for_range_S, Hf. cbn [mbind option_bind].
    destruct (lookup_lt_is_Some_2 unroll k ltac:(lia)) as [v Hv].
    rewrite Hv. cbn [mbind option_bind].
    assert (Hcv : coord unroll k = v) by (unfold coord; by rewrite Hv).
    rewrite count_set_S by lia. rewrite Hcv.
    destruct (decide (v <> 0)) as [Hn|Hz].
    + rewrite store_at_Some by lia. cbn [mbind option_bind].
      rewrite decide_False by done.
      eexists. split; [f_equal; f_equal; lia|]. split; [by rewrite length_insert|].
      intros i. destruct (decide (i = k)) as [->|Hik].
      * rewrite list_lookup_insert_eq by lia. rewrite decide_True; [done|].
        split; [lia|]. unfold coord. by rewrite Hv.
      * rewrite list_lookup_insert_ne by done. rewrite Hp.
        repeat case_decide; try done; lia.
    + apply dec_stable in Hz. subst v. rewrite decide_True by done.
      exists perm. split; [by rewrite Nat.add_0_r|]. split; [done|].
      intros i. rewrite Hp. destruct (decide (i = k)) as [->|Hik].
      * rewrite !decide_False; [done| |lia].
        intros [_ Hc]. unfold coord in Hc. by rewrite Hv in Hc.
      * repeat case_decide; try done; lia.
Qed.

Lemma unroll_permutation_spec unroll shared_len len perm0 :
  length perm0 = length unroll -> (shared_len <= len <= length unroll)%nat ->
  exists r, unroll_permutation unroll shared_len len (length unroll) perm0 = Some r /\
    match r with
    | None => ~ unroll_movable unroll shared_len len (length unroll)
    | Some (perm, first_unroll) =>
        unroll_movable unroll shared_len len (length unroll) /\
        perm = map (unroll_position unroll) (seq 0 (length unroll)) /\
        first_unroll = 1 + Z.of_nat (count_clear unroll (length unroll))
    end.
Proof.
  intros Hl Hr. unfold unroll_permutation.
  destruct (unroll_set_spec unroll 0 shared_len ltac:(lia) ltac:(lia)) as (b1 & -> & H1).
  cbn [mbind option_bind]. destruct b1.
  { eexists. split; [done|]. intros (Hm & _). destruct H1 as [H1 _].
    destruct (H1 eq_refl) as (i & Hi & Hc). apply Hc, Hm. lia. }
  destruct (unroll_set_spec unroll shared_len len ltac:(lia) ltac:(lia)) as (b2 & -> & H2).
  cbn [mbind option_bind]. destruct b2; cbn [negb].
  2:{ eexists. split; [done|]. intros (_ & Hm & _). destruct H2 as [_ H2].
      by specialize (H2 Hm). }
  destruct (unroll_set_spec unroll len (length unroll) ltac:(lia) ltac:(lia))
    as (b3 & -> & H3).
  cbn [mbind option_bind]. destruct b3.
  { eexists. split; [done|]. intros (_ & _ & Hm). destruct H3 as [H3 _].
    destruct (H3 eq_refl) as (i & Hi & Hc). apply Hc, Hm. lia. }
  assert (Hmov : unroll_movable unroll shared_len len (length unroll)).
  { split_and!.
    - intros i Hi. destruct (decide (coord unroll i = 0)) as [|Hn]; [done|].
      destruct H1 as [_ H1]. discriminate H1. exists i. split; [lia|done].
    - by apply H2.
    - intros i Hi. destruct (decide (coord unroll i = 0)) as [|Hn]; [done|].
      destruct H3 as [_ H3]. discriminate H3. exists i. split; [lia|done]. }
  destruct (unroll_clear_loop unroll perm0 (length unroll) Hl ltac:(lia))
    as (pA & -> & HlA & HpA).
  cbn [mbind option_bind].
  destruct (unroll_set_loop unroll pA (count_clear unroll (length unroll)) len HlA
              ltac:(lia)) as (pB & -> & HlB & HpB).
  cbn [mbind option_bind fst]. eexists. split; [done|]. split; [done|]. split; [|done].
  apply list_eq. intros i. rewrite list_lookup_fmap.
  destruct (decide (i < length unroll)%nat) as [Hi|Hi].
  - rewrite lookup_seq_lt by done. simpl. rewrite HpB, HpA. unfold unroll_position.
    destruct (decide (coord unroll i = 0)) as [Hz|Hn].
    + rewrite decide_False by (intros [_ ?]; done). by rewrite decide_True.
    + rewrite decide_True; [done|]. split; [|done].
      destruct Hmov as (_ & _ & Hm). destruct (decide (i < len)%nat); [done|].
      destruct Hn. apply Hm. lia.
  - rewrite lookup_seq_ge by lia. simpl. apply lookup_ge_None_2. lia.
Qed.

(** X14 (interchange_for_unroll): where the schedule is interchanged, the
    array [perm] lists the positions of the loops in some order: the loops
    that no private access involves come first and the involved loops are
    innermost, both in their original order, and [first_unroll] is the
    (one-based) position of the first involved loop.  The schedule is
    interchanged exactly when loops of the thread-tile band, and no other
    loops, are involved. *)
Theorem unroll_permutation_permutes unroll shared_len len perm0 :
  length perm0 = length unroll -> (shared_len <= len <= length unroll)%nat ->
  exists r, unroll_permutation unroll shared_len len (length unroll) perm0 = Some r /\
    match r with
    | None => ~ unroll_movable unroll shared_len len (length unroll)
    | Some (perm, first_unroll) =>
        unroll_movable unroll shared_len len (length unroll) /\
        perm ≡ₚ seq 0 (length unroll) /\
        first_unroll = 1 + Z.of_nat (count_clear unroll (length unroll)) /\
        forall i j pi pj, perm !! i = Some pi -> perm !! j = Some pj ->
          (coord unroll i = 0 -> coord unroll j <> 0 -> (pi < pj)%nat) /\
          ((i < j)%nat -> (coord unroll i = 0 <-> coord unroll j = 0) -> (pi < pj)%nat)
    end.
Proof.
  intros Hl Hr. destruct (unroll_permutation_spec unroll shared_len len perm0 Hl Hr)
    as (r & Hr' & Hm).
  exists r. split; [done|]. destruct r as [[perm fu]|]; [|done].
  destruct Hm as (Hmov & -> & ->). split; [done|].
  split; [apply unroll_position_permutation|]. split; [done|].
  intros i j pi pj Hi Hj.
  apply list_lookup_fmap_Some in Hi as (i' & -> & Hi').
  apply list_lookup_fmap_Some in Hj as (j' & -> & Hj').
  apply lookup_seq in Hi' as [-> Hi']. apply lookup_seq in Hj' as [-> Hj'].
  simpl. by apply unroll_position_order.
Qed.

Lemma unroll_permutation_permutes_witness :
  exists r, unroll_permutation [0; 0; 1; 0; 1; 0] 2 5 (length [0; 0; 1; 0; 1; 0])
              (replicate 6 0%nat) = Some r /\
    match r with
    | None => ~ unroll_movable [0; 0; 1; 0; 1; 0] 2 5 (length [0; 0; 1; 0; 1; 0])
    | Some (perm, first_unroll) =>
        unroll_movable [0; 0; 1; 0; 1; 0] 2 5 (length [0; 0; 1; 0; 1; 0]) /\
        perm ≡ₚ seq 0 (length [0; 0; 1; 0; 1; 0]) /\
        first_unroll = 1 + Z.of_nat (count_clear [0; 0; 1; 0; 1; 0]
                                       (length [0; 0; 1; 0; 1; 0])) /\
        forall i j pi pj, perm !! i = Some pi -> perm !! j = Some pj ->
          (coord [0; 0; 1; 0; 1; 0] i = 0 -> coord [0; 0; 1; 0; 1; 0] j <> 0 ->
           (pi < pj)%nat) /\
          ((i < j)%nat ->
           (coord [0; 0; 1; 0; 1; 0] i = 0 <-> coord [0; 0; 1; 0; 1; 0] j = 0) ->
           (pi < pj)%nat)
    end.
Proof. apply unroll_permutation_permutes; simpl; first [done|lia]. Defined.

Lemma for_range_preserves {A : Type} (P : A -> Prop) n (body : nat -> A -> option A) a0 a :
  (forall i a a', body i a = Some a' -> P a -> P a') ->
  P a0 -> for_range n body (Some a0) = Some a -> P a.
Proof.
  intros Hb H0. revert a. induction n as [|n IH]; intros a Hf.
  - by injection Hf as <-.
  - rewrite for_range_S in Hf. destruct (for_range n body (Some a0)) as [a1|]; [|done].
    simpl in Hf. eapply Hb; [exact Hf|]. by apply IH.
Qed.

Lemma check_unroll_length `{IslUnrollOps M} bmap unroll unroll' :
  check_unroll bmap unroll = Some unroll' -> length unroll' = length unroll.
Proof.
  unfold check_unroll.
  apply (for_range_preserves (fun u => length u = length unroll)); [|done].
  intros i a a' Hb Ha.
  destruct (isl_basic_map_has_defining_equality bmap i) as [c|]; [|done].
  simpl in Hb. revert Hb.
  apply (for_range_preserves (fun u => length u = length unroll)); [|done].
  intros j u u' Hs Hu. destruct (isl_constraint_involves_in c j).
  - unfold set_at in Hs. case_decide; [|done]. injection Hs as <-.
    by rewrite length_insert.
  - by injection Hs as <-.
Qed.

Lemma fold_left_preserves {A B : Type} (P : A -> Prop) (f : option A -> B -> option A)
    (l : list B) a0 a :
  (forall b o a', f o b = Some a' -> (forall a1, o = Some a1 -> P a1) -> P a') ->
  (forall a1, a0 = Some a1 -> P a1) -> fold_left f l a0 = Some a -> P a.
Proof.
  intros Hf. revert a0. induction l as [|b l IH]; intros a0 H0 Hfold; simpl in Hfold.
  - by apply H0.
  - apply (IH (f a0 b)); [|done]. intros a1 Ha1. by apply (Hf b a0).
Qed.

Lemma private_access_loops_length `{IslOps M} `{!IslUnrollOps M}
    (arrays : list (cuda_array_info M)) thread_tiled_len sched unroll :
  private_access_loops arrays thread_tiled_len sched = Some unroll ->
  length unroll = thread_tiled_len.
Proof.
  unfold private_access_loops.
  apply (fold_left_preserves (fun u => length u = thread_tiled_len)).
  2:{ intros a1 [= <-]. apply length_replicate. }
  intros array o a' Hg Ho. revert Hg.
  apply (fold_left_preserves (fun u => length u = thread_tiled_len)); [|done].
  intros group o' a'' Hc Ho'. destruct (private_bound group); [|by apply Ho'].
  revert Hc.
  apply (fold_left_preserves (fun u => length u = thread_tiled_len)); [|done].
  intros bmap o'' a3 Hb Ho''. destruct o'' as [u|]; [|done]. simpl in Hb.
  apply check_unroll_length in Hb. rewrite Hb. by apply Ho''.
Qed.

(** X15 (interchange_for_unroll, check_unroll): once the loops involved in
    the private accesses are known, [interchange_for_unroll] either leaves
    the schedule as it is, with [first_unroll = -1], or relates every
    statement instance to the same coordinates in the new order: no
    iteration is lost or added, and the involved loops are the innermost
    ones, from position [first_unroll] on. *)
Theorem interchange_for_unroll_reorders `{IslOps M} `{!IslUnrollOps M}
    (mpts : M -> list Z -> list Z -> list Z -> Prop)
    (arrays : list (cuda_array_info M)) thread_tiled_len shared_len n_parallel n_block
    perm0 sched unroll :
  map_laws mpts ->
  length perm0 = thread_tiled_len ->
  (shared_len + n_parallel + n_block <= thread_tiled_len)%nat ->
  private_access_loops arrays thread_tiled_len sched = Some unroll ->
  exists sched1 first_unroll,
    interchange_for_unroll arrays thread_tiled_len shared_len n_parallel n_block
      perm0 sched = Some (sched1, first_unroll) /\
    ((~ unroll_movable unroll shared_len (shared_len + n_parallel + n_block)
          thread_tiled_len /\ sched1 = sched /\ first_unroll = -1) \/
     (unroll_movable unroll shared_len (shared_len + n_parallel + n_block)
        thread_tiled_len /\
      first_unroll = 1 + Z.of_nat (count_clear unroll thread_tiled_len) /\
      forall p s w, mpts sched1 p s w <->
        exists z, mpts sched p s z /\ length z = thread_tiled_len /\
          length w = thread_tiled_len /\
          forall i, (i < thread_tiled_len)%nat ->
            coord w (unroll_position unroll i) = coord z i)).
Proof.
  intros (Lapp & Lfbm & _) Hl Hr Hu.
  pose proof (private_access_loops_length _ _ _ _ Hu) as Hlu.
  unfold interchange_for_unroll. rewrite Hu. cbn [mbind option_bind].
  destruct (unroll_permutation_spec unroll shared_len (shared_len + n_parallel + n_block)
              perm0 ltac:(lia) ltac:(lia)) as (r & Hr' & Hm).
  rewrite Hlu in Hr', Hm. rewrite Hr'. cbn [mbind option_bind].
  destruct r as [[perm fu]|].
  2:{ exists sched, (-1). split; [done|]. left. done. }
  destruct Hm as (Hmov & -> & ->).
  pose proof (unroll_position_permutation unroll) as Hperm. rewrite Hlu in Hperm.
  destruct (permutation_lookup _ _ Hperm) as (_ & _ & Hfw & _).
  unfold isl_union_map_get_dim.
  rewrite permutation_constraints by done. cbn [mbind option_bind].
  eexists _, _. split; [done|]. right. split; [done|]. split; [done|].
  intros p s w. rewrite Lapp.
  assert (Hrel : forall z, 
    rel (mk_bmap (mk_dim (isl_map_n_param sched) thread_tiled_len thread_tiled_len) 0
           (flat_map (permutation_equality
                        (mk_dim (isl_map_n_param sched) thread_tiled_len thread_tiled_len)
                        (map (unroll_position unroll) (seq 0 thread_tiled_len)))
              (seq 0 thread_tiled_len))) p z w <->
    length z = thread_tiled_len /\ length w = thread_tiled_len /\
    forall i, (i < thread_tiled_len)%nat ->
      coord w (unroll_position unroll i) = coord z i).
  { intros z. rewrite permutation_rel by done. split.
    - intros (Hz & Hw & Hc). split; [done|]. split; [done|]. intros i Hi.
      apply Hc; [|done]. rewrite list_lookup_fmap, lookup_seq_lt by done. done.
    - intros (Hz & Hw & Hc). split; [done|]. split; [done|]. intros i q Hq Hi.
      rewrite list_lookup_fmap, lookup_seq_lt in Hq by done. injection Hq as <-.
      by apply Hc. }
  split.
  - intros (z & Hz & Hw). apply Lfbm, Hrel in Hw as (Hlz & Hlw & Hc). exists z. done.
  - intros (z & Hz & Hlz & Hlw & Hc). exists z. split; [done|]. apply Lfbm, Hrel. done.
Qed.

Section interchange_witness.
#[local] Existing Instance sym_map_ops.
#[local] Existing Instance sample_unroll_ops.

Lemma interchange_for_unroll_reorders_witness :
  exists sched1 first_unroll,
    interchange_for_unroll [sample_private_array] 3 0 2 1 [0; 0; 0]%nat
      (sample_schedule 3) = Some (sched1, first_unroll) /\
    ((~ unroll_movable [0; 1; 0] 0 (0 + 2 + 1) 3 /\
      sched1 = sample_schedule 3 /\ first_unroll = -1) \/
     (unroll_movable [0; 1; 0] 0 (0 + 2 + 1) 3 /\
      first_unroll = 1 + Z.of_nat (count_clear [0; 1; 0] 3) /\
      forall p s w, sym_map_pts sched1 p s w <->
        exists z, sym_map_pts (sample_schedule 3) p s z /\ length z = 3%nat /\
          length w = 3%nat /\
          forall i, (i < 3)%nat -> coord w (unroll_position [0; 1; 0] i) = coord z i)).
Proof.
  apply (interchange_for_unroll_reorders sym_map_pts);
    first [apply sym_map_laws | reflexivity | simpl; lia].
Defined.

End interchange_witness.

(** ** Placement of the copy code *)

Lemma bounds_involve_spec involves bounds pos n i :
  (i + n <= length bounds)%nat ->
  exists r, bounds_involve involves bounds pos i n = Some r /\
    (r = false ->
     forall k b, (i <= k < i + n)%nat -> bounds !! k = Some b ->
       involves (lb b) pos = false /\
       forall sh, shift b = Some sh -> involves (Some sh) pos = false) /\
    (r = true ->
     exists k b, (i <= k < i + n)%nat /\ bounds !! k = Some b /\
       (involves (lb b) pos = true \/
        exists sh, shift b = Some sh /\ involves (Some sh) pos = true)).
Proof.
  revert i. induction n as [|n IH]; intros i Hlen.
  - exists false. simpl. split; [done|]. split; [|done]. intros _ k b Hk. lia.
  - destruct (lookup_lt_is_Some_2 bounds i ltac:(lia)) as [b Hb].
    cbn [bounds_involve]. rewrite Hb. cbn [mbind option_bind].
    destruct (IH (S i) ltac:(lia)) as (r & Hr & Hf & Ht).
    assert (Hrest : forall r0, r0 = r ->
              (involves (lb b) pos = false /\
               forall sh, shift b = Some sh -> involves (Some sh) pos = false) ->
              (r0 = false ->
               forall k b0, (i <= k < i + S n)%nat -> bounds !! k = Some b0 ->
                 involves (lb b0) pos = false /\
                 forall sh, shift b0 = Some sh -> involves (Some sh) pos = false) /\
              (r0 = true ->
               exists k b0, (i <= k < i + S n)%nat /\ bounds !! k = Some b0 /\
                 (involves (lb b0) pos = true \/
                  exists sh, shift b0 = Some sh /\ involves (Some sh) pos = true))).
    { intros r0 -> Hhere. split.
      - intros Hrf k b0 Hk Hb0. destruct (decide (k = i)) as [->|Hne].
        + rewrite Hb in Hb0. by injection Hb0 as <-.
        + apply (Hf Hrf k b0); [lia|done].
      - intros Hrt. destruct (Ht Hrt) as (k & b0 & Hk & Hb0 & Hinv).
        exists k, b0. split; [lia|done]. }
    destruct (involves (lb b) pos) eqn:Elb.
    { exists true. split; [done|]. split; [done|]. intros _. exists i, b.
      split; [lia|]. split; [done|]. by left. }
    destruct (shift b) as [sh|] eqn:Esh.
    + destruct (involves (Some sh) pos) eqn:Es.
      { exists true. split; [done|]. split; [done|]. intros _. exists i, b.
        split; [lia|]. split; [done|]. right. by exists sh. }
      exists r. split; [done|]. apply Hrest; [done|]. split; [done|].
      intros sh' [= <-]. done.
    + exists r. split; [done|]. apply Hrest; [done|]. split; [done|]. done.
Qed.

Lemma last_shared_from_spec involves bounds first_shared n_index from :
  (n_index <= length bounds)%nat ->
  exists r, last_shared_from involves bounds first_shared n_index from = Some r /\
    -1 <= r < Z.of_nat from /\
    (forall j, r < Z.of_nat j -> (j < from)%nat ->
       forall k b, (k < n_index)%nat -> bounds !! k = Some b ->
         involves (lb b) (first_shared + j)%nat = false /\
         forall sh, shift b = Some sh -> involves (Some sh) (first_shared + j)%nat = false) /\
    (0 <= r ->
     exists k b, (k < n_index)%nat /\ bounds !! k = Some b /\
       (involves (lb b) (first_shared + Z.to_nat r)%nat = true \/
        exists sh, shift b = Some sh /\
          involves (Some sh) (first_shared + Z.to_nat r)%nat = true)).
Proof.
  intros Hlen. induction from as [|j IH].
  - exists (-1). simpl. split; [done|]. split; [lia|]. split; [|lia].
    intros j _ Hj. lia.
  - cbn [last_shared_from].
    destruct (bounds_involve_spec involves bounds (first_shared + j)%nat n_index 0%nat
                ltac:(lia)) as (found & -> & Hf & Ht).
    cbn [mbind option_bind]. destruct found.
    + exists (Z.of_nat j). split; [done|]. split; [lia|]. split.
      * intros j' Hlt Hj'. lia.
      * intros _. rewrite Nat2Z.id.
        destruct (Ht eq_refl) as (k & b & Hk & Hb & Hinv). exists k, b.
        split; [lia|done].
    + destruct IH as (r & Hr & Hrange & Hafter & Hat). exists r.
      split; [done|]. split; [lia|]. split; [|done].
      intros j' Hlt Hj' k b Hk Hb. destruct (decide (j' = j)) as [->|Hne].
      * apply (Hf eq_refl k b); [lia|done].
      * apply (Hafter j' Hlt ltac:(lia) k b Hk Hb).
Qed.

Lemma coord_ge (x : list Z) k : (length x <= k)%nat -> coord x k = 0.
Proof. intros. unfold coord. by rewrite lookup_ge_None_2. Qed.

Lemma independent_of_range involves q lo m :
  involves_sound involves ->
  (forall j, (lo <= j < lo + m)%nat -> involves (Some q) j = false) ->
  forall p p' x, length p = length p' ->
    (forall k, ~ (lo <= k < lo + m)%nat -> coord p k = coord p' k) ->
    qp_val q p x = qp_val q p' x.
Proof.
  intros Hsound. induction m as [|m IH]; intros Hinv p p' x Hlen Hagree.
  - assert (E : p = p'); [|by rewrite E].
    apply list_eq. intros k. pose proof (Hagree k ltac:(lia)) as Hk. unfold coord in Hk.
    destruct (p !! k) as [v|] eqn:E1, (p' !! k) as [v'|] eqn:E2; simpl in Hk.
    + by rewrite Hk.
    + apply lookup_lt_Some in E1. apply lookup_ge_None in E2. lia.
    + apply lookup_lt_Some in E2. apply lookup_ge_None in E1. lia.
    + done.
  - set (p1 := if decide (lo + m < length p)%nat
               then <[(lo + m)%nat := coord p' (lo + m)]> p else p).
    assert (Hlen1 : length p1 = length p).
    { unfold p1. destruct (decide _); [by rewrite length_insert|done]. }
    assert (Hp1 : forall k, coord p1 k =
                    if decide (k = (lo + m)%nat) then coord p' k else coord p k).
    { intros k. unfold p1. destruct (decide (lo + m < length p)%nat) as [Hlt|Hge].
      - destruct (decide (k = (lo + m)%nat)) as [->|Hne].
        + by rewrite coord_insert_eq.
        + by rewrite coord_insert_ne.
      - destruct (decide (k = (lo + m)%nat)) as [->|Hne]; [|done].
        rewrite !coord_ge; [done|lia|lia]. }
    transitivity (qp_val q p1 x).
    + apply (Hsound q (lo + m)%nat); [apply Hinv; lia|lia|].
      intros k Hk. rewrite Hp1. by rewrite decide_False.
    + apply IH; [intros; apply Hinv; lia|lia|].
      intros k Hk. rewrite Hp1. destruct (decide (k = (lo + m)%nat)) as [->|Hne]; [done|].
      apply Hagree. lia.
Qed.

Lemma set_last_shared_spec {M} involves first_shared shared_len n_index
    (group : cuda_array_ref_group M) last_shared bounds :
  involves_sound involves ->
  tile_bounds group = Some bounds -> (n_index <= length bounds)%nat ->
  exists r,
    set_last_shared involves first_shared shared_len n_index group last_shared = Some r /\
    -1 <= r < Z.of_nat shared_len /\
    (forall i b, (i < n_index)%nat -> bounds !! i = Some b ->
       offset_independent b (Z.of_nat first_shared + r + 1)
         (Z.of_nat first_shared + Z.of_nat shared_len)) /\
    (0 <= r ->
     exists i b, (i < n_index)%nat /\ bounds !! i = Some b /\
       (involves (lb b) (first_shared + Z.to_nat r)%nat = true \/
        exists sh, shift b = Some sh /\
          involves (Some sh) (first_shared + Z.to_nat r)%nat = true)).
Proof.
  intros Hsound Hb Hlen. unfold set_last_shared. unfold tile_bounds in Hb. rewrite Hb.
  destruct (last_shared_from_spec involves bounds first_shared n_index shared_len Hlen)
    as (r & Hr & Hrange & Hafter & Hat).
  exists r. split; [done|]. split; [done|]. split; [|done].
  intros i b Hi Hbi q Hq p p' x Hlenp Hagree.
  apply (independent_of_range involves q (first_shared + Z.to_nat (r + 1))%nat
           (shared_len - Z.to_nat (r + 1))%nat Hsound); [|done|].
  - intros j Hj. replace j with (first_shared + (j - first_shared))%nat by lia.
    destruct (Hafter (j - first_shared)%nat ltac:(lia) ltac:(lia) i b Hi Hbi) as [Hlb Hsh].
    destruct Hq as [Hq|Hq]; [by rewrite <- Hq|by apply Hsh].
  - intros k Hk. apply Hagree. lia.
Qed.

Lemma dot_agree par p p' :
  length p = length p' ->
  (forall k, coord par k <> 0 -> coord p k = coord p' k) ->
  dot par p = dot par p'.
Proof.
  revert p p'. induction par as [|a par IH]; intros p p' Hlen Hagree; [done|].
  destruct p as [|v p], p' as [|v' p']; try done. simpl.
  rewrite (IH p p').
  - destruct (decide (a = 0)) as [->|Ha]; [lia|].
    pose proof (Hagree 0%nat Ha) as H0. unfold coord in H0. simpl in H0. by rewrite H0.
  - simpl in Hlen. lia.
  - intros k Hk. apply (Hagree (S k)). done.
Qed.

Lemma aff_mentions_param_sound a pos p p' x :
  aff_mentions_param a pos = false -> length p = length p' ->
  (forall k, k <> pos -> coord p k = coord p' k) ->
  aff_val a p x = aff_val a p' x.
Proof.
  intros Ha Hlen Hagree. induction a as [c pos0|a IH|a IH|a IH pos0 v]; simpl in *.
  - rewrite (dot_agree (c_param c) p p' Hlen); [done|].
    intros k Hk. apply Hagree. intros ->. apply bool_decide_eq_false in Ha. tauto.
  - by rewrite IH.
  - by rewrite IH.
  - by rewrite IH.
Qed.

Lemma qp_mentions_param_sound : involves_sound qp_mentions_param.
Proof.
  intros q pos Hq p p' x Hlen Hagree. destruct q as [cst par|a]; simpl in *.
  - rewrite (dot_agree par p p' Hlen); [done|].
    intros k Hk. apply Hagree. intros ->. apply bool_decide_eq_false in Hq. tauto.
  - by rewrite (aff_mentions_param_sound a pos p p' x).
Qed.

(** X16 (set_last_shared): for a group with a private or shared tile,
    [set_last_shared] returns a value [r] with [-1 <= r < shared_len] such
    that the lower bounds and shifts of the tile do not change with the
    shared tile loops after loop [r], while some lower bound or shift
    involves loop [r] itself, if there is such a loop. *)
Theorem last_shared_fixes_offsets {M} involves first_shared shared_len n_index
    (group : cuda_array_ref_group M) last_shared bounds :
  involves_sound involves ->
  tile_bounds group = Some bounds -> (n_index <= length bounds)%nat ->
  exists r,
    set_last_shared involves first_shared shared_len n_index group last_shared = Some r /\
    -1 <= r < Z.of_nat shared_len /\
    (forall i b, (i < n_index)%nat -> bounds !! i = Some b ->
       offset_independent b (Z.of_nat first_shared + r + 1)
         (Z.of_nat first_shared + Z.of_nat shared_len)) /\
    (0 <= r ->
     exists i b, (i < n_index)%nat /\ bounds !! i = Some b /\
       (involves (lb b) (first_shared + Z.to_nat r)%nat = true \/
        exists sh, shift b = Some sh /\
          involves (Some sh) (first_shared + Z.to_nat r)%nat = true)).
Proof. apply set_last_shared_spec. Qed.

Lemma last_shared_fixes_offsets_witness :
  exists r,
    set_last_shared qp_mentions_param 0 3 1 sample_tiled_group 2 = Some r /\
    -1 <= r < Z.of_nat 3 /\
    (forall i b, (i < 1)%nat ->
       [mk_bound 4 (Some (qp_affine 0 [0; 1; 0])) 1 None None] !! i = Some b ->
       offset_independent b (Z.of_nat 0 + r + 1) (Z.of_nat 0 + Z.of_nat 3)) /\
    (0 <= r ->
     exists i b, (i < 1)%nat /\
       [mk_bound 4 (Some (qp_affine 0 [0; 1; 0])) 1 None None] !! i = Some b /\
       (qp_mentions_param (lb b) (0 + Z.to_nat r)%nat = true \/
        exists sh, shift b = Some sh /\
          qp_mentions_param (Some sh) (0 + Z.to_nat r)%nat = true)).
Proof.
  apply (last_shared_fixes_offsets qp_mentions_param 0 3 1 sample_tiled_group 2
           [mk_bound 4 (Some (qp_affine 0 [0; 1; 0])) 1 None None]).
  - apply qp_mentions_param_sound.
  - reflexivity.
  - simpl. lia.
Defined.

Lemma print_kernel_for_head_steps level arrays n :
  (n <= length arrays)%nat ->
  let st := fold_left (fun '(arrays, print) i =>
      match arrays !! i with
      | None => (arrays, print)
      | Some a =>
          if decide (array_print_shared_level a >= 0) then (arrays, print)
          else if decide (array_last_shared a > level) then (arrays, print)
          else (<[i := set_print_shared_level a level]> arrays, true)
      end) (seq 0 n) (arrays, false) in
  length st.1 = length arrays /\
  (forall i, st.1 !! i =
     if decide (i < n)%nat then mark_level level <$> arrays !! i else arrays !! i) /\
  (st.2 = true <->
   exists i a, (i < n)%nat /\ arrays !! i = Some a /\
     array_print_shared_level a < 0 /\ array_last_shared a <= level).
Proof.
  induction n as [|n IH]; intros Hn.
  - simpl. split; [done|]. split; [done|]. split; [done|].
    intros (i & a & Hi & _). lia.
  - rewrite seq_S, fold_left_app. cbn [fold_left]. change (0 + n)%nat with n.
    specialize (IH ltac:(lia)). cbv zeta in IH.
    destruct (fold_left _ (seq 0 n) (arrays, false)) as [cur print].
    destruct IH as (Hlen & Hlook & Hprint). simpl in Hlen, Hlook, Hprint.
    destruct (lookup_lt_is_Some_2 arrays n ltac:(lia)) as [a Ha].
    assert (Hcur : cur !! n = Some a).
    { rewrite Hlook. by rewrite decide_False by lia. }
    rewrite Hcur.
    assert (Hkeep : mark_level level a = a ->
              ~ (array_print_shared_level a < 0 /\ array_last_shared a <= level) ->
              length (cur, print).1 = length arrays /\
              (forall i, (cur, print).1 !! i =
                 if decide (i < S n)%nat then mark_level level <$> arrays !! i
                 else arrays !! i) /\
              ((cur, print).2 = true <->
               exists i a0, (i < S n)%nat /\ arrays !! i = Some a0 /\
                 array_print_shared_level a0 < 0 /\ array_last_shared a0 <= level)).
    { intros Hm Hno. simpl. split; [done|]. split.
      - intros i. rewrite Hlook. destruct (decide (i = n)) as [->|Hne].
        + rewrite decide_False by lia. rewrite decide_True by lia.
          rewrite Ha. simpl. by rewrite Hm.
        + destruct (decide (i < n)%nat), (decide (i < S n)%nat); try done; lia.
      - rewrite Hprint. split.
        + intros (i & a0 & Hi & H1 & H2). exists i, a0. split; [lia|done].
        + intros (i & a0 & Hi & H1 & H2). destruct (decide (i = n)) as [->|Hne].
          * rewrite Ha in H1. injection H1 as <-. tauto.
          * exists i, a0. split; [lia|done]. }
    destruct (decide (array_print_shared_level a >= 0)) as [Hp|Hp].
    { apply Hkeep; [|lia]. unfold mark_level. by rewrite decide_True. }
    destruct (decide (array_last_shared a > level)) as [Hl|Hl].
    { apply Hkeep; [|lia]. unfold mark_level. rewrite decide_False by done.
      by rewrite decide_True. }
    simpl. split; [by rewrite length_insert|]. split.
    + intros i. destruct (decide (i = n)) as [->|Hne].
      * rewrite list_lookup_insert_eq by lia. rewrite decide_True by lia.
        rewrite Ha. simpl. unfold mark_level. by rewrite !decide_False.
      * rewrite list_lookup_insert_ne by done. rewrite Hlook.
        destruct (decide (i < n)%nat), (decide (i < S n)%nat); try done; lia.
    + split; [|done]. intros _. exists n, a. split; [lia|]. split; [done|]. lia.
Qed.

Lemma print_kernel_for_head_spec level arrays :
  (print_kernel_for_head level arrays).1 = map (mark_level level) arrays /\
  ((print_kernel_for_head level arrays).2 = true <->
   exists i a, arrays !! i = Some a /\
     array_print_shared_level a < 0 /\ array_last_shared a <= level).
Proof.
  destruct (print_kernel_for_head_steps level arrays (length arrays) ltac:(lia))
    as (Hlen & Hlook & Hprint).
  fold (print_kernel_for_head level arrays) in Hlen, Hlook, Hprint. split.
  - apply list_eq. intros i. rewrite Hlook. rewrite list_lookup_fmap.
    destruct (decide (i < length arrays)%nat) as [Hi|Hi]; [done|].
    by rewrite lookup_ge_None_2 by lia.
  - rewrite Hprint. split.
    + intros (i & a & _ & H). by exists i, a.
    + intros (i & a & Ha & H). exists i, a. split; [|done].
      by apply lookup_lt_Some in Ha.
Qed.

Lemma enter_loops_map levels arrays :
  enter_loops levels arrays =
  map (fun a => fold_left (fun a level => mark_level level a) levels a) arrays.
Proof.
  unfold enter_loops. revert arrays. induction levels as [|l levels IH]; intros arrays.
  - simpl. by rewrite map_id.
  - cbn [fold_left]. rewrite IH.
    destruct (print_kernel_for_head_spec l arrays) as [-> _].
    rewrite map_map. done.
Qed.

Lemma mark_levels_done levels a :
  0 <= array_print_shared_level a ->
  fold_left (fun a level => mark_level level a) levels a = a.
Proof.
  intros Ha. induction levels as [|l levels IH]; [done|].
  cbn [fold_left]. unfold mark_level at 2. rewrite decide_True by lia. done.
Qed.

Lemma mark_levels_first levels a :
  array_print_shared_level a = -1 -> Forall (fun level => 0 <= level) levels ->
  fold_left (fun a level => mark_level level a) levels a =
  mk_levels (array_last_shared a) (first_allowed_level (array_last_shared a) levels).
Proof.
  intros Ha Hlevels. induction Hlevels as [|l levels Hl Hlevels IH].
  - simpl. destruct a as [ls psl]. simpl in *. by rewrite Ha.
  - cbn [fold_left]. unfold first_allowed_level. rewrite filter_cons.
    unfold mark_level at 2. rewrite decide_False by lia.
    destruct (decide (array_last_shared a > l)) as [Hgt|Hle].
    + rewrite decide_False by lia. apply IH.
    + rewrite decide_True by lia. simpl.
      apply mark_levels_done. simpl. done.
Qed.

(** X17 (print_kernel_for_head, compute_private_size): starting from
    [print_shared_level = -1] for every array, after the loops at the given
    levels have been entered, every array has kept its [last_shared] and
    is marked with the first of these levels that is not below its
    [last_shared], or is still at [-1] if there is none; a level that is
    set is never below [last_shared]. *)
Theorem copy_at_first_allowed_level levels arrays i a :
  Forall (fun a => array_print_shared_level a = -1) arrays ->
  Forall (fun level => 0 <= level) levels ->
  arrays !! i = Some a ->
  exists a', enter_loops levels arrays !! i = Some a' /\
    array_last_shared a' = array_last_shared a /\
    array_print_shared_level a' = first_allowed_level (array_last_shared a) levels /\
    (0 <= array_print_shared_level a' ->
     array_last_shared a' <= array_print_shared_level a' /\
     array_print_shared_level a' ∈ levels).
Proof.
  intros Harrays Hlevels Ha. rewrite enter_loops_map, list_lookup_fmap, Ha. simpl.
  rewrite mark_levels_first; [|by eapply Forall_lookup_1 in Harrays|done].
  eexists. split; [done|]. simpl. split; [done|]. split; [done|].
  unfold first_allowed_level.
  destruct (filter _ levels) as [|l rest] eqn:E; simpl; [lia|]. intros _.
  assert (Hin : l ∈ filter (fun level => array_last_shared a <= level) levels)
    by (rewrite E; left).
  apply list_elem_of_filter in Hin. done.
Qed.

Lemma copy_at_first_allowed_level_witness :
  exists a', enter_loops [0; 1; 2] [mk_levels 1 (-1); mk_levels (-1) (-1)] !! 0%nat
             = Some a' /\
    array_last_shared a' = array_last_shared (mk_levels 1 (-1)) /\
    array_print_shared_level a' =
      first_allowed_level (array_last_shared (mk_levels 1 (-1))) [0; 1; 2] /\
    (0 <= array_print_shared_level a' ->
     array_last_shared a' <= array_print_shared_level a' /\
     array_print_shared_level a' ∈ [0; 1; 2]).
Proof.
  apply (copy_at_first_allowed_level [0; 1; 2] [mk_levels 1 (-1); mk_levels (-1) (-1)]
           0 (mk_levels 1 (-1))).
  - repeat constructor.
  - repeat constructor; lia.
  - reflexivity.
Defined.

(** X18 (print_kernel_for_head, print_kernel_for_foot): where
    [print_kernel_for_head] prints copying instructions at the start of a
    loop, [print_kernel_for_foot] prints the instructions for copying back
    at the end of that loop, whatever loops are entered in between. *)
Theorem copy_in_has_copy_out level arrays arrays' inner :
  0 <= level ->
  print_kernel_for_head level arrays = (arrays', true) ->
  print_kernel_for_foot level (enter_loops inner arrays') = true.
Proof.
  intros Hlevel Hhead.
  destruct (print_kernel_for_head_spec level arrays) as [Harr Hprint].
  rewrite Hhead in Harr, Hprint. simpl in Harr, Hprint.
  destruct (proj1 Hprint eq_refl) as (i & a & Ha & Hp & Hl).
  unfold print_kernel_for_foot. apply existsb_exists.
  exists (set_print_shared_level a level). split.
  - apply list_elem_of_In. rewrite enter_loops_map.
    apply list_elem_of_fmap. exists (set_print_shared_level a level). split.
    + by rewrite mark_levels_done.
    + subst arrays'. apply list_elem_of_fmap. exists a. split.
      * unfold mark_level. rewrite !decide_False by lia. done.
      * by eapply list_elem_of_lookup_2.
  - by apply bool_decide_eq_true.
Qed.

Lemma copy_in_has_copy_out_witness :
  print_kernel_for_foot 1
    (enter_loops [2; 3] [mk_levels 1 1; mk_levels 3 (-1)]) = true.
Proof.
  apply (copy_in_has_copy_out 1 [mk_levels 1 (-1); mk_levels 3 (-1)]).
  - lia.
  - reflexivity.
Defined.

(** ** References of an array and names of the local copies *)

Lemma refers_to_match {M} (name_of : M -> option string) array_name
    (a : cuda_stmt_access M) :
  refers_to name_of array_name a =
  match name_of (ref_access a) with
  | Some name => bool_decide (array_name = name)
  | None => false
  end.
Proof.
  unfold refers_to. destruct (name_of (ref_access a)) as [name|].
  - apply bool_decide_ext. split; congruence.
  - by rewrite bool_decide_eq_false_2.
Qed.

Lemma collect_count_stmt {M} (name_of : M -> option string) array_name
    (stmt : list (cuda_stmt_access M)) n :
  fold_left (fun n access =>
      match name_of (ref_access access) with
      | Some name => if decide (array_name = name) then S n else n
      | None => n
      end) stmt n =
  (n + length (filter (fun a => refers_to name_of array_name a = true) stmt))%nat.
Proof.
  revert n. induction stmt as [|a stmt IH]; intros n; [simpl; lia|].
  cbn [fold_left]. rewrite IH, filter_cons, refers_to_match.
  destruct (name_of (ref_access a)) as [name|] eqn:E.
  - destruct (decide (array_name = name)) as [->|Hne].
    + rewrite bool_decide_eq_true_2 by done. rewrite decide_True by done. simpl. lia.
    + rewrite bool_decide_eq_false_2 by done. rewrite decide_False by done. lia.
  - rewrite decide_False by done. lia.
Qed.

Lemma collect_count {M} (name_of : M -> option string) array_name
    (stmts : list (list (cuda_stmt_access M))) n :
  fold_left (fun n stmt =>
      fold_left (fun n access =>
          match name_of (ref_access access) with
          | Some name => if decide (array_name = name) then S n else n
          | None => n
          end) stmt n) stmts n =
  (n + length (filter (fun a => refers_to name_of array_name a = true)
                 (concat stmts)))%nat.
Proof.
  revert n. induction stmts as [|stmt stmts IH]; intros n; [simpl; lia|].
  cbn [fold_left concat]. rewrite IH, collect_count_stmt, filter_app, length_app. lia.
Qed.

Lemma collect_fill_stmt {M} (name_of : M -> option string) array_name n_ref
    (stmt : list (cuda_stmt_access M)) refs :
  (length refs + length (filter (fun a => refers_to name_of array_name a = true) stmt)
   <= n_ref)%nat ->
  fold_left (fun refs access =>
      refs ← refs;
      match name_of (ref_access access) with
      | Some name =>
          if decide (array_name = name) then
            if decide (length refs < n_ref)%nat then Some (refs ++ [access]) else None
          else Some refs
      | None => Some refs
      end) stmt (Some refs) =
  Some (refs ++ filter (fun a => refers_to name_of array_name a = true) stmt).
Proof.
  revert refs. induction stmt as [|a stmt IH]; intros refs Hcap.
  - simpl. by rewrite app_nil_r.
  - cbn [fold_left mbind option_bind]. rewrite filter_cons, refers_to_match in Hcap |- *.
    destruct (name_of (ref_access a)) as [name|] eqn:E.
    + destruct (decide (array_name = name)) as [->|Hne].
      * rewrite bool_decide_eq_true_2 in Hcap by done.
        rewrite bool_decide_eq_true_2 by done.
        rewrite decide_True in Hcap by done. rewrite (decide_True (P := true = true)) by done.
        simpl in Hcap.
        rewrite decide_True by lia. rewrite IH by (rewrite length_app; simpl; lia).
        by rewrite <- app_assoc.
      * rewrite bool_decide_eq_false_2 in Hcap by done.
        rewrite bool_decide_eq_false_2 by done.
        rewrite decide_False in Hcap by done.
        rewrite (decide_False (P := false = true)) by done. by apply IH.
    + rewrite decide_False in Hcap by done.
      rewrite (decide_False (P := false = true)) by done. by apply IH.
Qed.

Lemma collect_fill {M} (name_of : M -> option string) array_name n_ref
    (stmts : list (list (cuda_stmt_access M))) refs :
  (length refs +
   length (filter (fun a => refers_to name_of array_name a = true) (concat stmts))
   <= n_ref)%nat ->
  fold_left (fun refs stmt =>
      fold_left (fun refs access =>
          refs ← refs;
          match name_of (ref_access access) with
          | Some name =>
              if decide (array_name = name) then
                if decide (length refs < n_ref)%nat then Some (refs ++ [access]) else None
              else Some refs
          | None => Some refs
          end) stmt refs) stmts (Some refs) =
  Some (refs ++ filter (fun a => refers_to name_of array_name a = true) (concat stmts)).
Proof.
  revert refs. induction stmts as [|stmt stmts IH]; intros refs Hcap.
  - simpl. by rewrite app_nil_r.
  - cbn [fold_left concat] in *. rewrite filter_app, length_app in Hcap.
    rewrite collect_fill_stmt by lia. rewrite IH by (rewrite length_app; lia).
    by rewrite filter_app, app_assoc.
Qed.

(** X19 (collect_references): the references collected for an array are
    the accesses of all statements whose relation is named after the
    array, in the order of the statements; the array [refs] allocated
    from the count of the first pass is filled exactly by the second. *)
Theorem collect_references_filters {M} (isl_map_get_tuple_name : M -> option string)
    array_name (stmts : list (list (cuda_stmt_access M))) :
  collect_references isl_map_get_tuple_name array_name stmts =
  Some (length (filter (fun a => refers_to isl_map_get_tuple_name array_name a = true)
                  (concat stmts)),
        filter (fun a => refers_to isl_map_get_tuple_name array_name a = true)
          (concat stmts)).
Proof.
  unfold collect_references. rewrite collect_count. simpl.
  rewrite collect_fill by (simpl; lia). done.
Qed.

Lemma string_length_app (s1 s2 : string) :
  String.length (s1 +:+ s2) = (String.length s1 + String.length s2)%nat.
Proof.
  induction s1 as [|c s1 IH]; [done|].
  change (S (String.length (s1 +:+ s2)) = S (String.length s1 + String.length s2)).
  by rewrite IH.
Qed.

Lemma print_array_name_spec {M} array_name n (g1 g2 : cuda_array_ref_group M) :
  print_array_name array_name n g1 = print_array_name array_name n g2 ->
  group_tier g1 = group_tier g2 /\
  (group_tier g1 <> tier_global -> n > 1 -> nr g1 = nr g2).
Proof.
  unfold print_array_name, group_tier.
  assert (Hsuffix : forall (pre : string) (z1 z2 : Z),
            pre +:+ "_" +:+ pretty z1 = pre +:+ "_" +:+ pretty z2 -> z1 = z2).
  { intros pre z1 z2 E. apply (inj (String.app pre)) in E.
    apply (inj (String.app "_")) in E. by apply (inj pretty) in E. }
  destruct (private_bound g1), (private_bound g2), (shared_bound g1), (shared_bound g2);
    cbn [negb andb]; destruct (bool_decide (n > 1)) eqn:En; intros E;
    try (split; [done|]; intros _ Hn;
         first [ by apply (Hsuffix _ _ _ E)
               | apply bool_decide_eq_false in En; lia ]);
    try discriminate E; try (split; [done|]; done).
  all: exfalso; apply (f_equal String.length) in E;
    rewrite !string_length_app in E; simpl in E; lia.
Qed.

(** ** Counting the reference groups *)

Lemma count_upto_ext f g i :
  (forall k, (k < i)%nat -> f k = g k) -> count_upto f i = count_upto g i.
Proof.
  induction i as [|i IH]; intros Hfg; [done|]. simpl.
  rewrite IH by (intros; apply Hfg; lia). by rewrite Hfg by lia.
Qed.

Lemma count_upto_zero f i :
  (forall k, (k < i)%nat -> f k = false) -> count_upto f i = 0%nat.
Proof.
  induction i as [|i IH]; intros Hf; [done|]. simpl.
  rewrite IH by (intros; apply Hf; lia). by rewrite Hf by lia.
Qed.

Lemma count_upto_add f g h i :
  (forall k, (k < i)%nat -> h k = f k || g k) ->
  (forall k, (k < i)%nat -> f k && g k = false) ->
  count_upto h i = (count_upto f i + count_upto g i)%nat.
Proof.
  induction i as [|i IH]; intros Hh Hd; [done|]. simpl.
  rewrite IH; [|intros; apply Hh; lia|intros; apply Hd; lia].
  rewrite Hh by lia. pose proof (Hd i ltac:(lia)).
  destruct (f i), (g i); simpl in *; try done; lia.
Qed.

Lemma count_upto_remove f g i l :
  (l < i)%nat -> f l = true -> g l = false ->
  (forall k, (k < i)%nat -> k <> l -> g k = f k) ->
  (count_upto g i + 1 = count_upto f i)%nat.
Proof.
  induction i as [|i IH]; intros Hl Hf Hg Hother; [lia|]. simpl.
  destruct (decide (l = i)) as [->|Hne].
  - rewrite Hf, Hg. rewrite (count_upto_ext g f) by (intros; apply Hother; lia). lia.
  - rewrite <- IH by (try done; try lia; intros; apply Hother; lia).
    rewrite Hother by lia. lia.
Qed.

Lemma count_upto_filter (P : nat -> Prop) `{!forall k, Decision (P k)} i :
  count_upto (fun k => bool_decide (P k)) i = length (filter P (seq 0 i)).
Proof.
  induction i as [|i IH]; [done|]. simpl count_upto.
  rewrite seq_S, filter_app, length_app, <- IH. simpl.
  rewrite filter_cons, filter_nil. destruct (decide (P i)).
  - by rewrite bool_decide_eq_true_2.
  - by rewrite bool_decide_eq_false_2.
Qed.

Lemma leader_inv_le i leader rep k : leader_inv i leader rep -> (k < i)%nat -> (rep k <= k)%nat.
Proof. intros HI Hk. by destruct (HI k Hk) as (_ & ? & _). Qed.

Lemma members_outside i leader rep r :
  leader_inv i leader rep -> (i <= r)%nat -> members rep i r = 0%nat.
Proof.
  intros HI Hr. apply count_upto_zero. intros k Hk.
  apply bool_decide_eq_false. pose proof (leader_inv_le _ _ _ _ HI Hk). lia.
Qed.

Lemma members_merge_target rep i l j :
  l <> j ->
  members (merge_rep rep l j) i j = (members rep i j + members rep i l)%nat.
Proof.
  intros Hlj. apply count_upto_add.
  - intros k _. unfold merge_rep. destruct (decide (rep k = l)) as [E|E].
    + rewrite bool_decide_eq_true_2 by done. rewrite (bool_decide_eq_true_2 (rep k = l)) by done.
      by rewrite orb_true_r.
    + rewrite (bool_decide_eq_false_2 (rep k = l)) by done. by rewrite orb_false_r.
  - intros k _. destruct (decide (rep k = l)) as [E|E].
    + rewrite (bool_decide_eq_false_2 (rep k = j)) by congruence. done.
    + rewrite (bool_decide_eq_false_2 (rep k = l)) by done. by rewrite andb_false_r.
Qed.

Lemma members_merge_other rep i l j r :
  r <> j -> r <> l -> members (merge_rep rep l j) i r = members rep i r.
Proof.
  intros Hrj Hrl. apply count_upto_ext. intros k _. unfold merge_rep.
  destruct (decide (rep k = l)) as [E|E]; [|done].
  rewrite !bool_decide_eq_false_2; [done|congruence|congruence].
Qed.

Lemma n_roots_merge rep i l j :
  (l < i)%nat -> rep l = l -> rep j = j -> j <> l ->
  (n_roots (merge_rep rep l j) i + 1 = n_roots rep i)%nat.
Proof.
  intros Hl Hrl Hrj Hjl. apply (count_upto_remove _ _ i l); [done| | |].
  - by apply bool_decide_eq_true_2.
  - apply bool_decide_eq_false_2. unfold merge_rep. rewrite decide_True by done. done.
  - intros k Hk Hkl. unfold merge_rep. destruct (decide (rep k = l)) as [E|E]; [|done].
    rewrite !bool_decide_eq_false_2; [done|congruence|congruence].
Qed.

Lemma n_roots_merge_outside rep leader i l j :
  leader_inv i leader rep -> (i <= l)%nat ->
  n_roots (merge_rep rep l j) i = n_roots rep i.
Proof.
  intros HI Hl. apply count_upto_ext. intros k Hk. unfold merge_rep.
  pose proof (leader_inv_le _ _ _ _ HI Hk). by rewrite decide_False by lia.
Qed.

Lemma members_S rep i r :
  members rep (S i) r = (members rep i r + (if bool_decide (rep i = r) then 1 else 0))%nat.
Proof. done. Qed.

Lemma n_roots_S rep i :
  n_roots rep (S i) = (n_roots rep i + (if bool_decide (rep i = i) then 1 else 0))%nat.
Proof. done. Qed.

Lemma count_writes_step `{IslOps M} n i j refs0 (st : grouping M) rep :
  (j < i)%nat -> count_inner_inv n i (S j) refs0 st rep ->
  exists rep', count_inner_inv n i j refs0 (overlapping_writes_step j st) rep'.
Proof.
  intros Hji (Hlg & Hll & Hi & HI & Hl & Hng & Hnref & Hown & Hrefs).
  assert (Hkeep : count_inner_inv n i j refs0 st rep).
  { unfold count_inner_inv. split_and!; try done.
    destruct Hl as [Hl|(Hl1 & Hl2 & Hl3)]; [by left|right; repeat split; lia]. }
  unfold overlapping_writes_step.
  destruct (decide (leader_at (gr_leader st) j <> j)) as [Hld|Hld]; [by exists rep|].
  apply dec_stable in Hld.
  destruct (negb (write (group_at (gr_groups st) (gr_l st))) &&
            negb (write (group_at (gr_groups st) j))); [by exists rep|].
  destruct (overlap_is_empty (access (group_at (gr_groups st) (gr_l st)))
              (access (group_at (gr_groups st) j))); [by exists rep|].
  set (groups := gr_groups st) in *. set (leader := gr_leader st) in *.
  set (l := gr_l st) in *.
  assert (Hrj : rep j = j) by (by apply (HI j Hji)).
  assert (Hjl : (j < l)%nat) by (destruct Hl as [->|(? & ? & ?)]; lia).
  assert (Hlle : (l <= i)%nat) by (destruct Hl as [->|(? & ? & ?)]; lia).
  exists (merge_rep rep l j).
  assert (Hnl : n_ref (group_at groups l) = Z.of_nat (members rep i l) + 1).
  { destruct Hl as [E|(Hl1 & Hl2 & Hl3)].
    - rewrite E. rewrite (Hown E). rewrite (members_outside i leader rep i HI) by lia. lia.
    - rewrite (Hnref l Hl1 Hl2). rewrite decide_True by done. lia. }
  unfold count_inner_inv. simpl. split_and!.
  - by rewrite !length_insert.
  - by rewrite length_insert.
  - done.
  - destruct (decide (l = i)) as [E|E].
    + intros k Hk. rewrite leader_at_insert_ne by lia.
      destruct (HI k Hk) as (H1 & H2 & H3 & H4 & H5).
      unfold merge_rep. rewrite H3. rewrite !(decide_False (P := rep k = l)) by lia.
      rewrite H5. rewrite !(decide_False (P := rep k = l)) by lia.
      repeat split; try lia; tauto.
    + destruct Hl as [?|(Hl1 & Hl2 & Hl3)]; [done|].
      apply leader_inv_merge; try done; lia.
  - right. unfold merge_rep. rewrite Hrj. rewrite decide_False by lia. lia.
  - rewrite (decide_False (P := j = i)) by lia. rewrite Hng.
    destruct (decide (l = i)) as [E|E].
    + rewrite (n_roots_merge_outside rep leader i l j HI) by lia. lia.
    + destruct Hl as [?|(Hl1 & Hl2 & Hl3)]; [done|].
      pose proof (n_roots_merge rep i l j Hl1 Hl2 Hrj ltac:(lia)). lia.
  - intros r Hr Hrr. destruct (decide (r = j)) as [->|Hrj'].
    + rewrite group_at_insert_eq by (rewrite length_insert; lia). simpl.
      rewrite (Hnref j Hji Hrj), Hnl. rewrite decide_False by lia.
      rewrite members_merge_target by lia. lia.
    + assert (Hrl : rep r <> l).
      { intros E. unfold merge_rep in Hrr. rewrite decide_True in Hrr by done. lia. }
      assert (Hr' : rep r = r).
      { unfold merge_rep in Hrr. by rewrite decide_False in Hrr by done. }
      assert (r <> l) by congruence.
      rewrite !group_at_insert_ne by done.
      rewrite (Hnref r Hr Hr'). rewrite decide_False by done.
      by rewrite members_merge_other.
  - intros E. lia.
  - intros k. destruct (decide (k = j)) as [->|Hkj].
    + rewrite group_at_insert_eq by (rewrite length_insert; lia). simpl. apply Hrefs.
    + rewrite group_at_insert_ne by done. destruct (decide (k = l)) as [->|Hkl].
      * rewrite group_at_insert_eq by lia. simpl. apply Hrefs.
      * rewrite group_at_insert_ne by done. apply Hrefs.
Qed.

Lemma count_writes_outer_step `{IslOps M} n i refs0 (st : grouping M) :
  (i < n)%nat ->
  (exists rep, count_outer_inv n i refs0 st rep) ->
  exists rep, count_outer_inv n (S i) refs0
    (let st1 := down_from i overlapping_writes_step
       (mk_grouping (<[i := set_n_ref (group_at (gr_groups st) i) 1]> (gr_groups st))
          (gr_leader st) i (gr_n_group st)) in
     mk_grouping (gr_groups st1) (<[i := gr_l st1]> (gr_leader st1)) (gr_l st1)
       (gr_n_group st1)) rep.
Proof.
  intros Hi [rep (Hlg & Hll & _ & HI & Hng & Hnref & Hrefs)].
  set (st0 := mk_grouping (<[i := _]> _) (gr_leader st) i (gr_n_group st)).
  assert (Hinner : exists rep', count_inner_inv n i 0 refs0
            (down_from i overlapping_writes_step st0) rep').
  { apply (down_from_inv (fun m s => exists r, count_inner_inv n i m refs0 s r)
             overlapping_writes_step i st0).
    - exists rep. unfold count_inner_inv, st0. simpl. split_and!.
      + by rewrite length_insert.
      + done.
      + done.
      + done.
      + by left.
      + rewrite decide_True by done. rewrite Hng. lia.
      + intros r Hr Hrr. rewrite group_at_insert_ne by lia.
        rewrite (Hnref r Hr Hrr). rewrite decide_False by lia. lia.
      + intros _. rewrite group_at_insert_eq by lia. done.
      + intros k. destruct (decide (k = i)) as [->|].
        * rewrite group_at_insert_eq by lia. simpl. apply Hrefs.
        * rewrite group_at_insert_ne by done. apply Hrefs.
    - intros j s Hj [r Hr]. by apply (count_writes_step n i j refs0 s r). }
  destruct Hinner as [rep' (Hlg' & Hll' & _ & HI' & Hl' & Hng' & Hnref' & Hown' & Hrefs')].
  set (st1 := down_from i overlapping_writes_step st0) in *.
  exists (fun k => if decide (k = i) then gr_l st1 else rep' k).
  assert (Hroots : n_roots (fun k => if decide (k = i) then gr_l st1 else rep' k) i =
                   n_roots rep' i).
  { apply count_upto_ext. intros k Hk. by rewrite decide_False by lia. }
  assert (Hmem : forall r,
            members (fun k => if decide (k = i) then gr_l st1 else rep' k) i r =
            members rep' i r).
  { intros r. apply count_upto_ext. intros k Hk. by rewrite decide_False by lia. }
  unfold count_outer_inv. simpl. split_and!.
  - done.
  - by rewrite length_insert.
  - lia.
  - apply leader_inv_extend; [done|lia|].
    destruct Hl' as [?|(? & ? & ?)]; [by left|by right].
  - rewrite n_roots_S, Hroots. rewrite decide_True by done.
    rewrite Hng'. destruct (decide (gr_l st1 = i)) as [E|E].
    + rewrite bool_decide_eq_true_2 by done. lia.
    + rewrite bool_decide_eq_false_2 by done. lia.
  - intros r Hr Hrr. cbv beta in Hrr. rewrite members_S, Hmem.
    rewrite (decide_True (P := i = i)) by done.
    destruct (decide (r = i)) as [->|Hne].
    + rewrite (Hown' Hrr).
      rewrite (members_outside i (gr_leader st1) rep' i HI') by lia.
      rewrite bool_decide_eq_true_2 by done. lia.
    + rewrite (Hnref' r ltac:(lia) Hrr).
      destruct (decide (r = gr_l st1)) as [E|E].
      * rewrite bool_decide_eq_true_2 by done. lia.
      * rewrite bool_decide_eq_false_2 by done. lia.
  - done.
Qed.

Lemma group_overlapping_writes_counts `{IslOps M} n refs0
    (groups0 : list (cuda_array_ref_group M)) leader0 :
  length groups0 = n -> length leader0 = n ->
  (forall k, refs (group_at groups0 k) = refs0 k) ->
  exists rep,
    (let '(groups, leader, n_group) := group_overlapping_writes n groups0 leader0 in
     counted_inv n refs0 groups leader n_group rep).
Proof.
  intros Hlg Hll Hrefs. unfold group_overlapping_writes.
  set (f := fun (st : grouping M) (i : nat) => _).
  assert (Hfold : exists rep, count_outer_inv n n refs0
            (fold_left f (seq 0 n) (mk_grouping groups0 leader0 0%nat (Z.of_nat n))) rep).
  { apply (fold_left_seq_inv (fun i st => exists rep, count_outer_inv n i refs0 st rep)).
    - exists (fun k => k). unfold count_outer_inv. simpl. split_and!; try done; try lia.
      + intros k Hk. lia.
      + unfold n_roots. simpl. lia.
    - intros i st Hi Hinv. unfold f. by apply (count_writes_outer_step n i refs0 st). }
  destruct Hfold as [rep (H1 & H2 & H3 & H4 & H5 & H6 & H7)]. exists rep.
  unfold counted_inv. split_and!; try done.
  rewrite H5. replace (n - n)%nat with 0%nat by lia. lia.
Qed.

Lemma shared_bound_loop_counts `{IslOps M} n refs0 n_index m leader
    (groups : list (cuda_array_ref_group M)) n_group rep :
  counted_inv n refs0 groups leader n_group rep ->
  counted_inv n refs0
    (fold_left (fun groups i =>
       if decide (leader_at leader i = i)
       then <[i := compute_group_shared_bound n_index (group_at groups i)]> groups
       else groups) (seq 0 m) groups) leader n_group rep.
Proof.
  intros Hinv.
  apply (fold_left_seq_inv
           (fun (_ : nat) gs => counted_inv n refs0 gs leader n_group rep)); [done|].
  intros i gs Hi (Hlg & Hll & HI & Hng & Hnref & Hrefs).
  destruct (decide (leader_at leader i = i)); [|done].
  assert (Hat : forall k,
            n_ref (group_at (<[i := compute_group_shared_bound n_index (group_at gs i)]> gs) k)
              = n_ref (group_at gs k) /\
            refs (group_at (<[i := compute_group_shared_bound n_index (group_at gs i)]> gs) k)
              = refs (group_at gs k)).
  { intros k. destruct (decide (k = i)) as [->|].
    - destruct (decide (i < length gs)%nat).
      + by rewrite group_at_insert_eq by done.
      + by rewrite list_insert_ge by lia.
    - by rewrite group_at_insert_ne by done. }
  split_and!; try done.
  - by rewrite length_insert.
  - intros r Hr Hrr. destruct (Hat r) as [-> _]. by apply Hnref.
  - intros k. destruct (Hat k) as [_ ->]. apply Hrefs.
Qed.

Lemma count_common_tile_step `{IslOps M} n refs0 n_index j (st : grouping M) rep :
  counted_inv n refs0 (gr_groups st) (gr_leader st) (gr_n_group st) rep ->
  (gr_l st < n)%nat -> rep (gr_l st) = gr_l st -> (j < gr_l st)%nat ->
  exists rep', let st' := common_tile_step n_index j st in
    counted_inv n refs0 (gr_groups st') (gr_leader st') (gr_n_group st') rep' /\
    (gr_l st' < n)%nat /\ rep' (gr_l st') = gr_l st' /\ (j <= gr_l st')%nat.
Proof.
  intros (Hlg & Hll & HI & Hng & Hnref & Hrefs) Hl Hrl Hjl.
  assert (Hsame : exists rep',
            counted_inv n refs0 (gr_groups st) (gr_leader st) (gr_n_group st) rep' /\
            (gr_l st < n)%nat /\ rep' (gr_l st) = gr_l st /\ (j <= gr_l st)%nat).
  { exists rep. split_and!; try done. lia. }
  unfold common_tile_step.
  destruct (decide (leader_at (gr_leader st) j <> j)) as [Hld|Hld]; [done|].
  apply dec_stable in Hld.
  destruct (shared_bound (group_at (gr_groups st) j)); [|done].
  destruct (overlap_is_empty _ _); [done|].
  destruct (union_access _ _) as [map|]; [|done].
  destruct (can_tile_for_shared_memory n_index map (create_bound_list n_index))
    as [new_bound ok].
  destruct ok; simpl; [|done].
  assert (Hrj : rep j = j) by (apply (HI j); [lia|done]).
  exists (merge_rep rep (gr_l st) j). split_and!.
  - split_and!.
    + by rewrite length_insert.
    + by rewrite length_insert.
    + apply leader_inv_merge; try done; lia.
    + pose proof (n_roots_merge rep n (gr_l st) j Hl Hrl Hrj ltac:(lia)). lia.
    + intros r Hr Hrr. destruct (decide (r = j)) as [->|Hne].
      * rewrite group_at_insert_eq by lia. simpl.
        rewrite (Hnref j ltac:(lia) Hrj), (Hnref (gr_l st) Hl Hrl).
        rewrite members_merge_target by lia. lia.
      * assert (Hrl' : rep r <> gr_l st).
        { intros E. unfold merge_rep in Hrr. rewrite decide_True in Hrr by done. lia. }
        assert (Hr' : rep r = r).
        { unfold merge_rep in Hrr. by rewrite decide_False in Hrr by done. }
        rewrite group_at_insert_ne by done. rewrite (Hnref r Hr Hr').
        rewrite members_merge_other; [done|done|congruence].
    + intros k. destruct (decide (k = j)) as [->|].
      * rewrite group_at_insert_eq by lia. simpl. apply Hrefs.
      * rewrite group_at_insert_ne by done. apply Hrefs.
  - lia.
  - unfold merge_rep. rewrite Hrj. rewrite decide_False by lia. done.
  - done.
Qed.

Lemma group_common_shared_memory_tile_counts `{IslOps M} n refs0 n_index
    (groups : list (cuda_array_ref_group M)) leader n_group rep :
  counted_inv n refs0 groups leader n_group rep ->
  exists rep',
    (let '(groups', leader', n_group') :=
       group_common_shared_memory_tile n_index n groups leader n_group in
     counted_inv n refs0 groups' leader' n_group' rep').
Proof.
  intros Hinv. unfold group_common_shared_memory_tile.
  set (f := fun (st : grouping M) (i : nat) => _).
  assert (Hfold : exists rep',
            let st := fold_left f (seq 0 n) (mk_grouping groups leader 0%nat n_group) in
            counted_inv n refs0 (gr_groups st) (gr_leader st) (gr_n_group st) rep').
  { apply (fold_left_seq_inv
       (fun (i : nat) st => exists rep',
          counted_inv n refs0 (gr_groups st) (gr_leader st) (gr_n_group st) rep')).
    - by exists rep.
    - intros i st Hi [r Hr]. unfold f.
      destruct (decide (gr_n_group st > 1)); [|by exists r].
      destruct (decide (leader_at (gr_leader st) i <> i)) as [Hld|Hld]; [by exists r|].
      apply dec_stable in Hld.
      destruct (shared_bound (group_at (gr_groups st) i)); [|by exists r].
      set (st0 := mk_grouping _ _ _ _).
      assert (Hd : exists r',
                let s := down_from i (common_tile_step n_index) st0 in
                counted_inv n refs0 (gr_groups s) (gr_leader s) (gr_n_group s) r' /\
                (gr_l s < n)%nat /\ r' (gr_l s) = gr_l s /\ (0 <= gr_l s)%nat).
      { apply (down_from_inv (fun m s => exists r',
                 counted_inv n refs0 (gr_groups s) (gr_leader s) (gr_n_group s) r' /\
                 (gr_l s < n)%nat /\ r' (gr_l s) = gr_l s /\
                 (m <= gr_l s)%nat) (common_tile_step n_index) i st0).
        - assert (Hri : r i = i)
            by (destruct Hr as (_ & _ & HI & _); by apply (HI i Hi)).
          exists r. unfold st0. simpl. split_and!; first [done|lia].
        - intros j s Hj (r' & Hm & Hl & Hrl & Hle).
          apply (count_common_tile_step n refs0 n_index j s r'); first [done|lia]. }
      destruct Hd as (r' & Hm & _). by exists r'. }
  destruct Hfold as [rep' Hrep']. exists rep'. done.
Qed.

Lemma extract_new_refs {M} (groups : list (cuda_array_ref_group M)) leader i j
    (L : list nat) new_refs0 (array_refs0 : list (cuda_stmt_access M)) :
  (fold_left (fun '(new_refs, array_refs) k =>
      if decide (leader_at leader k = i) then
        match refs (group_at groups k) with
        | r :: _ =>
            (new_refs ++ [r],
             match array_refs !! r with
             | Some a => <[r := set_ref_group a j]> array_refs
             | None => array_refs
             end)
        | [] => (new_refs, array_refs)
        end
      else (new_refs, array_refs)) L (new_refs0, array_refs0)).1 =
  new_refs0 ++ flat_map (fun k =>
      if decide (leader_at leader k = i) then take 1 (refs (group_at groups k)) else []) L.
Proof.
  revert new_refs0 array_refs0. induction L as [|k L IH]; intros new_refs0 array_refs0.
  - simpl. by rewrite app_nil_r.
  - cbn [fold_left flat_map]. destruct (decide (leader_at leader k = i)).
    + destruct (refs (group_at groups k)) as [|r rest].
      * rewrite IH. done.
      * rewrite IH. simpl. by rewrite <- app_assoc.
    + rewrite IH. done.
Qed.

Lemma flat_map_group_refs {M} (groups : list (cuda_array_ref_group M)) leader rep idx
    n i a m :
  (forall k, (k < n)%nat -> leader_at leader k = rep k) ->
  (forall k, (k < n)%nat -> refs (group_at groups k) = [idx k]) ->
  (a + m <= n)%nat ->
  flat_map (fun k =>
      if decide (leader_at leader k = i) then take 1 (refs (group_at groups k)) else [])
    (seq a m) =
  map idx (filter (fun k => rep k = i) (seq a m)).
Proof.
  intros Hld Hrefs. induction m as [|m IH]; intros Ham; [done|].
  rewrite seq_S, flat_map_app, filter_app, map_app, IH by lia. f_equal.
  simpl. rewrite filter_cons, filter_nil, app_nil_r.
  rewrite Hld by lia. destruct (decide (rep (a + m)%nat = i)); [|done].
  rewrite Hrefs by lia. done.
Qed.

Lemma filter_none {A} (P : A -> Prop) `{!forall x, Decision (P x)} (l : list A) :
  Forall (fun x => ~ P x) l -> filter P l = [].
Proof.
  induction 1 as [|x l Hx Hl IH]; [done|]. rewrite filter_cons.
  by rewrite decide_False by done.
Qed.

Lemma filter_seq_below (rep : nat -> nat) i n :
  (forall k, (k < n)%nat -> (rep k <= k)%nat) -> (i <= n)%nat ->
  filter (fun k => rep k = i) (seq 0 n) = filter (fun k => rep k = i) (seq i (n - i)).
Proof.
  intros Hle Hi. replace (seq 0 n) with (seq 0 i ++ seq i (n - i)).
  - rewrite filter_app. replace (filter (fun k => rep k = i) (seq 0 i)) with (@nil nat); [done|].
    symmetry. apply filter_none. apply Forall_forall. intros k Hk.
    apply elem_of_seq in Hk. pose proof (Hle k ltac:(lia)). lia.
  - rewrite <- seq_app. f_equal. lia.
Qed.

Lemma extract_array_groups_groups {M} (array_refs : list (cuda_stmt_access M)) n
    (groups : list (cuda_array_ref_group M)) leader rep idx :
  leader_inv n leader rep -> length leader = n ->
  (forall k, (k < n)%nat -> refs (group_at groups k) = [idx k]) ->
  (extract_array_groups array_refs n groups leader).2 =
  imap (extracted_group n groups rep idx) (filter (fun i => rep i = i) (seq 0 n)).
Proof.
  intros HI Hlen Hrefs. unfold extract_array_groups.
  destruct (leader_compress leader rep n HI Hlen) as [Hlen' Hld].
  set (leader' := fold_left _ (seq 2 (n - 2)) leader) in *.
  match goal with |- context [fold_left ?g (seq 0 n) _] => set (f := g) end.
  set (P := fun i0 (st : extraction M) =>
            ex_array_groups st =
              imap (extracted_group n groups rep idx)
                (filter (fun i => rep i = i) (seq 0 i0)) /\
            ex_j st = Z.of_nat (length (ex_array_groups st))).
  assert (Hfold : P n (fold_left f (seq 0 n) (mk_extraction array_refs [] 0))).
  { apply (fold_left_seq_inv P); [done|]. unfold P.
    intros i st Hi [Hgroups Hj]. unfold f.
    rewrite seq_S, filter_app. simpl. rewrite filter_cons, filter_nil.
    rewrite (Hld i Hi).
    destruct (decide (rep i <> i)) as [Hne|Heq].
    - rewrite decide_False by done. by rewrite app_nil_r.
    - apply dec_stable in Heq. rewrite decide_True by done.
      match goal with |- context [fold_left ?g (seq i (n - i)) ?s] =>
        pose proof (extract_new_refs groups leader' i (ex_j st) (seq i (n - i))
                      [] (ex_array_refs st)) as Hnew;
        destruct (fold_left g (seq i (n - i)) s) as [new_refs ar] end.
      simpl in Hnew. simpl. split.
      + rewrite imap_app. simpl. rewrite <- Hgroups. f_equal.
        unfold extracted_group. rewrite Nat.add_0_r.
        rewrite Hj, Hgroups, length_imap. do 2 f_equal. rewrite Hnew. simpl.
        rewrite (flat_map_group_refs groups leader' rep idx n i i (n - i)); [|done|done|lia].
        rewrite (filter_seq_below rep i n); [done| |lia].
        intros k Hk. by apply (leader_inv_le n leader rep).
      + rewrite length_app, Hj. simpl. lia. }
  destruct Hfold as [Hgroups _]. done.
Qed.

Lemma group_array_references_extracted `{IslOps M} n_index
    (array_refs : list (cuda_stmt_access M)) sched leader0 :
  length leader0 = length (populate_array_references array_refs sched) ->
  let n := length (active_refs array_refs sched) in
  let idx := fun k => default 0%nat (active_refs array_refs sched !! k) in
  exists rep groups3,
    (forall k, (k < n)%nat -> (rep k <= k)%nat /\ rep (rep k) = rep k) /\
    (group_array_references n_index array_refs sched leader0).2 =
      imap (extracted_group n groups3 rep idx) (filter (fun i => rep i = i) (seq 0 n)) /\
    array_n_group n_index array_refs sched leader0 =
      Z.of_nat (length (filter (fun i => rep i = i) (seq 0 n))) /\
    forall r, (r < n)%nat -> rep r = r ->
      n_ref (group_at groups3 r) =
      Z.of_nat (length (filter (fun k => rep k = r) (seq 0 n))).
Proof.
  intros Hlen n idx. unfold group_array_references, array_n_group.
  rewrite populate_array_references_spec in *.
  set (groups0 := map (singleton_group array_refs sched) (active_refs array_refs sched))
    in *.
  assert (Hn : length groups0 = n) by (unfold groups0; by rewrite length_map).
  rewrite Hn in *.
  assert (Hg0 : forall k, (k < n)%nat -> refs (group_at groups0 k) = [idx k]).
  { intros k Hk. destruct (lookup_lt_is_Some_2 (active_refs array_refs sched) k)
      as [i Hi]; [done|].
    assert (idx k = i) as -> by (unfold idx; by rewrite Hi).
    destruct (active_refs_lookup _ _ _ _ Hi) as (_ & acc & Ha & _).
    unfold group_at, groups0. rewrite list_lookup_fmap, Hi. simpl.
    by rewrite (singleton_group_Some _ _ _ _ Ha). }
  destruct (group_overlapping_writes_counts n (fun k => refs (group_at groups0 k))
              groups0 leader0 Hn Hlen ltac:(done)) as [rep1 H1].
  destruct (group_overlapping_writes n groups0 leader0) as [[groups1 leader1] n_group1].
  apply (shared_bound_loop_counts n _ n_index n) in H1.
  set (groups2 := fold_left _ (seq 0 n) groups1) in *.
  destruct (group_common_shared_memory_tile_counts n _ n_index groups2 leader1
              n_group1 rep1 H1) as [rep H3].
  destruct (group_common_shared_memory_tile n_index n groups2 leader1 n_group1)
    as [[groups3 leader3] n_group3].
  destruct H3 as (Hlg & Hll & HI & Hng & Hnref & Hrefs).
  exists rep, groups3. split_and!.
  - intros k Hk. destruct (HI k Hk) as (_ & ? & _ & _ & ?). done.
  - apply extract_array_groups_groups; [done|done|].
    intros k Hk. rewrite Hrefs. by apply Hg0.
  - rewrite Hng. unfold n_roots. by rewrite (count_upto_filter (fun k => rep k = k)).
  - intros r Hr Hrr. rewrite (Hnref r Hr Hrr). unfold members.
    by rewrite (count_upto_filter (fun k => rep k = r)).
Qed.

Lemma group_array_references_counts `{IslOps M} n_index
    (array_refs : list (cuda_stmt_access M)) sched leader0 :
  length leader0 = length (populate_array_references array_refs sched) ->
  let groups := (group_array_references n_index array_refs sched leader0).2 in
  array_n_group n_index array_refs sched leader0 = Z.of_nat (length groups) /\
  forall k g, groups !! k = Some g ->
    nr g = Z.of_nat k /\ n_ref g = Z.of_nat (length (refs g)) /\ (1 <= length (refs g))%nat.
Proof.
  intros Hlen groups.
  destruct (group_array_references_extracted n_index array_refs sched leader0 Hlen)
    as (rep & groups3 & Hrep & Hgroups & Hng & Hnref).
  unfold groups. rewrite Hgroups, Hng, length_imap. split; [done|].
  intros k g Hg. rewrite list_lookup_imap in Hg.
  destruct (filter _ _ !! k) as [r|] eqn:Hr; [|done]. injection Hg as <-.
  apply list_elem_of_lookup_2 in Hr. apply list_elem_of_filter in Hr as [Hrr Hin].
  apply elem_of_seq in Hin. unfold extracted_group. simpl. split; [done|].
  rewrite length_map. split; [apply Hnref; [lia|done]|].
  assert (Hel : r ∈ filter (fun k0 => rep k0 = r)
                  (seq 0 (length (active_refs array_refs sched)))).
  { apply list_elem_of_filter. split; [done|]. apply elem_of_seq. lia. }
  apply list_elem_of_lookup_1 in Hel as [pos Hpos]. apply lookup_lt_Some in Hpos. lia.
Qed.

(** X20 (group_array_references, group_overlapping_writes,
    group_common_shared_memory_tile, extract_array_groups): the counters
    kept while grouping are exact.  [n_group] is the number of groups that
    [extract_array_groups] stores in the array allocated for [n_group]
    entries; the group at position [k] has number [k]; and the [n_ref] of
    a group, for which its array [refs] is allocated, is the number of
    references written to it, which is at least one. *)
Theorem group_counters_exact `{IslOps M} n_index
    (array_refs : list (cuda_stmt_access M)) sched leader0 :
  length leader0 = length (populate_array_references array_refs sched) ->
  let groups := (group_array_references n_index array_refs sched leader0).2 in
  array_n_group n_index array_refs sched leader0 = Z.of_nat (length groups) /\
  forall k g, groups !! k = Some g ->
    nr g = Z.of_nat k /\ n_ref g = Z.of_nat (length (refs g)) /\ (1 <= length (refs g))%nat.
Proof. apply group_array_references_counts. Qed.

Lemma group_counters_exact_witness :
  let groups := (group_array_references 1 disjoint_refs reuse_tile_sched [0; 0]%nat).2 in
  array_n_group 1 disjoint_refs reuse_tile_sched [0; 0]%nat = Z.of_nat (length groups) /\
  forall k g, groups !! k = Some g ->
    nr g = Z.of_nat k /\ n_ref g = Z.of_nat (length (refs g)) /\ (1 <= length (refs g))%nat.
Proof.
  apply (group_counters_exact 1 disjoint_refs reuse_tile_sched [0; 0]%nat).
  reflexivity.
Defined.

Lemma flat_map_nil_const {A B} (l : list A) : flat_map (fun _ => @nil B) l = [].
Proof. by induction l. Qed.

Lemma flat_map_app_perm {A B} (f g : A -> list B) (l : list A) :
  flat_map (fun x => f x ++ g x) l ≡ₚ flat_map f l ++ flat_map g l.
Proof.
  induction l as [|x l IH]; [done|]. simpl. rewrite IH.
  rewrite <- !app_assoc. apply Permutation_app_head.
  rewrite !app_assoc. apply Permutation_app_tail. apply Permutation_app_comm.
Qed.

Lemma flat_map_absent (rep : nat -> nat) (k : nat) (roots : list nat) :
  rep k ∉ roots ->
  flat_map (fun r => if decide (rep k = r) then [k] else []) roots = [].
Proof.
  induction roots as [|r roots IH]; intros Hn; [done|]. simpl.
  rewrite decide_False by (intros E; apply Hn; rewrite E; left).
  apply IH. intros Hin. apply Hn. by right.
Qed.

Lemma flat_map_single (rep : nat -> nat) (k : nat) (roots : list nat) :
  NoDup roots -> rep k ∈ roots ->
  flat_map (fun r => if decide (rep k = r) then [k] else []) roots = [k].
Proof.
  induction 1 as [|r roots Hr Hnd IH]; intros Hin; [by apply elem_of_nil in Hin|].
  simpl. destruct (decide (rep k = r)) as [E|E].
  - rewrite flat_map_absent by (by rewrite E). done.
  - simpl. apply IH. apply elem_of_cons in Hin as [Hin|Hin]; [done|done].
Qed.

Lemma group_by_permutation (rep : nat -> nat) (roots L : list nat) :
  NoDup roots -> (forall k, k ∈ L -> rep k ∈ roots) ->
  flat_map (fun r => filter (fun k => rep k = r) L) roots ≡ₚ L.
Proof.
  intros Hnd. induction L as [|k L IH]; intros Hin.
  - change (flat_map (fun _ => @nil nat) roots ≡ₚ []). by rewrite flat_map_nil_const.
  - assert (E : flat_map (fun r => filter (fun k0 => rep k0 = r) (k :: L)) roots =
                flat_map (fun r => (if decide (rep k = r) then [k] else []) ++
                                   filter (fun k0 => rep k0 = r) L) roots).
    { apply flat_map_ext. intros r. rewrite filter_cons.
      by destruct (decide (rep k = r)). }
    rewrite E, flat_map_app_perm. rewrite flat_map_single; [|done|apply Hin; left].
    simpl. apply Permutation_cons; [done|]. apply IH. intros k' Hk'. apply Hin. by right.
Qed.

(** X21 (group_array_references, extract_array_groups): the groups
    partition the references that are active in the kernel: listing the
    references of all groups gives every active reference exactly once. *)
Theorem groups_partition_references `{IslOps M} n_index
    (array_refs : list (cuda_stmt_access M)) sched leader0 :
  length leader0 = length (populate_array_references array_refs sched) ->
  concat (map refs (group_array_references n_index array_refs sched leader0).2)
    ≡ₚ active_refs array_refs sched.
Proof.
  intros Hlen.
  destruct (group_array_references_extracted n_index array_refs sched leader0 Hlen)
    as (rep & groups3 & Hrep & Hgroups & _ & _).
  rewrite Hgroups.
  set (n := length (active_refs array_refs sched)) in *.
  set (idx := fun k => default 0%nat (active_refs array_refs sched !! k)) in *.
  set (roots := filter (fun i => rep i = i) (seq 0 n)).
  assert (Himap : forall (l : list nat) (F : nat -> nat -> cuda_array_ref_group M)
              (g : nat -> list nat),
            (forall pos i, refs (F pos i) = g i) ->
            concat (map refs (imap F l)) = flat_map g l).
  { intros l. induction l as [|x l IH]; intros F g HF; [done|].
    simpl. rewrite HF. f_equal. apply (IH (fun pos => F (S pos))). intros. apply HF. }
  rewrite (Himap roots _ (fun i => map idx (filter (fun k => rep k = i) (seq 0 n))))
    by done.
  assert (Hmap : forall l, flat_map (fun i => map idx (filter (fun k => rep k = i) (seq 0 n))) l
                 = map idx (flat_map (fun i => filter (fun k => rep k = i) (seq 0 n)) l)).
  { intros l. induction l as [|x l IH]; [done|]. simpl. by rewrite map_app, IH. }
  rewrite Hmap.
  assert (Hactive : active_refs array_refs sched = map idx (seq 0 n)).
  { apply list_eq. intros k. rewrite list_lookup_fmap.
    destruct (decide (k < n)%nat) as [Hk|Hk].
    - rewrite lookup_seq_lt by done. simpl. unfold idx.
      destruct (lookup_lt_is_Some_2 (active_refs array_refs sched) k Hk) as [i Hi].
      by rewrite Hi.
    - rewrite lookup_seq_ge by lia. simpl. apply lookup_ge_None_2. unfold n in Hk. lia. }
  transitivity (map idx (seq 0 n)); [|by rewrite <- Hactive].
  apply Permutation_map. apply group_by_permutation.
  - apply NoDup_filter, NoDup_seq.
  - intros k Hk. apply elem_of_seq in Hk. destruct (Hrep k ltac:(lia)) as [Hle Hidem].
    apply list_elem_of_filter. split; [done|]. apply elem_of_seq. lia.
Qed.

Lemma groups_partition_references_witness :
  concat (map refs (group_array_references 1 sample_refs sample_sched [0; 0; 0]%nat).2)
    ≡ₚ active_refs sample_refs sample_sched.
Proof.
  apply (groups_partition_references 1 sample_refs sample_sched [0; 0; 0]%nat).
  reflexivity.
Defined.

Lemma check_private_group_access_nr `{IslOps M} (gen : cuda_gen M) n_index
    (array_refs : list (cuda_stmt_access M)) (group : cuda_array_ref_group M) :
  nr (check_private_group_access gen n_index array_refs group) = nr group.
Proof.
  unfold check_private_group_access.
  destruct (isl_map_is_injective _).
  - destruct (shared_bound group); [|done]. by destruct (access_is_coalesced _ _).
  - destruct (negb _); [done|].
    by destruct (can_tile_for_shared_memory _ _ _) as [bounds ok].
Qed.

(** X22 (print_array_name, group_array_references, compute_private_size):
    two different groups of an array never get the same name for their
    local copies: the names printed for two groups of the array differ, if
    one of the groups has a private or shared tile. *)
Theorem local_names_distinct `{IslOps M} (gen : cuda_gen M) n_index
    (array_refs : list (cuda_stmt_access M)) sched leader0 (array_name : string)
    k1 k2 g1 g2 :
  length leader0 = length (populate_array_references array_refs sched) ->
  let grouped := group_array_references n_index array_refs sched leader0 in
  let groups := compute_private_size gen n_index grouped.1 grouped.2 in
  let n_group := array_n_group n_index array_refs sched leader0 in
  groups !! k1 = Some g1 -> groups !! k2 = Some g2 -> k1 <> k2 ->
  group_tier g1 <> tier_global ->
  print_array_name array_name n_group g1 <> print_array_name array_name n_group g2.
Proof.
  intros Hlen grouped groups n_group Hg1 Hg2 Hne Htier Hname. apply Hne.
  destruct (group_array_references_counts n_index array_refs sched leader0 Hlen)
    as [Hng Hnr].
  fold grouped in Hng, Hnr. fold n_group in Hng.
  unfold groups, compute_private_size in Hg1, Hg2.
  rewrite list_lookup_fmap in Hg1, Hg2.
  destruct (grouped.2 !! k1) as [g1'|] eqn:E1; [|done].
  destruct (grouped.2 !! k2) as [g2'|] eqn:E2; [|done].
  injection Hg1 as <-. injection Hg2 as <-.
  destruct (Hnr k1 g1' E1) as (Hnr1 & _). destruct (Hnr k2 g2' E2) as (Hnr2 & _).
  apply lookup_lt_Some in E1. apply lookup_lt_Some in E2.
  destruct (print_array_name_spec _ _ _ _ Hname) as [_ Hsame].
  destruct (decide (n_group > 1)) as [Hn|Hn].
  - specialize (Hsame Htier Hn). rewrite !check_private_group_access_nr in Hsame. lia.
  - lia.
Qed.

Lemma local_names_distinct_witness :
  let grouped := group_array_references 1 disjoint_refs reuse_tile_sched [0; 0]%nat in
  let groups := compute_private_size reuse_gen 1 grouped.1 grouped.2 in
  print_array_name "A" (array_n_group 1 disjoint_refs reuse_tile_sched [0; 0]%nat)
    (group_at groups 0) <>
  print_array_name "A" (array_n_group 1 disjoint_refs reuse_tile_sched [0; 0]%nat)
    (group_at groups 1).
Proof.
  apply (local_names_distinct reuse_gen 1 disjoint_refs reuse_tile_sched [0; 0]%nat "A"
           0 1).
  - reflexivity.
  - reflexivity.
  - reflexivity.
  - lia.
  - vm_compute. discriminate.
Defined.

(** ** Statement bodies *)

Lemma substring_app (s : string) a b :
  (a + b <= String.length s)%nat ->
  String.substring 0 a s +:+ String.substring a b s = String.substring 0 (a + b) s.
Proof.
  revert s. induction a as [|a IH]; intros s Hlen.
  - simpl. by destruct s.
  - destruct s as [|c s]; [simpl in Hlen; lia|].
    change (String c (String.substring 0 a s +:+ String.substring a b s) =
            String c (String.substring 0 (a + b) s)).
    rewrite IH; [done|]. simpl in Hlen. lia.
Qed.

Lemma substring_full (s : string) : String.substring 0 (String.length s) s = s.
Proof.
  induction s as [|c s IH]; [done|].
  change (String c (String.substring 0 (String.length s) s) = String c s). by rewrite IH.
Qed.

Lemma print_stmt_body_fold {M} (print_access : cuda_stmt_access M -> string) text
    (accesses : list (cuda_stmt_access_text M)) last :
  int_range (Z.of_nat (String.length text)) ->
  0 <= last -> placed_from text last accesses ->
  (forall a, a ∈ accesses -> print_access (text_access a) = access_text text a) ->
  exists last',
    fold_left (fun st access =>
      '(out, last) ← st;
      if decide (0 <= last <= text_offset access /\
                 text_offset access <= Z.of_nat (String.length text)) then
        let out := out +:+ String.substring (Z.to_nat last)
                             (Z.to_nat (text_offset access - last)) text in
        if decide (int_range (text_offset access + text_len access)) then
          let last := text_offset access + text_len access in
          Some (out +:+ print_access (text_access access), last)
        else None
      else None) accesses (Some (String.substring 0 (Z.to_nat last) text, last)) =
    Some (String.substring 0 (Z.to_nat last') text, last') /\
    0 <= last' <= Z.of_nat (String.length text).
Proof.
  intros Hint. revert last.
  induction accesses as [|a accesses IH]; intros last Hlast Hplaced Hprint.
  - exists last. simpl in *. split; [done|lia].
  - destruct Hplaced as (Hoff & Hlen & Hend & Hrest).
    cbn [fold_left mbind option_bind]. rewrite decide_True by lia.
    rewrite decide_True by (unfold int_range in *; lia). cbv zeta.
    rewrite (Hprint a) by left. unfold access_text.
    replace (String.substring 0 (Z.to_nat last) text +:+
             String.substring (Z.to_nat last) (Z.to_nat (text_offset a - last)) text)
      with (String.substring 0 (Z.to_nat (text_offset a)) text).
    2: { rewrite substring_app by lia. f_equal. lia. }
    rewrite substring_app by lia.
    replace (Z.to_nat (text_offset a) + Z.to_nat (text_len a))%nat
      with (Z.to_nat (text_offset a + text_len a)) by lia.
    apply IH; [lia|done|]. intros a' Ha'. apply Hprint. by right.
Qed.

(** X23 (print_stmt_body): splicing loses nothing of the statement.  For
    accesses that follow one another in the text (of a length that is an
    [int]) without overlap, if every
    access is printed as the text it takes up, [print_stmt_body] writes
    the text of the statement as it is, followed by a newline. *)
Theorem print_stmt_body_lossless {M} (print_access : cuda_stmt_access M -> string)
    text (accesses : list (cuda_stmt_access_text M)) :
  int_range (Z.of_nat (String.length text)) ->
  placed_from text 0 accesses ->
  (forall a, a ∈ accesses -> print_access (text_access a) = access_text text a) ->
  print_stmt_body print_access text accesses =
  Some (text +:+ String (Ascii.ascii_of_nat 10) EmptyString).
Proof.
  intros Hint Hplaced Hprint. unfold print_stmt_body.
  destruct (print_stmt_body_fold print_access text accesses 0 Hint ltac:(lia) Hplaced
              Hprint)
    as (last & Hfold & Hlast).
  change (String.substring 0 (Z.to_nat 0) text) with (String.substring 0 0 text) in Hfold.
  replace (String.substring 0 0 text) with EmptyString in Hfold by (by destruct text).
  match goal with |- mbind _ ?F = _ =>
    replace F with (Some (String.substring 0 (Z.to_nat last) text, last))
      by (symmetry; exact Hfold) end.
  cbn [mbind option_bind]. rewrite decide_True by done.
  rewrite <- string_app_assoc, substring_app by lia.
  replace (Z.to_nat last + (String.length text - Z.to_nat last))%nat
    with (String.length text) by lia.
  by rewrite substring_full.
Qed.

Lemma print_stmt_body_lossless_witness :
  print_stmt_body (M := unit) (fun a => if ref_write a then "A[i]" else "B[i + 1]")
    "A[i] = B[i + 1] * 2;"
    [mk_access_text (mk_access false true tt 0) 0 4;
     mk_access_text (mk_access true false tt 0) 7 8] =
  Some ("A[i] = B[i + 1] * 2;" +:+ String (Ascii.ascii_of_nat 10) EmptyString).
Proof.
  apply (print_stmt_body_lossless (M := unit)).
  - by vm_compute.
  - simpl. lia.
  - intros a Ha. apply elem_of_cons in Ha as [->|Ha]; [reflexivity|].
    apply elem_of_cons in Ha as [->|Ha]; [reflexivity|]. by apply elem_of_nil in Ha.
Defined.

(** ** Outermost tilable bands *)

Lemma separate_bands_steps {M} (extend_range : M -> Z -> Z -> Z -> M)
    (info : list (band_info M)) i :
  (i <= length info)%nat ->
  Forall (fun cur => int_range (band_tile_first cur + 1)) info ->
  exists st,
    for_range i (fun i '(info, j) =>
      cur ← info !! i;
      let l := band_tile_first cur in
      j ← (if decide (i <> 0%nat) then
             prev ← info !! (i - 1)%nat;
             if decide (band_tile_len cur <> band_tile_len prev \/
                        band_n_parallel cur <> band_n_parallel prev)
             then Some (j + 1) else Some j
           else Some j);
      if decide (int_range (l + 1)) then
        info ← store_at info i
          (mk_band_info (l + 1) (band_tile_len cur) (band_n_parallel cur)
             (extend_range (band_prefix cur) l (l + 1) j));
        Some (info, j)
      else None) (Some (info, 0)) = Some (st, band_class info (i - 1)) /\
    length st = length info /\
    forall k, st !! k =
      if decide (k < i)%nat
      then (fun cur => separated extend_range cur (band_class info k)) <$> info !! k
      else info !! k.
Proof.
  induction i as [|i IH]; intros Hi Hint.
  - exists info. split; [done|]. split; [done|]. intros k. done.
  - destruct (IH ltac:(lia) Hint) as (st & Hst & Hlen & Hlook).
    unfold for_range in *. rewrite seq_S, fold_left_app. cbn [fold_left].
    change (0 + i)%nat with i. rewrite Hst. cbn [mbind option_bind].
    destruct (lookup_lt_is_Some_2 info i ltac:(lia)) as [cur Hcur].
    assert (Hsti : st !! i = Some cur) by (rewrite Hlook; by rewrite decide_False by lia).
    rewrite Hsti. cbn [mbind option_bind].
    assert (Hj : (if decide (i <> 0%nat) then
                    prev ← st !! (i - 1)%nat;
                    if decide (band_tile_len cur <> band_tile_len prev \/
                               band_n_parallel cur <> band_n_parallel prev)
                    then Some (band_class info (i - 1) + 1)
                    else Some (band_class info (i - 1))
                  else Some (band_class info (i - 1))) = Some (band_class info i)).
    { destruct (decide (i <> 0%nat)) as [Hne|He].
      - destruct i as [|k]; [done|]. replace (S k - 1)%nat with k by lia.
        destruct (lookup_lt_is_Some_2 info k ltac:(lia)) as [prev Hprev].
        rewrite Hlook. rewrite decide_True by lia. rewrite Hprev.
        cbn [fmap option_fmap option_map mbind option_bind].
        cbn [band_class]. rewrite Hprev, Hcur. unfold separated. simpl.
        destruct (decide (same_tiling cur prev)) as [[H1 H2]|Hn].
        + rewrite decide_False by lia. done.
        + rewrite decide_True; [done|]. unfold same_tiling in Hn.
          destruct (decide (band_tile_len cur = band_tile_len prev)); [|by left].
          right. intros E. apply Hn. done.
      - apply dec_stable in He. subst i. done. }
    rewrite Hj. cbn [mbind option_bind].
    rewrite (decide_True (P := int_range _)) by (by eapply Forall_lookup_1 in Hint).
    unfold store_at.
    rewrite decide_True by lia. cbn [mbind option_bind].
    eexists. split; [replace (S i - 1)%nat with i by lia; reflexivity|].
    split; [by rewrite length_insert|]. intros k.
    destruct (decide (k = i)) as [->|Hne].
    + rewrite list_lookup_insert_eq by lia. rewrite decide_True by lia.
      rewrite Hcur. done.
    + rewrite list_lookup_insert_ne by done. rewrite Hlook.
      destruct (decide (k < i)%nat), (decide (k < S i)%nat); try done; lia.
Qed.

Lemma band_class_step {M} (info : list (band_info M)) k :
  band_class info k <= band_class info (S k) <= band_class info k + 1.
Proof.
  cbn [band_class]. destruct (info !! k), (info !! S k); try lia.
  destruct (decide _); lia.
Qed.

Lemma band_class_mono {M} (info : list (band_info M)) a b :
  (a <= b)%nat -> band_class info a <= band_class info b.
Proof.
  induction 1 as [|b Hab IH]; [lia|]. pose proof (band_class_step info b). lia.
Qed.

Lemma band_class_same {M} (info : list (band_info M)) a b ia ib :
  (a <= b)%nat -> info !! a = Some ia -> info !! b = Some ib ->
  band_class info a = band_class info b -> same_tiling ia ib.
Proof.
  intros Hab Ha. revert ib. induction Hab as [|b Hab IH]; intros ib Hb Hc.
  - rewrite Ha in Hb. injection Hb as <-. done.
  - destruct (lookup_lt_is_Some_2 info b) as [ik Hk].
    { apply lookup_lt_Some in Hb. lia. }
    pose proof (band_class_mono info a b Hab) as Hmono.
    pose proof (band_class_step info b) as Hstep.
    assert (Hcb : band_class info a = band_class info b) by lia.
    assert (Hsb : band_class info (S b) = band_class info b) by lia.
    cbn [band_class] in Hsb. rewrite Hk, Hb in Hsb.
    destruct (decide (same_tiling ib ik)) as [[H1 H2]|Hn]; [|lia].
    destruct (IH ik Hk Hcb) as [H3 H4]. split; congruence.
Qed.

Lemma sorted_bands_between {M} (info : list (band_info M)) a k b ia ik ib :
  sorted_bands info -> (a <= k <= b)%nat ->
  info !! a = Some ia -> info !! k = Some ik -> info !! b = Some ib ->
  same_tiling ia ib -> same_tiling ia ik.
Proof.
  intros Hsorted Hk Ha Hik Hb [H1 H2].
  destruct (Hsorted a k ia ik ltac:(lia) Ha Hik) as (c1 & Hc1 & Hle1).
  destruct (Hsorted k b ik ib ltac:(lia) Hik Hb) as (c2 & Hc2 & Hle2).
  unfold cmp_band in Hc1, Hc2. unfold same_tiling.
  repeat case_decide; simplify_eq; lia.
Qed.

Lemma same_band_class {M} (info : list (band_info M)) a b ia ib :
  sorted_bands info -> (a <= b)%nat -> info !! a = Some ia -> info !! b = Some ib ->
  same_tiling ia ib -> band_class info a = band_class info b.
Proof.
  intros Hsorted Hab Ha. revert ib. induction Hab as [|b Hab IH]; intros ib Hb Hsame.
  - done.
  - destruct (lookup_lt_is_Some_2 info b) as [ik Hk].
    { apply lookup_lt_Some in Hb. lia. }
    pose proof (sorted_bands_between info a b (S b) ia ik ib Hsorted ltac:(lia)
                  Ha Hk Hb Hsame) as Hak.
    rewrite (IH ik Hk Hak). cbn [band_class]. rewrite Hk, Hb.
    rewrite decide_True; [done|]. destruct Hsame, Hak. split; congruence.
Qed.

(** X24 (separate_bands, cmp_band): on a list of bands sorted by
    [cmp_band] (whose tile_first can be incremented), [separate_bands]
    extends the prefix schedule of every band
    by one coordinate, and two bands get the same value for this coordinate
    exactly when they have the same tile_len and the same n_parallel. *)
Theorem separate_bands_separates {M} (extend_range : M -> Z -> Z -> Z -> M)
    (info : list (band_info M)) n :
  (n <= length info)%nat -> sorted_bands info ->
  Forall (fun cur => int_range (band_tile_first cur + 1)) info ->
  exists info' (coordinate : nat -> Z),
    separate_bands extend_range info n = Some info' /\
    length info' = length info /\
    (forall i cur, (i < n)%nat -> info !! i = Some cur ->
       info' !! i = Some (separated extend_range cur (coordinate i))) /\
    (forall i, (n <= i)%nat -> info' !! i = info !! i) /\
    (forall a b ia ib, (a < n)%nat -> (b < n)%nat ->
       info !! a = Some ia -> info !! b = Some ib ->
       (coordinate a = coordinate b <-> same_tiling ia ib)).
Proof.
  intros Hn Hsorted Hint.
  destruct (separate_bands_steps extend_range info n Hn Hint) as (st & Hst & Hlen & Hlook).
  assert (Hsep : separate_bands extend_range info n = Some st).
  { unfold separate_bands.
    match goal with |- mbind _ ?F = _ =>
      replace F with (Some (st, band_class info (n - 1))) by (symmetry; exact Hst) end.
    done. }
  exists st, (band_class info).
  split; [done|]. split; [done|]. split; [|split].
  - intros i cur Hi Hcur. rewrite Hlook. rewrite decide_True by done. by rewrite Hcur.
  - intros i Hi. rewrite Hlook. by rewrite decide_False by lia.
  - intros a b ia ib _ _ Ha Hb. destruct (decide (a <= b)%nat) as [Hab|Hab].
    + split; [by apply (band_class_same info a b)|by apply same_band_class].
    + split.
      * intros Hc. symmetry in Hc.
        destruct (band_class_same info b a ib ia ltac:(lia) Hb Ha Hc). by split.
      * intros [H1 H2]. symmetry.
        apply (same_band_class info b a ib ia); [done|lia|done|done|by split].
Qed.

Lemma sample_bands_sorted : sorted_bands sample_bands.
Proof.
  intros a b info1 info2 Hab Ha Hb.
  destruct a as [|[|[|a]]]; destruct b as [|[|[|b]]]; try lia;
    simpl in Ha, Hb; try discriminate;
    injection Ha as <-; injection Hb as <-; vm_compute; eexists; (split; [reflexivity|]);
    intros Hc; discriminate Hc.
Qed.

Lemma separate_bands_separates_witness :
  exists info' (coordinate : nat -> Z),
    separate_bands (fun _ _ _ _ => tt) sample_bands 3 = Some info' /\
    length info' = length sample_bands /\
    (forall i cur, (i < 3)%nat -> sample_bands !! i = Some cur ->
       info' !! i = Some (separated (fun _ _ _ _ => tt) cur (coordinate i))) /\
    (forall i, (3 <= i)%nat -> info' !! i = sample_bands !! i) /\
    (forall a b ia ib, (a < 3)%nat -> (b < 3)%nat ->
       sample_bands !! a = Some ia -> sample_bands !! b = Some ib ->
       (coordinate a = coordinate b <-> same_tiling ia ib)).
Proof.
  apply (separate_bands_separates (fun _ _ _ _ => tt) sample_bands 3).
  - simpl. lia.
  - apply sample_bands_sorted.
  - repeat constructor; by vm_compute.
Defined.

(** ** Access relation of a group *)

Lemma group_access_relation_fold `{IslOps M} {Pt} (pts : M -> Pt -> Prop)
    (array_refs : list (cuda_stmt_access M)) (read write : bool) (l : list nat) acc0 p :
  (forall a b q, pts (isl_map_union a b) q <-> pts a q \/ pts b q) ->
  pts (fold_left (fun access r =>
         match array_refs !! r with
         | None => access
         | Some a =>
             if (read && ref_read a) || (write && ref_write a)
             then isl_map_union access (ref_access a)
             else access
         end) l acc0) p <->
  pts acc0 p \/
  exists k r a, l !! k = Some r /\ array_refs !! r = Some a /\
    (read && ref_read a) || (write && ref_write a) = true /\ pts (ref_access a) p.
Proof.
  intros Luni. revert acc0. induction l as [|r l IH]; intros acc0.
  - simpl. split; [by left|]. intros [?|(k & r & a & Hk & _)]; [done|].
    by rewrite lookup_nil in Hk.
  - cbn [fold_left]. rewrite IH. split.
    + intros [Hacc|(k & r' & a & Hk & Ha & Hsel & Hp)].
      * destruct (array_refs !! r) as [a|] eqn:Er; [|by left].
        destruct ((read && ref_read a) || (write && ref_write a)) eqn:Es; [|by left].
        apply Luni in Hacc as [Hacc|Hacc]; [by left|].
        right. exists 0%nat, r, a. done.
      * right. exists (S k), r', a. done.
    + intros [Hacc|(k & r' & a & Hk & Ha & Hsel & Hp)].
      * left. destruct (array_refs !! r) as [a|]; [|done].
        destruct ((read && ref_read a) || (write && ref_write a)); [|done].
        apply Luni. by left.
      * destruct k as [|k].
        -- simpl in Hk. injection Hk as ->. left. rewrite Ha, Hsel. apply Luni. by right.
        -- right. exists k, r', a. done.
Qed.

(** X25 (group_access_relation): the relation is the union of the access
    relations of the references of the group that read, if [read] is set,
    or write, if [write] is set, and of nothing else. *)
Theorem group_access_relation_union `{IslOps M} {Pt} (pts : M -> Pt -> Prop)
    (array_refs : list (cuda_stmt_access M)) (group : cuda_array_ref_group M)
    (read write : bool) p :
  relation_laws pts -> (forall q, ~ pts isl_union_map_empty q) ->
  pts (group_access_relation array_refs group read write) p <->
  exists k r a, Z.of_nat k < n_ref group /\ refs group !! k = Some r /\
    array_refs !! r = Some a /\
    (read && ref_read a) || (write && ref_write a) = true /\ pts (ref_access a) p.
Proof.
  intros (_ & Luni & _) Hempty. unfold group_access_relation.
  rewrite (group_access_relation_fold pts array_refs read write _ _ p Luni). split.
  - intros [Hp|(k & r & a & Hk & Ha & Hsel & Hp)]; [by apply Hempty in Hp|].
    apply lookup_take_Some in Hk as [Hk Hlt]. exists k, r, a. split; [lia|done].
  - intros (k & r & a & Hlt & Hk & Ha & Hsel & Hp). right. exists k, r, a.
    split; [|done]. apply lookup_take_Some. split; [done|lia].
Qed.

Lemma group_access_relation_union_witness :
  fin_pts (group_access_relation sample_refs
             (mk_group 0 None true None None 3 [0; 1; 2]%nat) false true) ([1], [1]) <->
  exists k r a, Z.of_nat k < n_ref (mk_group (M := fin_rel) 0 None true None None 3
                                      [0; 1; 2]%nat) /\
    refs (mk_group (M := fin_rel) 0 None true None None 3 [0; 1; 2]%nat) !! k = Some r /\
    sample_refs !! r = Some a /\
    (false && ref_read a) || (true && ref_write a) = true /\
    fin_pts (ref_access a) ([1], [1]).
Proof.
  apply (group_access_relation_union fin_pts sample_refs
           (mk_group 0 None true None None 3 [0; 1; 2]%nat) false true ([1], [1])).
  - apply fin_relation_laws.
  - intros q Hq. unfold fin_pts in Hq. simpl in Hq. by apply elem_of_nil in Hq.
Defined.

(** ** Schedule of the copy code *)

Lemma first_not_fixed_le `{IslInsertOps M} (sched : M) n_tile first :
  (first_not_fixed sched n_tile first <= first)%nat.
Proof.
  induction first as [|f IH]; [done|]. cbn [first_not_fixed].
  destruct (negb _); lia.
Qed.

Lemma fix_prefix `{IslOps M} `{!IslInsertOps M}
    (mpts : M -> list Z -> list Z -> list Z -> Prop) (m : M) n :
  insert_laws mpts ->
  isl_map_n_param (fold_left (fun sched i => isl_map_fix_si sched i 0) (seq 0 n) m) =
    isl_map_n_param m /\
  forall p x y,
    mpts (fold_left (fun sched i => isl_map_fix_si sched i 0) (seq 0 n) m) p x y <->
    mpts m p x y /\ forall i, (i < n)%nat -> coord y i = 0.
Proof.
  intros (_ & Lfix & _ & Lnp). induction n as [|n [IHn IHp]].
  - split; [done|]. intros p x y. simpl. split; [|tauto]. intros Hm. split; [done|]. lia.
  - rewrite seq_S, fold_left_app. simpl. split; [by rewrite Lnp|].
    intros p x y. rewrite Lfix, IHp. split.
    + intros [[Hm Hi] Hn]. split; [done|]. intros i Hlt.
      destruct (decide (i = n)) as [->|]; [done|]. apply Hi. lia.
    + intros [Hm Hi]. split; [split; [done|]|]; [intros i Hlt|]; apply Hi; lia.
Qed.

Lemma padded_schedule `{IslOps M} `{!IslInsertOps M}
    (mpts : M -> list Z -> list Z -> list Z -> Prop) (sched : M) n :
  insert_laws mpts ->
  let padded := fold_left (fun sched i => isl_map_fix_si sched i 0) (seq 0 n)
                  (isl_map_insert sched 0 n) in
  isl_map_n_param padded = isl_map_n_param sched /\
  forall p x y', mpts padded p x y' <->
    exists y, mpts sched p x y /\ y' = replicate n 0 ++ y.
Proof.
  intros HL. pose proof HL as (Lins & _ & Lnp & _).
  destruct (fix_prefix mpts (isl_map_insert sched 0 n) n HL) as [Hnp Hpts].
  split; [by rewrite Hnp, Lnp|]. intros p x y'. rewrite Hpts, Lins. split.
  - intros [(pre & y0 & -> & Hlen & Hm) Hz]. exists y0. split; [done|]. f_equal.
    apply list_eq. intros i. destruct (decide (i < n)%nat) as [Hi|Hi].
    + rewrite lookup_replicate_2 by done. specialize (Hz i Hi).
      rewrite coord_app_l in Hz by lia. unfold coord in Hz.
      destruct (lookup_lt_is_Some_2 pre i ltac:(lia)) as [v Hv]. rewrite Hv in Hz |- *.
      simpl in Hz. by rewrite Hz.
    + rewrite !lookup_ge_None_2; [done|rewrite length_replicate; lia|lia].
  - intros (y & Hm & ->). split.
    + exists (replicate n 0), y. by rewrite length_replicate.
    + intros i Hi. rewrite coord_app_l by (rewrite length_replicate; lia).
      unfold coord. by rewrite lookup_replicate_2.
Qed.

Lemma scaled_one (z : list Z) : scaled (fun _ => 1) z = z.
Proof.
  unfold scaled. apply list_eq. intros i. rewrite list_lookup_imap.
  destruct (z !! i) as [v|]; simpl; [f_equal; lia|done].
Qed.

Lemma access_schedule_spec `{IslOps M} `{IslSetOps U} `{!IslRangeOps M U}
    `{!IslInsertOps M}
    (mpts : M -> list Z -> list Z -> list Z -> Prop) (spts : U -> list Z -> list Z -> Prop)
    (options_scale_tile_loops options_wrap : bool) n_block block_dim nvar sched :
  map_laws mpts -> set_laws spts -> range_laws mpts spts -> insert_laws mpts ->
  (n_block <= length block_dim)%nat ->
  (forall k, (k < n_block)%nat -> 0 < coord block_dim k) ->
  exists first sched1,
    access_schedule options_scale_tile_loops options_wrap n_block block_dim nvar sched =
      Some sched1 /\
    (first + n_block <= nvar `max` n_block)%nat /\
    forall p x w, mpts sched1 p x w <->
      exists y, mpts sched p x y /\ length y = nvar /\
        w = scaled (copy_scale_factor options_scale_tile_loops options_wrap first n_block
                      block_dim)
              (band_image options_wrap first n_block block_dim
                 (replicate (n_block - nvar) 0 ++ y)) /\
        forall k, (k < n_block)%nat ->
          coord (replicate (n_block - nvar) 0 ++ y) (first + k) mod coord block_dim k =
          coord p (isl_map_n_param sched + k).
Proof.
  intros HM HS HR HI Hlb Hpb. pose proof HM as (Lapp & Lfbm & _).
  pose proof HR as (Lir & _).
  unfold access_schedule.
  set (padded := if decide (nvar < n_block)%nat then _ else (sched, nvar)).
  assert (Hpad : exists sched0,
            padded = (sched0, nvar `max` n_block)%nat /\
            isl_map_n_param sched0 = isl_map_n_param sched /\
            forall p x y', mpts sched0 p x y' /\ length y' = (nvar `max` n_block)%nat <->
              exists y, mpts sched p x y /\ length y = nvar /\
                y' = replicate (n_block - nvar) 0 ++ y).
  { unfold padded. destruct (decide (nvar < n_block)%nat) as [Hgt|Hle].
    - destruct (padded_schedule mpts sched (n_block - nvar) HI) as [Hnp Hpts].
      eexists. split; [f_equal; lia|]. split; [exact Hnp|].
      intros p x y'. rewrite Hpts. split.
      + intros [(y & Hm & ->) Hlen]. exists y. split; [done|]. split; [|done].
        rewrite length_app, length_replicate in Hlen. lia.
      + intros (y & Hm & Hlen & ->). split; [by exists y|].
        rewrite length_app, length_replicate. lia.
    - exists sched. split; [f_equal; lia|]. split; [done|].
      replace (n_block - nvar)%nat with 0%nat by lia. simpl.
      intros p x y'. split.
      + intros [Hm Hlen]. exists y'. split; [done|]. split; [lia|done].
      + intros (y & Hm & Hlen & ->). split; [done|lia]. }
  destruct Hpad as (sched0 & -> & Hnp & Hpts).
  set (len := (nvar `max` n_block)%nat) in *.
  set (first := first_not_fixed sched0 n_block (len - n_block)).
  assert (Hfirst : (first + n_block <= len)%nat).
  { pose proof (first_not_fixed_le sched0 n_block (len - n_block)) as Hle.
    fold first in Hle. unfold len in *. lia. }
  unfold isl_union_map_get_dim.
  destruct (band_tiling options_wrap (isl_map_n_param sched0) len first n_block
              block_dim Hfirst Hlb Hpb) as (bt & Hbt & Hnt & Hrt).
  rewrite Hbt. cbn [mbind option_bind].
  destruct (parametrization_spec spts (isl_map_n_param sched0) (len + n_block)
              (first + n_block) n_block HS) as (par & Hp & Hd & Hs); [lia|].
  rewrite Hp. cbn [mbind option_bind].
  destruct (scale_access_tile_loops_spec mpts options_scale_tile_loops options_wrap
              block_dim
              (isl_union_map_intersect_range
                 (isl_map_apply_range sched0 (isl_map_from_basic_map bt)) par)
              (len + n_block) first n_block HM ltac:(lia) Hlb)
    as (sched1 & Hsc & Hscale).
  exists first, sched1. split; [exact Hsc|]. split; [done|].
  assert (Hmid : forall p x z,
            mpts (isl_union_map_intersect_range
                    (isl_map_apply_range sched0 (isl_map_from_basic_map bt)) par) p x z <->
            exists y, mpts sched p x y /\ length y = nvar /\
              z = band_image options_wrap first n_block block_dim
                    (replicate (n_block - nvar) 0 ++ y) /\
              forall k, (k < n_block)%nat ->
                coord (replicate (n_block - nvar) 0 ++ y) (first + k) mod coord block_dim k =
                coord p (isl_map_n_param sched + k)).
  { intros p x z. rewrite Lir, Lapp, Hs. rewrite Hnp. split.
    - intros ((y' & Hy' & Hz) & Hlz & Hc). apply Lfbm, Hrt in Hz as [Hly ->].
      destruct (proj1 (Hpts p x y') (conj Hy' Hly)) as (y & Hm & Hlen & ->).
      exists y. split_and!; try done. intros k Hk.
      rewrite <- (band_image_rem options_wrap first n_block block_dim
                    (replicate (n_block - nvar) 0 ++ y) k) by lia.
      by apply Hc.
    - intros (y & Hm & Hlen & -> & Hc).
      destruct (proj2 (Hpts p x (replicate (n_block - nvar) 0 ++ y))) as [Hy' Hly];
        [by exists y|].
      split_and!.
      + eexists. split; [exact Hy'|]. apply Lfbm, Hrt. done.
      + rewrite band_image_length by lia. lia.
      + intros k Hk. rewrite band_image_rem by lia. by apply Hc. }
  intros p x w. rewrite Hscale. unfold copy_scale_factor.
  destruct (options_wrap || negb options_scale_tile_loops).
  - rewrite Hmid. split.
    + intros (y & Hm & Hlen & -> & Hc). exists y. by rewrite scaled_one.
    + intros (y & Hm & Hlen & Hw & Hc). exists y. by rewrite scaled_one in Hw.
  - split.
    + intros (z & Hz & Hlz & -> & _). apply Hmid in Hz as (y & Hm & Hlen & -> & Hc).
      by exists y.
    + intros (y & Hm & Hlen & -> & Hc). eexists. split; [apply Hmid; by exists y|].
      split; [|split; [done|]].
      * destruct (proj2 (Hpts p x (replicate (n_block - nvar) 0 ++ y))) as [_ Hly];
          [by exists y|].
        rewrite band_image_length by lia. lia.
      * intros i Hi. rewrite coord_scaled. 
        -- unfold block_scale_factor. case_decide; lia.
        -- destruct (proj2 (Hpts p x (replicate (n_block - nvar) 0 ++ y))) as [_ Hly];
             [by exists y|].
           rewrite band_image_length by lia. lia.
Qed.

(** X26 (access_schedule, scale_access_tile_loops): the schedule of the
    copy code tiles or wraps [n_block] consecutive coordinates of the
    (shifted) array piece over the threads, after padding a piece of fewer
    dimensions with zero coordinates in front: at parameter values [p] it
    holds the elements whose tiled coordinates, taken modulo the block
    sizes, are the thread identifiers [t], so that each element is copied
    by exactly that thread. *)
Theorem copy_thread_assignment `{IslOps M} `{IslSetOps U} `{!IslRangeOps M U}
    `{!IslInsertOps M}
    (mpts : M -> list Z -> list Z -> list Z -> Prop) (spts : U -> list Z -> list Z -> Prop)
    (options_scale_tile_loops options_wrap : bool) n_block block_dim nvar sched :
  map_laws mpts -> set_laws spts -> range_laws mpts spts -> insert_laws mpts ->
  (n_block <= length block_dim)%nat ->
  (forall k, (k < n_block)%nat -> 0 < coord block_dim k) ->
  exists first sched1,
    access_schedule options_scale_tile_loops options_wrap n_block block_dim nvar sched =
      Some sched1 /\
    (first + n_block <= nvar `max` n_block)%nat /\
    forall p x w, mpts sched1 p x w <->
      exists y, mpts sched p x y /\ length y = nvar /\
        w = scaled (copy_scale_factor options_scale_tile_loops options_wrap first n_block
                      block_dim)
              (band_image options_wrap first n_block block_dim
                 (replicate (n_block - nvar) 0 ++ y)) /\
        forall k, (k < n_block)%nat ->
          coord (replicate (n_block - nvar) 0 ++ y) (first + k) mod coord block_dim k =
          coord p (isl_map_n_param sched + k).
Proof. apply access_schedule_spec. Qed.

Section copy_thread_witness.
#[local] Existing Instance sym_set_ops.
#[local] Existing Instance sym_map_ops.
#[local] Existing Instance sym_range_ops.
#[local] Existing Instance sym_insert_ops.

Lemma sym_insert_laws : insert_laws sym_map_pts.
Proof. unfold insert_laws. simpl. split_and!; done. Qed.

Lemma copy_thread_assignment_witness :
  exists first sched1,
    access_schedule true true 3 [4; 8; 16] 2 (sample_schedule 2) = Some sched1 /\
    (first + 3 <= 2 `max` 3)%nat /\
    forall p x w, sym_map_pts sched1 p x w <->
      exists y, sym_map_pts (sample_schedule 2) p x y /\ length y = 2%nat /\
        w = scaled (copy_scale_factor true true first 3 [4; 8; 16])
              (band_image true first 3 [4; 8; 16] (replicate (3 - 2) 0 ++ y)) /\
        forall k, (k < 3)%nat ->
          coord (replicate (3 - 2) 0 ++ y) (first + k) mod coord [4; 8; 16] k =
          coord p (isl_map_n_param (sample_schedule 2) + k).
Proof.
  apply (copy_thread_assignment sym_map_pts sym_set_pts true true 3 [4; 8; 16] 2
           (sample_schedule 2)).
  - apply sym_map_laws.
  - apply sym_set_laws.
  - apply sym_range_laws.
  - apply sym_insert_laws.
  - simpl. lia.
  - intros k Hk. destruct k as [|[|[|k]]]; [by vm_compute..|lia].
Defined.

End copy_thread_witness.

